(** * Reliable Delivery Core of relay-daemon-v2

    A shallow embedding of the two reliability mechanisms of the relay:

    - [AppleScriptQueue]: the serialized command queue of
      [src/applescript/queue.js] (class [AppleScriptQueue]);
    - [RealtimeManager]: the push/pull failover manager of
      [src/supabase/realtime.js] (class [RealtimeManager]);
    - [PollingFallback]: the watermark poller of [src/supabase/polling.js],
      for comparison with the poll cycle of the manager;

    and of the code around them:

    - [Executor] and [AppleScript]: [src/applescript/executor.js] and the
      senders of [src/applescript/index.js], run through the queue;
    - [Outbound] and [Inbound]: [src/supabase/outbound.js] and
      [src/supabase/inbound.js];
    - [ErrorHandler]: [withRetry] and [withCircuitBreaker] of
      [src/utils/error-handler.js];
    - [Bootstrap], [Media] and [Threads]: the startup checks, the media
      download with its validator, and the thread synchronisation.

    What these modules take from Node, the file system, the shell and
    Supabase is a record of functions ([env]); within one call of a
    function an answer of the environment depends on the arguments only.
    Where the queue calls the executor again for a retry, each call has an
    environment and a clock of its own ([AppleScript.machine]).  A log line is
    kept with its level and its fixed text; the values interpolated into
    it are left out where no statement reads them.

    JavaScript runs the code of both classes on one thread; an [async]
    function is cut at its [await]s.  The queue is therefore modelled as a
    transition system whose events are the entry points of the class and
    the jobs of the event loop, the manager as state-passing functions in
    a state-and-exception monad. *)

From Stdlib Require Import String Ascii DecimalString List Arith ZArith Bool Lia
  Sorted Permutation.
Import ListNotations.

Set Implicit Arguments.

(* ================================================================== *)
(** * The AppleScript queue ([src/applescript/queue.js])               *)
(* ================================================================== *)

Module AppleScriptQueue.

(** What a task carries for the Executor: [enqueue] stores
    [scriptName, params], [enqueueInline] stores [inline: true, script]. *)
Inductive payload : Type :=
| Script (scriptName : string) (params : list (string * string))
| InlineScript (script : string).

(** A task object.  [handle] stands for the identity of the object and of
    the [resolve]/[reject] pair it holds, that is for the promise the
    caller of [enqueue] received. *)
Record task : Type := mkTask {
  handle : nat;
  body : payload;
  attempts : nat;
  maxAttempts : nat }.

(** How an invocation of [executeAppleScript]/[executeInlineAppleScript]
    ends: its promise is fulfilled with the script's output or rejected. *)
Inductive outcome : Type :=
| Fulfilled (result : string)
| Failed (error : string).

(** What the queue does to the outside world. *)
Inductive effect : Type :=
| Invoke (h : nat) (attempt : nat)     (* the Executor is called for task h *)
| Resolve (h : nat) (result : string)  (* task.resolve(result) *)
| Retry (h : nat) (attempt : nat)      (* "Retrying AppleScript ... (Attempt a/max)" *)
| Reject (h : nat) (error : string).   (* task.reject(error) *)

(** A callback handed to [this.mutex.then]: the promise it waits for, the
    task captured by the closure, and the promise [then] returned. *)
Definition reaction : Type := (nat * task * nat)%type.

(** The queue object ([queue], [processing], [mutex]) together with the
    part of the JavaScript run time the class relies on: which promises
    are settled, the callbacks registered on them, the callbacks suspended
    at [await execute...], the callbacks that have returned and whose
    promise is settled by a later microtask, and the clock. *)
Record state : Type := mkState {
  queue : list task;
  processing : bool;
  mutex : nat;
  settled : list nat;
  reactions : list reaction;
  running : list (task * nat);
  returned : list nat;
  next_handle : nat;
  next_promise : nat;
  now : Z;
  log : list (Z * effect) }.

(** [new AppleScriptQueue()]: [mutex = Promise.resolve()] is promise 0. *)
Definition init : state :=
  mkState [] false 0 [0] [] [] [] 0 1 0%Z [].

Definition emit (e : effect) (s : state) : state :=
  mkState (queue s) (processing s) (mutex s) (settled s) (reactions s)
          (running s) (returned s) (next_handle s) (next_promise s) (now s)
          (log s ++ [(now s, e)]).

(** [processQueue]: with an empty queue the worker goes idle; otherwise it
    takes the head and chains a callback for it on [this.mutex]. *)
Definition processQueue (s : state) : state :=
  match queue s with
  | [] =>
      mkState [] false (mutex s) (settled s) (reactions s) (running s)
              (returned s) (next_handle s) (next_promise s) (now s) (log s)
  | t :: rest =>
      mkState rest true (next_promise s) (settled s)
              (reactions s ++ [(mutex s, t, next_promise s)]) (running s)
              (returned s) (next_handle s) (S (next_promise s)) (now s) (log s)
  end.

Definition push (t : task) (s : state) : state :=
  mkState (queue s ++ [t]) (processing s) (mutex s) (settled s) (reactions s)
          (running s) (returned s) (S (next_handle s)) (next_promise s) (now s)
          (log s).

Definition unshift (t : task) (s : state) : state :=
  mkState (t :: queue s) (processing s) (mutex s) (settled s) (reactions s)
          (running s) (returned s) (next_handle s) (next_promise s) (now s)
          (log s).

(** [enqueue(scriptName, params)]; the result is the handle of the
    promise returned to the caller. *)
Definition enqueue (scriptName : string) (params : list (string * string))
    (s : state) : nat * state :=
  let s1 := push (mkTask (next_handle s) (Script scriptName params) 0 3) s in
  (next_handle s, if processing s1 then s1 else processQueue s1).

(** [enqueueInline(script)] *)
Definition enqueueInline (script : string) (s : state) : nat * state :=
  let s1 := push (mkTask (next_handle s) (InlineScript script) 0 3) s in
  (next_handle s, if processing s1 then s1 else processQueue s1).

(** [getQueueDepth()] returns [this.queue.length]. *)
Definition getQueueDepth (s : state) : nat * state :=
  (length (queue s), s).

Definition cancelled (reason : string) : string :=
  ("Task cancelled: " ++ reason)%string.

(** [clearQueue(reason = 'unknown')] *)
Definition clearQueue (reason : option string) (s : state) : state :=
  let why := match reason with Some r => r | None => "unknown"%string end in
  if 0 <? length (queue s) then
    let s1 := fold_left (fun acc t => emit (Reject (handle t) (cancelled why)) acc)
                        (queue s) s in
    mkState [] (processing s1) (mutex s1) (settled s1) (reactions s1)
            (running s1) (returned s1) (next_handle s1) (next_promise s1)
            (now s1) (log s1)
  else s.

(** The first registered callback whose awaited promise is settled. *)
Fixpoint take_ready (done : list nat) (rs : list reaction)
    : option (reaction * list reaction) :=
  match rs with
  | [] => None
  | (w, t, p) :: rest =>
      if existsb (Nat.eqb w) done then Some ((w, t, p), rest)
      else match take_ready done rest with
           | Some (r, rest') => Some (r, (w, t, p) :: rest')
           | None => None
           end
  end.

(** The callback of [processQueue] up to its [await]: it logs the attempt
    and calls the Executor. *)
Definition start_callback (s : state) : option state :=
  match take_ready (settled s) (reactions s) with
  | None => None
  | Some ((_, t, p), rest) =>
      Some (emit (Invoke (handle t) (attempts t + 1))
              (mkState (queue s) (processing s) (mutex s) (settled s) rest
                       (running s ++ [(t, p)]) (returned s) (next_handle s)
                       (next_promise s) (now s) (log s)))
  end.

Fixpoint take_running (h : nat) (l : list (task * nat))
    : option ((task * nat) * list (task * nat)) :=
  match l with
  | [] => None
  | (t, p) :: rest =>
      if Nat.eqb (handle t) h then Some ((t, p), rest)
      else match take_running h rest with
           | Some (x, rest') => Some (x, (t, p) :: rest')
           | None => None
           end
  end.

Definition bump (t : task) : task :=
  mkTask (handle t) (body t) (S (attempts t)) (maxAttempts t).

(** The [try]/[catch] of the callback once the Executor's promise is
    settled: resolve on success; on failure requeue at the front while
    [attempts < maxAttempts], else reject. *)
Definition settle_task (t : task) (o : outcome) (s : state) : state :=
  match o with
  | Fulfilled r => emit (Resolve (handle t) r) s
  | Failed e =>
      if attempts t <? maxAttempts t
      then unshift (bump t) (emit (Retry (handle t) (S (attempts t))) s)
      else emit (Reject (handle t) e) s
  end.

(** The rest of the callback after the [await]: the [try]/[catch], then
    [this.processQueue()], then the callback returns.  Nothing outside the
    [try] can throw (the logger is taken not to), so the [.catch] handler
    chained after the callback never runs. *)
Definition resume_callback (h : nat) (o : outcome) (s : state) : option state :=
  match take_running h (running s) with
  | None => None
  | Some ((t, p), rest) =>
      let s1 := mkState (queue s) (processing s) (mutex s) (settled s)
                        (reactions s) rest (returned s) (next_handle s)
                        (next_promise s) (now s) (log s) in
      let s2 := processQueue (settle_task t o s1) in
      Some (mkState (queue s2) (processing s2) (mutex s2) (settled s2)
                    (reactions s2) (running s2) (returned s2 ++ [p])
                    (next_handle s2) (next_promise s2) (now s2) (log s2))
  end.

(** The promise of a returned callback is settled. *)
Definition settle_promise (s : state) : option state :=
  match returned s with
  | [] => None
  | p :: rest =>
      Some (mkState (queue s) (processing s) (mutex s) (p :: settled s)
                    (reactions s) (running s) rest (next_handle s)
                    (next_promise s) (now s) (log s))
  end.

(** A microtask is waiting: a promise to settle or a callback to start.
    The event loop runs these before it lets time pass. *)
Definition microtask_pending (s : state) : bool :=
  match returned s, take_ready (settled s) (reactions s) with
  | [], None => false
  | _, _ => true
  end.

Definition elapse (d : Z) (s : state) : option state :=
  if (0 <? d)%Z && negb (microtask_pending s) then
    Some (mkState (queue s) (processing s) (mutex s) (settled s) (reactions s)
                  (running s) (returned s) (next_handle s) (next_promise s)
                  (now s + d)%Z (log s))
  else None.

(** What can happen to a queue: calls of its methods by any caller, and
    the jobs of the event loop. *)
Inductive event : Type :=
| Enqueue (scriptName : string) (params : list (string * string))
| EnqueueInline (script : string)
| ClearQueue (reason : option string)
| RunCallback
| ExecutorDone (h : nat) (o : outcome)
| SettlePromise
| Elapse (d : Z).

Definition step (s : state) (e : event) : option state :=
  match e with
  | Enqueue n ps => Some (snd (enqueue n ps s))
  | EnqueueInline sc => Some (snd (enqueueInline sc s))
  | ClearQueue r => Some (clearQueue r s)
  | RunCallback => start_callback s
  | ExecutorDone h o => resume_callback h o s
  | SettlePromise => settle_promise s
  | Elapse d => elapse d s
  end.

Fixpoint run (s : state) (es : list event) : option state :=
  match es with
  | [] => Some s
  | e :: es' => match step s e with
                | Some s' => run s' es'
                | None => None
                end
  end.

Definition reachable (s : state) : Prop := exists es, run init es = Some s.

Definition is_enqueue (e : event) : bool :=
  match e with
  | Enqueue _ _ | EnqueueInline _ => true
  | _ => false
  end.

(** What the callback reports for [t] when its invocation ends with [o]. *)
Definition verdict (t : task) (o : outcome) : effect :=
  match o with
  | Fulfilled r => Resolve (handle t) r
  | Failed e =>
      if attempts t <? maxAttempts t then Retry (handle t) (S (attempts t))
      else Reject (handle t) e
  end.

(** ** A worker run to quiescence

    [drain exec fuel s] lets the event loop run with no new call from
    outside: it settles promises and starts callbacks as soon as it can,
    and ends the invocation in progress with the outcome [exec] gives for
    the task in its current state. *)
Definition oracle : Type := task -> outcome.

Fixpoint drain (exec : oracle) (fuel : nat) (s : state) : state :=
  match fuel with
  | 0 => s
  | S fuel' =>
      match settle_promise s with
      | Some s' => drain exec fuel' s'
      | None =>
          match start_callback s with
          | Some s' => drain exec fuel' s'
          | None =>
              match running s with
              | (t, _) :: _ =>
                  match resume_callback (handle t) (exec t) s with
                  | Some s' => drain exec fuel' s'
                  | None => s
                  end
              | [] => s
              end
          end
      end
  end.

(** [enqueue] or [enqueueInline], by what the command carries. *)
Definition submit (b : payload) (s : state) : nat * state :=
  match b with
  | Script n ps => enqueue n ps s
  | InlineScript sc => enqueueInline sc s
  end.

Definition retried (t : task) (o : outcome) : bool :=
  match o with
  | Fulfilled _ => false
  | Failed _ => attempts t <? maxAttempts t
  end.

(** What the worker does with [t] until it is done with it, when the
    outcome of each invocation is given by [exec]. *)
Fixpoint attempts_from (exec : oracle) (t : task) (budget : nat) : list effect :=
  match budget with
  | 0 => []
  | S b =>
      Invoke (handle t) (attempts t + 1) :: verdict t (exec t) ::
      if retried t (exec t) then attempts_from exec (bump t) b else []
  end.

Definition task_effects (exec : oracle) (t : task) : list effect :=
  attempts_from exec t (S (maxAttempts t - attempts t)).

(** ** Reading the log *)

Definition effect_handle (e : effect) : nat :=
  match e with
  | Invoke h _ | Resolve h _ | Retry h _ | Reject h _ => h
  end.

(** The effects that concern the task with handle [h], oldest first. *)
Definition effects_of (h : nat) (l : list (Z * effect)) : list effect :=
  filter (fun e => effect_handle e =? h) (map snd l).

Definition is_invoke (e : effect) : bool :=
  match e with Invoke _ _ => true | _ => false end.

Definition invocations (h : nat) (l : list (Z * effect)) : nat :=
  length (filter is_invoke (effects_of h l)).

(** Reading the log from its start: [Some None] when no invocation of the
    Executor is open, [Some (Some h)] when the one for task [h] is, and
    [None] once the Executor has been called while an invocation was
    open.  An entry for the task of the open invocation closes it. *)
Definition scan_step (st : option (option nat)) (x : Z * effect)
    : option (option nat) :=
  match st with
  | None => None
  | Some None =>
      match snd x with
      | Invoke h _ => Some (Some h)
      | _ => Some None
      end
  | Some (Some h) =>
      match snd x with
      | Invoke _ _ => None
      | e => if effect_handle e =? h then Some None else Some (Some h)
      end
  end.

Definition open_invocation (l : list (Z * effect)) : option (option nat) :=
  fold_left scan_step l (Some None).

(** The task inside the Executor, by its handle. *)
Definition executing (s : state) : option nat :=
  match running s with
  | [] => None
  | (t, _) :: _ => Some (handle t)
  end.

(** The entries written after the first [n]. *)
Definition since (n : nat) (l : list (Z * effect)) : list (Z * effect) :=
  skipn n l.

(** The first call of the Executor in a piece of log: when, and for
    which task. *)
Fixpoint next_invoke (l : list (Z * effect)) : option (Z * nat) :=
  match l with
  | [] => None
  | (tm, Invoke h _) :: _ => Some (tm, h)
  | _ :: rest => next_invoke rest
  end.

(** For a retry announced in the log and the call of the Executor that
    follows it: the task retried, its attempt count, the task the
    Executor was called for, and the time between the two. *)
Record gap : Type := mkGap {
  gap_handle : nat;
  gap_attempts : nat;
  gap_next : nat;
  gap_delay : Z }.

Fixpoint retry_gaps (l : list (Z * effect)) : list gap :=
  match l with
  | [] => []
  | (tm, Retry h a) :: rest =>
      match next_invoke rest with
      | Some (tm', h') => mkGap h a h' (tm' - tm) :: retry_gaps rest
      | None => retry_gaps rest
      end
  | _ :: rest => retry_gaps rest
  end.

(** The delay the specification asks for before attempt [a + 1]:
    base times 2^(a-1), in milliseconds. *)
Definition backoff (base : Z) (a : nat) : Z :=
  (base * 2 ^ (Z.of_nat a - 1))%Z.

(** The retries announced after the last call of the Executor. *)
Fixpoint trailing_retries (l : list (Z * effect)) : list (Z * nat * nat) :=
  match l with
  | [] => []
  | (tm, Retry h a) :: rest =>
      match next_invoke rest with
      | Some _ => trailing_retries rest
      | None => (tm, h, a) :: trailing_retries rest
      end
  | _ :: rest => trailing_retries rest
  end.

(** An entry that is neither a call of the Executor nor a retry. *)
Definition quiet (x : Z * effect) : Prop :=
  match snd x with
  | Invoke _ _ | Retry _ _ => False
  | _ => True
  end.

(** ** Invariants of the reachable states *)

(** The callbacks chained on [this.mutex] form one of five shapes;
    [processing] tells whether a callback is registered or inside the
    Executor. *)
Inductive shape (s : state) : Prop :=
| Idle :
    reactions s = [] -> running s = [] -> returned s = [] ->
    In (mutex s) (settled s) -> processing s = false -> queue s = [] ->
    shape s
| Winding :
    reactions s = [] -> running s = [] -> returned s = [mutex s] ->
    ~ In (mutex s) (settled s) -> processing s = false -> queue s = [] ->
    shape s
| Waiting w t p :
    reactions s = [(w, t, p)] -> running s = [] -> returned s = [w] ->
    ~ In w (settled s) -> mutex s = p -> ~ In p (settled s) -> w <> p ->
    processing s = true ->
    shape s
| Ready w t p :
    reactions s = [(w, t, p)] -> running s = [] -> returned s = [] ->
    In w (settled s) -> mutex s = p -> ~ In p (settled s) ->
    processing s = true ->
    shape s
| Executing t p :
    reactions s = [] -> running s = [(t, p)] -> returned s = [] ->
    mutex s = p -> ~ In p (settled s) -> processing s = true ->
    shape s.

Definition promises_bounded (s : state) : Prop :=
  mutex s < next_promise s /\
  forall p, In p (settled s ++ returned s) -> p < next_promise s.

(** The tasks that have left [queue] and are not finished: captured by a
    registered callback or inside the Executor. *)
Definition live (s : state) : list task :=
  map (fun r : reaction => snd (fst r)) (reactions s) ++ map fst (running s).

Record tasks_ok (s : state) : Prop := {
  handles_sorted : StronglySorted lt (map handle (live s ++ queue s));
  handles_bounded : forall t, In t (live s ++ queue s) -> handle t < next_handle s;
  queue_fresh : forall t, In t (queue s) -> attempts t = 0 /\ maxAttempts t = 3;
  live_bounded : forall t, In t (live s) -> attempts t <= 3 /\ maxAttempts t = 3 }.

Definition gap_ok (g : gap) : Prop :=
  gap_next g = gap_handle g /\ gap_delay g = 0%Z.

Definition retry_is_next (s : state) : Prop :=
  match trailing_retries (log s) with
  | [] => True
  | [(tm, h, a)] =>
      now s = tm /\
      exists w t p, reactions s = [(w, t, p)] /\ handle t = h /\ attempts t = a
  | _ => False
  end.

Record log_ok (s : state) : Prop := {
  log_bounded : forall tm e, In (tm, e) (log s) -> effect_handle e < next_handle s;
  log_before_queue : forall tm h a t,
      In (tm, Invoke h a) (log s) -> In t (queue s) -> h < handle t;
  log_trailing : retry_is_next s;
  log_gaps : Forall gap_ok (retry_gaps (log s)) }.

Definition is_final (e : effect) : bool :=
  match e with
  | Resolve _ _ | Reject _ _ => true
  | _ => false
  end.

(** How often each task has been handed to the Executor: as often as it
    has failed, and once more while it is inside; a task that is not
    finished has no final entry; a handle is rejected after no call of
    the Executor (cancelled while pending) or after four, and no task is
    handed to the Executor more than four times. *)
Record counts_ok (s : state) : Prop := {
  count_reaction : forall w t p,
      In (w, t, p) (reactions s) -> invocations (handle t) (log s) = attempts t;
  count_running : forall t p,
      In (t, p) (running s) -> invocations (handle t) (log s) = S (attempts t);
  unfinished : forall t tm e,
      In t (live s ++ queue s) -> In (tm, e) (log s) ->
      effect_handle e = handle t -> is_final e = false;
  rejected : forall tm h e,
      In (tm, Reject h e) (log s) ->
      invocations h (log s) = 0 \/ invocations h (log s) = 4;
  resolved : forall tm h r,
      In (tm, Resolve h r) (log s) -> 1 <= invocations h (log s);
  invoked_at_most : forall h, invocations h (log s) <= 4 }.

Record inv (s : state) : Prop := {
  inv_shape : shape s;
  inv_promises : promises_bounded s;
  inv_tasks : tasks_ok s;
  inv_log : log_ok s }.

(** ** Settlement and order *)

(** How often the handle [h] has been resolved or rejected. *)
Definition settlements (h : nat) (l : list (Z * effect)) : nat :=
  length (filter is_final (effects_of h l)).

(** A resolve or reject, if there is one, is the last entry. *)
Fixpoint final_last (l : list effect) : bool :=
  match l with
  | [] => true
  | e :: rest =>
      if is_final e then match rest with [] => true | _ :: _ => false end
      else final_last rest
  end.

(** The tasks with handle [h] that the queue or a callback holds. *)
Definition held (h : nat) (s : state) : nat :=
  length (filter (fun t => handle t =? h) (live s ++ queue s)).

(** The handles of the tasks the Executor was called for, in order. *)
Definition invoked (l : list (Z * effect)) : list nat :=
  map effect_handle (filter is_invoke (map snd l)).

(** Every handle issued is either held, once, or settled, once; nothing
    is written for a handle after it is settled. *)
Record settle_ok (s : state) : Prop := {
  settle_balance : forall h,
      settlements h (log s) + held h s = if h <? next_handle s then 1 else 0;
  settle_last : forall h, final_last (effects_of h (log s)) = true }.

(** The Executor has been called for tasks in the order of their handles,
    and for none that comes after a task still held by a callback. *)
Record fifo_ok (s : state) : Prop := {
  fifo_sorted : StronglySorted le (invoked (log s));
  fifo_live : forall h t,
      In h (invoked (log s)) -> In t (live s) -> h <= handle t }.

End AppleScriptQueue.

(* ================================================================== *)
(** * The Realtime manager ([src/supabase/realtime.js])                *)
(* ================================================================== *)

Module RealtimeManager.

(** A row of [messages_out], with the columns the manager looks at. *)
Record message : Type := mkMessage {
  id : string;
  thread_id : string;
  created_at : Z;
  status : string }.

(** The consumer callback: [None] when the promise it returns is
    fulfilled, [Some err] when it throws or the promise is rejected. *)
Definition handler : Type := message -> option string.

(** The status the Supabase channel passes to the [subscribe] callback.
    The manager reacts to the first two only. *)
Inductive subscribe_status : Type :=
| SUBSCRIBED
| CHANNEL_ERROR
| TIMED_OUT
| CLOSED.

(** What [channel(...).on(...).subscribe(cb)] does during the call: it
    throws, or it returns the channel after calling [cb] with the given
    statuses (none, when the status arrives later). *)
Inductive subscribe_behaviour : Type :=
| SubscribeThrows (err : string)
| SubscribeReturns (during : list subscribe_status).

(** The fields of a [RealtimeManager]. *)
Record manager : Type := mkManager {
  subscription : option nat;
  pollingInterval : option nat;
  pollingFrequency : Z;
  isPolling : bool;
  isRealtimeConnected : bool;
  lastPollTime : option Z;
  messageHandler : option handler }.

(** What the manager does that can be seen from outside, in order. *)
Inductive obs : Type :=
| Stamped (t : Z)                   (* this.lastPollTime = new Date() *)
| Queried                           (* select ... eq('status','pending') *)
| Handled (m : message)             (* this.messageHandler(m) *)
| Logged (level msg : string).

(** The manager and what surrounds it: the clock, the interval timers
    that are set, the channels subscribed, the table [messages_out] and
    whether a query on it comes back with an error. *)
Record world : Type := mkWorld {
  self : manager;
  clock : Z;
  timers : list nat;
  next_timer : nat;
  channels : list nat;
  next_channel : nat;
  table : list message;
  query_error : option string;
  trace : list obs }.

(** [new RealtimeManager()] *)
Definition new_manager : manager :=
  mkManager None None 5000 false false None None.

Definition init : world :=
  mkWorld new_manager 0 [] 1 [] 1 [] None [].

(** ** State and exceptions *)

Inductive result (A : Type) : Type :=
| Ok (a : A)
| Throw (err : string).
Arguments Ok {A} a.
Arguments Throw {A} err.

Definition M (A : Type) : Type := world -> result A * world.

Definition ret {A : Type} (a : A) : M A := fun w => (Ok a, w).

Definition bind {A B : Type} (m : M A) (k : A -> M B) : M B :=
  fun w => match m w with
           | (Ok a, w') => k a w'
           | (Throw e, w') => (Throw e, w')
           end.

Definition throw {A : Type} (err : string) : M A := fun w => (Throw err, w).

(** [try { m } catch (error) { h error }]: what [m] did to the state
    before it threw stays done. *)
Definition try_catch {A : Type} (m : M A) (h : string -> M A) : M A :=
  fun w => match m w with
           | (Ok a, w') => (Ok a, w')
           | (Throw e, w') => h e w'
           end.

Notation "x <- m ;; k" := (bind m (fun x => k))
  (at level 61, m at next level, right associativity).
Notation "m ;;; k" := (bind m (fun _ => k))
  (at level 61, right associativity).

Definition get : M world := fun w => (Ok w, w).

Definition modify (f : manager -> manager) : M unit :=
  fun w => (Ok tt, mkWorld (f (self w)) (clock w) (timers w) (next_timer w)
                     (channels w) (next_channel w) (table w) (query_error w)
                     (trace w)).

Definition observe (o : obs) : M unit :=
  fun w => (Ok tt, mkWorld (self w) (clock w) (timers w) (next_timer w)
                     (channels w) (next_channel w) (table w) (query_error w)
                     (trace w ++ [o])).

Definition logger (level msg : string) : M unit := observe (Logged level msg).

(** [for (const x of l) { await f(x) }] *)
Fixpoint for_each {A : Type} (l : list A) (f : A -> M unit) : M unit :=
  match l with
  | [] => ret tt
  | a :: rest => f a ;;; for_each rest f
  end.

(** ** Timers and the table *)

(** [this.setInterval(cb, ms)]: the handle of a new timer, never 0. *)
Definition setInterval : M nat :=
  fun w => (Ok (next_timer w),
            mkWorld (self w) (clock w) (timers w ++ [next_timer w])
                    (S (next_timer w)) (channels w) (next_channel w)
                    (table w) (query_error w) (trace w)).

Definition clearInterval (t : nat) : M unit :=
  fun w => (Ok tt,
            mkWorld (self w) (clock w)
                    (filter (fun x => negb (x =? t)) (timers w))
                    (next_timer w) (channels w) (next_channel w)
                    (table w) (query_error w) (trace w)).

Definition is_pending (m : message) : bool := String.eqb (status m) "pending".

Fixpoint insert_by_created_at (m : message) (l : list message) : list message :=
  match l with
  | [] => [m]
  | x :: rest =>
      if (created_at m <? created_at x)%Z then m :: x :: rest
      else x :: insert_by_created_at m rest
  end.

(** [.order('created_at', { ascending: true })] *)
Definition order_by_created_at (l : list message) : list message :=
  fold_right insert_by_created_at [] l.

(** The rows the query of [pollPendingMessages] selects.  The query
    takes no argument: it does not look at [lastPollTime]. *)
Definition pending_rows (w : world) : list message :=
  order_by_created_at (filter is_pending (table w)).

(** [await supabaseClient.from('messages_out').select('*')
       .eq('status', 'pending').order('created_at', { ascending: true })]:
    the pair [{ data, error }]. *)
Definition select_pending : M (option (list message) * option string) :=
  observe Queried ;;;
  w <- get ;;
  match query_error w with
  | Some e => ret (None, Some e)
  | None => ret (Some (pending_rows w), None)
  end.

(** [if (this.messageHandler) { await this.messageHandler(message) }] *)
Definition call_handler (m : message) : M unit :=
  w <- get ;;
  match messageHandler (self w) with
  | None => ret tt
  | Some h =>
      observe (Handled m) ;;;
      match h m with
      | None => ret tt
      | Some err => throw err
      end
  end.

(** ** The methods *)

Definition set_lastPollTime (t : Z) (g : manager) : manager :=
  mkManager (subscription g) (pollingInterval g) (pollingFrequency g)
            (isPolling g) (isRealtimeConnected g) (Some t) (messageHandler g).

Definition set_isPolling (b : bool) (g : manager) : manager :=
  mkManager (subscription g) (pollingInterval g) (pollingFrequency g)
            b (isRealtimeConnected g) (lastPollTime g) (messageHandler g).

Definition set_isRealtimeConnected (b : bool) (g : manager) : manager :=
  mkManager (subscription g) (pollingInterval g) (pollingFrequency g)
            (isPolling g) b (lastPollTime g) (messageHandler g).

Definition set_pollingInterval (t : option nat) (g : manager) : manager :=
  mkManager (subscription g) t (pollingFrequency g)
            (isPolling g) (isRealtimeConnected g) (lastPollTime g)
            (messageHandler g).

Definition set_subscription (c : option nat) (g : manager) : manager :=
  mkManager c (pollingInterval g) (pollingFrequency g)
            (isPolling g) (isRealtimeConnected g) (lastPollTime g)
            (messageHandler g).

Definition set_messageHandler (h : option handler) (g : manager) : manager :=
  mkManager (subscription g) (pollingInterval g) (pollingFrequency g)
            (isPolling g) (isRealtimeConnected g) (lastPollTime g) h.

(** [pollPendingMessages()] *)
Definition pollPendingMessages : M unit :=
  try_catch
    (w <- get ;;
     modify (set_lastPollTime (clock w)) ;;;
     observe (Stamped (clock w)) ;;;
     r <- select_pending ;;
     match snd r with
     | Some error => throw error
     | None =>
         match fst r with
         | Some (m :: rest) =>
             logger "info" "Polling found pending messages" ;;;
             for_each (m :: rest) call_handler
         | _ => ret tt
         end
     end)
    (fun _ => logger "error" "Error polling for pending messages").

(** [startPolling()] *)
Definition startPolling : M unit :=
  try_catch
    (w <- get ;;
     if isPolling (self w) then ret tt
     else
       modify (set_isPolling true) ;;;
       match pollingInterval (self w) with
       | Some t => clearInterval t ;;; modify (set_pollingInterval None)
       | None => ret tt
       end ;;;
       t <- setInterval ;;
       modify (set_pollingInterval (Some t)) ;;;
       if t =? 0 then logger "error" "Failed to set up polling interval"
       else ret tt)
    (fun error => logger "error" "Error during polling setup" ;;; throw error).

(** [stopPolling()] *)
Definition stopPolling : M unit :=
  w <- get ;;
  match pollingInterval (self w) with
  | Some t => clearInterval t ;;; modify (set_pollingInterval None)
  | None => ret tt
  end ;;;
  modify (set_isPolling false) ;;;
  logger "info" "Stopping polling fallback, Realtime connection restored".

(** The callback given to [subscribe]. *)
Definition on_status (st : subscribe_status) : M unit :=
  match st with
  | SUBSCRIBED =>
      logger "info" "Realtime subscription active" ;;;
      modify (set_isRealtimeConnected true) ;;;
      w <- get ;;
      if isPolling (self w) then stopPolling else ret tt
  | CHANNEL_ERROR =>
      logger "error" "Realtime subscription error" ;;;
      modify (set_isRealtimeConnected false) ;;;
      w <- get ;;
      if isPolling (self w) then ret tt else startPolling
  | _ => ret tt
  end.

(** The callback given to [on('postgres_changes', ...)]: the handler is
    called and not awaited; what it returns is dropped. *)
Definition on_insert (m : message) : M unit :=
  logger "debug" "Received Realtime message" ;;;
  w <- get ;;
  match messageHandler (self w) with
  | None => ret tt
  | Some h => observe (Handled m)
  end.

Definition new_channel : M nat :=
  fun w => (Ok (next_channel w),
            mkWorld (self w) (clock w) (timers w) (next_timer w)
                    (channels w ++ [next_channel w]) (S (next_channel w))
                    (table w) (query_error w) (trace w)).

Definition unsubscribe (c : nat) : M unit :=
  fun w => (Ok tt,
            mkWorld (self w) (clock w) (timers w) (next_timer w)
                    (filter (fun x => negb (x =? c)) (channels w))
                    (next_channel w) (table w) (query_error w) (trace w)).

(** [setupRealtimeSubscription()] *)
Definition setupRealtimeSubscription (sub : subscribe_behaviour) : M unit :=
  match sub with
  | SubscribeThrows err => throw err
  | SubscribeReturns during =>
      c <- new_channel ;;
      for_each during on_status ;;;
      modify (set_subscription (Some c))
  end.

(** [initialize(messageHandler)]; [None] stands for an argument that is
    not a function. *)
Definition initialize (h : option handler) (sub : subscribe_behaviour) : M unit :=
  match h with
  | None => throw "Message handler must be a function"
  | Some f =>
      modify (set_messageHandler (Some f)) ;;;
      logger "info" "Initializing Supabase Realtime connection" ;;;
      try_catch
        (setupRealtimeSubscription sub ;;;
         try_catch pollPendingMessages
           (fun _ => logger "error"
              "Initial poll failed, but continuing with Realtime subscription"))
        (fun _ =>
           logger "error" "Failed to initialize Realtime connection" ;;;
           startPolling)
  end.

(** [getHealthStatus()] *)
Definition getHealthStatus (w : world) : bool * bool * option Z * Z :=
  (isRealtimeConnected (self w), isPolling (self w), lastPollTime (self w),
   pollingFrequency (self w)).

(** [shutdown()] *)
Definition shutdown : M unit :=
  logger "info" "Shutting down Realtime manager" ;;;
  w <- get ;;
  match subscription (self w) with
  | Some c => unsubscribe c ;;; modify (set_subscription None)
  | None => ret tt
  end ;;;
  w <- get ;;
  match pollingInterval (self w) with
  | Some t => clearInterval t ;;; modify (set_pollingInterval None)
  | None => ret tt
  end ;;;
  modify (set_isPolling false) ;;;
  modify (set_isRealtimeConnected false).

(** ** The manager in its surroundings *)

Inductive event : Type :=
| Initialize (h : option handler) (sub : subscribe_behaviour)
| Status (st : subscribe_status)
| Insert (m : message)
| Tick
| Shutdown
| Advance (d : Z)
| Surroundings (rows : list message) (error : option string).

Definition advance (d : Z) (w : world) : world :=
  mkWorld (self w) (clock w + d) (timers w) (next_timer w) (channels w)
          (next_channel w) (table w) (query_error w) (trace w).

Definition surroundings (rows : list message) (error : option string)
    (w : world) : world :=
  mkWorld (self w) (clock w) (timers w) (next_timer w) (channels w)
          (next_channel w) rows error (trace w).

(** A timer fires only while it is set; time does not run backwards.
    An exception that leaves a method goes to its caller and the state
    stays as the method left it. *)
Definition step (w : world) (e : event) : option world :=
  match e with
  | Initialize h sub => Some (snd (initialize h sub w))
  | Status st => Some (snd (on_status st w))
  | Insert m => Some (snd (on_insert m w))
  | Tick => match timers w with
            | [] => None
            | _ :: _ => Some (snd (pollPendingMessages w))
            end
  | Shutdown => Some (snd (shutdown w))
  | Advance d => if (0 <=? d)%Z then Some (advance d w) else None
  | Surroundings rows error => Some (surroundings rows error w)
  end.

Fixpoint run (w : world) (es : list event) : option world :=
  match es with
  | [] => Some w
  | e :: es' => match step w e with
                | Some w' => run w' es'
                | None => None
                end
  end.

(** ** Reading states and traces *)

(** The recurring poll timer is running. *)
Definition timer_running (w : world) : Prop :=
  isPolling (self w) = true /\
  exists t, pollingInterval (self w) = Some t /\ In t (timers w).

(** The push subscription is confirmed or the poll timer is running. *)
Definition covered (w : world) : Prop :=
  isRealtimeConnected (self w) = true \/ timer_running w.

Definition signals (st : subscribe_status) : bool :=
  match st with
  | SUBSCRIBED | CHANNEL_ERROR => true
  | _ => false
  end.

(** No status signal and no failed subscription setup since the manager
    was constructed or last shut down. *)
Fixpoint unsignalled (quiet : bool) (es : list event) : bool :=
  match es with
  | [] => quiet
  | Shutdown :: es' => unsignalled true es'
  | Status st :: es' => unsignalled (quiet && negb (signals st)) es'
  | Initialize (Some _) (SubscribeThrows _) :: es' => unsignalled false es'
  | Initialize (Some _) (SubscribeReturns during) :: es' =>
      unsignalled (quiet && negb (existsb signals during)) es'
  | _ :: es' => unsignalled quiet es'
  end.

Fixpoint handled (tr : list obs) : list message :=
  match tr with
  | [] => []
  | Handled m :: rest => m :: handled rest
  | _ :: rest => handled rest
  end.

(** What a batch delivers: its items up to and including the first one
    the callback fails on. *)
Fixpoint deliveries (h : handler) (batch : list message) : list message :=
  match batch with
  | [] => []
  | m :: rest =>
      m :: match h m with
           | None => deliveries h rest
           | Some _ => []
           end
  end.

(** The timer handle and the [isPolling] flag agree, the handle held is
    one of a timer that is set, and no handle is 0. *)
Definition timer_ok (w : world) : Prop :=
  next_timer w <> 0 /\
  match pollingInterval (self w) with
  | Some t => isPolling (self w) = true /\ In t (timers w)
  | None => isPolling (self w) = false
  end.

Fixpoint queries (tr : list obs) : nat :=
  match tr with
  | [] => 0
  | Queried :: rest => S (queries rest)
  | _ :: rest => queries rest
  end.

(** How a batch ends: normally, or with the error of the first item the
    callback fails on. *)
Fixpoint batch_result (h : handler) (batch : list message) : result unit :=
  match batch with
  | [] => Ok tt
  | m :: rest =>
      match h m with
      | None => batch_result h rest
      | Some e => Throw e
      end
  end.

Definition with_trace (tr : list obs) (w : world) : world :=
  mkWorld (self w) (clock w) (timers w) (next_timer w) (channels w)
          (next_channel w) (table w) (query_error w) tr.

Definition with_self (g : manager) (w : world) : world :=
  mkWorld g (clock w) (timers w) (next_timer w) (channels w)
          (next_channel w) (table w) (query_error w) (trace w).

(** What one poll cycle writes to the trace. *)
Definition poll_obs (w : world) : list obs :=
  Stamped (clock w) :: Queried ::
  match query_error w with
  | Some _ => [Logged "error" "Error polling for pending messages"]
  | None =>
      match pending_rows w with
      | [] => []
      | batch =>
          Logged "info" "Polling found pending messages" ::
          match messageHandler (self w) with
          | None => []
          | Some h =>
              map Handled (deliveries h batch) ++
              match batch_result h batch with
              | Ok _ => []
              | Throw _ => [Logged "error" "Error polling for pending messages"]
              end
          end
      end
  end.

(** What a method leaves alone besides the flags and the timers. *)
Definition same_outside (w w' : world) : Prop :=
  clock w' = clock w /\ table w' = table w /\ query_error w' = query_error w /\
  channels w' = channels w /\ next_channel w' = next_channel w /\
  messageHandler (self w') = messageHandler (self w) /\
  lastPollTime (self w') = lastPollTime (self w) /\
  subscription (self w') = subscription (self w) /\
  handled (trace w') = handled (trace w) /\
  queries (trace w') = queries (trace w).

(** The state in which [initialize] starts its work on the subscription:
    the handler is stored and the first line is logged. *)
Definition armed (f : handler) (w : world) : world :=
  with_trace (trace w ++ [Logged "info" "Initializing Supabase Realtime connection"])
    (with_self (set_messageHandler (Some f) (self w)) w).

(** ... and the channel is created. *)
Definition subscribed (w : world) : world :=
  mkWorld (self w) (clock w) (timers w) (next_timer w)
          (channels w ++ [next_channel w]) (S (next_channel w)) (table w)
          (query_error w) (trace w).

Definition not_younger (a b : message) : Prop :=
  (created_at a <= created_at b)%Z.

Definition message_eq_dec (a b : message) : {a = b} + {a <> b}.
Proof.
  decide equality; try apply string_dec. apply Z.eq_dec.
Defined.

(** ** Timers, pulls and the handler over a run *)

(** The interval timers that are set are exactly the one whose handle
    the manager holds, and [isPolling] tells whether it holds one. *)
Definition timers_exact (w : world) : Prop :=
  next_timer w <> 0 /\
  timers w = match pollingInterval (self w) with
             | Some t => [t]
             | None => []
             end /\
  isPolling (self w) = match pollingInterval (self w) with
                       | Some _ => true
                       | None => false
                       end.

(** The events at which the table is queried: a tick of the poll timer,
    and an [initialize] whose subscription setup returned. *)
Fixpoint pulls (es : list event) : nat :=
  match es with
  | [] => 0
  | Tick :: es' => S (pulls es')
  | Initialize (Some _) (SubscribeReturns _) :: es' => S (pulls es')
  | _ :: es' => pulls es'
  end.

(** The handler given to the last [initialize] that was given one. *)
Fixpoint registered (es : list event) (h : option handler) : option handler :=
  match es with
  | [] => h
  | Initialize (Some f) _ :: es' => registered es' (Some f)
  | _ :: es' => registered es' h
  end.

End RealtimeManager.

(* ================================================================== *)
(** * The polling fallback ([src/supabase/polling.js])                 *)
(* ================================================================== *)

Module PollingFallback.

(** A row of [messages_in], with the columns [poll] looks at. *)
Record row : Type := mkRow {
  id : string;
  received_at : Z;
  status : string }.

(** The variables [isRunning] and [lastPollTime] that [poll] closes
    over, the clock, the table, whether the query comes back with an
    error, the calls of [setTimeout(poll, interval)] made so far and the
    rows handed to [onMessage], in order. *)
Record world : Type := mkWorld {
  isRunning : bool;
  lastPollTime : option Z;
  clock : Z;
  table : list row;
  query_error : option string;
  scheduled : nat;
  delivered : list row }.

Definition is_received (r : row) : bool := String.eqb (status r) "received".

(** [if (lastPollTime) { query.gt('received_at', lastPollTime) }]: the
    filter builder adds the condition to the query it is called on. *)
Definition newer_than (since : option Z) (r : row) : bool :=
  match since with
  | None => true
  | Some t => (t <? received_at r)%Z
  end.

Fixpoint insert_by_received_at (r : row) (l : list row) : list row :=
  match l with
  | [] => [r]
  | x :: rest =>
      if (received_at r <? received_at x)%Z then r :: x :: rest
      else x :: insert_by_received_at r rest
  end.

(** [.order('received_at', { ascending: true })] *)
Definition order_by_received_at (l : list row) : list row :=
  fold_right insert_by_received_at [] l.

Definition selected (w : world) : list row :=
  order_by_received_at
    (filter (fun r => is_received r && newer_than (lastPollTime w) r) (table w)).

(** [for (const message of messages) { await onMessage(message) }]:
    the rows handed over, and whether the loop ran to its end. *)
Fixpoint hand_over (onMessage : row -> option string) (l : list row)
    : list row * bool :=
  match l with
  | [] => ([], true)
  | r :: rest =>
      match onMessage r with
      | None => let (ds, ok) := hand_over onMessage rest in (r :: ds, ok)
      | Some _ => ([r], false)
      end
  end.

(** One run of [poll]. *)
Definition poll (onMessage : row -> option string) (w : world) : world :=
  if isRunning w then
    let now := clock w in
    match query_error w with
    | Some _ =>
        mkWorld (isRunning w) (lastPollTime w) (clock w) (table w)
                (query_error w) (S (scheduled w)) (delivered w)
    | None =>
        let (ds, ok) := hand_over onMessage (selected w) in
        mkWorld (isRunning w)
                (if ok then Some now else lastPollTime w)
                (clock w) (table w) (query_error w) (S (scheduled w))
                (delivered w ++ ds)
    end
  else w.

(** [stop()] of the object [setupPollingFallback] returns. *)
Definition stop (w : world) : world :=
  mkWorld false (lastPollTime w) (clock w) (table w) (query_error w)
          (scheduled w) (delivered w).

(** The timer set by [setTimeout(poll, interval)] fires [n] times in a
    row. *)
Fixpoint polls (onMessage : row -> option string) (n : nat) (w : world)
    : world :=
  match n with
  | 0 => w
  | S k => polls onMessage k (poll onMessage w)
  end.

(** Between two runs: time passes and rows are added to the table. *)
Definition later (d : Z) (new : list row) (w : world) : world :=
  mkWorld (isRunning w) (lastPollTime w) (clock w + d) (table w ++ new)
          (query_error w) (scheduled w) (delivered w).

End PollingFallback.

(* ================================================================== *)
(** * State and exceptions                                             *)
(* ================================================================== *)

(** A computation that reads and writes a state of type [S] and ends
    with a value or with a thrown error of type [E].  What was done to
    the state before a [throw] stays done, as in JavaScript. *)
Module Eff.

Inductive result (E A : Type) : Type :=
| Ok (a : A)
| Throw (e : E).
Arguments Ok {E A} a.
Arguments Throw {E A} e.

Definition M (S E A : Type) : Type := S -> result E A * S.

Definition ret {S E A : Type} (a : A) : M S E A := fun s => (Ok a, s).

Definition bind {S E A B : Type} (m : M S E A) (k : A -> M S E B) : M S E B :=
  fun s => match m s with
           | (Ok a, s') => k a s'
           | (Throw e, s') => (Throw e, s')
           end.

Definition throw {S E A : Type} (e : E) : M S E A := fun s => (Throw e, s).

(** [try { m } catch (error) { h error }] *)
Definition try_catch {S E A : Type} (m : M S E A) (h : E -> M S E A)
    : M S E A :=
  fun s => match m s with
           | (Ok a, s') => (Ok a, s')
           | (Throw e, s') => h e s'
           end.

Definition get {S E : Type} : M S E S := fun s => (Ok s, s).

Definition modify {S E : Type} (f : S -> S) : M S E unit :=
  fun s => (Ok tt, f s).

Module Notations.
Notation "x <- m ;; k" := (bind m (fun x => k))
  (at level 61, m at next level, right associativity).
Notation "m ;;; k" := (bind m (fun _ => k))
  (at level 61, right associativity).
End Notations.

End Eff.

(* ================================================================== *)
(** * The AppleScript executor ([src/applescript/executor.js])         *)
(* ================================================================== *)

Module Executor.
Import Eff Eff.Notations.

(** The double quote character. *)
Definition dquote : ascii := "034"%char.

(** [`"${s}"`] *)
Definition quoted (s : string) : string := String dquote (s ++ String dquote "").

(** An error object: its [message] and, for a system error, its [code]. *)
Record error : Type := mkError {
  message : string;
  code : option string }.

(** The value of a parameter: a string, or a value of another type with
    the text a template literal gives for it. *)
Inductive value : Type :=
| Str (s : string)
| Other (shown : string).

(** [await execPromise(command)]: [{ stdout, stderr }], or a rejection. *)
Inductive exec_result : Type :=
| Exited (stdout stderr : string)
| ExecFailed (err : error).

(** What the module takes from Node and the machine: where the scripts
    are, [path.join], [String.prototype.trim], [fs.access],
    [fs.writeFile] and [fs.unlink] ([None] when the promise is
    fulfilled) and what running a shell command gives. *)
Record env : Type := mkEnv {
  SCRIPTS_DIR : string;
  path_join : string -> string -> string;
  trim : string -> string;
  fs_access : string -> option error;
  fs_writeFile : string -> string -> option error;
  fs_unlink : string -> option error;
  execPromise : string -> exec_result }.

Inductive obs : Type :=
| Ran (command : string)
| Logged (level msg : string).

(** The clock, the files written and not removed, and what was run and
    logged, in order. *)
Record world : Type := mkWorld {
  clock : Z;
  files : list (string * string);
  trace : list obs }.

Definition observe (o : obs) : M world error unit :=
  modify (fun w => mkWorld (clock w) (files w) (trace w ++ [o])).

Definition logger (level msg : string) : M world error unit :=
  observe (Logged level msg).

(** [value.replace(/"/g, '\\"')] *)
Fixpoint escape_quotes (s : string) : string :=
  match s with
  | EmptyString => EmptyString
  | String c rest =>
      if Ascii.eqb c dquote
      then String "\"%char (String dquote (escape_quotes rest))
      else String c (escape_quotes rest)
  end.

(** [`${key}="${value}"`], string values with their quotes escaped. *)
Definition param_string (kv : string * value) : string :=
  let value := match snd kv with
               | Str s => escape_quotes s
               | Other shown => shown
               end in
  (fst kv ++ "=" ++ quoted value)%string.

(** [Array.prototype.join] *)
Fixpoint join (sep : string) (l : list string) : string :=
  match l with
  | [] => ""
  | [x] => x
  | x :: rest => (x ++ sep ++ join sep rest)%string
  end.

(** The command [executeAppleScriptFile] builds.  [params] is the list
    of the entries of the parameter object in their order. *)
Definition command_for (scriptPath : string) (params : list (string * value))
    : string :=
  let command := ("osascript " ++ quoted scriptPath)%string in
  match params with
  | [] => command
  | _ :: _ => (command ++ " " ++ join " " (map param_string params))%string
  end.

(** [executeAppleScriptFile(scriptPath, params)] *)
Definition executeAppleScriptFile (e : env) (scriptPath : string)
    (params : list (string * value)) : M world error string :=
  try_catch
    (let command := command_for scriptPath params in
     observe (Ran command) ;;;
     match execPromise e command with
     | ExecFailed err => throw err
     | Exited stdout stderr =>
         (if String.eqb stderr "" then ret tt
          else logger "warn" "AppleScript execution warning") ;;;
         ret (trim e stdout)
     end)
    (fun err => logger "error" "AppleScript execution error" ;;; throw err).

(** [executeAppleScript(scriptName, params)].  The [try] covers
    [await fs.access(scriptPath)] only: [return executeAppleScriptFile(...)]
    hands the promise back without awaiting it, so a rejection of that
    promise does not reach the [catch]. *)
Definition executeAppleScript (e : env) (scriptName : string)
    (params : list (string * value)) : M world error string :=
  let scriptPath :=
    path_join e (SCRIPTS_DIR e) (scriptName ++ ".applescript") in
  try_catch
    (match fs_access e scriptPath with
     | Some err => throw err
     | None => ret tt
     end)
    (fun err =>
       match code err with
       | Some c =>
           if String.eqb c "ENOENT" then
             logger "error" "AppleScript file not found" ;;;
             throw (mkError ("AppleScript file not found: " ++ scriptName) None)
           else throw err
       | None => throw err
       end) ;;;
  executeAppleScriptFile e scriptPath params.

(** [`applescript_${Date.now()}.scpt`] *)
Definition temp_name (now : Z) : string :=
  ("applescript_" ++ NilZero.string_of_int (Z.to_int now) ++ ".scpt")%string.

Definition remove_file (path : string) (fs : list (string * string))
    : list (string * string) :=
  filter (fun f => negb (String.eqb (fst f) path)) fs.

Definition writeFile (e : env) (path content : string) : M world error unit :=
  match fs_writeFile e path content with
  | Some err => throw err
  | None =>
      modify (fun w => mkWorld (clock w)
                         ((path, content) :: remove_file path (files w))
                         (trace w))
  end.

Definition unlink (e : env) (path : string) : M world error unit :=
  match fs_unlink e path with
  | Some err => throw err
  | None =>
      modify (fun w => mkWorld (clock w) (remove_file path (files w)) (trace w))
  end.

(** [executeInlineAppleScript(script)] *)
Definition executeInlineAppleScript (e : env) (script : string)
    : M world error string :=
  try_catch
    (w <- get ;;
     let tempFile := path_join e "/tmp" (temp_name (clock w)) in
     writeFile e tempFile script ;;;
     result <- executeAppleScriptFile e tempFile [] ;;
     unlink e tempFile ;;;
     ret result)
    (fun err =>
       logger "error" "Inline AppleScript execution error" ;;; throw err).

(** The commands run, in order. *)
Fixpoint commands (tr : list obs) : list string :=
  match tr with
  | [] => []
  | Ran c :: rest => c :: commands rest
  | _ :: rest => commands rest
  end.

Fixpoint count_quotes (s : string) : nat :=
  match s with
  | EmptyString => 0
  | String c rest => (if Ascii.eqb c dquote then 1 else 0) + count_quotes rest
  end.

(** A double quote that does not directly follow a backslash. *)
Fixpoint bare_quote (after_backslash : bool) (s : string) : bool :=
  match s with
  | EmptyString => false
  | String c rest =>
      (Ascii.eqb c dquote && negb after_backslash) ||
      bare_quote (Ascii.eqb c "\"%char) rest
  end.

End Executor.

(* ================================================================== *)
(** * The AppleScript operations ([src/applescript/index.js])          *)
(* ================================================================== *)

Module AppleScript.
Import AppleScriptQueue.

Definition newline : string := String "010"%char "".

(** [sendTextMessage(recipient, text)] up to the promise it returns. *)
Definition sendTextMessage (recipient text : string) (s : state)
    : nat * state :=
  enqueue "send_text" [("recipient", recipient); ("text", text)]%string s.

(** [sendMediaMessage(recipient, filePath, text)] *)
Definition sendMediaMessage (recipient filePath text : string) (s : state)
    : nat * state :=
  enqueue "send_media"
    [("recipient", recipient); ("filePath", filePath); ("text", text)]%string s.

(** The script of [isMessagesRunning], as the template literal has it. *)
Definition messages_running_script : string :=
  (newline ++ "      tell application " ++ Executor.quoted "System Events" ++
   newline ++ "        return (exists process " ++ Executor.quoted "Messages" ++
   ")" ++ newline ++ "      end tell" ++ newline ++ "    ")%string.

(** The script of [startMessagesApp]. *)
Definition start_messages_script : string :=
  (newline ++ "      tell application " ++ Executor.quoted "Messages" ++
   newline ++ "        activate" ++ newline ++ "      end tell" ++ newline ++
   "    ")%string.

(** What [await] on the promise with handle [h] gives: the first resolve
    or reject written for it, if any. *)
Fixpoint settlement (h : nat) (l : list (Z * effect)) : option outcome :=
  match l with
  | [] => None
  | (_, Resolve h' r) :: rest =>
      if h' =? h then Some (Fulfilled r) else settlement h rest
  | (_, Reject h' e) :: rest =>
      if h' =? h then Some (Failed e) else settlement h rest
  | _ :: rest => settlement h rest
  end.

(** [isMessagesRunning()]: the call of [enqueueInline], and what the
    function returns once the promise awaited is settled. *)
Definition isMessagesRunning_call (s : state) : nat * state :=
  enqueueInline messages_running_script s.

Definition isMessagesRunning_returns (trim : string -> string) (o : outcome)
    : bool :=
  match o with
  | Fulfilled result => String.eqb (trim result) "true"
  | Failed _ => false
  end.

(** [startMessagesApp()] *)
Definition startMessagesApp_call (s : state) : nat * state :=
  enqueueInline start_messages_script s.

Definition startMessagesApp_returns (o : outcome) : bool :=
  match o with
  | Fulfilled _ => true
  | Failed _ => false
  end.

(** The text of an error as the caller of [enqueue] reads it.  The
    callback of [processQueue] hands the error object to [logger.error]
    ([{ error }]) before it retries or rejects, and the redaction format
    of the logger (utils/logger.js) replaces the [message] of that very
    object by [redactPII(message)] when the message is not empty.
    [redactPII], the replacements by regular expressions of
    utils/pii-redactor.js, is taken as a parameter. *)
Definition logged_message (redactPII : string -> string) (message : string)
    : string :=
  match message with
  | EmptyString => message
  | String _ _ => redactPII message
  end.

(** How the queue calls the executor (the [try] block of the callback of
    [processQueue]): a rejection carries the error, of which the model of
    the queue keeps the message, as the log of the failure has left it. *)
Definition outcome_of (redactPII : string -> string)
    (r : Eff.result Executor.error string) : outcome :=
  match r with
  | Eff.Ok result => Fulfilled result
  | Eff.Throw err => Failed (logged_message redactPII (Executor.message err))
  end.

Definition string_params (ps : list (string * string))
    : list (string * Executor.value) :=
  map (fun kv => (fst kv, Executor.Str (snd kv))) ps.

Definition run_task (e : Executor.env) (t : task)
    : Eff.M Executor.world Executor.error string :=
  match body t with
  | Script scriptName params =>
      Executor.executeAppleScript e scriptName (string_params params)
  | InlineScript script => Executor.executeInlineAppleScript e script
  end.

(** One call of the executor: what Node and the machine answer while it
    runs, and the clock, the files and the log when it starts. *)
Record attempt : Type := mkAttempt {
  answers : Executor.env;
  before : Executor.world }.

(** The machine the queue runs on.  [attempt_of h a] is the call of the
    executor for the task with handle [h] that has [a] attempts behind
    it: every call, a retry included, asks the file system, the shell and
    the clock anew. *)
Record machine : Type := mkMachine {
  attempt_of : nat -> nat -> attempt;
  redactPII : string -> string }.

(** The executor as the queue sees it. *)
Definition executor (m : machine) : oracle :=
  fun t =>
    let a := attempt_of m (handle t) (attempts t) in
    outcome_of (redactPII m) (fst (run_task (answers a) t (before a))).

End AppleScript.

(* ================================================================== *)
(** * Outbound messages ([src/supabase/outbound.js])                   *)
(* ================================================================== *)

Module Outbound.
Import Eff Eff.Notations.

(** A row of [messages_out] as [processOutboundMessage] receives it;
    [None] is [null]. *)
Record message : Type := mkMessage {
  id : string;
  thread_id : string;
  text : option string;
  media_url : option string;
  media_type : option string }.

(** A row of [threads], with the columns looked at. *)
Record thread : Type := mkThread {
  chat_identifier : option string;
  display_name : option string }.

(** [await supabaseClient.from('threads').select('*').eq('id', ...)
       .maybeSingle()]: the promise is rejected, or fulfilled with
    [{ data, error }]. *)
Inductive fetch_result : Type :=
| FetchRejected (err : string)
| Fetched (data : option thread) (error : option string).

(** [await supabaseClient.from('messages_out').update(...).eq('id', ...)] *)
Inductive update_result : Type :=
| UpdateOk
| UpdateError (err : string)
| UpdateRejected (err : string).

(** What [downloadAndValidateMedia] returns: [{ success: true, filePath }]
    or [{ success: false, reason, ... }]. *)
Inductive media_result : Type :=
| MediaOk (filePath : string)
| MediaFailed (reason : string).

(** How the promise of a send ends: fulfilled, or rejected with an error
    of the given message. *)
Inductive send_result : Type :=
| Delivered (result : string)
| NotDelivered (err : string).

(** What the module calls: the Supabase client, the media handler and
    the two send operations of [src/applescript]; and the message of the
    [TypeError] that reading [length] of [null] raises. *)
Record env : Type := mkEnv {
  fetch_thread : string -> fetch_result;
  update_row : string -> string -> update_result;
  downloadAndValidateMedia : string -> option string -> media_result;
  sendTextMessage : string -> string -> send_result;
  sendMediaMessage : string -> string -> string -> send_result;
  null_length_error : string }.

Inductive obs : Type :=
| Update (row status : string) (error : option string)
| FetchThread (thread : string)
| Download (url : string) (type : option string)
| SendText (recipient text : string)
| SendMedia (recipient filePath text : string)
| Logged (level msg : string).

(** The columns [status] and [error] of the rows of [messages_out], by
    id, and what was done, in order. *)
Record world : Type := mkWorld {
  table : list (string * (string * option string));
  trace : list obs }.

(** What the function returns: [{ success, error, filePath }], a field
    that is not there being [None]. *)
Record report : Type := mkReport {
  success : bool;
  error : option string;
  filePath : option string }.

Definition observe (o : obs) : M world string unit :=
  modify (fun w => mkWorld (table w) (trace w ++ [o])).

Definition logger (level msg : string) : M world string unit :=
  observe (Logged level msg).

(** A string that is not [null] and not empty. *)
Definition truthy (s : option string) : option string :=
  match s with
  | Some x => if String.eqb x "" then None else Some x
  | None => None
  end.

(** [.update(updateData).eq('id', messageId)] on the table: [error] is
    written only when [updateData] has it. *)
Definition write_status (messageId status : string) (err : option string)
    (t : list (string * (string * option string)))
    : list (string * (string * option string)) :=
  map (fun r =>
         if String.eqb (fst r) messageId
         then (fst r, (status, match err with
                               | Some x => Some x
                               | None => snd (snd r)
                               end))
         else r) t.

(** [updateMessageStatus(messageId, status, errorMessage = null)] *)
Definition updateMessageStatus (e : env) (messageId status : string)
    (errorMessage : option string) : M world string unit :=
  try_catch
    (observe (Update messageId status (truthy errorMessage)) ;;;
     match update_row e messageId status with
     | UpdateRejected err => throw err
     | UpdateError _ => logger "error" "Failed to update message status"
     | UpdateOk =>
         modify (fun w =>
                   mkWorld (write_status messageId status (truthy errorMessage)
                              (table w))
                           (trace w))
     end)
    (fun _ => logger "error" "Error updating message status").

(** [await sendTextMessage(recipient, message.text)]: [text.length] is
    read before anything is enqueued. *)
Definition send_text (e : env) (recipient : string) (text : option string)
    : M world string string :=
  match text with
  | None => throw (null_length_error e)
  | Some t =>
      observe (SendText recipient t) ;;;
      match sendTextMessage e recipient t with
      | Delivered r => ret r
      | NotDelivered err => throw err
      end
  end.

Definition send_media (e : env) (recipient filePath text : string)
    : M world string string :=
  observe (SendMedia recipient filePath text) ;;;
  match sendMediaMessage e recipient filePath text with
  | Delivered r => ret r
  | NotDelivered err => throw err
  end.

(** [processTextMessage(message, recipient)] *)
Definition processTextMessage (e : env) (m : message) (recipient : string)
    : M world string report :=
  try_catch
    (send_text e recipient (text m) ;;;
     updateMessageStatus e (id m) "sent" None ;;;
     logger "info" "Text message sent successfully" ;;;
     ret (mkReport true None None))
    (fun err =>
       logger "error" "Failed to send text message" ;;;
       updateMessageStatus e (id m) "failed" (Some err) ;;;
       ret (mkReport false (Some err) None)).

(** [processMediaMessage(message, recipient)]; it is called with a
    [media_url] that is not empty. *)
Definition processMediaMessage (e : env) (m : message) (url recipient : string)
    : M world string report :=
  try_catch
    (observe (Download url (media_type m)) ;;;
     match downloadAndValidateMedia e url (media_type m) with
     | MediaFailed reason =>
         logger "error" "Media validation failed" ;;;
         updateMessageStatus e (id m) "failed"
           (Some ("Media validation failed: " ++ reason)%string) ;;;
         ret (mkReport false (Some reason) None)
     | MediaOk path =>
         send_media e recipient path
           match truthy (text m) with Some t => t | None => "" end ;;;
         updateMessageStatus e (id m) "sent" None ;;;
         logger "info" "Media message sent successfully" ;;;
         ret (mkReport true None (Some path))
     end)
    (fun err =>
       logger "error" "Failed to send media message" ;;;
       updateMessageStatus e (id m) "failed" (Some err) ;;;
       ret (mkReport false (Some err) None)).

(** [thread.chat_identifier || thread.display_name], when it is not
    empty. *)
Definition recipient_of (t : thread) : option string :=
  match truthy (chat_identifier t) with
  | Some r => Some r
  | None => truthy (display_name t)
  end.

(** [processOutboundMessage(message)] *)
Definition processOutboundMessage (e : env) (m : message)
    : M world string report :=
  try_catch
    (logger "info" "Processing outbound message" ;;;
     updateMessageStatus e (id m) "processing" None ;;;
     observe (FetchThread (thread_id m)) ;;;
     match fetch_thread e (thread_id m) with
     | FetchRejected err => throw err
     | Fetched (Some t) None =>
         match recipient_of t with
         | None =>
             logger "error" "No valid recipient found for thread" ;;;
             updateMessageStatus e (id m) "failed" (Some "No valid recipient"%string) ;;;
             ret (mkReport false (Some "No valid recipient"%string) None)
         | Some recipient =>
             match truthy (media_url m) with
             | Some url => processMediaMessage e m url recipient
             | None => processTextMessage e m recipient
             end
         end
     | Fetched _ _ =>
         logger "error" "Failed to fetch thread information" ;;;
         updateMessageStatus e (id m) "failed" (Some "Thread not found"%string) ;;;
         ret (mkReport false (Some "Thread not found"%string) None)
     end)
    (fun err =>
       logger "error" "Error processing outbound message" ;;;
       updateMessageStatus e (id m) "failed" (Some err) ;;;
       ret (mkReport false (Some err) None)).

(** ** Reading the trace *)

Fixpoint updates (tr : list obs) : list (string * string * option string) :=
  match tr with
  | [] => []
  | Update r s err :: rest => (r, s, err) :: updates rest
  | _ :: rest => updates rest
  end.

Definition is_send (o : obs) : bool :=
  match o with
  | SendText _ _ | SendMedia _ _ _ => true
  | _ => false
  end.

Definition sends (tr : list obs) : list obs := filter is_send tr.

Definition send_recipient (o : obs) : option string :=
  match o with
  | SendText r _ | SendMedia r _ _ => Some r
  | _ => None
  end.

Definition is_download (o : obs) : bool :=
  match o with
  | Download _ _ => true
  | _ => false
  end.

(** The downloads asked of the media handler, in order. *)
Definition downloads (tr : list obs) : list obs := filter is_download tr.

(** The table after an update that was asked for. *)
Definition updated (e : env) (row status : string) (err : option string)
    (t : list (string * (string * option string)))
    : list (string * (string * option string)) :=
  match update_row e row status with
  | UpdateOk => write_status row status err t
  | _ => t
  end.

End Outbound.

(* ================================================================== *)
(** * Retry and circuit breaker ([src/utils/error-handler.js])         *)
(* ================================================================== *)

Module ErrorHandler.
Import Eff Eff.Notations.

(** How a call of the wrapped function ends: its promise is fulfilled
    with a value or rejected with an error. *)
Inductive answer : Type :=
| Returned (value : string)
| Rejected (error : string).

(** The options of [withRetry].  [maxRetries] and [retryDelay] are taken
    to be integers; [onRetry] gives [Some error] when it throws. *)
Record retry_options : Type := mkRetryOptions {
  maxRetries : Z;
  retryDelay : Z;
  exponentialBackoff : bool;
  retryCondition : string -> bool;
  onRetry : string -> nat -> option string }.

(** [options = {}] *)
Definition default_retry_options : retry_options :=
  mkRetryOptions 3 1000 true (fun _ => true) (fun _ _ => None).

Inductive obs : Type :=
| Called (attempt : nat)             (* fn(...args) *)
| Notified (attempt : nat)           (* onRetry(error, attempt) *)
| Slept (delay : Z)                  (* setTimeout(resolve, delay) *)
| Logged (level msg : string).

Definition observe (o : obs) : M (list obs) string unit :=
  modify (fun tr => tr ++ [o]).

(** [exponentialBackoff ? retryDelay * Math.pow(2, attempt - 1) : retryDelay] *)
Definition delay_before_retry (o : retry_options) (attempt : nat) : Z :=
  if exponentialBackoff o then (retryDelay o * 2 ^ (Z.of_nat attempt - 1))%Z
  else retryDelay o.

(** The loop of the function [withRetry] returns, from the iteration
    [attempt] on, with [fuel] iterations left before
    [attempt <= maxRetries + 1] fails.  [fn k] is how the [k]-th call of
    the wrapped function ends.  [None] is [undefined]: the loop ended
    without a [return]. *)
Fixpoint retry_loop (o : retry_options) (fn : nat -> answer) (fuel attempt : nat)
    : M (list obs) string (option string) :=
  match fuel with
  | 0 => ret None
  | S fuel' =>
      observe (Called attempt) ;;;
      match fn attempt with
      | Returned value => ret (Some value)
      | Rejected error =>
          if (Z.of_nat attempt <=? maxRetries o)%Z && retryCondition o error
          then
            observe (Logged "info" "Retry attempt") ;;;
            observe (Notified attempt) ;;;
            match onRetry o error attempt with
            | Some thrown => throw thrown
            | None => ret tt
            end ;;;
            observe (Slept (delay_before_retry o attempt)) ;;;
            retry_loop o fn fuel' (S attempt)
          else throw error
      end
  end.

(** [withRetry(fn, options)(...args)] *)
Definition withRetry (o : retry_options) (fn : nat -> answer)
    : M (list obs) string (option string) :=
  retry_loop o fn (Z.to_nat (maxRetries o + 1)) 1.

(** The [j]-th call of [fn] failed and was followed by a retry: the
    attempt was not the last one, [retryCondition] accepted the error and
    [onRetry] did not throw. *)
Definition retried (o : retry_options) (fn : nat -> answer) (j : nat) : bool :=
  match fn j with
  | Returned _ => false
  | Rejected error =>
      (Z.of_nat j <=? maxRetries o)%Z && retryCondition o error &&
      match onRetry o error j with
      | None => true
      | Some _ => false
      end
  end.

Fixpoint calls (tr : list obs) : list nat :=
  match tr with
  | [] => []
  | Called a :: rest => a :: calls rest
  | _ :: rest => calls rest
  end.

Fixpoint sleeps (tr : list obs) : list Z :=
  match tr with
  | [] => []
  | Slept d :: rest => d :: sleeps rest
  | _ :: rest => sleeps rest
  end.

Definition total (l : list Z) : Z := fold_right Z.add 0%Z l.

(** ** The circuit breaker *)

(** The options of [withCircuitBreaker]; [fallback] is what the fallback
    function returns for the arguments of the call, if there is one. *)
Record breaker_options : Type := mkBreakerOptions {
  failureThreshold : Z;
  resetTimeout : Z;
  fallback : option string }.

(** The variables the returned function closes over. *)
Record breaker : Type := mkBreaker {
  failures : Z;
  circuitOpen : bool;
  lastFailureTime : option Z }.

Definition closed_breaker : breaker := mkBreaker 0 false None.

(** One call of the protected function: the time when it is made, how
    [fn] would end, and the time when a failure of [fn] is noticed. *)
Record call : Type := mkCall {
  made_at : Z;
  fn_answer : answer;
  failed_at : Z }.

(** [lastFailureTime && Date.now() - lastFailureTime > resetTimeout] *)
Definition reset_due (o : breaker_options) (now : Z) (b : breaker) : bool :=
  match lastFailureTime b with
  | Some t => negb (t =? 0)%Z && (resetTimeout o <? now - t)%Z
  | None => false
  end.

(** What a call returns: a value, [null], or a thrown error; and whether
    [fn] was called. *)
Inductive reply : Type :=
| Value (v : string)
| Null
| Thrown (error : string).

Definition use_fallback (o : breaker_options) : reply :=
  match fallback o with
  | Some v => Value v
  | None => Null
  end.

(** The function [withCircuitBreaker] returns. *)
Definition protected (o : breaker_options) (c : call) (b : breaker)
    : reply * bool * breaker :=
  if circuitOpen b && negb (reset_due o (made_at c) b) then
    (use_fallback o, false, b)
  else
    let b1 := mkBreaker (failures b) false (lastFailureTime b) in
    match fn_answer c with
    | Returned v => (Value v, true, mkBreaker 0 false (lastFailureTime b1))
    | Rejected error =>
        let n := (failures b1 + 1)%Z in
        let b2 := mkBreaker n (failureThreshold o <=? n)%Z (Some (failed_at c)) in
        (match fallback o with
         | Some v => Value v
         | None => Thrown error
         end, true, b2)
    end.

(** The calls [cs] made one after the other on the breaker [b]: what each
    one returned and whether it called [fn], and the breaker afterwards. *)
Fixpoint protected_calls (o : breaker_options) (cs : list call) (b : breaker)
    : list (call * reply * bool) * breaker :=
  match cs with
  | [] => ([], b)
  | c :: rest =>
      let '(r, called, b') := protected o c b in
      let '(h, b'') := protected_calls o rest b' in
      ((c, r, called) :: h, b'')
  end.

(** The number of calls of [fn] that failed since its last success, read
    off a history given latest call first. *)
Fixpoint streak_from (h : list (call * reply * bool)) : Z :=
  match h with
  | [] => 0%Z
  | (c, _, true) :: rest =>
      match fn_answer c with
      | Rejected _ => (streak_from rest + 1)%Z
      | Returned _ => 0%Z
      end
  | (_, _, false) :: rest => streak_from rest
  end.

Definition streak (h : list (call * reply * bool)) : Z := streak_from (rev h).

(** The time at which the latest failure of [fn] was noticed. *)
Fixpoint last_failure_from (h : list (call * reply * bool)) : option Z :=
  match h with
  | [] => None
  | (c, _, true) :: rest =>
      match fn_answer c with
      | Rejected _ => Some (failed_at c)
      | Returned _ => last_failure_from rest
      end
  | (_, _, false) :: rest => last_failure_from rest
  end.

Definition last_failure (h : list (call * reply * bool)) : option Z :=
  last_failure_from (rev h).

End ErrorHandler.

(* ================================================================== *)
(** * Inbound messages ([src/supabase/inbound.js])                     *)
(* ================================================================== *)

Module Inbound.
Import Eff Eff.Notations.

(** A row of the query of [queryNewMessages]; [cache_has_attachments] is
    the truthiness of the column. *)
Record message : Type := mkMessage {
  message_id : Z;
  message_guid : string;
  message_text : option string;
  cache_has_attachments : bool;
  chat_guid : string;
  sender_id : option string;
  service_name : option string }.

(** A row of the query of [queryMessageAttachments]. *)
Record attachment : Type := mkAttachment {
  attachment_guid : string;
  attachment_filename : option string;
  mime_type : option string;
  total_bytes : Z }.

(** An element of [messageData.attachments]. *)
Record attachment_data : Type := mkAttachmentData {
  ad_attachment_guid : string;
  ad_mime_type : option string;
  ad_filename : option string;
  ad_size_bytes : Z }.

(** [messageData], without [received_at]. *)
Record message_data : Type := mkMessageData {
  md_message_guid : string;
  md_chat_guid : string;
  md_sender_id : option string;
  md_service_name : option string;
  md_text : option string;
  md_has_attachments : bool;
  md_attachments : list attachment_data;
  md_status : string }.

(** [await supabaseClient.from('messages_in').insert(messageData)]: the
    row is stored, the client answers with an [error], or the promise is
    rejected. *)
Inductive insert_result : Type :=
| Inserted
| InsertError (error : string)
| InsertRejected (error : string).

(** What the module takes from the machine: the two queries on chat.db
    (rows, or the error thrown), the insert into [messages_in], and
    whether [fs.writeFile] of the state with the given [lastMessageId]
    succeeds. *)
Record env : Type := mkEnv {
  queryNewMessages : Z -> list message + string;
  queryMessageAttachments : Z -> list attachment + string;
  insert : message_data -> insert_result;
  fs_writeFile : Z -> bool }.

Inductive obs : Type :=
| Logged (level msg : string).

(** The [lastMessageId] in the state file, if the file exists and can be
    parsed; the rows of [messages_in]; the log. *)
Record world : Type := mkWorld {
  state_file : option Z;
  messages_in : list message_data;
  trace : list obs }.

(** The counters of a cycle. *)
Record locals : Type := mkLocals {
  processed : nat;
  withAttachments : nat;
  failed : nat;
  maxMessageId : Z }.

(** [{ processed, withAttachments, failed }] *)
Record results : Type := mkResults {
  r_processed : nat;
  r_withAttachments : nat;
  r_failed : nat }.

Definition logger {S : Type} (trace_of : S -> list obs)
    (with_trace : S -> list obs -> S) (level msg : string) : M S string unit :=
  modify (fun s => with_trace s (trace_of s ++ [Logged level msg])).

Definition log_world : string -> string -> M world string unit :=
  logger trace (fun w tr => mkWorld (state_file w) (messages_in w) tr).

Definition log_cycle : string -> string -> M (locals * world) string unit :=
  logger (fun s => trace (snd s))
         (fun s tr => (fst s, mkWorld (state_file (snd s)) (messages_in (snd s)) tr)).

(** [loadState().lastMessageId] *)
Definition loadState : M world string Z :=
  fun w => (Ok match state_file w with
               | Some lastMessageId => lastMessageId
               | None => 0%Z
               end, w).

(** [saveState({ lastMessageId, lastProcessedTime })] *)
Definition saveState (e : env) (lastMessageId : Z) : M world string unit :=
  if fs_writeFile e lastMessageId then
    modify (fun w => mkWorld (Some lastMessageId) (messages_in w) (trace w))
  else log_world "error" "Failed to save state".

Definition update_locals (f : locals -> locals) : M (locals * world) string unit :=
  modify (fun s => (f (fst s), snd s)).

Definition store (d : message_data) : M (locals * world) string unit :=
  modify (fun s => (fst s, mkWorld (state_file (snd s))
                                   (messages_in (snd s) ++ [d])
                                   (trace (snd s)))).

Definition attachment_data_of (a : attachment) : attachment_data :=
  mkAttachmentData (attachment_guid a) (mime_type a) (attachment_filename a)
                   (total_bytes a).

Definition messageData (m : message) (attachments : list attachment)
    : message_data :=
  mkMessageData (message_guid m) (chat_guid m) (sender_id m) (service_name m)
                (message_text m) (0 <? length attachments)
                (map attachment_data_of attachments) "received".

(** The body of [for (const message of newMessages)]. *)
Definition process_message (e : env) (m : message) : M (locals * world) string unit :=
  try_catch
    (update_locals (fun l =>
       if (maxMessageId l <? message_id m)%Z
       then mkLocals (processed l) (withAttachments l) (failed l) (message_id m)
       else l) ;;;
     attachments <-
       (if cache_has_attachments m then
          match queryMessageAttachments e (message_id m) with
          | inr error =>
              log_cycle "error" "Error querying message attachments" ;;;
              throw error
          | inl attachments =>
              (if 0 <? length attachments then
                 update_locals (fun l =>
                   mkLocals (processed l) (S (withAttachments l)) (failed l)
                            (maxMessageId l))
               else ret tt) ;;;
              ret attachments
          end
        else ret []) ;;
     match insert e (messageData m attachments) with
     | InsertRejected error => throw error
     | InsertError error =>
         log_cycle "error" "Failed to insert inbound message to Supabase" ;;;
         update_locals (fun l =>
           mkLocals (processed l) (withAttachments l) (S (failed l))
                    (maxMessageId l))
     | Inserted =>
         store (messageData m attachments) ;;;
         update_locals (fun l =>
           mkLocals (S (processed l)) (withAttachments l) (failed l)
                    (maxMessageId l))
     end)
    (fun error =>
       log_cycle "error" "Error processing inbound message" ;;;
       update_locals (fun l =>
         mkLocals (processed l) (withAttachments l) (S (failed l))
                  (maxMessageId l))).

Fixpoint for_each (e : env) (ms : list message) : M (locals * world) string unit :=
  match ms with
  | [] => ret tt
  | m :: rest => process_message e m ;;; for_each e rest
  end.

(** A block that declares the counters, runs [m] and gives their values
    at its end. *)
Definition with_locals (l0 : locals) (m : M (locals * world) string unit)
    : M world string locals :=
  fun w => match m (l0, w) with
           | (Ok _, (l, w')) => (Ok l, w')
           | (Throw error, (_, w')) => (Throw error, w')
           end.

(** [processInboundMessages()] *)
Definition processInboundMessages (e : env) : M world string results :=
  try_catch
    (lastMessageId <- loadState ;;
     newMessages <-
       match queryNewMessages e lastMessageId with
       | inl rows => ret rows
       | inr error =>
           log_world "error" "Error querying chat.db for new messages" ;;;
           throw error
       end ;;
     match newMessages with
     | [] => ret (mkResults 0 0 0)
     | _ :: _ =>
         log_world "info" "Found new inbound messages" ;;;
         l <- with_locals (mkLocals 0 0 0 lastMessageId)
                          (for_each e newMessages) ;;
         saveState e (maxMessageId l) ;;;
         log_world "info" "Inbound message processing complete" ;;;
         ret (mkResults (processed l) (withAttachments l) (failed l))
     end)
    (fun error =>
       log_world "error" "Error in inbound message processing" ;;;
       throw error).

(** The greatest of [lastMessageId] and the ids of the rows. *)
Definition highest (lastMessageId : Z) (rows : list message) : Z :=
  fold_left (fun acc m => if (acc <? message_id m)%Z then message_id m else acc)
            rows lastMessageId.

(** ** The watcher ([setupInboundWatcher]) *)

(** The variable [interval] of the closure, the intervals of Node that
    are set and not cleared, and the number of the next one. *)
Record watcher : Type := mkWatcher {
  interval : option nat;
  live : list nat;
  next_interval : nat }.

(** [start()] *)
Definition start (k : watcher) : watcher :=
  match interval k with
  | Some _ => k
  | None =>
      mkWatcher (Some (next_interval k)) (live k ++ [next_interval k])
                (S (next_interval k))
  end.

(** [stop()] *)
Definition stop (k : watcher) : watcher :=
  match interval k with
  | None => k
  | Some i =>
      mkWatcher None (filter (fun j => negb (j =? i)) (live k)) (next_interval k)
  end.

(** [isRunning()] *)
Definition isRunning (k : watcher) : bool :=
  match interval k with
  | Some _ => true
  | None => false
  end.

(** [setupInboundWatcher(intervalMs)] on a machine whose next interval
    has the number [n]. *)
Definition setupInboundWatcher (n : nat) : watcher :=
  start (mkWatcher None [] n).

Inductive control : Type := Start | Stop.

Definition control_step (k : watcher) (c : control) : watcher :=
  match c with
  | Start => start k
  | Stop => stop k
  end.

End Inbound.

(* ================================================================== *)
(** * Startup checks (the bootstrap module, [runBootstrapChecks])    *)
(* ================================================================== *)

Module Bootstrap.
Import Eff Eff.Notations.

(** What a check returns: [{ success, message, details }] or
    [{ success, message, error }]. *)
Record check : Type := mkCheck {
  success : bool;
  message : string;
  details : option string;
  error : option string }.

(** What the module takes from Node and the machine; the file operations
    give [None] when their promise is fulfilled. *)
Record env : Type := mkEnv {
  trim : string -> string;
  path_join : string -> string -> string;
  execPromise : string -> Executor.exec_result;
  fs_writeFile : string -> string -> option Executor.error;
  fs_unlink : string -> option Executor.error;
  fs_mkdir : string -> option Executor.error }.

Inductive obs : Type :=
| Ran (command : string)
| Wrote (path content : string)
| Removed (path : string)
| Made (path : string)
| Logged (level msg : string).

Definition observe (o : obs) : M (list obs) Executor.error unit :=
  modify (fun tr => tr ++ [o]).

Definition logger (level msg : string) : M (list obs) Executor.error unit :=
  observe (Logged level msg).

Definition exec (e : env) (command : string)
    : M (list obs) Executor.error (string * string) :=
  observe (Ran command) ;;;
  match execPromise e command with
  | Executor.Exited stdout stderr => ret (stdout, stderr)
  | Executor.ExecFailed err => throw err
  end.

Definition writeFile (e : env) (path content : string)
    : M (list obs) Executor.error unit :=
  observe (Wrote path content) ;;;
  match fs_writeFile e path content with
  | None => ret tt
  | Some err => throw err
  end.

Definition unlink (e : env) (path : string) : M (list obs) Executor.error unit :=
  observe (Removed path) ;;;
  match fs_unlink e path with
  | None => ret tt
  | Some err => throw err
  end.

Definition mkdir (e : env) (path : string) : M (list obs) Executor.error unit :=
  observe (Made path) ;;;
  match fs_mkdir e path with
  | None => ret tt
  | Some err => throw err
  end.

Definition ps_command : string :=
  ("ps aux | grep -v grep | grep " ++
   Executor.quoted "/Applications/Messages.app" ++ " || true")%string.

(** [checkMessagesRunning()] *)
Definition checkMessagesRunning (e : env) : M (list obs) Executor.error check :=
  try_catch
    (out <- exec e ps_command ;;
     let isRunning := 0 <? String.length (trim e (fst out)) in
     ret (mkCheck isRunning "Messages.app running check"
            (Some (if isRunning then "Messages.app is running"
                   else "Messages.app is not running")%string)
            None))
    (fun err =>
       ret (mkCheck false "Messages.app running check failed" None
              (Some (Executor.message err)))).

Definition scriptPath : string := "/tmp/check_permissions.scpt".

(** The script of [checkAutomationPermissions], as the template literal
    has it. *)
Definition permissions_script : string :=
  (AppleScript.newline ++ "      try" ++
   AppleScript.newline ++ "        tell application " ++
     Executor.quoted "Messages" ++
   AppleScript.newline ++ "          get name" ++
   AppleScript.newline ++ "          return " ++ Executor.quoted "true" ++
   AppleScript.newline ++ "        end tell" ++
   AppleScript.newline ++ "      on error" ++
   AppleScript.newline ++ "        return " ++ Executor.quoted "false" ++
   AppleScript.newline ++ "      end try" ++
   AppleScript.newline ++ "    ")%string.

Definition osascript_command : string := ("osascript " ++ scriptPath)%string.

(** [checkAutomationPermissions()] *)
Definition checkAutomationPermissions (e : env)
    : M (list obs) Executor.error check :=
  try_catch
    (writeFile e scriptPath permissions_script ;;;
     out <- exec e osascript_command ;;
     let hasPermissions := String.eqb (trim e (fst out)) "true" in
     unlink e scriptPath ;;;
     ret (mkCheck hasPermissions "Automation permissions check"
            (Some (if hasPermissions then "Automation permissions granted"
                   else "Automation permissions not granted")%string)
            None))
    (fun err =>
       ret (mkCheck false "Automation permissions check failed" None
              (Some (Executor.message err)))).

(** [checkSupabaseConnectivity()] *)
Definition checkSupabaseConnectivity : M (list obs) Executor.error check :=
  try_catch
    (ret (mkCheck true "Supabase connectivity check"
            (Some "Successfully connected to Supabase"%string) None))
    (fun err =>
       ret (mkCheck false "Supabase connection failed" None
              (Some (Executor.message err)))).

Definition tempDir : string := "/tmp/imsg_media/".

(** [checkFilePaths()] *)
Definition checkFilePaths (e : env) : M (list obs) Executor.error check :=
  try_catch
    (mkdir e tempDir ;;;
     let testFile := path_join e tempDir "test.txt" in
     writeFile e testFile "test" ;;;
     unlink e testFile ;;;
     ret (mkCheck true "File paths and permissions check"
            (Some "All required paths are accessible and writable"%string)
            None))
    (fun err =>
       ret (mkCheck false "File paths or permissions issue" None
              (Some (Executor.message err)))).

(** What [runBootstrapChecks] returns. *)
Record report : Type := mkReport {
  rp_success : bool;
  rp_message : string;
  rp_details : string;
  rp_checks : list check }.

(** The value of [a || b] for two optional strings: the first that is
    neither missing nor empty. *)
Definition or_else (a b : option string) : option string :=
  match a with
  | Some (String _ _) => a
  | _ => b
  end.

(** [checks.forEach(check => ...)]; the marks before PASS and FAIL are
    left out of the text. *)
Fixpoint log_checks (checks : list check) : M (list obs) Executor.error unit :=
  match checks with
  | [] => ret tt
  | c :: rest =>
      (if success c then logger "info" ("PASS: " ++ message c)
       else logger "error" ("FAIL: " ++ message c)) ;;;
      log_checks rest
  end.

(** [runBootstrapChecks()] *)
Definition runBootstrapChecks (e : env) : M (list obs) Executor.error report :=
  logger "info" "Starting bootstrap checks" ;;;
  c1 <- checkMessagesRunning e ;;
  c2 <- checkAutomationPermissions e ;;
  c3 <- checkSupabaseConnectivity ;;
  c4 <- checkFilePaths e ;;
  let checks := [c1; c2; c3; c4] in
  log_checks checks ;;;
  let criticalChecks := firstn 3 checks in
  let allCriticalPassed := forallb success criticalChecks in
  if negb allCriticalPassed then
    logger "critical"
      "Critical bootstrap checks failed, daemon entering limited operational mode" ;;;
    match find (fun c => negb (success c)) checks with
    | Some failedCheck =>
        ret (mkReport false "Bootstrap checks failed"
               match or_else (or_else (details failedCheck) (error failedCheck))
                             (Some "Unknown error"%string) with
               | Some d => d
               | None => "Unknown error"%string
               end
               checks)
    | None =>
        throw (Executor.mkError
                 "Cannot read properties of undefined (reading 'details')" None)
    end
  else
    logger "info"
      "All bootstrap checks passed, daemon starting in full operational mode" ;;;
    ret (mkReport true "Bootstrap checks completed" "All checks passed" checks).

Fixpoint commands (tr : list obs) : list string :=
  match tr with
  | [] => []
  | Ran c :: rest => c :: commands rest
  | _ :: rest => commands rest
  end.

End Bootstrap.

(* ================================================================== *)
(** * Media files ([src/media/handler.js] and the validator)           *)
(* ================================================================== *)

Module Media.
Import Eff Eff.Notations.

Definition SUPPORTED_MIME_TYPES : list string :=
  ["image/jpeg"; "image/png"; "image/heic"; "image/heif"; "image/gif";
   "video/mp4"; "video/quicktime"; "audio/mpeg"; "audio/mp4";
   "audio/x-m4a"]%string.

Definition SUPPORTED_EXTENSIONS : list string :=
  [".jpg"; ".jpeg"; ".png"; ".heic"; ".heif"; ".gif";
   ".mp4"; ".mov"; ".m4v"; ".mp3"; ".m4a"]%string.

(** [Array.prototype.includes] on strings. *)
Definition includes (l : list string) (x : string) : bool :=
  existsb (String.eqb x) l.

(** What the two modules take from Node and the machine: [path.extname],
    [String.prototype.toLowerCase], [path.join], the file operations
    ([None] when the promise is fulfilled; [fs.stat] gives the size), the
    download, the text [`${timestamp}_${randomString}`] of the file
    name, and the properties an object literal inherits:
    [inherited key] is [Some shown] when [Object.prototype] has a property
    named [key] whose value is truthy ([constructor], [toString],
    [__proto__] and the like), [shown] being the text a template literal
    gives for that value, and [None] otherwise. *)
Record env : Type := mkEnv {
  extname : string -> string;
  toLowerCase : string -> string;
  path_join : string -> string -> string;
  fs_access : string -> option Executor.error;
  fs_stat : string -> Z + Executor.error;
  fs_mkdir : string -> option Executor.error;
  fs_unlink : string -> option Executor.error;
  downloadFile : string -> string -> option Executor.error;
  unique : string;
  inherited : string -> option string }.

Inductive obs : Type :=
| Made (path : string)
| Downloaded (url path : string)
| Removed (path : string)
| Logged (level msg : string).

Definition observe (o : obs) : M (list obs) Executor.error unit :=
  modify (fun tr => tr ++ [o]).

Definition logger (level msg : string) : M (list obs) Executor.error unit :=
  observe (Logged level msg).

(** [isValidMimeType(mimeType)]; a [mimeType] that is [null] or
    [undefined] has no [toLowerCase]. *)
Definition isValidMimeType (e : env) (mimeType : option string)
    : M (list obs) Executor.error bool :=
  match mimeType with
  | Some mimeType => ret (includes SUPPORTED_MIME_TYPES (toLowerCase e mimeType))
  | None =>
      throw (Executor.mkError
               "Cannot read properties of null (reading 'toLowerCase')" None)
  end.

(** [isValidFileExtension(filePath)] *)
Definition isValidFileExtension (e : env) (filePath : string) : bool :=
  includes SUPPORTED_EXTENSIONS (toLowerCase e (extname e filePath)).

(** [{ valid, reason, size, error }] *)
Record validation : Type := mkValidation {
  valid : bool;
  v_reason : option string;
  v_size : option Z;
  v_error : option string }.

Definition MAX_SIZE : Z := 100 * 1024 * 1024.

(** [validateMediaFile(filePath, mimeType)] *)
Definition validateMediaFile (e : env) (filePath : string)
    (mimeType : option string) : M (list obs) Executor.error validation :=
  try_catch
    (match fs_access e filePath with
     | None => ret tt
     | Some err => throw err
     end ;;;
     let isValidExt := isValidFileExtension e filePath in
     if negb isValidExt then
       logger "warn" ("Unsupported file extension: " ++ extname e filePath) ;;;
       ret (mkValidation false (Some "UNSUPPORTED_EXTENSION"%string) None None)
     else
       isValidMime <- isValidMimeType e mimeType ;;
       if negb isValidMime then
         logger "warn" ("Unsupported MIME type: " ++
                        match mimeType with
                        | Some mimeType => mimeType
                        | None => "null"
                        end) ;;;
         ret (mkValidation false (Some "UNSUPPORTED_MIME_TYPE"%string) None None)
       else
         size <- match fs_stat e filePath with
                 | inl size => ret size
                 | inr err => throw err
                 end ;;
         if (MAX_SIZE <? size)%Z then
           logger "warn" ("File too large: " ++
                          NilZero.string_of_int (Z.to_int size) ++ " bytes") ;;;
           ret (mkValidation false (Some "FILE_TOO_LARGE"%string) (Some size) None)
         else ret (mkValidation true None None None))
    (fun err =>
       logger "error" "Media validation error" ;;;
       ret (mkValidation false (Some "VALIDATION_ERROR"%string) None
              (Some (Executor.message err)))).

Definition MEDIA_DIR : string := "/tmp/imsg_media/".

(** [ensureMediaDirExists()] *)
Definition ensureMediaDirExists (e : env) : M (list obs) Executor.error unit :=
  try_catch
    (observe (Made MEDIA_DIR) ;;;
     match fs_mkdir e MEDIA_DIR with
     | None => ret tt
     | Some err => throw err
     end)
    (fun err => logger "error" "Failed to create media directory" ;;; throw err).

(** [mimeExtensionMap[mimeType] || '.bin'], as the template literal
    of the file name shows it.  The ten entries of the literal come
    first; a key that is not among them is looked up in
    [Object.prototype]; [null] and [undefined] are looked up as the keys
    of those names and find nothing. *)
Definition mime_extension (e : env) (mimeType : option string) : string :=
  match mimeType with
  | None => ".bin"
  | Some mimeType =>
      if String.eqb mimeType "image/jpeg" then ".jpg"
      else if String.eqb mimeType "image/png" then ".png"
      else if String.eqb mimeType "image/gif" then ".gif"
      else if String.eqb mimeType "image/heic" then ".heic"
      else if String.eqb mimeType "image/heif" then ".heif"
      else if String.eqb mimeType "video/mp4" then ".mp4"
      else if String.eqb mimeType "video/quicktime" then ".mov"
      else if String.eqb mimeType "audio/mpeg" then ".mp3"
      else if String.eqb mimeType "audio/mp4" then ".m4a"
      else if String.eqb mimeType "audio/x-m4a" then ".m4a"
      else match inherited e mimeType with
           | Some shown => shown
           | None => ".bin"
           end
  end.

(** [generateUniqueFilename(originalUrl, mimeType)] *)
Definition generateUniqueFilename (e : env) (originalUrl : string)
    (mimeType : option string) : string :=
  let extension :=
    match extname e originalUrl with
    | EmptyString => mime_extension e mimeType
    | extension => extension
    end in
  (unique e ++ extension)%string.

(** What [downloadAndValidateMedia] returns:
    [{ success, filePath }], [{ success, ...validationResult }] or
    [{ success, reason, error }]. *)
Record download : Type := mkDownload {
  success : bool;
  filePath : option string;
  reason : option string;
  size : option Z;
  error : option string }.

(** [downloadAndValidateMedia(mediaUrl, mediaType)] *)
Definition downloadAndValidateMedia (e : env) (mediaUrl : string)
    (mediaType : option string) : M (list obs) Executor.error download :=
  try_catch
    (ensureMediaDirExists e ;;;
     let filename := generateUniqueFilename e mediaUrl mediaType in
     let filePath := path_join e MEDIA_DIR filename in
     logger "info" "Downloading media file" ;;;
     observe (Downloaded mediaUrl filePath) ;;;
     match downloadFile e mediaUrl filePath with
     | None => ret tt
     | Some err => throw err
     end ;;;
     validationResult <- validateMediaFile e filePath mediaType ;;
     if negb (valid validationResult) then
       logger "error" "Media validation failed" ;;;
       observe (Removed filePath) ;;;
       match fs_unlink e filePath with
       | None => ret tt
       | Some err => logger "error" "Failed to delete invalid media file"
       end ;;;
       ret (mkDownload false None (v_reason validationResult)
              (v_size validationResult) (v_error validationResult))
     else ret (mkDownload true (Some filePath) None None None))
    (fun err =>
       logger "error" "Media download failed" ;;;
       ret (mkDownload false None (Some "DOWNLOAD_FAILED"%string) None
              (Some (Executor.message err)))).

Definition removed (tr : list obs) : list string :=
  flat_map (fun o => match o with Removed p => [p] | _ => [] end) tr.

End Media.

(* ================================================================== *)
(** * Thread synchronisation ([syncThreads])                           *)
(* ================================================================== *)

Module Threads.
Import Eff Eff.Notations.

(** A row of the query of [getChatThreads]. *)
Record chat : Type := mkChat {
  chat_id : Z;
  chat_guid : string;
  display_name : option string;
  chat_identifier : string;
  service_name : string;
  chat_style : Z }.

(** A row of the query of [getChatParticipants], with the two columns
    that are used. *)
Record participant : Type := mkParticipant {
  identifier : string;
  p_service_name : string }.

(** [threadData], without [last_synced]. *)
Record thread_data : Type := mkThreadData {
  td_chat_guid : string;
  td_display_name : option string;
  td_chat_identifier : string;
  td_service_name : string;
  is_group : bool;
  participants : list (string * string) }.

(** [await supabaseClient.from('threads').select('id').eq(...)
    .maybeSingle()]: a row, no row, an [error], or a rejected promise. *)
Inductive lookup : Type :=
| Found (id : string)
| NotFound
| LookupError (error : string)
| LookupRejected (error : string).

(** The answer to an [update] or an [insert]. *)
Inductive written : Type :=
| Written
| WriteError (error : string)
| WriteRejected (error : string).

Record env : Type := mkEnv {
  getChatThreads : list chat + string;
  getChatParticipants : Z -> list participant + string;
  maybeSingle : string -> lookup;
  update : string -> thread_data -> written;
  insert : thread_data -> written }.

(** The rows written to [threads], and the log. *)
Inductive obs : Type :=
| Updated (id : string) (d : thread_data)
| InsertedRow (d : thread_data)
| Logged (level msg : string).

Record locals : Type := mkLocals {
  inserted : nat;
  updated : nat;
  failed : nat }.

(** [{ total, inserted, updated, failed }] *)
Record results : Type := mkResults {
  r_total : nat;
  r_inserted : nat;
  r_updated : nat;
  r_failed : nat }.

Definition observe (o : obs) : M (locals * list obs) string unit :=
  modify (fun s => (fst s, snd s ++ [o])).

Definition logger (level msg : string) : M (locals * list obs) string unit :=
  observe (Logged level msg).

Definition log_outer (level msg : string) : M (list obs) string unit :=
  modify (fun tr => tr ++ [Logged level msg]).

Definition update_locals (f : locals -> locals)
    : M (locals * list obs) string unit :=
  modify (fun s => (f (fst s), snd s)).

Definition fail_one : M (locals * list obs) string unit :=
  update_locals (fun l => mkLocals (inserted l) (updated l) (S (failed l))).

(** [thread.display_name || null] *)
Definition or_null (s : option string) : option string :=
  match s with
  | Some (String _ _) => s
  | _ => None
  end.

Definition threadData (t : chat) (ps : list participant) : thread_data :=
  mkThreadData (chat_guid t) (or_null (display_name t)) (chat_identifier t)
               (service_name t) (chat_style t =? 43)%Z
               (map (fun p => (identifier p, p_service_name p)) ps).

(** The body of [for (const thread of chatThreads)]. *)
Definition process_thread (e : env) (t : chat) : M (locals * list obs) string unit :=
  try_catch
    (ps <- match getChatParticipants e (chat_id t) with
           | inl ps => ret ps
           | inr error => logger "error" "Error querying chat.db" ;;; throw error
           end ;;
     match maybeSingle e (chat_guid t) with
     | LookupRejected error => throw error
     | LookupError _ =>
         logger "error" "Error checking for existing thread" ;;;
         fail_one
     | Found id =>
         match update e id (threadData t ps) with
         | WriteRejected error => throw error
         | WriteError _ => logger "error" "Error updating thread" ;;; fail_one
         | Written =>
             observe (Updated id (threadData t ps)) ;;;
             update_locals (fun l =>
               mkLocals (inserted l) (S (updated l)) (failed l))
         end
     | NotFound =>
         match insert e (threadData t ps) with
         | WriteRejected error => throw error
         | WriteError _ => logger "error" "Error inserting thread" ;;; fail_one
         | Written =>
             observe (InsertedRow (threadData t ps)) ;;;
             update_locals (fun l =>
               mkLocals (S (inserted l)) (updated l) (failed l))
         end
     end)
    (fun error => logger "error" "Error processing chat thread" ;;; fail_one).

Fixpoint for_each (e : env) (ts : list chat) : M (locals * list obs) string unit :=
  match ts with
  | [] => ret tt
  | t :: rest => process_thread e t ;;; for_each e rest
  end.

Definition with_locals (l0 : locals) (m : M (locals * list obs) string unit)
    : M (list obs) string locals :=
  fun tr => match m (l0, tr) with
            | (Ok _, (l, tr')) => (Ok l, tr')
            | (Throw error, (_, tr')) => (Throw error, tr')
            end.

(** [syncThreads()] *)
Definition syncThreads (e : env) : M (list obs) string results :=
  try_catch
    (log_outer "info" "Starting chat thread synchronization" ;;;
     chatThreads <- match getChatThreads e with
                    | inl rows => ret rows
                    | inr error =>
                        log_outer "error" "Error querying chat.db" ;;;
                        throw error
                    end ;;
     log_outer "info" "Found chat threads in chat.db" ;;;
     l <- with_locals (mkLocals 0 0 0) (for_each e chatThreads) ;;
     log_outer "info" "Chat thread synchronization complete" ;;;
     ret (mkResults (length chatThreads) (inserted l) (updated l) (failed l)))
    (fun error =>
       log_outer "error" "Thread synchronization failed" ;;;
       throw error).

Definition inserts (tr : list obs) : list thread_data :=
  flat_map (fun o => match o with InsertedRow d => [d] | _ => [] end) tr.

Definition updates (tr : list obs) : list (string * thread_data) :=
  flat_map (fun o => match o with Updated id d => [(id, d)] | _ => [] end) tr.

End Threads.

(* ================================================================== *)
(** * Facts about the queue                                            *)
(* ================================================================== *)

Module QueueFacts.
Import AppleScriptQueue.

Lemma existsb_eqb_In (w : nat) (l : list nat) :
  existsb (Nat.eqb w) l = true <-> In w l.
Proof.
  rewrite existsb_exists. split.
  - intros [x [Hx He]]. apply Nat.eqb_eq in He. now subst.
  - intros H. exists w. split; [assumption | apply Nat.eqb_refl].
Qed.

Lemma existsb_eqb_not_In (w : nat) (l : list nat) :
  existsb (Nat.eqb w) l = false <-> ~ In w l.
Proof.
  rewrite <- existsb_eqb_In. destruct (existsb (Nat.eqb w) l); split; congruence.
Qed.

Ltac break_state s :=
  destruct s as [q pr mu st rs rn rt nh np tm lg]; cbn [queue processing mutex
    settled reactions running returned next_handle next_promise now log] in *.

Lemma fold_emit_fields (f : task -> effect) (l : list task) (s : state) :
  let s' := fold_left (fun acc t => emit (f t) acc) l s in
  queue s' = queue s /\ processing s' = processing s /\ mutex s' = mutex s /\
  settled s' = settled s /\ reactions s' = reactions s /\
  running s' = running s /\ returned s' = returned s /\
  next_handle s' = next_handle s /\ next_promise s' = next_promise s /\
  now s' = now s /\
  log s' = log s ++ map (fun t => (now s, f t)) l.
Proof.
  revert s. induction l as [|t l IH]; intros s; cbn.
  - rewrite app_nil_r. tauto.
  - specialize (IH (emit (f t) s)). cbn in IH.
    destruct IH as (H1 & H2 & H3 & H4 & H5 & H6 & H7 & H8 & H9 & H10 & H11).
    rewrite H1, H2, H3, H4, H5, H6, H7, H8, H9, H10, H11.
    rewrite <- app_assoc. cbn. tauto.
Qed.

Lemma shape_processQueue_after (s : state) (p : nat) :
  reactions s = [] -> running s = [] -> returned s = [] ->
  mutex s = p -> ~ In p (settled s) -> promises_bounded s ->
  let s2 := processQueue s in
  shape (mkState (queue s2) (processing s2) (mutex s2) (settled s2)
           (reactions s2) (running s2) (returned s2 ++ [p])
           (next_handle s2) (next_promise s2) (now s2) (log s2)).
Proof.
  intros Hr Hn Ht Hm Hp [Hb1 Hb2]. break_state s. subst.
  unfold processQueue; cbn. destruct q as [|t q']; cbn.
  - apply Winding; cbn; auto.
  - apply Waiting with (w := p) (t := t) (p := np); cbn; auto.
    + intros H. specialize (Hb2 np). rewrite app_nil_r in Hb2.
      apply Hb2 in H. lia.
    + lia.
Qed.

Ltac bounded_tac :=
  match goal with
  | Hb : forall p, In p _ -> p < _ |- _ =>
      let x := fresh "x" in let Hx := fresh "Hx" in
      intros x Hx; try (apply Nat.lt_lt_succ_r); apply Hb;
      rewrite ?in_app_iff in *; cbn in *; intuition
  end.

Lemma step_shape (s s' : state) (e : event) :
  shape s -> promises_bounded s -> step s e = Some s' ->
  shape s' /\ promises_bounded s'.
Proof.
  intros Hs Hb Hstep.
  destruct e as [n ps | sc | r | | h o | | d]; cbn in Hstep.
  - (* enqueue *)
    injection Hstep as <-. destruct Hb as [Hb1 Hb2].
    unfold enqueue, push, processQueue. break_state s.
    destruct Hs; cbn in *; subst; cbn.
    + split; [|split; cbn; [lia | bounded_tac]].
      apply Ready with (w := mu) (t := mkTask nh (Script n ps) 0 3) (p := np);
        cbn; auto. intros H; specialize (Hb2 np); rewrite app_nil_r in Hb2;
        apply Hb2 in H; lia.
    + split; [|split; cbn; [lia | bounded_tac]].
      apply Waiting with (w := mu) (t := mkTask nh (Script n ps) 0 3) (p := np);
        cbn; auto; try lia.
      intros H; specialize (Hb2 np); rewrite in_app_iff in Hb2;
        specialize (Hb2 (or_introl H)); lia.
    + split; [|split; cbn; auto]. eapply Waiting; cbn; eauto.
    + split; [|split; cbn; auto]. eapply Ready; cbn; eauto.
    + split; [|split; cbn; auto]. eapply Executing; cbn; eauto.
  - (* enqueueInline *)
    injection Hstep as <-. destruct Hb as [Hb1 Hb2].
    unfold enqueueInline, push, processQueue. break_state s.
    destruct Hs; cbn in *; subst; cbn.
    + split; [|split; cbn; [lia | bounded_tac]].
      apply Ready with (w := mu) (t := mkTask nh (InlineScript sc) 0 3) (p := np);
        cbn; auto. intros H; specialize (Hb2 np); rewrite app_nil_r in Hb2;
        apply Hb2 in H; lia.
    + split; [|split; cbn; [lia | bounded_tac]].
      apply Waiting with (w := mu) (t := mkTask nh (InlineScript sc) 0 3) (p := np);
        cbn; auto; try lia.
      intros H; specialize (Hb2 np); rewrite in_app_iff in Hb2;
        specialize (Hb2 (or_introl H)); lia.
    + split; [|split; cbn; auto]. eapply Waiting; cbn; eauto.
    + split; [|split; cbn; auto]. eapply Ready; cbn; eauto.
    + split; [|split; cbn; auto]. eapply Executing; cbn; eauto.
  - (* clearQueue *)
    injection Hstep as <-. unfold clearQueue.
    destruct (0 <? length (queue s)) eqn:Hq; [|auto].
    pose proof (fold_emit_fields
      (fun t => Reject (handle t)
         (cancelled match r with Some r0 => r0 | None => "unknown"%string end))
      (queue s) s) as F. cbn zeta in F.
    destruct F as (F1 & F2 & F3 & F4 & F5 & F6 & F7 & F8 & F9 & F10 & F11).
    set (s1 := fold_left _ (queue s) s) in *.
    split.
    + destruct Hs as [? ? ? ? ? H4 | ? ? ? ? ? H4 | | | ].
      * rewrite H4 in Hq. discriminate.
      * rewrite H4 in Hq. discriminate.
      * eapply Waiting; cbn; try rewrite F3; try rewrite F4; try rewrite F5;
          try rewrite F6; try rewrite F7; try rewrite F2; eauto.
      * eapply Ready; cbn; try rewrite F3; try rewrite F4; try rewrite F5;
          try rewrite F6; try rewrite F7; try rewrite F2; eauto.
      * eapply Executing; cbn; try rewrite F3; try rewrite F4; try rewrite F5;
          try rewrite F6; try rewrite F7; try rewrite F2; eauto.
    + unfold promises_bounded in *; cbn. rewrite F3, F4, F7, F9. exact Hb.
  - (* start_callback *)
    unfold start_callback in Hstep. destruct Hb as [Hb1 Hb2].
    break_state s.
    destruct Hs as [ | | ? ? ? ? ? ? H2 | ? ? ? ? ? ? H2 | ];
      cbn in *; subst; cbn in Hstep; try discriminate.
    + apply existsb_eqb_not_In in H2. rewrite H2 in Hstep. discriminate.
    + apply existsb_eqb_In in H2. rewrite H2 in Hstep.
      injection Hstep as <-. split; [|split; cbn; auto].
      eapply Executing; cbn; eauto.
  - (* resume_callback *)
    unfold resume_callback in Hstep.
    destruct (take_running h (running s)) as [[[t p] rest]|] eqn:Htr;
      [|discriminate].
    injection Hstep as <-.
    destruct Hs as [? H1 | ? H1 | ? ? ? ? H1 | ? ? ? ? H1 | t0 p0 H0 H1 H2 H3 H4 H5];
      try (rewrite H1 in Htr; discriminate).
    rewrite H1 in Htr. cbn in Htr.
    destruct (handle t0 =? h); [|discriminate]. injection Htr as <- <- <-.
    set (s1 := settle_task _ _ _).
    assert (K : reactions s1 = [] /\ running s1 = [] /\ returned s1 = [] /\
                mutex s1 = p0 /\ settled s1 = settled s /\
                next_promise s1 = next_promise s).
    { unfold s1, settle_task. destruct o; [cbn; tauto|].
      destruct (attempts t0 <? maxAttempts t0); cbn; tauto. }
    destruct K as (K1 & K2 & K3 & K4 & K5 & K6).
    assert (Hb' : promises_bounded s1).
    { unfold promises_bounded. rewrite K3, K4, K5, K6, <- H3, <- H2. exact Hb. }
    split.
    + apply shape_processQueue_after; auto. rewrite K5. exact H4.
    + unfold promises_bounded in *. cbn.
      destruct Hb' as [B1 B2]. rewrite K3, app_nil_r in B2.
      unfold processQueue. destruct (queue s1); cbn; rewrite K3; cbn.
      * split; [lia|]. intros x Hx. rewrite in_app_iff in Hx; cbn in Hx.
        destruct Hx as [Hx|[<-|[]]]; [auto | lia].
      * split; [lia|]. intros x Hx. rewrite in_app_iff in Hx; cbn in Hx.
        destruct Hx as [Hx|[<-|[]]]; [apply B2 in Hx; lia | lia].
  - (* settle_promise *)
    unfold settle_promise in Hstep. destruct Hb as [Hb1 Hb2].
    break_state s. destruct Hs; cbn in *; subst; try discriminate;
      injection Hstep as <-.
    + split; [|split; cbn; auto; bounded_tac].
      apply Idle; cbn; auto.
    + split; [|split; cbn; auto; bounded_tac].
      eapply Ready; cbn; eauto. intros [E|E]; [congruence|contradiction].
  - (* elapse *)
    unfold elapse in Hstep.
    destruct ((0 <? d)%Z && negb (microtask_pending s)); [|discriminate].
    injection Hstep as <-. break_state s. split; [|exact Hb].
    destruct Hs; cbn in *; subst;
      [ apply Idle | apply Winding | eapply Waiting | eapply Ready
      | eapply Executing ]; cbn; eauto.
Qed.

(** ** Reading a log that grows at its end *)

Lemma next_invoke_app (l1 l2 : list (Z * effect)) :
  next_invoke (l1 ++ l2) =
  match next_invoke l1 with Some r => Some r | None => next_invoke l2 end.
Proof.
  induction l1 as [|[tm e] l1 IH]; cbn; [reflexivity|].
  destruct e; auto.
Qed.

Lemma next_invoke_quiet (l : list (Z * effect)) :
  Forall quiet l -> next_invoke l = None.
Proof.
  induction 1 as [|[tm e] l Hq _ IH]; cbn; [reflexivity|].
  destruct e; cbn in Hq; tauto.
Qed.

Lemma retry_gaps_no_invoke (l : list (Z * effect)) :
  next_invoke l = None -> retry_gaps l = [].
Proof.
  induction l as [|[tm e] l IH]; cbn; [reflexivity|].
  destruct e; try discriminate; intros H; rewrite ?H; auto.
Qed.

Lemma retry_gaps_quiet (l l2 : list (Z * effect)) :
  Forall quiet l2 -> retry_gaps (l ++ l2) = retry_gaps l.
Proof.
  intros Hq. induction l as [|[tm e] l IH]; cbn.
  - apply retry_gaps_no_invoke, next_invoke_quiet, Hq.
  - destruct e; auto. rewrite next_invoke_app, (next_invoke_quiet Hq), IH.
    destruct (next_invoke l) as [[? ?]|]; reflexivity.
Qed.

Lemma trailing_retries_quiet (l l2 : list (Z * effect)) :
  Forall quiet l2 -> trailing_retries (l ++ l2) = trailing_retries l.
Proof.
  intros Hq. induction l as [|[tm e] l IH]; cbn.
  - induction Hq as [|[tm e] l2 H _ IH2]; cbn; [reflexivity|].
    destruct e; cbn in H; tauto.
  - destruct e; auto. rewrite next_invoke_app, (next_invoke_quiet Hq), IH.
    destruct (next_invoke l) as [[? ?]|]; reflexivity.
Qed.

Lemma retry_gaps_retry (l : list (Z * effect)) (tm : Z) (h a : nat) :
  retry_gaps (l ++ [(tm, Retry h a)]) = retry_gaps l.
Proof.
  induction l as [|[tm' e] l IH]; cbn; [reflexivity|].
  destruct e; auto. rewrite next_invoke_app, IH. cbn.
  destruct (next_invoke l) as [[? ?]|]; reflexivity.
Qed.

Lemma trailing_retries_retry (l : list (Z * effect)) (tm : Z) (h a : nat) :
  trailing_retries (l ++ [(tm, Retry h a)]) = trailing_retries l ++ [(tm, h, a)].
Proof.
  induction l as [|[tm' e] l IH]; cbn; [reflexivity|].
  destruct e; auto. rewrite next_invoke_app, IH. cbn.
  destruct (next_invoke l) as [[? ?]|]; reflexivity.
Qed.

Lemma trailing_retries_invoke (l : list (Z * effect)) (tm : Z) (h a : nat) :
  trailing_retries (l ++ [(tm, Invoke h a)]) = [].
Proof.
  induction l as [|[tm' e] l IH]; cbn; [reflexivity|].
  destruct e; auto. rewrite next_invoke_app, IH. cbn.
  destruct (next_invoke l) as [[? ?]|]; reflexivity.
Qed.

Lemma retry_gaps_invoke (l : list (Z * effect)) (tm : Z) (h a : nat) :
  retry_gaps (l ++ [(tm, Invoke h a)]) =
  retry_gaps l ++
  map (fun r => mkGap (snd (fst r)) (snd r) h (tm - fst (fst r)))
      (trailing_retries l).
Proof.
  induction l as [|[tm' e] l IH]; cbn; [reflexivity|].
  destruct e; auto. rewrite next_invoke_app, IH. cbn.
  destruct (next_invoke l) as [[? ?]|] eqn:E; [reflexivity|].
  rewrite (retry_gaps_no_invoke _ E). reflexivity.
Qed.

Lemma retry_gaps_suffix (l1 l2 : list (Z * effect)) (g : gap) :
  In g (retry_gaps l2) -> In g (retry_gaps (l1 ++ l2)).
Proof.
  intros H. induction l1 as [|[tm e] l1 IH]; cbn; [assumption|].
  destruct e; auto. destruct (next_invoke (l1 ++ l2)) as [[? ?]|]; cbn; auto.
Qed.

(** ** The tasks in flight and in the queue *)

Lemma StronglySorted_snoc (l : list nat) (y : nat) :
  StronglySorted lt l -> (forall x, In x l -> x < y) ->
  StronglySorted lt (l ++ [y]).
Proof.
  induction 1 as [|a l Hs IH Ha]; intros Hy; cbn.
  - constructor; constructor.
  - constructor.
    + apply IH. intros x Hx. apply Hy. now right.
    + apply Forall_app. split; [assumption|].
      constructor; [|constructor]. apply Hy. now left.
Qed.

Lemma StronglySorted_tail (a : nat) (l : list nat) :
  StronglySorted lt (a :: l) -> StronglySorted lt l.
Proof. intros H. now inversion H. Qed.

Lemma StronglySorted_head (a : nat) (l : list nat) :
  StronglySorted lt (a :: l) -> forall x, In x l -> a < x.
Proof.
  intros H. inversion H as [|? ? _ Hall]; subst.
  now apply Forall_forall.
Qed.

Lemma StronglySorted_drop_second (a b : nat) (l : list nat) :
  StronglySorted lt (a :: b :: l) -> StronglySorted lt (a :: l).
Proof.
  intros H. inversion H as [|? ? H1 H2]; subst.
  inversion H1; subst. inversion H2; subst. now constructor.
Qed.

Lemma tasks_ok_enqueue (s : state) (b : payload) :
  shape s -> tasks_ok s ->
  let s1 := push (mkTask (next_handle s) b 0 3) s in
  tasks_ok (if processing s1 then s1 else processQueue s1).
Proof.
  intros Hs [T1 T2 T3 T4]. unfold push, processQueue, live in *.
  break_state s.
  destruct Hs; cbn in *; subst; cbn in *.
  1,2: constructor; unfold live; cbn;
    [ repeat constructor | intros t [<-|[]]; cbn; lia | tauto
    | intros t [<-|[]]; cbn; lia ].
  all: constructor; unfold live; cbn;
    [ change (handle t :: map handle (q ++ [mkTask nh b 0 3]))
        with (map handle ((t :: q) ++ [mkTask nh b 0 3]));
      rewrite map_app; cbn [map]; apply StronglySorted_snoc; [exact T1|];
      intros x Hx; change (handle t :: map handle q) with (map handle (t :: q)) in Hx;
      apply in_map_iff in Hx; destruct Hx as [t' [<- Ht']]; apply T2; exact Ht'
    | intros t' [<-|Ht'];
      [ specialize (T2 t (or_introl eq_refl)); lia
      | apply in_app_iff in Ht'; destruct Ht' as [Ht'|[<-|[]]];
        [ specialize (T2 t' (or_intror Ht')); lia | cbn; lia ] ]
    | intros t' Ht'; apply in_app_iff in Ht'; destruct Ht' as [Ht'|[<-|[]]];
      [ auto | cbn; auto ]
    | exact T4 ].
Qed.

Lemma tasks_ok_clearQueue (s : state) (r : option string) :
  tasks_ok s -> tasks_ok (clearQueue r s).
Proof.
  intros [T1 T2 T3 T4]. unfold clearQueue.
  destruct (0 <? length (queue s)); [|constructor; assumption].
  match goal with |- context [fold_left ?f (queue s) s] =>
    pose proof (fold_emit_fields
      (fun t => Reject (handle t)
         (cancelled match r with Some r0 => r0 | None => "unknown"%string end))
      (queue s) s) as F; cbn zeta in F;
    set (s1 := fold_left f (queue s) s) in *
  end.
  destruct F as (F1 & F2 & F3 & F4 & F5 & F6 & F7 & F8 & F9 & F10 & F11).
  assert (L : forall t, In t (live s) -> In t (live s ++ queue s))
    by (intros; apply in_app_iff; now left).
  constructor; unfold live in *; cbn; rewrite ?F5, ?F6, ?F8, ?app_nil_r.
  - rewrite map_app in T1. clear - T1.
    induction (map handle (map (fun r : reaction => snd (fst r)) (reactions s) ++
                           map fst (running s))) as [|a l IH]; cbn in *.
    + constructor.
    + inversion T1; subst. constructor; [auto|].
      apply Forall_app in H2. tauto.
  - intros t Ht. apply T2, L, Ht.
  - intros t [].
  - exact T4.
Qed.

Lemma tasks_ok_start (s s' : state) :
  shape s -> tasks_ok s -> start_callback s = Some s' -> tasks_ok s'.
Proof.
  intros Hs [T1 T2 T3 T4] Hstep. unfold start_callback, live in *.
  break_state s.
  destruct Hs as [ | | ? ? ? ? ? ? H2 | ? ? ? ? ? ? H2 | ];
    cbn in *; subst; cbn in Hstep; try discriminate.
  - apply existsb_eqb_not_In in H2. rewrite H2 in Hstep. discriminate.
  - apply existsb_eqb_In in H2. rewrite H2 in Hstep. injection Hstep as <-.
    constructor; unfold live; cbn; assumption.
Qed.

Lemma tasks_ok_frame (s s' : state) :
  queue s' = queue s -> reactions s' = reactions s -> running s' = running s ->
  next_handle s' = next_handle s -> tasks_ok s -> tasks_ok s'.
Proof.
  intros E1 E2 E3 E4 [T1 T2 T3 T4].
  constructor; unfold live in *; rewrite ?E1, ?E2, ?E3, ?E4; assumption.
Qed.

Lemma tasks_ok_resume (s s' : state) (h : nat) (o : outcome) :
  shape s -> tasks_ok s -> resume_callback h o s = Some s' -> tasks_ok s'.
Proof.
  intros Hs [T1 T2 T3 T4] Hstep. unfold resume_callback, live in *.
  break_state s.
  destruct Hs as [ | | | | t p ]; cbn in *; subst; cbn in *;
    try discriminate.
  destruct (handle t =? h); [|discriminate]. injection Hstep as <-.
  assert (Next : tasks_ok (mkState (tl q) true p st
                match q with [] => [] | t0 :: _ => [(p, t0, np)] end
                [] [] nh np tm [])).
  { destruct q as [|t2 q']; constructor; unfold live; cbn.
    - constructor.
    - intros ? [].
    - intros ? [].
    - intros ? [].
    - eapply StronglySorted_tail, T1.
    - intros t' Ht'. apply T2. now right.
    - intros t' Ht'. apply T3. now right.
    - intros t' [E|[]]. subst t'. destruct (T3 t2 (or_introl eq_refl)). lia. }
  unfold settle_task. destruct o as [r|e].
  - destruct q; cbn; (eapply tasks_ok_frame; [..|exact Next]; reflexivity).
  - destruct (attempts t <? maxAttempts t) eqn:Hlt.
    + cbn. constructor; unfold live; cbn.
      * exact T1.
      * intros t' [<-|Ht']; [apply (T2 t); now left | apply T2; now right].
      * exact T3.
      * intros t' [E|[]]. subst t'. cbn. apply Nat.ltb_lt in Hlt.
        destruct (T4 t (or_introl eq_refl)). lia.
    + destruct q; cbn; (eapply tasks_ok_frame; [..|exact Next]; reflexivity).
Qed.

Lemma step_tasks (s s' : state) (e : event) :
  shape s -> tasks_ok s -> step s e = Some s' -> tasks_ok s'.
Proof.
  intros Hs Ht Hstep. destruct e as [n ps | sc | r | | h o | | d]; cbn in Hstep.
  - injection Hstep as <-. apply (tasks_ok_enqueue (Script n ps) Hs Ht).
  - injection Hstep as <-. apply (tasks_ok_enqueue (InlineScript sc) Hs Ht).
  - injection Hstep as <-. apply tasks_ok_clearQueue, Ht.
  - eapply tasks_ok_start; eauto.
  - eapply tasks_ok_resume; eauto.
  - unfold settle_promise in Hstep. destruct (returned s); [discriminate|].
    injection Hstep as <-. eapply tasks_ok_frame; [..|exact Ht]; reflexivity.
  - unfold elapse in Hstep.
    destruct ((0 <? d)%Z && negb (microtask_pending s)); [|discriminate].
    injection Hstep as <-. eapply tasks_ok_frame; [..|exact Ht]; reflexivity.
Qed.

(** ** What the log records *)

Lemma log_ok_frame (s s' : state) :
  queue s' = queue s -> reactions s' = reactions s -> log s' = log s ->
  next_handle s' = next_handle s -> now s' = now s -> log_ok s -> log_ok s'.
Proof.
  intros E1 E2 E3 E4 E5 [G1 G2 G3 G4].
  constructor; unfold retry_is_next in *; rewrite ?E1, ?E2, ?E3, ?E4, ?E5;
    assumption.
Qed.

Lemma no_reaction_no_trailing (s : state) :
  retry_is_next s -> reactions s = [] -> trailing_retries (log s) = [].
Proof.
  unfold retry_is_next. intros H E.
  destruct (trailing_retries (log s)) as [|[[tm h] a] [|x l]]; auto.
  - destruct H as [_ (w & t & p & E' & _)]. congruence.
  - contradiction.
Qed.

Lemma log_ok_enqueue (s : state) (b : payload) :
  shape s -> log_ok s ->
  let s1 := push (mkTask (next_handle s) b 0 3) s in
  log_ok (if processing s1 then s1 else processQueue s1).
Proof.
  intros Hs [G1 G2 G3 G4].
  assert (N := @no_reaction_no_trailing _ G3).
  unfold push, processQueue, retry_is_next in *. break_state s.
  destruct Hs; cbn in *; subst; cbn in *.
  1,2: constructor; unfold retry_is_next; cbn;
    [ intros tm0 e He; apply G1 in He; lia | intros ? ? ? ? _ []
    | rewrite (N eq_refl); exact I | exact G4 ].
  all: constructor; unfold retry_is_next; cbn;
    [ intros tm0 e He; apply G1 in He; lia
    | intros tm0 h a t' Hi Ht'; apply in_app_iff in Ht';
      destruct Ht' as [Ht'|[<-|[]]];
      [ eapply G2; eauto | cbn; apply (G1 _ _ Hi) ]
    | exact G3 | exact G4 ].
Qed.

Lemma log_ok_clearQueue (s : state) (r : option string) :
  tasks_ok s -> log_ok s -> log_ok (clearQueue r s).
Proof.
  intros [T1 T2 T3 T4] [G1 G2 G3 G4]. unfold clearQueue.
  destruct (0 <? length (queue s)); [|constructor; assumption].
  match goal with |- context [fold_left ?f (queue s) s] =>
    pose proof (fold_emit_fields
      (fun t => Reject (handle t)
         (cancelled match r with Some r0 => r0 | None => "unknown"%string end))
      (queue s) s) as F; cbn zeta in F;
    set (s1 := fold_left f (queue s) s) in *
  end.
  destruct F as (F1 & F2 & F3 & F4 & F5 & F6 & F7 & F8 & F9 & F10 & F11).
  assert (Q : Forall quiet (map (fun t => (now s, Reject (handle t)
      (cancelled match r with Some r0 => r0 | None => "unknown"%string end)))
      (queue s))).
  { apply Forall_forall. intros x Hx. apply in_map_iff in Hx.
    destruct Hx as [t [<- _]]. exact I. }
  constructor; unfold retry_is_next in *; cbn; rewrite ?F5, ?F8, ?F10, ?F11.
  - intros tm e He. apply in_app_iff in He. destruct He as [He|He]; [eauto|].
    apply in_map_iff in He. destruct He as [t [E Ht]]. injection E as _ <-.
    cbn. apply T2. apply in_app_iff. now right.
  - intros ? ? ? ? _ [].
  - rewrite (trailing_retries_quiet _ Q). exact G3.
  - rewrite (retry_gaps_quiet _ Q). exact G4.
Qed.

Lemma log_ok_start (s s' : state) :
  shape s -> tasks_ok s -> log_ok s -> start_callback s = Some s' -> log_ok s'.
Proof.
  intros Hs [T1 T2 T3 T4] [G1 G2 G3 G4] Hstep.
  unfold start_callback, live, retry_is_next in *. break_state s.
  destruct Hs as [ | | ? ? ? ? ? ? H2 | w t p ? ? ? H2 | ];
    cbn in *; subst; cbn in *; try discriminate.
  - apply existsb_eqb_not_In in H2. rewrite H2 in Hstep. discriminate.
  - apply existsb_eqb_In in H2. rewrite H2 in Hstep. injection Hstep as <-.
    constructor; unfold retry_is_next; cbn.
    + intros tm0 e He. apply in_app_iff in He.
      destruct He as [He|[E|[]]]; [eauto|]. injection E as _ <-. cbn.
      apply T2. now left.
    + intros tm0 h a t' Hi Ht'. apply in_app_iff in Hi.
      destruct Hi as [Hi|[E|[]]]; [eauto|]. injection E as _ <- _.
      eapply StronglySorted_head; [exact T1|]. now apply in_map.
    + now rewrite trailing_retries_invoke.
    + rewrite retry_gaps_invoke. apply Forall_app. split; [exact G4|].
      destruct (trailing_retries lg) as [|[[tm0 h0] a0] [|x l]];
        [constructor | | contradiction].
      destruct G3 as [-> (w' & t' & p' & E & <- & <-)].
      injection E as <- <- <-. constructor; [|constructor].
      split; cbn; [reflexivity | lia].
Qed.

Lemma log_ok_resume (s s' : state) (h : nat) (o : outcome) :
  shape s -> tasks_ok s -> log_ok s -> resume_callback h o s = Some s' ->
  log_ok s'.
Proof.
  intros Hs [T1 T2 T3 T4] [G1 G2 G3 G4] Hstep.
  assert (N := @no_reaction_no_trailing _ G3).
  unfold resume_callback, live, retry_is_next in *. break_state s.
  destruct Hs as [ | | | | t p ]; cbn in *; subst; cbn in *;
    try discriminate.
  destruct (handle t =? h); [|discriminate]. injection Hstep as <-.
  specialize (N eq_refl).
  assert (Next : forall x, quiet (tm, x) -> effect_handle x = handle t ->
    log_ok (mkState (tl q) true p st
              match q with [] => [] | t0 :: _ => [(p, t0, np)] end
              [] [] nh np tm (lg ++ [(tm, x)]))).
  { intros x Hq Hx.
    assert (Q : Forall quiet [(tm, x)]) by (constructor; [exact Hq|constructor]).
    constructor; unfold retry_is_next; cbn.
    - intros tm0 e He. apply in_app_iff in He.
      destruct He as [He|[E|[]]]; [eauto|]. injection E as _ <-.
      rewrite Hx. apply T2. now left.
    - intros tm0 h0 a0 t' Hi Ht'. apply in_app_iff in Hi.
      destruct Hi as [Hi|[E|[]]].
      + eapply G2; [exact Hi|]. destruct q; [destruct Ht' | now right].
      + injection E as _ E. subst x. cbn in Hq. contradiction.
    - rewrite (trailing_retries_quiet _ Q), N. exact I.
    - rewrite (retry_gaps_quiet _ Q). exact G4. }
  unfold settle_task. destruct o as [r|e].
  - destruct q; cbn;
      (eapply log_ok_frame; [..|apply (Next (Resolve (handle t) r) I eq_refl)];
       reflexivity).
  - destruct (attempts t <? maxAttempts t) eqn:Hlt.
    + cbn. constructor; unfold retry_is_next; cbn.
      * intros tm0 e0 He. apply in_app_iff in He.
        destruct He as [He|[E|[]]]; [eauto|]. injection E as _ <-.
        cbn. apply T2. now left.
      * intros tm0 h0 a0 t' Hi Ht'. apply in_app_iff in Hi.
        destruct Hi as [Hi|[E|[]]]; [eauto | discriminate].
      * rewrite trailing_retries_retry, N. cbn. split; [reflexivity|].
        exists p, (bump t), np. auto.
      * rewrite retry_gaps_retry. exact G4.
    + destruct q; cbn;
        (eapply log_ok_frame; [..|apply (Next (Reject (handle t) e) I eq_refl)];
         reflexivity).
Qed.

Lemma waiting_microtask (s : state) :
  shape s -> reactions s <> [] -> microtask_pending s = true.
Proof.
  intros Hs Hr. unfold microtask_pending.
  destruct Hs as [H|H|w t p H ? E|w t p H ? ? Hw|H]; try congruence.
  - rewrite E. reflexivity.
  - rewrite H. cbn. apply existsb_eqb_In in Hw. rewrite Hw.
    destruct (returned s); reflexivity.
Qed.

Lemma step_log_ok (s s' : state) (e : event) :
  shape s -> tasks_ok s -> log_ok s -> step s e = Some s' -> log_ok s'.
Proof.
  intros Hs Ht Hl Hstep.
  destruct e as [n ps | sc | r | | h o | | d]; cbn in Hstep.
  - injection Hstep as <-. apply (log_ok_enqueue (Script n ps) Hs Hl).
  - injection Hstep as <-. apply (log_ok_enqueue (InlineScript sc) Hs Hl).
  - injection Hstep as <-. apply log_ok_clearQueue; assumption.
  - eapply log_ok_start; eauto.
  - eapply log_ok_resume; eauto.
  - unfold settle_promise in Hstep. destruct (returned s); [discriminate|].
    injection Hstep as <-. eapply log_ok_frame; [..|exact Hl]; reflexivity.
  - unfold elapse in Hstep.
    destruct (microtask_pending s) eqn:Hm;
      [rewrite andb_false_r in Hstep; discriminate|].
    destruct (0 <? d)%Z; [|discriminate]. injection Hstep as <-.
    assert (Hr : reactions s = []).
    { destruct (reactions s) eqn:E; [reflexivity|].
      rewrite waiting_microtask in Hm; [discriminate|assumption|congruence]. }
    destruct Hl as [G1 G2 G3 G4].
    pose proof (@no_reaction_no_trailing _ G3 Hr) as N.
    constructor; unfold retry_is_next; cbn; auto. rewrite N. exact I.
Qed.

Theorem step_inv (s s' : state) (e : event) :
  inv s -> step s e = Some s' -> inv s'.
Proof.
  intros [Hs Hp Ht Hl] Hstep.
  destruct (step_shape e Hs Hp Hstep) as [Hs' Hp'].
  constructor; [assumption | assumption | |].
  - exact (step_tasks e Hs Ht Hstep).
  - exact (step_log_ok e Hs Ht Hl Hstep).
Qed.

Lemma inv_init : inv init.
Proof.
  constructor.
  - apply Idle; cbn; auto.
  - split; cbn; [lia|]. intros p [<-|[]]. lia.
  - constructor; cbn; [constructor | intros ? [] ..].
  - constructor; unfold retry_is_next; cbn;
      [intros ? ? [] | intros ? ? ? ? [] | exact I | constructor].
Qed.

Lemma run_inv (es : list event) (s s' : state) :
  inv s -> run s es = Some s' -> inv s'.
Proof.
  revert s. induction es as [|e es IH]; cbn; intros s Hi Hr.
  - now injection Hr as <-.
  - destruct (step s e) as [s1|] eqn:E; [|discriminate].
    eapply IH; [eapply step_inv; eauto | exact Hr].
Qed.

Lemma reachable_inv (s : state) : reachable s -> inv s.
Proof. intros [es H]. eapply run_inv; [apply inv_init | exact H]. Qed.

(** ** The log only grows *)

Lemma settle_task_log (t : task) (o : outcome) (s : state) :
  log (settle_task t o s) = log s ++ [(now s, verdict t o)].
Proof.
  unfold settle_task, verdict. destruct o; [reflexivity|].
  destruct (attempts t <? maxAttempts t); reflexivity.
Qed.

Lemma processQueue_log (s : state) : log (processQueue s) = log s.
Proof. unfold processQueue. destruct (queue s); reflexivity. Qed.

Lemma step_log (s s' : state) (e : event) :
  step s e = Some s' -> exists new, log s' = log s ++ new.
Proof.
  destruct e as [n ps | sc | r | | h o | | d]; cbn; intros H.
  - injection H as <-. exists []. rewrite app_nil_r. unfold enqueue. cbn.
    destruct (processing s); [reflexivity | now rewrite processQueue_log].
  - injection H as <-. exists []. rewrite app_nil_r. unfold enqueueInline. cbn.
    destruct (processing s); [reflexivity | now rewrite processQueue_log].
  - injection H as <-. unfold clearQueue.
    destruct (0 <? length (queue s)); [|exists []; now rewrite app_nil_r].
    eexists. cbn. apply fold_emit_fields.
  - unfold start_callback in H.
    destruct (take_ready (settled s) (reactions s)) as [[[[w t] p] rest]|];
      [|discriminate].
    injection H as <-. eexists. reflexivity.
  - unfold resume_callback in H.
    destruct (take_running h (running s)) as [[[t p] rest]|]; [|discriminate].
    injection H as <-. eexists. cbn.
    rewrite processQueue_log, settle_task_log. reflexivity.
  - unfold settle_promise in H. destruct (returned s); [discriminate|].
    injection H as <-. exists []. now rewrite app_nil_r.
  - unfold elapse in H.
    destruct ((0 <? d)%Z && negb (microtask_pending s)); [|discriminate].
    injection H as <-. exists []. now rewrite app_nil_r.
Qed.

Lemma run_log (es : list event) (s s' : state) :
  run s es = Some s' -> exists new, log s' = log s ++ new.
Proof.
  revert s. induction es as [|e es IH]; cbn; intros s H.
  - injection H as <-. exists []. now rewrite app_nil_r.
  - destruct (step s e) as [s1|] eqn:E; [|discriminate].
    destruct (step_log _ _ E) as [n1 E1]. destruct (IH _ H) as [n2 E2].
    exists (n1 ++ n2). now rewrite E2, E1, app_assoc.
Qed.

Lemma run_app (es1 es2 : list event) (s : state) :
  run s (es1 ++ es2) =
  match run s es1 with Some s1 => run s1 es2 | None => None end.
Proof.
  revert s. induction es1 as [|e es1 IH]; cbn; intros s; [reflexivity|].
  destruct (step s e); [apply IH | reflexivity].
Qed.

Lemma reachable_run (es : list event) (s s' : state) :
  reachable s -> run s es = Some s' -> reachable s'.
Proof.
  intros [es0 H0] H. exists (es0 ++ es). now rewrite run_app, H0.
Qed.

Lemma since_app (l new : list (Z * effect)) :
  since (length l) (l ++ new) = new.
Proof.
  unfold since. rewrite skipn_app, skipn_all, Nat.sub_diag. reflexivity.
Qed.

(** ** Counting the calls of the Executor *)

Lemma invocations_app (h : nat) (l1 l2 : list (Z * effect)) :
  invocations h (l1 ++ l2) = invocations h l1 + invocations h l2.
Proof.
  unfold invocations, effects_of.
  now rewrite map_app, !filter_app, length_app.
Qed.

Lemma invocations_none (h : nat) (l : list (Z * effect)) :
  (forall tm h' a, In (tm, Invoke h' a) l -> h' <> h) -> invocations h l = 0.
Proof.
  unfold invocations, effects_of.
  induction l as [|[tm e] l IH]; cbn; intros H; [reflexivity|].
  assert (IH' : length (filter is_invoke
            (filter (fun e0 => effect_handle e0 =? h) (map snd l))) = 0).
  { apply IH. intros tm' h' a Hi. eapply H. right. exact Hi. }
  destruct (effect_handle e =? h) eqn:E; [|exact IH'].
  cbn. destruct e; cbn; try exact IH'.
  apply Nat.eqb_eq in E. cbn in E. exfalso. eapply H; [left; reflexivity | exact E].
Qed.

Lemma invocations_no_invoke (h : nat) (l : list (Z * effect)) :
  next_invoke l = None -> invocations h l = 0.
Proof.
  intros N. apply invocations_none. intros tm h' a Hi. exfalso.
  induction l as [|[tm0 e] l IH]; [destruct Hi|].
  cbn in N. destruct Hi as [E|Hi].
  - injection E as -> ->. discriminate.
  - destruct e; try discriminate; auto.
Qed.

(* ------------------------------------------------------------------ *)
(** ** Serialized execution *)

Lemma shape_running (s : state) : shape s -> length (running s) <= 1.
Proof.
  intros [? H|? H|? ? ? ? H|? ? ? ? H|? ? ? H]; rewrite H; cbn; lia.
Qed.

Lemma start_needs_empty (s s' : state) :
  shape s -> start_callback s = Some s' ->
  running s = [] /\ exists t p, running s' = [(t, p)].
Proof.
  intros Hs H. unfold start_callback in H.
  destruct (take_ready (settled s) (reactions s)) as [[[[w t] p] rest]|] eqn:E;
    [|discriminate].
  injection H as <-. cbn.
  destruct Hs as [R N|R N|w0 t0 p0 R N|w0 t0 p0 R N|t0 p0 R N];
    rewrite R in E; cbn in E; try discriminate; rewrite N; cbn; eauto.
Qed.

(* ------------------------------------------------------------------ *)
(** ** Invocations in the log do not overlap *)

Lemma open_invocation_snoc (l : list (Z * effect)) (x : Z * effect) :
  open_invocation (l ++ [x]) = scan_step (open_invocation l) x.
Proof. unfold open_invocation. now rewrite fold_left_app. Qed.

Lemma scan_cancelled (st : option nat) (tm : Z) (why : string)
    (q : list task) (l : list (Z * effect)) :
  open_invocation l = Some st ->
  (forall h t, st = Some h -> In t q -> handle t <> h) ->
  open_invocation
    (l ++ map (fun t => (tm, Reject (handle t) (cancelled why))) q) = Some st.
Proof.
  intros Hl Hq. unfold open_invocation in *. rewrite fold_left_app, Hl.
  clear Hl. induction q as [|t q IH]; cbn; [reflexivity|].
  destruct st as [h|]; cbn.
  - assert (E : (handle t =? h) = false).
    { apply Nat.eqb_neq. apply Hq; [reflexivity | now left]. }
    rewrite E. apply IH. intros h' t' Hh Ht. apply Hq; [exact Hh | now right].
  - apply IH. intros h' t' Hh. discriminate.
Qed.

Lemma push_then_process (t : task) (s : state) :
  let s2 := if processing s then push t s else processQueue (push t s) in
  log s2 = log s /\ running s2 = running s.
Proof.
  cbn zeta. unfold push, processQueue. cbn.
  destruct (processing s); cbn; [tauto|].
  destruct (queue s ++ [t]); cbn; tauto.
Qed.

Lemma step_serial (s s' : state) (e : event) :
  inv s -> open_invocation (log s) = Some (executing s) ->
  step s e = Some s' ->
  open_invocation (log s') = Some (executing s').
Proof.
  intros Hi Ho Hstep. unfold executing in *.
  destruct e as [n ps | sc | r | | h o | | d]; cbn [step] in Hstep.
  - injection Hstep as <-. unfold enqueue. cbv zeta. cbn [snd].
    destruct (push_then_process (mkTask (next_handle s) (Script n ps) 0 3) s)
      as [E1 E2].
    cbn zeta in E1, E2. now rewrite E1, E2.
  - injection Hstep as <-. unfold enqueueInline. cbv zeta. cbn [snd].
    destruct (push_then_process (mkTask (next_handle s) (InlineScript sc) 0 3) s)
      as [E1 E2].
    cbn zeta in E1, E2. now rewrite E1, E2.
  - injection Hstep as <-. unfold clearQueue.
    destruct (0 <? length (queue s)); [|exact Ho].
    match goal with |- context [fold_left ?f (queue s) s] =>
      pose proof (fold_emit_fields
        (fun t => Reject (handle t)
           (cancelled match r with Some r0 => r0 | None => "unknown"%string end))
        (queue s) s) as F; cbn zeta in F;
      set (s1 := fold_left f (queue s) s) in *
    end.
    destruct F as (_ & _ & _ & _ & _ & F6 & _ & _ & _ & _ & F11).
    cbn [running log]. rewrite F6, F11.
    apply scan_cancelled; [exact Ho|].
    intros h t Hh Ht E.
    pose proof (handles_sorted (inv_tasks Hi)) as So. unfold live in So.
    destruct (inv_shape Hi) as [? N|? N|? ? ? ? N|? ? ? ? N|t0 p0 R N];
      rewrite N in Hh; try discriminate.
    injection Hh as <-. rewrite R, N in So. cbn in So.
    pose proof (StronglySorted_head So (handle t) (in_map handle _ _ Ht)).
    lia.
  - destruct (start_needs_empty (inv_shape Hi) Hstep) as [N _].
    unfold start_callback in Hstep.
    destruct (take_ready (settled s) (reactions s)) as [[[[w t] p] rest]|];
      [|discriminate].
    injection Hstep as <-. cbn [running log emit].
    rewrite N in *. cbn [app]. rewrite open_invocation_snoc, Ho. reflexivity.
  - destruct (inv_shape Hi) as [? N|? N|? ? ? ? N|? ? ? ? N|t0 p0 R N];
      unfold resume_callback in Hstep; rewrite N in Hstep; cbn in Hstep;
      try discriminate.
    destruct (handle t0 =? h); [|discriminate]. injection Hstep as <-.
    cbn [running log]. rewrite processQueue_log, settle_task_log. cbn [log now].
    rewrite open_invocation_snoc, Ho, N. cbn [scan_step snd].
    assert (V : scan_step (Some (Some (handle t0))) (now s, verdict t0 o)
                = Some None).
    { unfold verdict.
      destruct o; [|destruct (attempts t0 <? maxAttempts t0)]; cbn;
        now rewrite Nat.eqb_refl. }
    cbn [scan_step snd] in V. rewrite V.
    unfold processQueue, settle_task.
    destruct o; [|destruct (attempts t0 <? maxAttempts t0)]; cbn;
      destruct (queue s); reflexivity.
  - unfold settle_promise in Hstep. destruct (returned s); [discriminate|].
    injection Hstep as <-. exact Ho.
  - unfold elapse in Hstep.
    destruct ((0 <? d)%Z && negb (microtask_pending s)); [|discriminate].
    injection Hstep as <-. exact Ho.
Qed.

Lemma run_serial (es : list event) :
  forall s s', inv s -> open_invocation (log s) = Some (executing s) ->
  run s es = Some s' ->
  open_invocation (log s') = Some (executing s').
Proof.
  induction es as [|e es IH]; cbn [run]; intros s s' Hi Ho Hrun.
  - now injection Hrun as <-.
  - destruct (step s e) as [s1|] eqn:E; [|discriminate].
    apply (IH s1 s' (step_inv _ Hi E) (step_serial _ Hi Ho E) Hrun).
Qed.

Lemma idle_restart (s s1 s2 : state) (e1 e2 : event) :
  shape s -> processing s = false ->
  is_enqueue e1 = true -> is_enqueue e2 = true ->
  step s e1 = Some s1 -> step s1 e2 = Some s2 ->
  length (reactions s1) = 1 /\ running s1 = [] /\ processing s1 = true /\
  reactions s2 = reactions s1 /\ running s2 = [].
Proof.
  intros Hs Hp I1 I2 S1 S2.
  assert (K : forall e x, is_enqueue e = true -> step x e =
            Some (let x1 := push (mkTask (next_handle x)
                     match e with
                     | Enqueue n ps => Script n ps
                     | EnqueueInline sc => InlineScript sc
                     | _ => InlineScript EmptyString
                     end 0 3) x in
                  if processing x1 then x1 else processQueue x1)).
  { intros e x He. destruct e; try discriminate; reflexivity. }
  rewrite (K _ _ I1) in S1. injection S1 as <-.
  rewrite (K _ _ I2) in S2. injection S2 as <-.
  unfold push, processQueue. break_state s.
  destruct Hs; cbn in *; subst; try discriminate; cbn; auto.
Qed.

(** C1.  At most one command is inside the Executor at any instant: in
    every state the queue can reach, whatever the order of [enqueue],
    [enqueueInline] and [clearQueue] calls and of Executor completions, at
    most one invocation of the Executor is outstanding, and the Executor
    is called only when none is; in the log, no call of the Executor comes
    before the previous one has been answered for its task.  An [enqueue]
    that finds the worker idle registers exactly one callback (one
    restart); a second [enqueue] right after it registers none. *)
Theorem one_command_in_executor (es : list event) (s : state) :
  run init es = Some s ->
  length (running s) <= 1 /\
  open_invocation (log s) = Some (executing s) /\
  (forall s', step s RunCallback = Some s' ->
     running s = [] /\ exists t p, running s' = [(t, p)]) /\
  (forall e1 e2 s1 s2,
     processing s = false -> is_enqueue e1 = true -> is_enqueue e2 = true ->
     step s e1 = Some s1 -> step s1 e2 = Some s2 ->
     length (reactions s1) = 1 /\ running s1 = [] /\ processing s1 = true /\
     reactions s2 = reactions s1 /\ running s2 = []).
Proof.
  intros H. destruct (reachable_inv (ex_intro _ es H)) as [Hs _ _ _].
  split; [|split; [|split]].
  - apply shape_running, Hs.
  - exact (run_serial es inv_init eq_refl H).
  - intros s' S. cbn in S. exact (start_needs_empty Hs S).
  - intros e1 e2 s1 s2 Hp I1 I2 S1 S2.
    exact (idle_restart _ _ Hs Hp I1 I2 S1 S2).
Qed.

Lemma one_command_in_executor_witness :
  exists s,
    run init [Enqueue "send_text" []; EnqueueInline "activate"; RunCallback]
      = Some s /\
    length (running s) <= 1.
Proof.
  eexists. split; [vm_compute; reflexivity|].
  apply (one_command_in_executor
           [Enqueue "send_text" []; EnqueueInline "activate"; RunCallback]).
  reflexivity.
Defined.

(* ------------------------------------------------------------------ *)
(** ** Cancellation *)

Lemma resume_running (s : state) (t : task) (p : nat) (o : outcome) :
  running s = [(t, p)] ->
  exists s', resume_callback (handle t) o s = Some s' /\
             running s' = [] /\
             log s' = log s ++ [(now s, verdict t o)].
Proof.
  intros H. unfold resume_callback. rewrite H. cbn. rewrite Nat.eqb_refl.
  eexists. split; [reflexivity|]. cbn.
  rewrite processQueue_log, settle_task_log. cbn. split; [|reflexivity].
  unfold processQueue, settle_task. destruct o.
  - cbn. destruct (queue s); reflexivity.
  - destruct (attempts t <? maxAttempts t); cbn; [reflexivity|].
    destruct (queue s); reflexivity.
Qed.

(** What [clearQueue(reason)] does to the tasks that are in [this.queue]:
    it rejects each of them with the error "Task cancelled: <reason>"
    (reason "unknown" when none is given), in queue order, and leaves the
    queue empty.  It touches nothing else: the callbacks registered and the
    command inside the Executor stay as they are, and when that command's
    invocation ends, its callback resumes and reports the command's own
    outcome. *)
Theorem clearQueue_cancels_pending (s : state) (reason : option string) :
  let why := match reason with Some r => r | None => "unknown"%string end in
  let s' := clearQueue reason s in
  queue s' = [] /\
  log s' = log s ++
           map (fun t => (now s, Reject (handle t) (cancelled why))) (queue s) /\
  running s' = running s /\ reactions s' = reactions s /\
  returned s' = returned s /\ settled s' = settled s /\
  mutex s' = mutex s /\ processing s' = processing s /\ now s' = now s /\
  forall t p o, running s = [(t, p)] ->
    exists s'', resume_callback (handle t) o s' = Some s'' /\
                running s'' = [] /\
                log s'' = log s' ++ [(now s, verdict t o)].
Proof.
  intros why s'.
  assert (F : queue s' = [] /\
    log s' = log s ++
      map (fun t => (now s, Reject (handle t) (cancelled why))) (queue s) /\
    running s' = running s /\ reactions s' = reactions s /\
    returned s' = returned s /\ settled s' = settled s /\
    mutex s' = mutex s /\ processing s' = processing s /\ now s' = now s).
  { subst s'. unfold clearQueue. fold why.
    destruct (0 <? length (queue s)) eqn:E.
    - pose proof (fold_emit_fields
        (fun t => Reject (handle t) (cancelled why)) (queue s) s) as F.
      cbn zeta in F. cbn. tauto.
    - apply Nat.ltb_ge in E. destruct (queue s); [|cbn in E; lia].
      cbn. rewrite app_nil_r. tauto. }
  destruct F as (F1 & F2 & F3 & F4 & F5 & F6 & F7 & F8 & F9).
  repeat (split; [assumption|]).
  intros t p o Hr. rewrite <- F3 in Hr.
  destruct (resume_running s' o Hr) as (s'' & R1 & R2 & R3).
  exists s''. rewrite <- F9. auto.
Qed.

Lemma clearQueue_cancels_pending_witness :
  exists s,
    run init [Enqueue "send_text" []; Enqueue "send_media" [];
              Enqueue "send_text" []; RunCallback] = Some s /\
    length (queue s) = 2 /\
    exists t p, running s = [(t, p)] /\
    exists s'',
      resume_callback (handle t) (Fulfilled "ok")
        (clearQueue (Some "shutdown"%string) s) = Some s'' /\
      map snd (log s'') =
        [Invoke 0 1; Reject 1 "Task cancelled: shutdown";
         Reject 2 "Task cancelled: shutdown"; Resolve 0 "ok"].
Proof.
  eexists. split; [vm_compute; reflexivity|]. split; [reflexivity|].
  eexists. eexists. split; [vm_compute; reflexivity|].
  match goal with
  | |- exists s'', resume_callback (handle ?t) ?o (clearQueue ?r ?s) = _ /\ _ =>
      destruct (clearQueue_cancels_pending s r) as (_ & _ & _ & _ & _ & _ & _ & _ & _ & K);
      destruct (K t 1 o eq_refl) as (s'' & R1 & _ & R3)
  end.
  exists s''. split; [exact R1|]. rewrite R3. reflexivity.
Defined.

(** C7.  [clearQueue] does not cancel every pending command: a command
    that [processQueue] has already taken off [this.queue], and whose
    callback has not started yet, is missed.  Two commands are enqueued
    and the caller waits for the first.  When the first is resolved, its
    callback has called [processQueue], which has shifted the second out
    of the queue and chained its callback.  At that moment the second
    command is accepted, not settled and not inside the Executor, and the
    queue is empty: [clearQueue("shutdown")] rejects nothing and changes
    nothing, not even the log, and the second command is then executed and
    resolved.  The same happens to a command enqueued on an idle queue
    when [clearQueue] is called before its callback starts. *)
Theorem clearQueue_misses_taken_command :
  exists s1 s2,
    run init [Enqueue "script1" []; Enqueue "script2" []; RunCallback;
              ExecutorDone 0 (Fulfilled "OK1")] = Some s1 /\
    effects_of 0 (log s1) = [Invoke 0 1; Resolve 0 "OK1"] /\
    effects_of 1 (log s1) = [] /\
    executing s1 = None /\ next_handle s1 = 2 /\
    queue s1 = [] /\
    map (fun r => handle (snd (fst r))) (reactions s1) = [1] /\
    clearQueue (Some "shutdown"%string) s1 = s1 /\
    effects_of 1
      (log (drain (fun _ => Fulfilled "OK2") 10
              (clearQueue (Some "shutdown"%string) s1))) =
      [Invoke 1 1; Resolve 1 "OK2"] /\
    run init [Enqueue "script1" []] = Some s2 /\
    queue s2 = [] /\ executing s2 = None /\
    clearQueue (Some "shutdown"%string) s2 = s2 /\
    effects_of 0
      (log (drain (fun _ => Fulfilled "OK1") 10
              (clearQueue (Some "shutdown"%string) s2))) =
      [Invoke 0 1; Resolve 0 "OK1"].
Proof.
  eexists. eexists.
  split; [vm_compute; reflexivity|].
  repeat split; vm_compute; reflexivity.
Qed.

(* ------------------------------------------------------------------ *)
(** ** Queue depth *)

(** C10.  [getQueueDepth()] returns the length of [queue] and leaves the
    queue object as it was.  The command inside the Executor is not
    counted: in a reachable state it is not in [queue] (no pending task
    has its handle), so with one command executing and none pending the
    depth is 0. *)
Theorem getQueueDepth_counts_pending (s : state) :
  snd (getQueueDepth s) = s /\
  fst (getQueueDepth s) = length (queue s) /\
  (reachable s -> forall t p, running s = [(t, p)] ->
     (forall t', In t' (queue s) -> handle t' <> handle t) /\
     (queue s = [] -> fst (getQueueDepth s) = 0)).
Proof.
  split; [reflexivity|]. split; [reflexivity|].
  intros Hr t p Hrun. destruct (reachable_inv Hr) as [Hs _ [T1 _ _ _] _].
  split.
  - intros t' Ht' E.
    destruct Hs as [?|?|? ? ? ? H|? ? ? ? H|? ? H0 H]; try congruence.
    unfold live in T1. rewrite H0, H in T1. cbn in T1.
    rewrite Hrun in H. injection H as <- <-.
    pose proof (StronglySorted_head T1 (handle t') (in_map handle _ _ Ht')).
    lia.
  - intros Hq. cbn. now rewrite Hq.
Qed.

Lemma getQueueDepth_counts_pending_witness :
  exists s,
    run init [Enqueue "send_text" []; RunCallback] = Some s /\
    running s = [(mkTask 0 (Script "send_text" []) 0 3, 1)] /\
    fst (getQueueDepth s) = 0.
Proof.
  eexists. split; [vm_compute; reflexivity|]. split; [reflexivity|].
  match goal with |- fst (getQueueDepth ?s) = 0 =>
    destruct (getQueueDepth_counts_pending s) as (_ & _ & K);
    refine (proj2 (K (ex_intro _ [Enqueue "send_text" []; RunCallback] eq_refl)
                     _ _ eq_refl) eq_refl)
  end.
Defined.

(* ------------------------------------------------------------------ *)
(** ** Retries *)

Lemma retry_step (s : state) (A : task) (p : nat) (e : string) :
  shape s -> running s = [(A, p)] -> attempts A < maxAttempts A ->
  exists s1,
    resume_callback (handle A) (Failed e) s = Some s1 /\
    reactions s1 = [(p, bump A, mutex s1)] /\ queue s1 = queue s /\
    log s1 = log s ++ [(now s, Retry (handle A) (S (attempts A)))] /\
    now s1 = now s /\
    exists s2, run s1 [SettlePromise; RunCallback] = Some s2 /\
               running s2 = [(bump A, mutex s1)] /\ queue s2 = queue s /\
               log s2 = log s1 ++ [(now s, Invoke (handle A) (attempts A + 2))].
Proof.
  intros Hs Hr Hlt. apply Nat.ltb_lt in Hlt.
  unfold resume_callback, settle_task. rewrite Hr. cbn [take_running].
  rewrite Nat.eqb_refl, Hlt. break_state s.
  destruct Hs as [ | | | | t0 p0 R N T M Hn P ]; cbn in *; subst;
    try discriminate.
  repeat match goal with
         | H : [_] = [_] |- _ => injection H; clear H; intros; subst
         end.
  eexists. split; [reflexivity|]. cbn.
  repeat (split; [reflexivity|]).
  unfold start_callback. cbn. rewrite Nat.eqb_refl. cbn. eexists. split; [reflexivity|]. cbn.
  replace (S (attempts A + 1)) with (attempts A + 2) by lia.
  repeat split.
Qed.

Lemma first_invoke_after_retry (s1 s2 : state) (es : list event) (h a : nat)
    (l : list (Z * effect)) :
  inv s2 -> log s1 = l ++ [(now s1, Retry h a)] -> run s1 es = Some s2 ->
  match next_invoke (since (length (log s1)) (log s2)) with
  | Some (tm, h') => h' = h /\ tm = now s1
  | None => True
  end.
Proof.
  intros [_ _ _ [_ _ _ G]] E R.
  destruct (run_log _ _ R) as [new En]. rewrite En, since_app.
  destruct (next_invoke new) as [[tm h']|] eqn:N; [|exact I].
  rewrite En, E, <- app_assoc in G. cbn in G.
  rewrite Forall_forall in G.
  assert (K : In (mkGap h a h' (tm - now s1))
                 (retry_gaps (l ++ (now s1, Retry h a) :: new))).
  { apply retry_gaps_suffix. cbn. rewrite N. now left. }
  destruct (G _ K) as [K1 K2]. cbn in K1, K2. split; [assumption | lia].
Qed.

(** C3, as the code has it.  Between a failed attempt and its retry the
    queue waits no delay at all: for every retry announced in the log of
    a reachable state, the next call of the Executor is for the same
    command and happens at the same clock time, so that no other command
    begins execution in between. *)
Theorem retry_follows_failure_at_once (s : state) :
  reachable s ->
  Forall (fun g => gap_next g = gap_handle g /\ gap_delay g = 0%Z)
         (retry_gaps (log s)).
Proof.
  intros Hr. destruct (reachable_inv Hr) as [_ _ _ [_ _ _ G]]. exact G.
Qed.

Lemma retry_follows_failure_at_once_witness :
  exists s,
    run init [Enqueue "send_text" []; EnqueueInline "activate"; RunCallback;
              Elapse 250; ExecutorDone 0 (Failed "timeout"); SettlePromise;
              RunCallback] = Some s /\
    retry_gaps (log s) = [mkGap 0 1 0 0%Z] /\
    Forall (fun g => gap_next g = gap_handle g /\ gap_delay g = 0%Z)
           (retry_gaps (log s)).
Proof.
  eexists. split; [vm_compute; reflexivity|]. split; [reflexivity|].
  apply retry_follows_failure_at_once.
  exists [Enqueue "send_text" []; EnqueueInline "activate"; RunCallback;
          Elapse 250; ExecutorDone 0 (Failed "timeout"); SettlePromise;
          RunCallback].
  reflexivity.
Defined.

(** C3, as the specification words it, fails: a command is enqueued, its
    first attempt fails 250 ms later, and the retry is invoked at that
    same instant, where the specification asks for a wait of
    1000 * 2^(1-1) = 1000 ms. *)
Lemma retry_without_backoff :
  exists s,
    run init [Enqueue "send_text" []; RunCallback; Elapse 250;
              ExecutorDone 0 (Failed "timeout"); SettlePromise; RunCallback]
      = Some s /\
    map snd (log s) = [Invoke 0 1; Retry 0 1; Invoke 0 2] /\
    map fst (log s) = [0; 250; 250]%Z /\
    Exists (fun g => (gap_delay g < backoff 1000 (gap_attempts g))%Z)
           (retry_gaps (log s)).
Proof.
  eexists. split; [vm_compute; reflexivity|]. split; [reflexivity|].
  split; [reflexivity|]. apply Exists_cons_hd. reflexivity.
Qed.

(** C8.  A command A whose attempt fails while B is pending is retried
    before B is first attempted.  A left the queue before B and was
    submitted before it; B has not been invoked.  On the failure A is put
    back at the head of [queue] and taken from it at once by
    [processQueue]; its callback can run as soon as the promise of the
    failed attempt is settled; and whatever happens next, the first call
    of the Executor is A's retry, so B's first attempt comes after it. *)
Theorem retry_runs_before_later_commands
    (s : state) (A B : task) (p : nat) (e : string) :
  reachable s -> running s = [(A, p)] -> attempts A < maxAttempts A ->
  In B (queue s) ->
  handle A < handle B /\
  invocations (handle B) (log s) = 0 /\
  queue (settle_task A (Failed e) s) = bump A :: queue s /\
  exists s1,
    resume_callback (handle A) (Failed e) s = Some s1 /\
    reactions s1 = [(p, bump A, mutex s1)] /\ In B (queue s1) /\
    (exists s2, run s1 [SettlePromise; RunCallback] = Some s2 /\
                running s2 = [(bump A, mutex s1)] /\ In B (queue s2)) /\
    forall es s2, run s1 es = Some s2 ->
      match next_invoke (since (length (log s1)) (log s2)) with
      | Some (_, h) => h = handle A
      | None => invocations (handle B) (log s2) = 0
      end.
Proof.
  intros Hr Hrun Hlt HB.
  destruct (reachable_inv Hr) as [Hs Hp [T1 T2 T3 T4] [G1 G2 G3 G4]].
  assert (HAB : handle A < handle B).
  { destruct Hs as [?|?|? ? ? ? H|? ? ? ? H|? ? H0 H]; try congruence.
    unfold live in T1. rewrite H0, H in T1. cbn in T1.
    rewrite Hrun in H. injection H as <- <-.
    exact (StronglySorted_head T1 (handle B) (in_map handle _ _ HB)). }
  assert (HB0 : invocations (handle B) (log s) = 0).
  { apply invocations_none. intros tm h' a Hi.
    pose proof (G2 _ _ _ _ Hi HB). lia. }
  split; [exact HAB|]. split; [exact HB0|]. split.
  { unfold settle_task. apply Nat.ltb_lt in Hlt. now rewrite Hlt. }
  destruct (retry_step e Hs Hrun Hlt)
    as (s1 & R1 & R2 & R3 & R4 & R5 & s2 & R6 & R7 & R8 & R9).
  exists s1. split; [exact R1|]. split; [exact R2|].
  split; [now rewrite R3|]. split.
  { exists s2. split; [exact R6|]. split; [exact R7 | now rewrite R8]. }
  intros es s3 Hrun3.
  assert (Hr1 : reachable s1).
  { apply (reachable_run [ExecutorDone (handle A) (Failed e)] Hr).
    cbn. now rewrite R1. }
  pose proof (reachable_inv (reachable_run es Hr1 Hrun3)) as I3.
  rewrite <- R5 in R4.
  pose proof (@first_invoke_after_retry _ _ es _ _ _ I3 R4 Hrun3) as F.
  destruct (run_log _ _ Hrun3) as [new En]. rewrite En, since_app in *.
  destruct (next_invoke new) as [[tm h']|] eqn:N; [tauto|].
  rewrite R4, !invocations_app, HB0, (invocations_no_invoke _ _ N).
  rewrite (invocations_no_invoke (handle B)
             [(now s1, Retry (handle A) (S (attempts A)))] eq_refl).
  reflexivity.
Qed.

Lemma retry_runs_before_later_commands_witness :
  exists s A B p,
    run init [Enqueue "send_text" []; Enqueue "send_media" []; RunCallback]
      = Some s /\
    running s = [(A, p)] /\ attempts A < maxAttempts A /\ In B (queue s) /\
    handle A < handle B.
Proof.
  eexists. exists (mkTask 0 (Script "send_text" []) 0 3).
  exists (mkTask 1 (Script "send_media" []) 0 3). exists 1.
  split; [vm_compute; reflexivity|]. split; [reflexivity|].
  split; [cbn; lia|]. split; [now left|].
  refine (proj1 (@retry_runs_before_later_commands _ _ _ _ "timeout"%string
                   _ _ _ _)).
  - exists [Enqueue "send_text" []; Enqueue "send_media" []; RunCallback].
    vm_compute; reflexivity.
  - reflexivity.
  - cbn; lia.
  - now left.
Defined.

(* ------------------------------------------------------------------ *)
(** ** Counting attempts *)

Lemma invocations_snoc (h : nat) (l : list (Z * effect)) (tm : Z) (e : effect) :
  invocations h (l ++ [(tm, e)]) =
  invocations h l + if is_invoke e && (effect_handle e =? h) then 1 else 0.
Proof.
  rewrite invocations_app. f_equal. unfold invocations, effects_of. cbn.
  destruct (effect_handle e =? h); cbn; [|now rewrite andb_false_r].
  rewrite andb_true_r. destruct (is_invoke e); reflexivity.
Qed.

Lemma invocations_quiet (h : nat) (l l2 : list (Z * effect)) :
  (forall x, In x l2 -> is_invoke (snd x) = false) ->
  invocations h (l ++ l2) = invocations h l.
Proof.
  intros H. rewrite invocations_app.
  rewrite (@invocations_none h l2); [apply Nat.add_0_r|].
  intros tm h' a Hi. apply H in Hi. discriminate.
Qed.

Lemma queue_not_invoked (s : state) (t : task) :
  log_ok s -> In t (queue s) -> invocations (handle t) (log s) = 0.
Proof.
  intros G Ht. apply invocations_none. intros tm h' a Hi.
  pose proof (log_before_queue G _ _ _ _ Hi Ht). lia.
Qed.

Lemma counts_ok_frame (s s' : state) :
  queue s' = queue s -> reactions s' = reactions s ->
  running s' = running s -> log s' = log s -> counts_ok s -> counts_ok s'.
Proof.
  intros E1 E2 E3 E4 [C1 C2 C3 C4 C5 C6].
  constructor; unfold live in *; rewrite ?E1, ?E2, ?E3, ?E4; assumption.
Qed.

Lemma counts_ok_enqueue (s : state) (b : payload) :
  inv s -> counts_ok s ->
  let s1 := push (mkTask (next_handle s) b 0 3) s in
  counts_ok (if processing s1 then s1 else processQueue s1).
Proof.
  intros [Hs _ _ G] [C1 C2 C3 C4 C5 C6].
  assert (Fresh : forall tm e, In (tm, e) (log s) ->
                    effect_handle e <> next_handle s).
  { intros tm e He E. pose proof (log_bounded G _ _ He). lia. }
  assert (Zero : invocations (next_handle s) (log s) = 0).
  { apply invocations_none. intros tm h a Hi. apply (Fresh _ _ Hi). }
  unfold push, processQueue, live in *. break_state s.
  destruct Hs; cbn in *; subst; cbn in *.
  1,2: constructor; unfold live; cbn;
    [ intros w0 t0 p0 [E|[]]; injection E as <- <- <-; exact Zero
    | intros ? ? []
    | intros t0 tm0 e0 [<-|[]] He E; exfalso; exact (Fresh _ _ He E)
    | exact C4 | exact C5 | exact C6 ].
  all: constructor; unfold live; cbn;
    [ exact C1 | exact C2
    | intros t0 tm0 e0 Ht He E;
      assert (Ht' : t = t0 \/ In t0 q \/ t0 = mkTask nh b 0 3)
        by (destruct Ht as [Ht|Ht]; [now left|];
            apply in_app_iff in Ht; destruct Ht as [Ht|[Ht|[]]]; auto);
      destruct Ht' as [Ht'|[Ht'|Ht']];
      [ apply (C3 t0 tm0 e0); [now left | exact He | exact E]
      | apply (C3 t0 tm0 e0); [now right | exact He | exact E]
      | subst t0; exfalso; exact (Fresh _ _ He E) ]
    | exact C4 | exact C5 | exact C6 ].
Qed.

Lemma counts_ok_clearQueue (s : state) (r : option string) :
  tasks_ok s -> log_ok s -> counts_ok s -> counts_ok (clearQueue r s).
Proof.
  intros [T1 T2 T3 T4] G [C1 C2 C3 C4 C5 C6].
  assert (Z0 : forall t, In t (queue s) -> invocations (handle t) (log s) = 0)
    by (intros; now apply queue_not_invoked).
  unfold clearQueue.
  destruct (0 <? length (queue s)); [|constructor; assumption].
  match goal with |- context [fold_left ?f (queue s) s] =>
    pose proof (fold_emit_fields
      (fun t => Reject (handle t)
         (cancelled match r with Some r0 => r0 | None => "unknown"%string end))
      (queue s) s) as F; cbn zeta in F;
    set (s1 := fold_left f (queue s) s) in *
  end.
  destruct F as (F1 & F2 & F3 & F4 & F5 & F6 & F7 & F8 & F9 & F10 & F11).
  assert (Q : forall h, invocations h (log s1) = invocations h (log s)).
  { intros h. rewrite F11. apply invocations_quiet. intros x Hx.
    apply in_map_iff in Hx. destruct Hx as [t [<- _]]. reflexivity. }
  assert (New : forall tm e, In (tm, e) (log s1) ->
            In (tm, e) (log s) \/
            exists t, In t (queue s) /\ effect_handle e = handle t).
  { intros tm e He. rewrite F11 in He. apply in_app_iff in He.
    destruct He as [He|He]; [now left|]. right.
    apply in_map_iff in He. destruct He as [t [E Ht]]. injection E as _ <-.
    exists t. split; [exact Ht | reflexivity]. }
  assert (Apart : forall t t', In t (live s) -> In t' (queue s) ->
            handle t' <> handle t).
  { intros t t' Ht Ht'. unfold live in *.
    set (l1 := map (fun r : reaction => snd (fst r)) (reactions s) ++
               map fst (running s)) in *.
    clearbody l1. clear - T1 Ht Ht'. rewrite map_app in T1.
    induction l1 as [|a l IH]; [destruct Ht|].
    cbn in T1. destruct Ht as [->|Ht].
    - apply StronglySorted_head with (x := handle t') in T1.
      + lia.
      + apply in_app_iff. right. now apply in_map.
    - apply IH; [eapply StronglySorted_tail; exact T1 | exact Ht]. }
  clearbody s1.
  constructor; unfold live in *;
    cbn [queue reactions running log]; rewrite ?F5, ?F6, ?app_nil_r.
  - intros w t p Hin. rewrite Q. eapply C1, Hin.
  - intros t p Hin. rewrite Q. eapply C2, Hin.
  - intros t tm e Ht He E. destruct (New _ _ He) as [Ho|[t' [Ht' E']]].
    + apply (C3 t tm e); [apply in_app_iff; now left | exact Ho | exact E].
    + exfalso. apply (Apart t t' Ht Ht'). congruence.
  - intros tm h e He. rewrite Q. destruct (New _ _ He) as [Ho|[t' [Ht' E']]].
    + eapply C4, Ho.
    + left. cbn in E'. subst h. apply Z0, Ht'.
  - intros tm h r0 He. rewrite Q. rewrite F11 in He. apply in_app_iff in He.
    destruct He as [He|He]; [eapply C5, He|].
    apply in_map_iff in He. destruct He as [t [E _]]. discriminate.
  - intros h. rewrite Q. apply C6.
Qed.

Lemma counts_ok_start (s s' : state) :
  shape s -> tasks_ok s -> counts_ok s -> start_callback s = Some s' ->
  counts_ok s'.
Proof.
  intros Hs [T1 T2 T3 T4] [C1 C2 C3 C4 C5 C6] Hstep.
  unfold start_callback, live in *. break_state s.
  destruct Hs as [ | | ? ? ? ? ? ? H2 | w t p ? ? ? H2 | ];
    cbn in *; subst; cbn in *; try discriminate.
  - apply existsb_eqb_not_In in H2. rewrite H2 in Hstep. discriminate.
  - apply existsb_eqb_In in H2. rewrite H2 in Hstep. injection Hstep as <-.
    assert (Ht : invocations (handle t) lg = attempts t)
      by (eapply C1; now left).
    assert (Other : forall h, h <> handle t ->
              invocations h (lg ++ [(tm, Invoke (handle t) (attempts t + 1))]) =
              invocations h lg).
    { intros h Hh. rewrite invocations_snoc. cbn.
      destruct (handle t =? h) eqn:E; [apply Nat.eqb_eq in E; congruence | lia]. }
    assert (Same :
              invocations (handle t)
                (lg ++ [(tm, Invoke (handle t) (attempts t + 1))]) =
              S (attempts t)).
    { rewrite invocations_snoc. cbn. rewrite Nat.eqb_refl, Ht. lia. }
    assert (NoFinal : forall tm0 e0, In (tm0, e0) lg ->
              effect_handle e0 = handle t -> is_final e0 = false).
    { intros tm0 e0 He E. apply (C3 t tm0 e0); [now left | exact He | exact E]. }
    constructor; unfold live;
      cbn [emit unshift bump queue reactions running log now handle attempts map
           app fst snd tl].
    + intros ? ? ? [].
    + intros t0 p0 [E|[]]. injection E as <- <-. exact Same.
    + intros t0 tm0 e0 Ht0 He E. apply in_app_iff in He.
      destruct He as [He|[X|[]]].
      * apply (C3 t0 tm0 e0); assumption.
      * injection X as _ <-. reflexivity.
    + intros tm0 h e He. apply in_app_iff in He.
      destruct He as [He|[X|[]]]; [|discriminate].
      destruct (Nat.eq_dec h (handle t)) as [->|Hn].
      * specialize (NoFinal _ _ He eq_refl). discriminate.
      * rewrite (Other _ Hn). eapply C4, He.
    + intros tm0 h r He. apply in_app_iff in He.
      destruct He as [He|[X|[]]]; [|discriminate].
      destruct (Nat.eq_dec h (handle t)) as [->|Hn].
      * specialize (NoFinal _ _ He eq_refl). discriminate.
      * rewrite (Other _ Hn). eapply C5, He.
    + intros h. destruct (Nat.eq_dec h (handle t)) as [->|Hn].
      * rewrite Same. destruct (T4 t (or_introl eq_refl)). lia.
      * rewrite (Other _ Hn). apply C6.
Qed.

Lemma counts_ok_resume (s s' : state) (h : nat) (o : outcome) :
  shape s -> tasks_ok s -> log_ok s -> counts_ok s ->
  resume_callback h o s = Some s' -> counts_ok s'.
Proof.
  intros Hs [T1 T2 T3 T4] G [C1 C2 C3 C4 C5 C6] Hstep.
  assert (Z0 : forall t, In t (queue s) -> invocations (handle t) (log s) = 0)
    by (intros; now apply queue_not_invoked).
  unfold resume_callback, live in *. break_state s.
  destruct Hs as [ | | | | t p ]; cbn in *; subst; cbn in *;
    try discriminate.
  destruct (handle t =? h); [|discriminate]. injection Hstep as <-.
  assert (Ht : invocations (handle t) lg = S (attempts t))
    by (eapply C2; now left).
  assert (Quiet : forall x h0, is_invoke x = false ->
            invocations h0 (lg ++ [(tm, x)]) = invocations h0 lg).
  { intros x h0 Hx. rewrite invocations_snoc, Hx. cbn. lia. }
  assert (Next : forall x, is_invoke x = false -> effect_handle x = handle t ->
    (forall h0 e0, x = Reject h0 e0 -> invocations h0 lg = 4) ->
    counts_ok (mkState (tl q) true p st
                 match q with [] => [] | t0 :: _ => [(p, t0, np)] end
                 [] [] nh np tm (lg ++ [(tm, x)]))).
  { intros x Hx Hh Hrej.
    assert (Old : forall t0 tm0 e0, In t0 q -> In (tm0, e0) (lg ++ [(tm, x)]) ->
              effect_handle e0 = handle t0 -> is_final e0 = false).
    { intros t0 tm0 e0 Ht0 He E. apply in_app_iff in He.
      destruct He as [He|[X|[]]].
      - apply (C3 t0 tm0 e0); [now right | exact He | exact E].
      - injection X as _ <-. exfalso.
        apply StronglySorted_head with (x := handle t0) in T1;
          [lia | now apply in_map]. }
    destruct q as [|t2 q']; constructor; unfold live;
      cbn [emit unshift bump queue reactions running log now handle attempts map
           app fst snd tl].
    - intros ? ? ? [].
    - intros ? ? [].
    - intros ? ? ? [].
    - intros tm0 h0 e0 He. rewrite (Quiet _ _ Hx). apply in_app_iff in He.
      destruct He as [He|[X|[]]]; [eapply C4, He|].
      injection X as _ X. right. eapply Hrej. exact X.
    - intros tm0 h0 r0 He. rewrite (Quiet _ _ Hx). apply in_app_iff in He.
      destruct He as [He|[X|[]]]; [eapply C5, He|].
      injection X as _ X. subst x. cbn in Hh. subst h0. rewrite Ht. lia.
    - intros h0. rewrite (Quiet _ _ Hx). apply C6.
    - intros w0 t0 p0 [E|[]]. injection E as _ <- _. rewrite (Quiet _ _ Hx).
      rewrite Z0 by now left. symmetry. apply T3. now left.
    - intros ? ? [].
    - intros t0 tm0 e0 Ht0 He E. apply (Old t0 tm0 e0); assumption.
    - intros tm0 h0 e0 He. rewrite (Quiet _ _ Hx). apply in_app_iff in He.
      destruct He as [He|[X|[]]]; [eapply C4, He|].
      injection X as _ X. right. eapply Hrej. exact X.
    - intros tm0 h0 r0 He. rewrite (Quiet _ _ Hx). apply in_app_iff in He.
      destruct He as [He|[X|[]]]; [eapply C5, He|].
      injection X as _ X. subst x. cbn in Hh. subst h0. rewrite Ht. lia.
    - intros h0. rewrite (Quiet _ _ Hx). apply C6. }
  unfold settle_task. destruct o as [r|e].
  - destruct q; cbn;
      (eapply counts_ok_frame;
       [..|apply (Next (Resolve (handle t) r) eq_refl eq_refl);
           intros ? ? X; discriminate]; reflexivity).
  - destruct (attempts t <? maxAttempts t) eqn:Hlt.
    + pose proof (fun h0 => Quiet (Retry (handle t) (S (attempts t))) h0 eq_refl)
        as QR.
      cbn -[invocations]. constructor; unfold live;
      cbn [emit unshift bump queue reactions running log now handle attempts map
           app fst snd tl].
      * intros w0 t0 p0 [E|[]]. injection E as _ <- _.
        cbn [handle attempts bump]. rewrite QR. exact Ht.
      * intros ? ? [].
      * intros t0 tm0 e0 Ht0 He E. apply in_app_iff in He.
        destruct He as [He|[X|[]]].
        -- destruct Ht0 as [<-|Ht0]; cbn in E.
           ++ apply (C3 t tm0 e0); [now left | exact He | exact E].
           ++ apply (C3 t0 tm0 e0); [now right | exact He | exact E].
        -- injection X as _ <-. reflexivity.
      * intros tm0 h0 e0 He. rewrite QR. apply in_app_iff in He.
        destruct He as [He|[X|[]]]; [eapply C4, He | discriminate].
      * intros tm0 h0 r0 He. rewrite QR. apply in_app_iff in He.
        destruct He as [He|[X|[]]]; [eapply C5, He | discriminate].
      * intros h0. rewrite QR. apply C6.
    + apply Nat.ltb_ge in Hlt. destruct (T4 t (or_introl eq_refl)) as [Ha Hm].
      destruct q; cbn;
        (eapply counts_ok_frame;
         [..|apply (Next (Reject (handle t) e) eq_refl eq_refl);
             intros ? ? X; injection X as <- _; rewrite Ht; lia]; reflexivity).
Qed.

Lemma step_counts (s s' : state) (e : event) :
  inv s -> counts_ok s -> step s e = Some s' -> counts_ok s'.
Proof.
  intros Hi Hc Hstep. pose proof Hi as [Hs Hp Ht Hl].
  destruct e as [n ps | sc | r | | h o | | d]; cbn in Hstep.
  - injection Hstep as <-. apply (counts_ok_enqueue (Script n ps) Hi Hc).
  - injection Hstep as <-. apply (counts_ok_enqueue (InlineScript sc) Hi Hc).
  - injection Hstep as <-. apply counts_ok_clearQueue; assumption.
  - eapply counts_ok_start; eauto.
  - eapply counts_ok_resume; eauto.
  - unfold settle_promise in Hstep. destruct (returned s); [discriminate|].
    injection Hstep as <-. eapply counts_ok_frame; [..|exact Hc]; reflexivity.
  - unfold elapse in Hstep.
    destruct ((0 <? d)%Z && negb (microtask_pending s)); [|discriminate].
    injection Hstep as <-. eapply counts_ok_frame; [..|exact Hc]; reflexivity.
Qed.

Lemma counts_ok_init : counts_ok init.
Proof.
  constructor; cbn; try (intros; contradiction). intros h. cbv. lia.
Qed.

Lemma run_counts (es : list event) (s s' : state) :
  inv s -> counts_ok s -> run s es = Some s' -> counts_ok s'.
Proof.
  revert s. induction es as [|e es IH]; cbn; intros s Hi Hc Hr.
  - now injection Hr as <-.
  - destruct (step s e) as [s1|] eqn:E; [|discriminate].
    eapply IH; [eapply step_inv; eauto | eapply step_counts; eauto | exact Hr].
Qed.

Lemma reachable_counts (s : state) : reachable s -> counts_ok s.
Proof.
  intros [es H]. eapply run_counts; [apply inv_init | apply counts_ok_init | exact H].
Qed.

(* ------------------------------------------------------------------ *)
(** ** Bounded retry *)

Lemma ready_shape (s : state) (w : nat) (t : task) (p : nat) :
  shape s -> reactions s = [(w, t, p)] -> returned s = [] ->
  running s = [] /\ In w (settled s) /\ mutex s = p.
Proof.
  intros Hs R T.
  destruct Hs as [H|H|? ? ? H ? H'|? ? ? H|H]; try congruence.
  rewrite R in H. injection H as <- <- <-. auto.
Qed.

Lemma start_ready (s : state) (w : nat) (t : task) (p : nat) :
  reactions s = [(w, t, p)] -> In w (settled s) ->
  start_callback s =
  Some (emit (Invoke (handle t) (attempts t + 1))
          (mkState (queue s) (processing s) (mutex s) (settled s) []
                   (running s ++ [(t, p)]) (returned s) (next_handle s)
                   (next_promise s) (now s) (log s))).
Proof.
  intros R W. unfold start_callback. rewrite R. cbn [take_ready].
  apply existsb_eqb_In in W. rewrite W. reflexivity.
Qed.

Lemma resume_head (s : state) (t : task) (p : nat) (o : outcome) :
  running s = [(t, p)] ->
  resume_callback (handle t) o s =
  Some (let s2 := processQueue (settle_task t o
                    (mkState (queue s) (processing s) (mutex s) (settled s)
                       (reactions s) [] (returned s) (next_handle s)
                       (next_promise s) (now s) (log s))) in
        mkState (queue s2) (processing s2) (mutex s2) (settled s2)
                (reactions s2) (running s2) (returned s2 ++ [p])
                (next_handle s2) (next_promise s2) (now s2) (log s2)).
Proof.
  intros H. unfold resume_callback. rewrite H. cbn [take_running].
  rewrite Nat.eqb_refl. reflexivity.
Qed.

Lemma drain_settle (exec : oracle) (f : nat) (s s' : state) :
  settle_promise s = Some s' -> drain exec (S f) s = drain exec f s'.
Proof. intros H. cbn [drain]. now rewrite H. Qed.

Lemma drain_start (exec : oracle) (f : nat) (s s' : state) :
  returned s = [] -> start_callback s = Some s' ->
  drain exec (S f) s = drain exec f s'.
Proof.
  intros T H. cbn [drain]. unfold settle_promise. now rewrite T, H.
Qed.

Lemma drain_resume (exec : oracle) (f : nat) (s s' : state) (t : task)
    (p : nat) :
  returned s = [] -> reactions s = [] -> running s = [(t, p)] ->
  resume_callback (handle t) (exec t) s = Some s' ->
  drain exec (S f) s = drain exec f s'.
Proof.
  intros T R N H. cbn [drain]. unfold settle_promise, start_callback.
  now rewrite T, R, N, H.
Qed.

Lemma finish_attempt (exec : oracle) (s : state) (t : task) (p : nat) :
  reactions s = [] -> running s = [(t, p)] -> returned s = [] ->
  mutex s = p ->
  exists sN,
    run s [ExecutorDone (handle t) (exec t); SettlePromise] = Some sN /\
    (forall f, drain exec (2 + f) s = drain exec f sN) /\
    log sN = log s ++ [(now s, verdict t (exec t))] /\
    now sN = now s /\ next_handle sN = next_handle s /\
    returned sN = [] /\ running sN = [] /\
    if retried t (exec t)
    then reactions sN = [(p, bump t, mutex sN)] /\ queue sN = queue s
    else match queue s with
         | [] => reactions sN = [] /\ queue sN = []
         | t2 :: q' => reactions sN = [(p, t2, mutex sN)] /\ queue sN = q'
         end.
Proof.
  intros R N T M.
  pose proof (@resume_head s t p (exec t) N) as E2.
  cbn zeta in E2. set (sW := mkState _ _ _ _ _ _ _ _ _ _ _) in E2.
  assert (TW : returned sW = [p]).
  { unfold sW. cbn -[Nat.ltb]. unfold processQueue, settle_task.
    destruct (exec t); [|destruct (attempts t <? maxAttempts t)]; cbn;
      destruct (queue s); cbn; now rewrite T. }
  set (sN := mkState (queue sW) (processing sW) (mutex sW) (p :: settled sW)
               (reactions sW) (running sW) [] (next_handle sW)
               (next_promise sW) (now sW) (log sW)).
  assert (E3 : settle_promise sW = Some sN)
    by (unfold settle_promise; now rewrite TW).
  exists sN. split; [cbn [run step]; now rewrite E2, E3|].
  split.
  { intros f. change (2 + f) with (S (S f)).
    rewrite (@drain_resume exec _ s sW t p T R N E2). apply drain_settle, E3. }
  unfold sN, sW. cbn -[Nat.ltb].
  rewrite processQueue_log, settle_task_log. cbn -[Nat.ltb].
  split; [reflexivity|].
  unfold processQueue, settle_task, retried.
  destruct (exec t) as [r|e]; cbn -[Nat.ltb].
  - destruct (queue s); cbn; rewrite ?R; cbn; rewrite ?M; repeat split.
  - destruct (attempts t <? maxAttempts t); cbn.
    + rewrite ?R; cbn; rewrite ?M; repeat split.
    + destruct (queue s); cbn; rewrite ?R; cbn; rewrite ?M; repeat split.
Qed.

Lemma drain_attempt (exec : oracle) (s : state) (w : nat) (t : task) (p : nat) :
  shape s -> reactions s = [(w, t, p)] -> returned s = [] ->
  exists sN,
    run s [RunCallback; ExecutorDone (handle t) (exec t); SettlePromise]
      = Some sN /\
    (forall f, drain exec (3 + f) s = drain exec f sN) /\
    log sN = log s ++ [(now s, Invoke (handle t) (attempts t + 1));
                       (now s, verdict t (exec t))] /\
    now sN = now s /\ next_handle sN = next_handle s /\
    returned sN = [] /\ running sN = [] /\
    if retried t (exec t)
    then reactions sN = [(p, bump t, mutex sN)] /\ queue sN = queue s
    else match queue s with
         | [] => reactions sN = [] /\ queue sN = []
         | t2 :: q' => reactions sN = [(p, t2, mutex sN)] /\ queue sN = q'
         end.
Proof.
  intros Hs R T. destruct (ready_shape Hs R T) as (N & W & M).
  pose proof (start_ready _ R W) as E1. rewrite N in E1. cbn [app] in E1.
  set (sE := emit _ _) in E1.
  destruct (@finish_attempt exec sE t p eq_refl eq_refl T M)
    as (sN & Run & D & L & F).
  exists sN. split; [cbn [run step] in *; now rewrite E1|].
  split.
  { intros f. change (3 + f) with (S (2 + f)).
    rewrite (@drain_start exec _ s sE T E1). apply D. }
  split; [|exact F].
  rewrite L. unfold sE. cbn. now rewrite <- app_assoc.
Qed.

Lemma retried_lt (t : task) (o : outcome) :
  retried t o = true -> attempts t < maxAttempts t.
Proof.
  destruct o; cbn; [discriminate|]. apply Nat.ltb_lt.
Qed.

Lemma drain_task (exec : oracle) (n : nat) :
  forall (s : state) (w : nat) (t : task) (p : nat),
  inv s -> reactions s = [(w, t, p)] -> returned s = [] ->
  S (maxAttempts t - attempts t) = n ->
  exists k sN es,
    k <= 3 * n /\ run s es = Some sN /\
    (forall f, drain exec (k + f) s = drain exec f sN) /\
    log sN = log s ++ map (pair (now s)) (task_effects exec t) /\
    now sN = now s /\ next_handle sN = next_handle s /\
    returned sN = [] /\ running sN = [] /\
    match queue s with
    | [] => reactions sN = [] /\ queue sN = []
    | t2 :: q' => (exists w' p', reactions sN = [(w', t2, p')]) /\ queue sN = q'
    end.
Proof.
  induction n as [|m IH]; intros s w t p Hi R T Hn; [discriminate|].
  destruct (drain_attempt exec (inv_shape Hi) R T)
    as (s1 & Run1 & D1 & L1 & N1 & H1 & T1 & R1 & Q1).
  pose proof (run_inv _ Hi Run1) as Hi1.
  unfold task_effects. rewrite Hn. cbn [attempts_from].
  destruct (retried t (exec t)) eqn:Hre.
  - destruct Q1 as [Q1 Q2]. apply retried_lt in Hre.
    assert (Hm : S (maxAttempts (bump t) - attempts (bump t)) = m)
      by (cbn; lia).
    destruct (IH s1 p (bump t) (mutex s1) Hi1 Q1 T1 Hm)
      as (k & sN & es & Hk & Run2 & D2 & L2 & N2 & H2 & T2 & R2 & Q3).
    exists (3 + k), sN,
      ([RunCallback; ExecutorDone (handle t) (exec t); SettlePromise] ++ es).
    split; [lia|]. split; [now rewrite run_app, Run1|].
    split; [intros f; rewrite <- Nat.add_assoc, D1; apply D2|].
    split.
    { rewrite L2, L1, N1, <- app_assoc. unfold task_effects. rewrite Hm.
      reflexivity. }
    rewrite Q2 in Q3. repeat (split; [congruence|]). exact Q3.
  - exists 3, s1, [RunCallback; ExecutorDone (handle t) (exec t); SettlePromise].
    split; [lia|]. split; [exact Run1|]. split; [exact D1|].
    split; [exact L1|]. repeat (split; [assumption|]).
    destruct (queue s); [exact Q1|]. destruct Q1 as [Q1 Q2]. eauto.
Qed.

Lemma drain_queue (exec : oracle) :
  forall (q : list task) (s : state) (w : nat) (t : task) (p : nat),
  inv s -> reactions s = [(w, t, p)] -> returned s = [] -> queue s = q ->
  exists k sN es,
    k <= 12 * S (length q) /\ run s es = Some sN /\
    (forall f, drain exec (k + f) s = drain exec f sN) /\
    log sN = log s ++
             map (pair (now s)) (flat_map (task_effects exec) (t :: q)) /\
    reactions sN = [] /\ returned sN = [] /\ running sN = [] /\
    next_handle sN = next_handle s.
Proof.
  induction q as [|t2 q' IH]; intros s w t p Hi R T Q.
  - destruct (drain_task exec Hi R T eq_refl)
      as (k & sN & es & Hk & Run1 & D1 & L1 & N1 & H1 & T1 & R1 & Q1).
    rewrite Q in Q1. destruct Q1 as [Q1 Q2].
    assert (B : attempts t <= 3 /\ maxAttempts t = 3).
    { apply (live_bounded (inv_tasks Hi)). unfold live. rewrite R. now left. }
    exists k, sN, es. split; [cbn; lia|]. split; [exact Run1|].
    split; [exact D1|]. split; [|auto].
    cbn [flat_map]. now rewrite app_nil_r.
  - destruct (drain_task exec Hi R T eq_refl)
      as (k & s1 & es & Hk & Run1 & D1 & L1 & N1 & H1 & T1 & R1 & Q1).
    rewrite Q in Q1. destruct Q1 as [(w' & p' & Q1) Q2].
    assert (B : attempts t <= 3 /\ maxAttempts t = 3).
    { apply (live_bounded (inv_tasks Hi)). unfold live. rewrite R. now left. }
    pose proof (run_inv _ Hi Run1) as Hi1.
    destruct (IH s1 w' t2 p' Hi1 Q1 T1 Q2)
      as (k2 & sN & es2 & Hk2 & Run2 & D2 & L2 & R2 & T2 & N2 & H2).
    exists (k + k2), sN, (es ++ es2).
    split; [cbn [length]; lia|]. split; [now rewrite run_app, Run1|].
    split; [intros f; rewrite <- Nat.add_assoc, D1; apply D2|].
    split; [|repeat split; congruence].
    rewrite L2, L1, N1, <- app_assoc, <- map_app. reflexivity.
Qed.

Lemma drain_idle (exec : oracle) (s : state) (f : nat) :
  reactions s = [] -> returned s = [] -> running s = [] ->
  drain exec f s = s.
Proof.
  intros R T N. destruct f; [reflexivity|]. cbn.
  unfold settle_promise, start_callback. now rewrite T, R, N.
Qed.

Lemma verdict_handle (t : task) (o : outcome) :
  effect_handle (verdict t o) = handle t.
Proof.
  unfold verdict. destruct o; [reflexivity|].
  destruct (attempts t <? maxAttempts t); reflexivity.
Qed.

Lemma attempts_from_handle (exec : oracle) (n : nat) :
  forall t e, In e (attempts_from exec t n) -> effect_handle e = handle t.
Proof.
  induction n as [|n IH]; intros t e; cbn; [tauto|].
  intros [<-|[<-|H]]; [reflexivity | apply verdict_handle|].
  destruct (retried t (exec t)); [|destruct H].
  apply IH in H. exact H.
Qed.

Lemma filter_all {A : Type} (f : A -> bool) (l : list A) :
  (forall x, In x l -> f x = true) -> filter f l = l.
Proof.
  induction l as [|a l IH]; cbn; intros H; [reflexivity|].
  rewrite (H a (or_introl eq_refl)), IH; auto.
Qed.

Lemma filter_none {A : Type} (f : A -> bool) (l : list A) :
  (forall x, In x l -> f x = false) -> filter f l = [].
Proof.
  induction l as [|a l IH]; cbn; intros H; [reflexivity|].
  rewrite (H a (or_introl eq_refl)), IH; auto.
Qed.

Lemma effects_of_task (exec : oracle) (t0 : task) (l : list task) :
  NoDup (map handle l) -> In t0 l ->
  filter (fun e => effect_handle e =? handle t0)
         (flat_map (task_effects exec) l) = task_effects exec t0.
Proof.
  induction l as [|t l IH]; cbn [flat_map map]; intros Hn Hi; [destruct Hi|].
  inversion Hn as [|? ? Hnot Hn']; subst. rewrite filter_app.
  destruct Hi as [->|Hi].
  - rewrite filter_all.
    + rewrite filter_none; [apply app_nil_r|].
      intros e He. apply in_flat_map in He. destruct He as [x [Hx He]].
      apply attempts_from_handle in He. rewrite He. apply Nat.eqb_neq.
      intros E. apply Hnot. rewrite <- E. now apply in_map.
    + intros e He. apply attempts_from_handle in He. rewrite He.
      apply Nat.eqb_refl.
  - rewrite filter_none.
    + cbn [app]. apply IH; assumption.
    + intros e He. apply attempts_from_handle in He. rewrite He.
      apply Nat.eqb_neq. intros E. apply Hnot. rewrite E. now apply in_map.
Qed.

Lemma StronglySorted_lt_NoDup (l : list nat) :
  StronglySorted lt l -> NoDup l.
Proof.
  induction 1 as [|a l _ IH Ha]; constructor; [|assumption].
  intros Hin. rewrite Forall_forall in Ha. specialize (Ha _ Hin). lia.
Qed.

(** From any reachable state with work left, at most two steps of the
    event loop lead to a state whose next callback is ready to start. *)
Lemma drain_normalize (exec : oracle) (s : state) :
  inv s -> queue s <> [] \/ reactions s <> [] ->
  exists k sN es pre w t p,
    k <= 2 /\ run s es = Some sN /\
    (forall f, drain exec (k + f) s = drain exec f sN) /\
    reactions sN = [(w, t, p)] /\ returned sN = [] /\
    log sN = log s ++ map (pair (now s)) pre /\
    now sN = now s /\ next_handle sN = next_handle s /\
    length (queue sN) <= length (queue s) /\
    (forall x, In x (queue s) -> In x (t :: queue sN)) /\
    (running s = [] -> pre = [] /\ live s = [t]) /\
    (forall e, In e pre ->
       exists t1 p1, running s = [(t1, p1)] /\ effect_handle e = handle t1).
Proof.
  intros Hi Hw. destruct (inv_shape Hi) as
    [R N T M P Q | R N T M P Q | w t p R N T W M P D Pr
    | w t p R N T W M P Pr | t p R N T M P Pr].
  - destruct Hw; congruence.
  - destruct Hw; congruence.
  - (* the promise awaited is about to be settled *)
    set (sN := mkState (queue s) (processing s) (mutex s) (w :: settled s)
                 (reactions s) (running s) [] (next_handle s)
                 (next_promise s) (now s) (log s)).
    assert (E : settle_promise s = Some sN)
      by (unfold settle_promise; now rewrite T).
    exists 1, sN, [SettlePromise], [], w, t, p.
    split; [lia|]. split; [cbn [run step]; now rewrite E|].
    split; [intros f; apply drain_settle, E|].
    unfold live. cbn. rewrite R, N, app_nil_r.
    repeat split; auto. intros e [].
  - exists 0, s, [], [], w, t, p. split; [lia|]. unfold live. cbn.
    rewrite R, N, app_nil_r. repeat split; auto. intros e [].
  - (* a command is inside the Executor *)
    destruct Hw as [Hq|Hr]; [|congruence].
    destruct (@finish_attempt exec s t p R N T M)
      as (sN & Run & D & L & N1 & H1 & T1 & R1 & F).
    assert (K : exists w' t' p', reactions sN = [(w', t', p')] /\
                  length (queue sN) <= length (queue s) /\
                  forall x, In x (queue s) -> In x (t' :: queue sN)).
    { destruct (retried t (exec t)).
      - destruct F as [F1 F2]. exists p, (bump t), (mutex sN).
        rewrite F2. split; [exact F1|]. split; [lia|]. intros x Hx. now right.
      - destruct (queue s) as [|t2 q'] eqn:Q; [congruence|].
        destruct F as [F1 F2]. exists p, t2, (mutex sN).
        rewrite F2. split; [exact F1|]. split; [cbn; lia|]. auto. }
    destruct K as (w' & t' & p' & K1 & K2 & K3).
    exists 2, sN, [ExecutorDone (handle t) (exec t); SettlePromise],
      [verdict t (exec t)], w', t', p'.
    split; [lia|]. split; [exact Run|]. split; [exact D|].
    split; [exact K1|]. split; [exact T1|]. split; [exact L|].
    split; [exact N1|]. split; [exact H1|]. split; [exact K2|].
    split; [exact K3|]. split; [rewrite N; discriminate|].
    intros x [<-|[]]. exists t, p. split; [exact N | apply verdict_handle].
Qed.

Lemma submit_step (b : payload) (s : state) :
  step s match b with
         | Script n ps => Enqueue n ps
         | InlineScript sc => EnqueueInline sc
         end = Some (snd (submit b s)).
Proof. destruct b; reflexivity. Qed.

Lemma submit_facts (b : payload) (s : state) :
  shape s ->
  let t0 := mkTask (next_handle s) b 0 3 in
  let s1 := snd (submit b s) in
  fst (submit b s) = next_handle s /\
  log s1 = log s /\ now s1 = now s /\ next_handle s1 = S (next_handle s) /\
  length (queue s1) <= S (length (queue s)) /\
  (In t0 (queue s1) \/ (live s1 = [t0] /\ running s1 = [])) /\
  (queue s1 <> [] \/ reactions s1 <> []).
Proof.
  intros Hs.
  assert (E : submit b s =
    (next_handle s,
     let s1 := push (mkTask (next_handle s) b 0 3) s in
     if processing s1 then s1 else processQueue s1))
    by (destruct b; reflexivity).
  rewrite E. clear E. unfold push, processQueue, live. break_state s.
  destruct Hs; cbn in *; subst; cbn.
  1,2: split; [reflexivity|]; split; [reflexivity|]; split; [reflexivity|];
    split; [reflexivity|]; split; [apply Nat.le_0_l|];
    split; [right; split; reflexivity | right; discriminate].
  all: split; [reflexivity|]; split; [reflexivity|]; split; [reflexivity|];
    split; [reflexivity|];
    split; [rewrite length_app, Nat.add_comm; apply Nat.le_refl|];
    split; [ left; apply in_app_iff; right; now left
           | left; destruct q; discriminate ].
Qed.

Lemma effects_of_app (h : nat) (l : list (Z * effect)) (tm : Z)
    (effs : list effect) :
  effects_of h (l ++ map (pair tm) effs) =
  effects_of h l ++ filter (fun e => effect_handle e =? h) effs.
Proof.
  unfold effects_of. rewrite map_app, filter_app, map_map. cbn.
  now rewrite map_id.
Qed.

Lemma effects_of_other (h : nat) (l : list (Z * effect)) :
  (forall tm e, In (tm, e) l -> effect_handle e <> h) -> effects_of h l = [].
Proof.
  intros H. unfold effects_of. apply filter_none. intros e He.
  apply in_map_iff in He. destruct He as [[tm e'] [<- He]].
  apply Nat.eqb_neq. eapply H. exact He.
Qed.

Lemma idle_shape (s : state) :
  shape s -> reactions s = [] -> running s = [] -> returned s = [] ->
  processing s = false /\ queue s = [].
Proof.
  intros [? ? ? ? P Q|? ? T| | |? ? ? N] R N' T'; try congruence. auto.
Qed.

(** What a drained queue has done for a command just submitted: exactly
    the attempts its own outcomes call for. *)
Lemma drain_effects (s : state) (exec : oracle) (b : payload) (fuel : nat) :
  reachable s -> 12 * (length (queue s) + 2) + 2 <= fuel ->
  let h := next_handle s in
  let s' := drain exec fuel (snd (submit b s)) in
  reachable s' /\ processing s' = false /\ queue s' = [] /\ running s' = [] /\
  effects_of h (log s') = task_effects exec (mkTask h b 0 3).
Proof.
  intros Hr Hf h s'. pose proof (reachable_inv Hr) as Hi.
  set (t0 := mkTask h b 0 3). set (s1 := snd (submit b s)) in *.
  assert (Hr1 : reachable s1).
  { apply (reachable_run [match b with
                          | Script n ps => Enqueue n ps
                          | InlineScript sc => EnqueueInline sc
                          end] Hr).
    cbn. now rewrite submit_step. }
  pose proof (reachable_inv Hr1) as Hi1.
  destruct (submit_facts b (inv_shape Hi))
    as (_ & L1 & N1 & H1 & Q1 & In1 & W1).
  fold s1 t0 in L1, N1, H1, Q1, In1, W1. fold h in H1.
  destruct (drain_normalize exec Hi1 W1)
    as (k1 & sN & es1 & pre & w & t & p & Hk1 & Run1 & D1 & R2 & T2 & L2
        & N2 & H2 & Q2 & Keep & Same & Pre).
  pose proof (run_inv _ Hi1 Run1) as HiN.
  destruct (drain_queue exec HiN R2 T2 eq_refl)
    as (k2 & sF & es2 & Hk2 & Run2 & D2 & L3 & R3 & T3 & N3 & H3).
  assert (Hs' : s' = sF).
  { subst s'. replace fuel with (k1 + (k2 + (fuel - k1 - k2))) by lia.
    rewrite D1, D2. now apply drain_idle. }
  rewrite Hs'.
  assert (HrF : reachable sF).
  { apply (reachable_run es2 (reachable_run es1 Hr1 Run1) Run2). }
  destruct (idle_shape (inv_shape (reachable_inv HrF)) R3 N3 T3) as [P Q].
  split; [exact HrF|]. split; [exact P|]. split; [exact Q|].
  split; [exact N3|].
  (* the command is in the backlog, and alone with its handle *)
  destruct (ready_shape (inv_shape HiN) R2 T2) as (NN & _ & _).
  assert (Live : live sN = [t]) by (unfold live; now rewrite R2, NN).
  assert (In0 : In t0 (t :: queue sN)).
  { destruct In1 as [I|[I1 I2]]; [now apply Keep|].
    destruct (Same I2) as [_ E]. rewrite I1 in E. injection E as <-.
    now left. }
  assert (ND : NoDup (map handle (t :: queue sN))).
  { apply StronglySorted_lt_NoDup.
    pose proof (handles_sorted (inv_tasks HiN)) as S0.
    now rewrite Live in S0. }
  assert (Main : filter (fun e => effect_handle e =? h)
                    (flat_map (task_effects exec) (t :: queue sN))
                  = task_effects exec t0)
    by exact (@effects_of_task exec t0 _ ND In0).
  rewrite L3, L2, L1, N2, !effects_of_app, Main.
  rewrite effects_of_other, filter_none; [reflexivity| |].
  - intros e He. apply Nat.eqb_neq. destruct (Pre e He) as (t1 & p1 & E1 & E2).
    rewrite E2. destruct In1 as [I|[_ I2]]; [|congruence].
    pose proof (handles_sorted (inv_tasks Hi1)) as S1.
    unfold live in S1.
    destruct (inv_shape Hi1) as [?|?|? ? ? ? X|? ? ? ? X|? ? X0 X];
      try congruence.
    rewrite X0, X in S1. cbn in S1. rewrite E1 in X. injection X as <- <-.
    pose proof (StronglySorted_head S1 (handle t0) (in_map handle _ _ I))
      as Hlt.
    unfold t0 in Hlt. cbn in Hlt. lia.
  - intros tm e He. pose proof (log_bounded (inv_log Hi) _ _ He). unfold h. lia.
Qed.

(** C2, as the code has it.  In every reachable state, whatever the
    callers and the event loop have done, no command has been handed to
    the Executor more than four times, and a rejected handle has been
    handed to it either never (cancelled while pending) or exactly four
    times.  A command submitted to the queue in any reachable state, with
    the queue then left to drain under the Executor outcomes [exec]:
    - if every invocation for it fails, the Executor is invoked for it
      exactly [maxAttempts + 1] = 4 times ([maxAttempts] is 3 for every
      task: the first attempt and three retries), and its handle is then
      rejected with the error of the last invocation;
    - if its first invocation fails and its second succeeds, the
      Executor is invoked for it exactly twice and its handle resolves
      with the result of the second invocation. *)
Theorem bounded_retry (s : state) (exec : oracle) (b : payload) (fuel : nat) :
  reachable s -> 12 * (length (queue s) + 2) + 2 <= fuel ->
  let h := next_handle s in
  let t0 := mkTask h b 0 3 in
  let s' := drain exec fuel (snd (submit b s)) in
  (forall h',
     invocations h' (log s) <= 4 /\
     forall tm e, In (tm, Reject h' e) (log s) ->
       invocations h' (log s) = 0 \/ invocations h' (log s) = 4) /\
  fst (submit b s) = h /\
  reachable s' /\ processing s' = false /\ queue s' = [] /\ running s' = [] /\
  ((forall a, a <= 3 -> exists e, exec (mkTask h b a 3) = Failed e) ->
   invocations h (log s') = maxAttempts t0 + 1 /\
   exists e, exec (mkTask h b 3 3) = Failed e /\
     effects_of h (log s') =
       [Invoke h 1; Retry h 1; Invoke h 2; Retry h 2; Invoke h 3; Retry h 3;
        Invoke h 4; Reject h e]) /\
  (forall e r,
     exec (mkTask h b 0 3) = Failed e -> exec (mkTask h b 1 3) = Fulfilled r ->
     invocations h (log s') = 2 /\
     effects_of h (log s') = [Invoke h 1; Retry h 1; Invoke h 2; Resolve h r]).
Proof.
  intros Hr Hf h t0 s'.
  destruct (drain_effects exec b Hr Hf) as (R1 & R2 & R3 & R4 & E).
  fold h s' in R1, R2, R3, R4, E.
  split.
  { intros h'. pose proof (reachable_counts Hr) as C. split.
    - apply (invoked_at_most C).
    - intros tm e He. exact (rejected C _ _ _ He). }
  split; [apply submit_facts, (inv_shape (reachable_inv Hr))|].
  repeat (split; [assumption|]).
  unfold invocations. rewrite E. unfold task_effects. cbn. split.
  - intros Hfail.
    destruct (Hfail 0) as [e0 E0]; [lia|]. destruct (Hfail 1) as [e1 E1]; [lia|].
    destruct (Hfail 2) as [e2 E2]; [lia|]. destruct (Hfail 3) as [e3 E3]; [lia|].
    unfold bump, verdict, retried. cbn. rewrite E0. cbn. rewrite E1. cbn.
    rewrite E2. cbn. rewrite E3. cbn. split; [reflexivity|].
    exists e3. split; reflexivity.
  - intros e r E0 E1. unfold bump, verdict, retried. cbn.
    rewrite E0. cbn. rewrite E1. cbn. split; reflexivity.
Qed.

Lemma bounded_retry_witness :
  let exec := fun t : task =>
    if (handle t =? 1) && (attempts t =? 1) then Fulfilled "sent"
    else Failed "timeout" in
  let s0 := snd (enqueue "send_text" [] init) in
  let s' := drain exec 38 (snd (submit (Script "send_media" []) s0)) in
  reachable s0 /\ 12 * (length (queue s0) + 2) + 2 <= 38 /\
  exec (mkTask 1 (Script "send_media" []) 0 3) = Failed "timeout" /\
  exec (mkTask 1 (Script "send_media" []) 1 3) = Fulfilled "sent" /\
  invocations 1 (log s') = 2 /\
  effects_of 1 (log s') = [Invoke 1 1; Retry 1 1; Invoke 1 2; Resolve 1 "sent"].
Proof.
  intros exec s0 s'.
  assert (Hr : reachable s0) by (exists [Enqueue "send_text" []]; reflexivity).
  assert (Hf : 12 * (length (queue s0) + 2) + 2 <= 38) by (cbn; lia).
  split; [exact Hr|]. split; [exact Hf|].
  split; [reflexivity|]. split; [reflexivity|].
  exact (proj2 (proj2 (proj2 (proj2 (proj2 (proj2 (proj2
    (bounded_retry exec (Script "send_media" []) Hr Hf)))))))
    "timeout"%string "sent"%string eq_refl eq_refl).
Defined.

(** C2, as the specification words it, fails: a command whose every
    invocation fails is handed to the Executor four times, one more than
    its [maxAttempts] of 3, before its handle is rejected. *)
Lemma always_failing_runs_four_times :
  let exec := fun _ : task => Failed "timeout" in
  let s1 := snd (enqueue "send_text" [] init) in
  let s' := drain exec 12 s1 in
  live s1 = [mkTask 0 (Script "send_text" []) 0 3] /\
  map snd (log s') =
    [Invoke 0 1; Retry 0 1; Invoke 0 2; Retry 0 2; Invoke 0 3; Retry 0 3;
     Invoke 0 4; Reject 0 "timeout"] /\
  invocations 0 (log s') = 4 /\
  invocations 0 (log s') <> maxAttempts (mkTask 0 (Script "send_text" []) 0 3).
Proof.
  cbv zeta. split; [reflexivity|]. split; [vm_compute; reflexivity|].
  split; [vm_compute; reflexivity|]. vm_compute. discriminate.
Qed.

(* ------------------------------------------------------------------ *)
(** ** Every handle is settled once *)

Lemma effects_of_snoc (h : nat) (l : list (Z * effect)) (tm : Z) (e : effect) :
  effects_of h (l ++ [(tm, e)]) =
  effects_of h l ++ if effect_handle e =? h then [e] else [].
Proof.
  unfold effects_of. rewrite map_app, filter_app. cbn.
  destruct (effect_handle e =? h); reflexivity.
Qed.

Lemma settlements_snoc (h : nat) (l : list (Z * effect)) (tm : Z) (e : effect) :
  settlements h (l ++ [(tm, e)]) =
  settlements h l + if (effect_handle e =? h) && is_final e then 1 else 0.
Proof.
  unfold settlements. rewrite effects_of_snoc, filter_app, length_app.
  destruct (effect_handle e =? h); cbn; [|reflexivity].
  destruct (is_final e); reflexivity.
Qed.

Lemma final_last_snoc (l : list effect) (e : effect) :
  filter is_final l = [] -> final_last (l ++ [e]) = true.
Proof.
  induction l as [|a l IH]; cbn; intros H.
  - destruct (is_final e); reflexivity.
  - destruct (is_final a); [discriminate | auto].
Qed.

Lemma settle_last_snoc (l : list (Z * effect)) (tm : Z) (e : effect) :
  (forall h, final_last (effects_of h l) = true) ->
  settlements (effect_handle e) l = 0 ->
  forall h, final_last (effects_of h (l ++ [(tm, e)])) = true.
Proof.
  intros FL Z0 h. rewrite effects_of_snoc.
  destruct (effect_handle e =? h) eqn:E; [|rewrite app_nil_r; apply FL].
  apply Nat.eqb_eq in E. subst h. apply final_last_snoc.
  unfold settlements in Z0. now apply length_zero_iff_nil.
Qed.

Lemma settlements_cancel (why : string) (tm : Z) (q : list task) :
  forall (l : list (Z * effect)) (h : nat),
  settlements h (l ++ map (fun t => (tm, Reject (handle t) why)) q) =
  settlements h l + length (filter (fun t => handle t =? h) q).
Proof.
  induction q as [|a q IH]; intros l h; cbn [map filter].
  - rewrite app_nil_r. cbn. lia.
  - change (l ++ (tm, Reject (handle a) why) ::
              map (fun t => (tm, Reject (handle t) why)) q)
      with (l ++ [(tm, Reject (handle a) why)] ++
              map (fun t => (tm, Reject (handle t) why)) q).
    rewrite app_assoc, IH, settlements_snoc. cbn [effect_handle is_final].
    rewrite andb_true_r. destruct (handle a =? h); cbn [length]; lia.
Qed.

Lemma settle_last_cancel (why : string) (tm : Z) (q : list task) :
  forall l : list (Z * effect),
  NoDup (map handle q) ->
  (forall h, final_last (effects_of h l) = true) ->
  (forall t, In t q -> settlements (handle t) l = 0) ->
  forall h,
    final_last
      (effects_of h (l ++ map (fun t => (tm, Reject (handle t) why)) q)) = true.
Proof.
  induction q as [|a q IH]; intros l ND FL Z0 h; cbn [map].
  - rewrite app_nil_r. apply FL.
  - change (l ++ (tm, Reject (handle a) why) ::
              map (fun t => (tm, Reject (handle t) why)) q)
      with (l ++ [(tm, Reject (handle a) why)] ++
              map (fun t => (tm, Reject (handle t) why)) q).
    rewrite app_assoc. inversion ND as [|? ? Hnot ND']; subst.
    apply IH.
    + exact ND'.
    + apply settle_last_snoc; [exact FL|]. apply Z0. now left.
    + intros t Ht. rewrite settlements_snoc. cbn [effect_handle is_final].
      rewrite (Z0 t (or_intror Ht)).
      destruct (handle a =? handle t) eqn:E; [|reflexivity].
      apply Nat.eqb_eq in E. exfalso. apply Hnot. rewrite E. now apply in_map.
Qed.

Lemma held_split (h : nat) (s : state) :
  held h s =
  length (filter (fun t => handle t =? h) (live s)) +
  length (filter (fun t => handle t =? h) (queue s)).
Proof. unfold held. now rewrite filter_app, length_app. Qed.

Lemma held_in (h : nat) (s : state) :
  0 < held h s <-> exists t, In t (live s ++ queue s) /\ handle t = h.
Proof.
  unfold held. split.
  - intros H. destruct (filter (fun t => handle t =? h) (live s ++ queue s))
      as [|t l] eqn:E; [cbn in H; lia|].
    assert (Ht : In t (filter (fun t => handle t =? h) (live s ++ queue s)))
      by (rewrite E; now left).
    apply filter_In in Ht. destruct Ht as [Ht1 Ht2].
    exists t. split; [exact Ht1 | now apply Nat.eqb_eq].
  - intros [t [Ht E]].
    assert (Hf : In t (filter (fun t => handle t =? h) (live s ++ queue s)))
      by (apply filter_In; split; [exact Ht | now apply Nat.eqb_eq]).
    destruct (filter (fun t => handle t =? h) (live s ++ queue s));
      [destruct Hf | cbn; lia].
Qed.

Lemma settle_ok_frame (s s' : state) :
  queue s' = queue s -> reactions s' = reactions s ->
  running s' = running s -> log s' = log s ->
  next_handle s' = next_handle s -> settle_ok s -> settle_ok s'.
Proof.
  intros E1 E2 E3 E4 E5 [B L].
  constructor; unfold held, live in *; rewrite ?E1, ?E2, ?E3, ?E4, ?E5;
    assumption.
Qed.

Lemma enqueue_held (s : state) (b : payload) (h : nat) :
  shape s ->
  let s1 := push (mkTask (next_handle s) b 0 3) s in
  let s' := if processing s1 then s1 else processQueue s1 in
  held h s' = held h s + (if next_handle s =? h then 1 else 0) /\
  live s' ++ queue s' = (live s ++ queue s) ++ [mkTask (next_handle s) b 0 3] /\
  log s' = log s /\ next_handle s' = S (next_handle s).
Proof.
  intros Hs.
  assert (K : let s1 := push (mkTask (next_handle s) b 0 3) s in
              let s' := if processing s1 then s1 else processQueue s1 in
              live s' ++ queue s' =
                (live s ++ queue s) ++ [mkTask (next_handle s) b 0 3] /\
              log s' = log s /\ next_handle s' = S (next_handle s)).
  { unfold push, processQueue, live. break_state s.
    destruct Hs; cbn in *; subst; cbn; repeat split.
    all: now rewrite ?app_nil_r. }
  cbv zeta in *. destruct K as (K1 & K2 & K3).
  split; [|auto]. unfold held. rewrite K1, filter_app, length_app.
  cbn [filter handle]. destruct (next_handle s =? h); reflexivity.
Qed.

Lemma settle_ok_enqueue (s : state) (b : payload) :
  inv s -> settle_ok s ->
  let s1 := push (mkTask (next_handle s) b 0 3) s in
  settle_ok (if processing s1 then s1 else processQueue s1).
Proof.
  intros [Hs _ _ G] [B L]. cbv zeta.
  constructor.
  - intros h. destruct (enqueue_held b h Hs) as (K1 & _ & K2 & K3).
    cbv zeta in K1, K2, K3. rewrite K1, K2, K3, Nat.add_assoc, B.
    destruct (Nat.eqb_spec (next_handle s) h) as [E0|Hn].
    + subst h. rewrite Nat.ltb_irrefl.
      assert (E : (next_handle s <? S (next_handle s)) = true)
        by (apply Nat.ltb_lt; lia).
      now rewrite E.
    + destruct (Nat.ltb_spec h (next_handle s)) as [H1|H1];
        destruct (Nat.ltb_spec h (S (next_handle s))) as [H2|H2];
        try reflexivity; lia.
  - intros h. destruct (enqueue_held b h Hs) as (_ & _ & K2 & _).
    cbv zeta in K2. rewrite K2. apply L.
Qed.

Lemma handles_apart (s : state) (t t' : task) :
  tasks_ok s -> In t (live s) -> In t' (queue s) -> handle t' <> handle t.
Proof.
  intros [T1 _ _ _] Ht Ht'. rewrite map_app in T1.
  induction (live s) as [|a l IH]; [destruct Ht|].
  cbn in T1. destruct Ht as [->|Ht].
  - apply StronglySorted_head with (x := handle t') in T1.
    + lia.
    + apply in_app_iff. right. now apply in_map.
  - apply IH; [eapply StronglySorted_tail; exact T1 | exact Ht].
Qed.

Lemma held_unsettled (s : state) (t : task) :
  settle_ok s -> In t (live s ++ queue s) -> settlements (handle t) (log s) = 0.
Proof.
  intros [B _] Ht.
  assert (H : 0 < held (handle t) s) by (apply held_in; eauto).
  specialize (B (handle t)). destruct (handle t <? next_handle s); lia.
Qed.

Lemma settle_ok_clearQueue (s : state) (r : option string) :
  tasks_ok s -> settle_ok s -> settle_ok (clearQueue r s).
Proof.
  intros Tk Ok0. pose proof Ok0 as [B L]. unfold clearQueue.
  destruct (0 <? length (queue s)); [|exact Ok0].
  match goal with |- context [fold_left ?f (queue s) s] =>
    pose proof (fold_emit_fields
      (fun t => Reject (handle t)
         (cancelled match r with Some r0 => r0 | None => "unknown"%string end))
      (queue s) s) as F; cbn zeta in F;
    set (s1 := fold_left f (queue s) s) in *
  end.
  destruct F as (F1 & F2 & F3 & F4 & F5 & F6 & F7 & F8 & F9 & F10 & F11).
  clearbody s1.
  assert (ND : NoDup (map handle (queue s))).
  { pose proof (handles_sorted Tk) as S0. rewrite map_app in S0.
    apply StronglySorted_lt_NoDup in S0. now apply NoDup_app_remove_l in S0. }
  constructor; unfold held, live in *;
    cbn [queue reactions running log next_handle];
    rewrite ?F5, ?F6, ?F8, ?F11, ?app_nil_r.
  - intros h.
    rewrite (settlements_cancel _ (now s) (queue s) (log s) h).
    rewrite <- (B h), !filter_app, !length_app. lia.
  - apply settle_last_cancel; [exact ND | exact L |].
    intros t Ht. apply (@held_unsettled s t Ok0). apply in_app_iff. now right.
Qed.

Lemma settle_ok_start (s s' : state) :
  shape s -> settle_ok s -> start_callback s = Some s' -> settle_ok s'.
Proof.
  intros Hs Ok0 Hstep. pose proof Ok0 as [B L].
  assert (U : forall t, In t (live s ++ queue s) ->
                settlements (handle t) (log s) = 0)
    by (intros; now apply held_unsettled).
  unfold start_callback, held, live in *. break_state s.
  destruct Hs as [ | | ? ? ? ? ? ? H2 | w t p ? ? ? H2 | ];
    cbn in *; subst; cbn in *; try discriminate.
  - apply existsb_eqb_not_In in H2. rewrite H2 in Hstep. discriminate.
  - apply existsb_eqb_In in H2. rewrite H2 in Hstep. injection Hstep as <-.
    constructor; unfold held, live;
      cbn [emit queue reactions running log now next_handle map app fst snd].
    + intros h. rewrite settlements_snoc. cbn [is_final].
      rewrite andb_false_r, Nat.add_0_r. apply B.
    + apply settle_last_snoc; [exact L|]. cbn [effect_handle].
      apply U. now left.
Qed.

Lemma settle_ok_resume (s s' : state) (h : nat) (o : outcome) :
  shape s -> tasks_ok s -> settle_ok s ->
  resume_callback h o s = Some s' -> settle_ok s'.
Proof.
  intros Hs Tk Ok0 Hstep. pose proof Ok0 as [B L].
  assert (U : forall t, In t (live s ++ queue s) ->
                settlements (handle t) (log s) = 0)
    by (intros; now apply held_unsettled).
  unfold resume_callback, held, live in *. break_state s.
  destruct Hs as [ | | | | t p ]; cbn -[Nat.ltb settlements] in *; subst;
    cbn -[Nat.ltb settlements] in *; try discriminate.
  destruct (handle t =? h); [|discriminate]. injection Hstep as <-.
  assert (Ut : settlements (handle t) lg = 0) by (apply U; now left).
  assert (Next : forall x, is_final x = true -> effect_handle x = handle t ->
    settle_ok (mkState (tl q) true p st
                 match q with [] => [] | t0 :: _ => [(p, t0, np)] end
                 [] [] nh np tm (lg ++ [(tm, x)]))).
  { intros x Hx Hh. constructor; unfold held, live;
      cbn [queue reactions running log next_handle].
    - intros h0. rewrite settlements_snoc, Hx, Hh, andb_true_r.
      rewrite <- (B h0).
      replace ((map (fun r : reaction => snd (fst r))
                  match q with [] => [] | t0 :: _ => [(p, t0, np)] end
                ++ map fst (@nil (task * nat))) ++ tl q) with q
        by (destruct q; reflexivity).
      destruct (handle t =? h0); cbn [length]; lia.
    - apply settle_last_snoc; [exact L|]. now rewrite Hh. }
  unfold settle_task. destruct o as [r|e].
  - destruct q; cbn;
      (eapply settle_ok_frame;
       [..|apply (Next (Resolve (handle t) r) eq_refl eq_refl)]; reflexivity).
  - destruct (attempts t <? maxAttempts t) eqn:Hlt.
    + cbn -[settlements]. constructor; unfold held, live;
        cbn [emit unshift bump queue reactions running log now next_handle
             handle map app fst snd].
      * intros h0. rewrite settlements_snoc. cbn [is_final filter bump handle].
        rewrite andb_false_r, Nat.add_0_r. rewrite <- (B h0).
        destruct (handle t =? h0); reflexivity.
      * apply settle_last_snoc; [exact L | exact Ut].
    + destruct q; cbn;
        (eapply settle_ok_frame;
         [..|apply (Next (Reject (handle t) e) eq_refl eq_refl)]; reflexivity).
Qed.

Lemma step_settle (s s' : state) (e : event) :
  inv s -> settle_ok s -> step s e = Some s' -> settle_ok s'.
Proof.
  intros Hi Hc Hstep. pose proof Hi as [Hs Hp Ht Hl].
  destruct e as [n ps | sc | r | | h o | | d]; cbn in Hstep.
  - injection Hstep as <-. apply (settle_ok_enqueue (Script n ps) Hi Hc).
  - injection Hstep as <-. apply (settle_ok_enqueue (InlineScript sc) Hi Hc).
  - injection Hstep as <-. apply settle_ok_clearQueue; assumption.
  - eapply settle_ok_start; eauto.
  - eapply settle_ok_resume; eauto.
  - unfold settle_promise in Hstep. destruct (returned s); [discriminate|].
    injection Hstep as <-. eapply settle_ok_frame; [..|exact Hc]; reflexivity.
  - unfold elapse in Hstep.
    destruct ((0 <? d)%Z && negb (microtask_pending s)); [|discriminate].
    injection Hstep as <-. eapply settle_ok_frame; [..|exact Hc]; reflexivity.
Qed.

Lemma settle_ok_init : settle_ok init.
Proof. constructor; intros h; reflexivity. Qed.

Lemma run_settle (es : list event) (s s' : state) :
  inv s -> settle_ok s -> run s es = Some s' -> settle_ok s'.
Proof.
  revert s. induction es as [|e es IH]; cbn; intros s Hi Hc Hr.
  - now injection Hr as <-.
  - destruct (step s e) as [s1|] eqn:E; [|discriminate].
    eapply IH; [eapply step_inv; eauto | eapply step_settle; eauto | exact Hr].
Qed.

Lemma reachable_settle (s : state) : reachable s -> settle_ok s.
Proof.
  intros [es H].
  eapply run_settle; [apply inv_init | apply settle_ok_init | exact H].
Qed.

(* ------------------------------------------------------------------ *)
(** ** Order of execution *)

Lemma invoked_snoc (l : list (Z * effect)) (tm : Z) (e : effect) :
  invoked (l ++ [(tm, e)]) =
  invoked l ++ if is_invoke e then [effect_handle e] else [].
Proof.
  unfold invoked. rewrite map_app, filter_app, map_app. cbn.
  destruct (is_invoke e); reflexivity.
Qed.

Lemma invoked_quiet (l l2 : list (Z * effect)) :
  (forall x, In x l2 -> is_invoke (snd x) = false) ->
  invoked (l ++ l2) = invoked l.
Proof.
  intros H. unfold invoked. rewrite map_app, filter_app.
  rewrite (filter_none is_invoke (map snd l2)); [now rewrite app_nil_r|].
  intros e He. apply in_map_iff in He. destruct He as [x [<- Hx]]. auto.
Qed.

Lemma invoked_in (h : nat) (l : list (Z * effect)) :
  In h (invoked l) -> exists tm a, In (tm, Invoke h a) l.
Proof.
  unfold invoked. intros H. apply in_map_iff in H. destruct H as [e [E He]].
  apply filter_In in He. destruct He as [He1 He2].
  apply in_map_iff in He1. destruct He1 as [[tm e'] [E' Hin]].
  cbn in E'. subst e'. destruct e; try discriminate. cbn in E. subst. eauto.
Qed.

Lemma StronglySorted_le_snoc (l : list nat) (y : nat) :
  StronglySorted le l -> (forall x, In x l -> x <= y) ->
  StronglySorted le (l ++ [y]).
Proof.
  induction 1 as [|a l Hs IH Ha]; intros Hy; cbn.
  - repeat constructor.
  - constructor.
    + apply IH. intros x Hx. apply Hy. now right.
    + apply Forall_app. split; [exact Ha|].
      constructor; [apply Hy; now left | constructor].
Qed.

Lemma fifo_ok_frame (s s' : state) :
  reactions s' = reactions s -> running s' = running s -> log s' = log s ->
  fifo_ok s -> fifo_ok s'.
Proof.
  intros E1 E2 E3 [F1 F2].
  constructor; unfold live in *; rewrite ?E1, ?E2, ?E3; assumption.
Qed.

Lemma fifo_ok_enqueue (s : state) (b : payload) :
  inv s -> fifo_ok s ->
  let s1 := push (mkTask (next_handle s) b 0 3) s in
  fifo_ok (if processing s1 then s1 else processQueue s1).
Proof.
  intros [Hs _ Tk G] [F1 F2].
  destruct (enqueue_held b 0 Hs) as (_ & K1 & K2 & _). cbv zeta in *.
  constructor; rewrite K2; [exact F1|].
  intros h t Hh Ht.
  assert (Ht' : In t ((live s ++ queue s) ++ [mkTask (next_handle s) b 0 3]))
    by (rewrite <- K1; apply in_app_iff; now left).
  destruct (invoked_in _ _ Hh) as (tm & a & Hi).
  apply in_app_iff in Ht'. destruct Ht' as [Ht'|[<-|[]]].
  - apply in_app_iff in Ht'. destruct Ht' as [Ht'|Ht'].
    + now apply F2.
    + apply Nat.lt_le_incl. exact (log_before_queue G _ _ _ _ Hi Ht').
  - cbn. apply Nat.lt_le_incl. exact (log_bounded G _ _ Hi).
Qed.

Lemma fifo_ok_clearQueue (s : state) (r : option string) :
  fifo_ok s -> fifo_ok (clearQueue r s).
Proof.
  intros Ok0. pose proof Ok0 as [F1 F2]. unfold clearQueue.
  destruct (0 <? length (queue s)); [|exact Ok0].
  match goal with |- context [fold_left ?f (queue s) s] =>
    pose proof (fold_emit_fields
      (fun t => Reject (handle t)
         (cancelled match r with Some r0 => r0 | None => "unknown"%string end))
      (queue s) s) as F; cbn zeta in F;
    set (s1 := fold_left f (queue s) s) in *
  end.
  destruct F as (_ & _ & _ & _ & F5 & F6 & _ & _ & _ & _ & F11).
  clearbody s1.
  assert (Q : invoked (log s1) = invoked (log s)).
  { rewrite F11. apply invoked_quiet. intros x Hx.
    apply in_map_iff in Hx. destruct Hx as [t [<- _]]. reflexivity. }
  constructor; unfold live in *; cbn [reactions running log];
    rewrite ?F5, ?F6, Q; assumption.
Qed.

Lemma fifo_ok_start (s s' : state) :
  shape s -> fifo_ok s -> start_callback s = Some s' -> fifo_ok s'.
Proof.
  intros Hs [F1 F2] Hstep. unfold start_callback, live in *. break_state s.
  destruct Hs as [ | | ? ? ? ? ? ? H2 | w t p ? ? ? H2 | ];
    cbn in *; subst; cbn in *; try discriminate.
  - apply existsb_eqb_not_In in H2. rewrite H2 in Hstep. discriminate.
  - apply existsb_eqb_In in H2. rewrite H2 in Hstep. injection Hstep as <-.
    constructor; unfold live;
      cbn [emit reactions running log now map app fst snd];
      rewrite invoked_snoc; cbn [is_invoke effect_handle].
    + apply StronglySorted_le_snoc; [exact F1|].
      intros x Hx. apply (F2 x t Hx). now left.
    + intros h t0 Hh [<-|[]]. apply in_app_iff in Hh.
      destruct Hh as [Hh|[<-|[]]]; [|apply Nat.le_refl].
      apply (F2 h t Hh). now left.
Qed.

Lemma fifo_ok_resume (s s' : state) (h : nat) (o : outcome) :
  shape s -> log_ok s -> fifo_ok s -> resume_callback h o s = Some s' ->
  fifo_ok s'.
Proof.
  intros Hs G [F1 F2] Hstep.
  assert (Q0 : forall h0 t0, In h0 (invoked (log s)) -> In t0 (queue s) ->
                 h0 <= handle t0).
  { intros h0 t0 Hh Ht. destruct (invoked_in _ _ Hh) as (tm & a & Hi).
    apply Nat.lt_le_incl. exact (log_before_queue G _ _ _ _ Hi Ht). }
  clear G. unfold resume_callback, live in *. break_state s.
  destruct Hs as [ | | | | t p ]; cbn in *; subst; cbn in *;
    try discriminate.
  destruct (handle t =? h); [|discriminate]. injection Hstep as <-.
  assert (Next : forall x, is_invoke x = false ->
    fifo_ok (mkState (tl q) true p st
               match q with [] => [] | t0 :: _ => [(p, t0, np)] end
               [] [] nh np tm (lg ++ [(tm, x)]))).
  { intros x Hx. destruct q as [|t2 q']; constructor; unfold live;
      cbn [reactions running log map app fst snd]; rewrite invoked_snoc, Hx,
        app_nil_r; try exact F1.
    - intros ? ? _ [].
    - intros h0 t0 Hh [<-|[]]. apply Q0; [exact Hh | now left]. }
  unfold settle_task. destruct o as [r|e].
  - destruct q; cbn;
      (eapply fifo_ok_frame; [..|apply (Next (Resolve (handle t) r) eq_refl)];
       reflexivity).
  - destruct (attempts t <? maxAttempts t) eqn:Hlt.
    + cbn -[invoked]. constructor; unfold live;
        cbn [emit unshift bump reactions running log now handle map app fst snd];
        rewrite invoked_snoc; cbn [is_invoke]; rewrite app_nil_r;
        [exact F1|].
      intros h0 t0 Hh [<-|[]]. cbn [handle]. apply (F2 h0 t Hh). now left.
    + destruct q; cbn;
        (eapply fifo_ok_frame; [..|apply (Next (Reject (handle t) e) eq_refl)];
         reflexivity).
Qed.

Lemma step_fifo (s s' : state) (e : event) :
  inv s -> fifo_ok s -> step s e = Some s' -> fifo_ok s'.
Proof.
  intros Hi Hc Hstep. pose proof Hi as [Hs Hp Ht Hl].
  destruct e as [n ps | sc | r | | h o | | d]; cbn in Hstep.
  - injection Hstep as <-. apply (fifo_ok_enqueue (Script n ps) Hi Hc).
  - injection Hstep as <-. apply (fifo_ok_enqueue (InlineScript sc) Hi Hc).
  - injection Hstep as <-. apply fifo_ok_clearQueue; assumption.
  - eapply fifo_ok_start; eauto.
  - eapply fifo_ok_resume; eauto.
  - unfold settle_promise in Hstep. destruct (returned s); [discriminate|].
    injection Hstep as <-. eapply fifo_ok_frame; [..|exact Hc]; reflexivity.
  - unfold elapse in Hstep.
    destruct ((0 <? d)%Z && negb (microtask_pending s)); [|discriminate].
    injection Hstep as <-. eapply fifo_ok_frame; [..|exact Hc]; reflexivity.
Qed.

Lemma fifo_ok_init : fifo_ok init.
Proof. constructor; cbn; [constructor | intros ? ? []]. Qed.

Lemma run_fifo (es : list event) (s s' : state) :
  inv s -> fifo_ok s -> run s es = Some s' -> fifo_ok s'.
Proof.
  revert s. induction es as [|e es IH]; cbn; intros s Hi Hc Hr.
  - now injection Hr as <-.
  - destruct (step s e) as [s1|] eqn:E; [|discriminate].
    eapply IH; [eapply step_inv; eauto | eapply step_fifo; eauto | exact Hr].
Qed.

Lemma reachable_fifo (s : state) : reachable s -> fifo_ok s.
Proof.
  intros [es H].
  eapply run_fifo; [apply inv_init | apply fifo_ok_init | exact H].
Qed.

(* ------------------------------------------------------------------ *)
(** ** Draining from any state *)

Lemma drain_all (exec : oracle) (s : state) (fuel : nat) :
  inv s -> 12 * (length (queue s) + 2) + 2 <= fuel ->
  exists es,
    run s es = Some (drain exec fuel s) /\
    reactions (drain exec fuel s) = [] /\ returned (drain exec fuel s) = [] /\
    running (drain exec fuel s) = [] /\
    next_handle (drain exec fuel s) = next_handle s.
Proof.
  intros Hi Hf.
  assert (Work : queue s <> [] \/ reactions s <> [] ->
    exists es,
      run s es = Some (drain exec fuel s) /\
      reactions (drain exec fuel s) = [] /\ returned (drain exec fuel s) = [] /\
      running (drain exec fuel s) = [] /\
      next_handle (drain exec fuel s) = next_handle s).
  { intros W.
    destruct (drain_normalize exec Hi W)
      as (k1 & sN & es1 & pre & w & t & p & Hk1 & Run1 & D1 & R2 & T2 & L2
          & N2 & H2 & Q2 & _).
    pose proof (run_inv _ Hi Run1) as HiN.
    destruct (drain_queue exec HiN R2 T2 eq_refl)
      as (k2 & sF & es2 & Hk2 & Run2 & D2 & L3 & R3 & T3 & N3 & H3).
    assert (E : drain exec fuel s = sF).
    { replace fuel with (k1 + (k2 + (fuel - k1 - k2))) by lia.
      rewrite D1, D2. now apply drain_idle. }
    rewrite E. exists (es1 ++ es2). rewrite run_app, Run1.
    repeat split; try assumption. congruence. }
  destruct (inv_shape Hi) as
    [R N T M P Q | R N T M P Q | w t p R N T W M P D Pr
    | w t p R N T W M P Pr | t p R N T M P Pr].
  - exists []. rewrite (@drain_idle exec s fuel R T N).
    repeat split; assumption.
  - set (sN := mkState (queue s) (processing s) (mutex s) (mutex s :: settled s)
                 (reactions s) (running s) [] (next_handle s)
                 (next_promise s) (now s) (log s)).
    assert (E : settle_promise s = Some sN)
      by (unfold settle_promise; now rewrite T).
    destruct fuel as [|f]; [lia|].
    rewrite (@drain_settle exec f s sN E).
    rewrite (@drain_idle exec sN f R eq_refl N).
    exists [SettlePromise]. cbn [run step]. rewrite E.
    repeat split; assumption.
  - apply Work. right. rewrite R. discriminate.
  - apply Work. right. rewrite R. discriminate.
  - destruct (queue s) as [|t2 q'] eqn:Q; [|apply Work; left; discriminate].
    destruct (@finish_attempt exec s t p R N T M)
      as (sN & Run & D & L & N1 & H1 & T1 & R1 & F).
    pose proof (run_inv _ Hi Run) as HiN.
    destruct (retried t (exec t)).
    + destruct F as [F1 F2].
      destruct (drain_queue exec HiN F1 T1 eq_refl)
        as (k2 & sF & es2 & Hk2 & Run2 & D2 & L3 & R3 & T3 & N3 & H3).
      rewrite F2, Q in Hk2. cbn in Hk2.
      assert (E : drain exec fuel s = sF).
      { replace fuel with (2 + (k2 + (fuel - 2 - k2))) by (cbn in Hf; lia).
        rewrite D, D2. now apply drain_idle. }
      rewrite E.
      exists ([ExecutorDone (handle t) (exec t); SettlePromise] ++ es2).
      rewrite run_app, Run. repeat split; try assumption. congruence.
    + rewrite Q in F. destruct F as [F1 F2].
      assert (E : drain exec fuel s = sN).
      { replace fuel with (2 + (fuel - 2)) by (cbn in Hf; lia).
        rewrite D. now apply drain_idle. }
      rewrite E. exists [ExecutorDone (handle t) (exec t); SettlePromise].
      repeat split; assumption.
Qed.

(* ------------------------------------------------------------------ *)
(** ** What a caller of the queue can rely on *)

(** In every reachable state each handle has been resolved or rejected at
    most once, and nothing is done for a command after that: a resolve or
    reject is the last entry written for its handle.  A handle that was
    issued and is not settled yet belongs to a task that is still in the
    queue or held by a callback, and no settled handle does; nothing is
    written for a handle that was not issued. *)
Theorem handle_settled_at_most_once (s : state) (h : nat) :
  reachable s ->
  settlements h (log s) <= 1 /\
  final_last (effects_of h (log s)) = true /\
  (h < next_handle s ->
   (settlements h (log s) = 0 <->
    exists t, In t (live s ++ queue s) /\ handle t = h)) /\
  (next_handle s <= h -> effects_of h (log s) = []).
Proof.
  intros Hr. pose proof (reachable_settle Hr) as [B L].
  pose proof (reachable_inv Hr) as Hi. specialize (B h).
  split; [destruct (h <? next_handle s); lia|].
  split; [apply L|]. split.
  - intros Hlt. apply Nat.ltb_lt in Hlt. rewrite Hlt in B.
    rewrite <- held_in. lia.
  - intros Hge. apply effects_of_other. intros tm e He E.
    pose proof (log_bounded (inv_log Hi) _ _ He). lia.
Qed.

Lemma handle_settled_at_most_once_witness :
  let s0 := clearQueue None
              (snd (enqueue "send_media" [] (snd (enqueue "send_text" [] init)))) in
  reachable s0 /\
  settlements 1 (log s0) <= 1 /\
  final_last (effects_of 1 (log s0)) = true.
Proof.
  intros s0.
  assert (Hr : reachable s0)
    by (exists [Enqueue "send_text" []; Enqueue "send_media" []; ClearQueue None];
        reflexivity).
  split; [exact Hr|].
  pose proof (@handle_settled_at_most_once s0 1 Hr) as H.
  split; [exact (proj1 H) | exact (proj1 (proj2 H))].
Defined.

(** No command is lost.  From any reachable state, when the event loop
    is left to run with no further call from outside, the worker stops
    with an empty queue and every handle that was ever issued has been
    resolved or rejected exactly once, whatever the Executor answers and
    whatever [clearQueue] did before. *)
Theorem drained_queue_has_settled_every_handle
    (s : state) (exec : oracle) (fuel h : nat) :
  reachable s -> 12 * (length (queue s) + 2) + 2 <= fuel ->
  h < next_handle s ->
  let s' := drain exec fuel s in
  reachable s' /\ processing s' = false /\ queue s' = [] /\ live s' = [] /\
  next_handle s' = next_handle s /\
  settlements h (log s') = 1 /\
  exists new, log s' = log s ++ new.
Proof.
  intros Hr Hf Hh s'.
  destruct (drain_all exec (reachable_inv Hr) Hf) as (es & Run & R & T & N & H).
  fold s' in Run, R, T, N, H.
  assert (Hr' : reachable s') by (eapply reachable_run; eauto).
  destruct (idle_shape (inv_shape (reachable_inv Hr')) R N T) as [P Q].
  assert (Lv : live s' = []) by (unfold live; now rewrite R, N).
  repeat (split; [assumption|]). split.
  - pose proof (settle_balance (reachable_settle Hr') h) as B.
    unfold held in B. rewrite Lv, Q, H in B. cbn [app filter length] in B.
    apply Nat.ltb_lt in Hh. rewrite Hh in B. lia.
  - eapply run_log; eauto.
Qed.

Lemma drained_queue_has_settled_every_handle_witness :
  let exec := fun t : task =>
    if handle t =? 0 then Failed "timeout" else Fulfilled "sent" in
  let s0 := snd (enqueue "send_media" [] (snd (enqueue "send_text" [] init))) in
  reachable s0 /\ 12 * (length (queue s0) + 2) + 2 <= 38 /\ 1 < next_handle s0 /\
  settlements 1 (log (drain exec 38 s0)) = 1.
Proof.
  intros exec s0.
  assert (Hr : reachable s0)
    by (exists [Enqueue "send_text" []; Enqueue "send_media" []]; reflexivity).
  assert (Hf : 12 * (length (queue s0) + 2) + 2 <= 38) by (cbn; lia).
  assert (Hh : 1 < next_handle s0) by (cbn; lia).
  split; [exact Hr|]. split; [exact Hf|]. split; [exact Hh|].
  exact (proj1 (proj2 (proj2 (proj2 (proj2 (proj2
    (@drained_queue_has_settled_every_handle s0 exec 38 1 Hr Hf Hh))))))).
Defined.

(** The Executor is called for the commands in the order in which they
    were enqueued: the handles of its successive calls never decrease (so
    the retries of a command directly follow its failed attempts), every
    command still waiting in the queue comes after every command the
    Executor was called for, the waiting commands are kept in order, and
    the next command to be enqueued gets a handle after all of them. *)
Theorem executor_called_in_enqueue_order (s : state) (b : payload) :
  reachable s ->
  StronglySorted le (invoked (log s)) /\
  (forall h t, In h (invoked (log s)) -> In t (live s) -> h <= handle t) /\
  (forall h t, In h (invoked (log s)) -> In t (queue s) -> h < handle t) /\
  StronglySorted lt (map handle (live s ++ queue s)) /\
  (forall h, In h (invoked (log s)) -> h < fst (submit b s)) /\
  (forall t, In t (live s ++ queue s) -> handle t < fst (submit b s)).
Proof.
  intros Hr. pose proof (reachable_fifo Hr) as [F1 F2].
  pose proof (reachable_inv Hr) as [Hs _ Tk G].
  destruct (submit_facts b Hs) as (E & _). rewrite E.
  split; [exact F1|]. split; [exact F2|]. split; [|split; [|split]].
  - intros h t Hh Ht. destruct (invoked_in _ _ Hh) as (tm & a & Hi).
    exact (log_before_queue G _ _ _ _ Hi Ht).
  - exact (handles_sorted Tk).
  - intros h Hh. destruct (invoked_in _ _ Hh) as (tm & a & Hi).
    exact (log_bounded G _ _ Hi).
  - exact (handles_bounded Tk).
Qed.

Lemma executor_called_in_enqueue_order_witness :
  let exec := fun t : task =>
    if attempts t =? 0 then Failed "timeout" else Fulfilled "sent" in
  let s0 := drain exec 38
              (snd (enqueue "send_media" [] (snd (enqueue "send_text" [] init)))) in
  reachable s0 /\ invoked (log s0) = [0; 0; 1; 1] /\
  StronglySorted le (invoked (log s0)).
Proof.
  intros exec s0.
  assert (Hr : reachable s0).
  { exists [Enqueue "send_text" []; Enqueue "send_media" []; RunCallback;
            ExecutorDone 0 (Failed "timeout"); SettlePromise; RunCallback;
            ExecutorDone 0 (Fulfilled "sent"); SettlePromise; RunCallback;
            ExecutorDone 1 (Failed "timeout"); SettlePromise; RunCallback;
            ExecutorDone 1 (Fulfilled "sent"); SettlePromise].
    vm_compute. reflexivity. }
  split; [exact Hr|]. split; [vm_compute; reflexivity|].
  exact (proj1 (@executor_called_in_enqueue_order s0 (InlineScript "") Hr)).
Defined.

(** The worker never stalls and never idles over work: in every
    reachable state, when [processing] is false the queue is empty,
    nothing is held by a callback and [getQueueDepth] is 0; when
    [processing] is true exactly one command has been taken off the queue
    and is not settled; so a non-empty queue always has a worker. *)
Theorem pending_commands_have_a_worker (s : state) :
  reachable s ->
  (processing s = false ->
     queue s = [] /\ live s = [] /\ fst (getQueueDepth s) = 0) /\
  (processing s = true -> exists t, live s = [t]) /\
  (queue s <> [] -> processing s = true /\ exists t, live s = [t]).
Proof.
  intros Hr. pose proof (inv_shape (reachable_inv Hr)) as Hs.
  unfold live, getQueueDepth. cbn [fst].
  destruct Hs as
    [R N T M P Q | R N T M P Q | w t p R N T W M P D Pr
    | w t p R N T W M P Pr | t p R N T M P Pr];
    rewrite ?R, ?N, ?Q; cbn [map app fst snd length].
  - repeat split; auto; congruence.
  - repeat split; auto; congruence.
  - split; [congruence|]. split; [eauto|]. intros _. split; eauto.
  - split; [congruence|]. split; [eauto|]. intros _. split; eauto.
  - split; [congruence|]. split; [eauto|]. intros _. split; eauto.
Qed.

Lemma pending_commands_have_a_worker_witness :
  let s0 := snd (enqueue "send_media" [] (snd (enqueue "send_text" [] init))) in
  reachable s0 /\ queue s0 <> [] /\
  processing s0 = true /\ exists t, live s0 = [t].
Proof.
  intros s0.
  assert (Hr : reachable s0)
    by (exists [Enqueue "send_text" []; Enqueue "send_media" []]; reflexivity).
  assert (Hq : queue s0 <> []) by (cbn; discriminate).
  split; [exact Hr|]. split; [exact Hq|].
  exact (proj2 (proj2 (@pending_commands_have_a_worker s0 Hr)) Hq).
Defined.

(* ------------------------------------------------------------------ *)
(** ** The unit tests of the queue, on the model *)

(** "should retry failed AppleScript execution": the first call of the
    Executor rejects, the second resolves with 'OK'. *)
Example test_retry_then_success :
  let exec := fun t : task =>
    if attempts t =? 0 then Failed "execution failed" else Fulfilled "OK" in
  map snd (log (drain exec 12 (snd (enqueue "test_script" [] init)))) =
  [Invoke 0 1; Retry 0 1; Invoke 0 2; Resolve 0 "OK"].
Proof. vm_compute. reflexivity. Qed.

(** "should process AppleScript tasks one at a time": three scripts are
    executed in the order of submission, each after the one before it
    has resolved. *)
Example test_serialization :
  let exec := fun t : task =>
    match handle t with
    | 0 => Fulfilled "OK1"
    | 1 => Fulfilled "OK2"
    | _ => Fulfilled "OK3"
    end in
  let s := snd (enqueue "script3" []
             (snd (enqueue "script2" [] (snd (enqueue "script1" [] init))))) in
  map snd (log (drain exec 36 s)) =
  [Invoke 0 1; Resolve 0 "OK1"; Invoke 1 1; Resolve 1 "OK2";
   Invoke 2 1; Resolve 2 "OK3"].
Proof. vm_compute. reflexivity. Qed.

(** "should clear pending tasks and reject them": with the first script
    inside the Executor, [clearQueue('test shutdown')] rejects the other
    two, and only the first script is ever executed. *)
Example test_clearQueue :
  let exec := fun _ : task => Fulfilled "OK" in
  match run init [Enqueue "script1" []; Enqueue "script2" [];
                  Enqueue "script3" []; RunCallback; Elapse 50;
                  ClearQueue (Some "test shutdown"%string); Elapse 50]
  with
  | Some s =>
      map snd (log (drain exec 36 s)) =
      [Invoke 0 1; Reject 1 "Task cancelled: test shutdown";
       Reject 2 "Task cancelled: test shutdown"; Resolve 0 "OK"]
  | None => False
  end.
Proof. vm_compute. reflexivity. Qed.

End QueueFacts.

(* ================================================================== *)
(** * Facts about the Realtime manager                                 *)
(* ================================================================== *)

Module RealtimeFacts.
Import RealtimeManager.

Ltac break_world w :=
  let g := fresh "g" in
  destruct w as [g ck ts nt cs nc tb qe tr];
  destruct g as [sb pi pf ip rc lp mh];
  cbn [self clock timers next_timer channels next_channel table query_error
       trace subscription pollingInterval pollingFrequency isPolling
       isRealtimeConnected lastPollTime messageHandler] in *.

(** ** One pull *)

Lemma with_trace_twice (a b : list obs) (w : world) :
  with_trace a (with_trace b w) = with_trace a w.
Proof. reflexivity. Qed.

Lemma call_handler_some (h : handler) (m : message) (w : world) :
  messageHandler (self w) = Some h ->
  call_handler m w =
  (match h m with None => Ok tt | Some e => Throw e end,
   with_trace (trace w ++ [Handled m]) w).
Proof.
  intros Hh. unfold call_handler, bind, get, observe. rewrite Hh.
  destruct (h m); reflexivity.
Qed.

Lemma call_handler_none (m : message) (w : world) :
  messageHandler (self w) = None -> call_handler m w = (Ok tt, w).
Proof.
  intros Hh. unfold call_handler, bind, get. now rewrite Hh.
Qed.

Lemma for_each_call_handler (h : handler) (batch : list message) :
  forall w, messageHandler (self w) = Some h ->
  for_each batch call_handler w =
  (batch_result h batch,
   with_trace (trace w ++ map Handled (deliveries h batch)) w).
Proof.
  induction batch as [|m rest IH]; intros w Hh.
  - destruct w. cbn. now rewrite app_nil_r.
  - cbn [for_each deliveries batch_result map].
    unfold bind. rewrite (call_handler_some m w Hh).
    destruct (h m) as [e|] eqn:Hm; [reflexivity|].
    rewrite IH; [|exact Hh]. cbn. now rewrite <- app_assoc.
Qed.

Lemma for_each_no_handler (batch : list message) :
  forall w, messageHandler (self w) = None ->
  for_each batch call_handler w = (Ok tt, w).
Proof.
  induction batch as [|m rest IH]; intros w Hh; [reflexivity|].
  cbn [for_each]. unfold bind. rewrite (call_handler_none m w Hh).
  now apply IH.
Qed.

Lemma pollPendingMessages_runs (w : world) :
  pollPendingMessages w =
  (Ok tt, with_trace (trace w ++ poll_obs w)
            (with_self (set_lastPollTime (clock w) (self w)) w)).
Proof.
  unfold pollPendingMessages, try_catch, poll_obs.
  unfold bind at 1, get. unfold bind at 1, modify.
  unfold bind at 1, observe. unfold bind at 1, select_pending.
  unfold bind at 1, observe. unfold bind at 1, get.
  unfold with_trace, with_self, pending_rows.
  cbn [self clock timers next_timer channels next_channel table query_error
       trace].
  destruct (query_error w) as [e|] eqn:Q.
  - unfold ret, throw, logger, observe.
    cbn [fst snd self clock timers next_timer channels next_channel table
         query_error trace].
    repeat (rewrite <- app_assoc; cbn [app]). reflexivity.
  - unfold ret. cbn [fst snd].
    destruct (order_by_created_at (filter is_pending (table w)))
      as [|m rest] eqn:P.
    + repeat (rewrite <- app_assoc; cbn [app]). reflexivity.
    + unfold bind at 1, logger, observe.
      cbn [self clock timers next_timer channels next_channel table
           query_error trace].
      destruct (messageHandler (self w)) as [h|] eqn:Hh.
      * rewrite for_each_call_handler with (h := h);
          [|cbn; destruct (self w); cbn in *; exact Hh].
        unfold with_trace.
        cbn [self clock timers next_timer channels next_channel table
             query_error trace].
        destruct (batch_result h (m :: rest)) as [[]|err];
          unfold logger, observe;
          cbn [self clock timers next_timer channels next_channel table
               query_error trace];
          repeat (rewrite <- app_assoc; cbn [app]); rewrite ?app_nil_r;
          reflexivity.
      * rewrite for_each_no_handler;
          [|cbn; destruct (self w); cbn in *; exact Hh].
        repeat (rewrite <- app_assoc; cbn [app]). reflexivity.
Qed.

(** ** The rows a pull selects *)

Lemma insert_by_created_at_perm (m : message) (l : list message) :
  Permutation (insert_by_created_at m l) (m :: l).
Proof.
  induction l as [|x l IH]; cbn; [reflexivity|].
  destruct (created_at m <? created_at x)%Z; [reflexivity|].
  rewrite IH. apply perm_swap.
Qed.

Lemma order_by_created_at_perm (l : list message) :
  Permutation (order_by_created_at l) l.
Proof.
  induction l as [|x l IH]; cbn; [reflexivity|].
  rewrite insert_by_created_at_perm. now constructor.
Qed.

Lemma insert_by_created_at_sorted (m : message) (l : list message) :
  Sorted not_younger l -> Sorted not_younger (insert_by_created_at m l).
Proof.
  induction 1 as [|x l Hs IH Hd]; cbn.
  - repeat constructor.
  - destruct (created_at m <? created_at x)%Z eqn:E.
    + apply Z.ltb_lt in E. constructor; [now constructor|].
      constructor. unfold not_younger. lia.
    + apply Z.ltb_ge in E. constructor; [exact IH|].
      destruct l as [|y l]; cbn.
      * constructor. exact E.
      * destruct (created_at m <? created_at y)%Z; constructor;
          [exact E | now inversion Hd].
Qed.

Lemma order_by_created_at_sorted (l : list message) :
  Sorted not_younger (order_by_created_at l).
Proof.
  induction l as [|x l IH]; cbn; [constructor|].
  now apply insert_by_created_at_sorted.
Qed.

Lemma pending_rows_complete (w : world) (m : message) :
  In m (pending_rows w) <-> In m (table w) /\ status m = "pending"%string.
Proof.
  unfold pending_rows. split.
  - intros H. apply (Permutation_in _ (order_by_created_at_perm _)) in H.
    apply filter_In in H. destruct H as [H1 H2]. split; [exact H1|].
    now apply String.eqb_eq.
  - intros [H1 H2].
    apply (Permutation_in _ (Permutation_sym (order_by_created_at_perm _))).
    apply filter_In. split; [exact H1|]. now apply String.eqb_eq.
Qed.

Lemma handled_app (a b : list obs) : handled (a ++ b) = handled a ++ handled b.
Proof.
  induction a as [|o a IH]; cbn; [reflexivity|].
  destruct o; cbn; now rewrite ?IH.
Qed.

Lemma handled_map (l : list message) : handled (map Handled l) = l.
Proof. induction l as [|m l IH]; cbn; now rewrite ?IH. Qed.

Lemma queries_app (a b : list obs) : queries (a ++ b) = queries a + queries b.
Proof.
  induction a as [|o a IH]; cbn; [reflexivity|].
  destruct o; cbn; now rewrite ?IH.
Qed.

Lemma queries_map (l : list message) : queries (map Handled l) = 0.
Proof. induction l as [|m l IH]; cbn; now rewrite ?IH. Qed.

Lemma handled_poll_obs (w : world) :
  handled (poll_obs w) =
  match query_error w, messageHandler (self w) with
  | None, Some h => deliveries h (pending_rows w)
  | _, _ => []
  end.
Proof.
  unfold poll_obs. cbn [handled].
  destruct (query_error w); [reflexivity|].
  destruct (pending_rows w) as [|m rest] eqn:P.
  - destruct (messageHandler (self w)); reflexivity.
  - cbn [handled]. destruct (messageHandler (self w)) as [h|]; [|reflexivity].
    rewrite handled_app, handled_map.
    destruct (batch_result h (m :: rest)); cbn; now rewrite app_nil_r.
Qed.

Lemma queries_poll_obs (w : world) : queries (poll_obs w) = 1.
Proof.
  unfold poll_obs. cbn [queries].
  destruct (query_error w); [reflexivity|].
  destruct (pending_rows w) as [|m rest]; [reflexivity|]. cbn [queries].
  destruct (messageHandler (self w)) as [h|]; [|reflexivity].
  rewrite queries_app, queries_map.
  destruct (batch_result h (m :: rest)); reflexivity.
Qed.

Lemma deliveries_all (h : handler) (batch : list message) :
  (forall m, In m batch -> h m = None) -> deliveries h batch = batch.
Proof.
  induction batch as [|m rest IH]; intros H; cbn; [reflexivity|].
  rewrite (H m (or_introl eq_refl)), IH; [reflexivity|].
  intros x Hx. apply H. now right.
Qed.

Lemma deliveries_stop (h : handler) (pre post : list message) (m : message)
    (e : string) :
  (forall x, In x pre -> h x = None) -> h m = Some e ->
  deliveries h (pre ++ m :: post) = pre ++ [m] /\
  batch_result h (pre ++ m :: post) = Throw e.
Proof.
  intros Hpre Hm. induction pre as [|x pre IH]; cbn.
  - now rewrite Hm.
  - rewrite (Hpre x (or_introl eq_refl)).
    destruct IH as [I1 I2]; [intros y Hy; apply Hpre; now right|].
    now rewrite I1, I2.
Qed.

Lemma poll_obs_batch (w : world) (h : handler) :
  query_error w = None -> messageHandler (self w) = Some h ->
  pending_rows w <> [] ->
  poll_obs w =
  Stamped (clock w) :: Queried ::
  Logged "info" "Polling found pending messages" ::
  map Handled (deliveries h (pending_rows w)) ++
  match batch_result h (pending_rows w) with
  | Ok _ => []
  | Throw _ => [Logged "error" "Error polling for pending messages"]
  end.
Proof.
  intros Hq Hh Hp. unfold poll_obs. rewrite Hq, Hh.
  destruct (pending_rows w); [congruence | reflexivity].
Qed.

(* ------------------------------------------------------------------ *)
(** ** The poll cycle *)

(** C4, as the code has it.  A poll cycle (the first pull of
    [initialize] and every tick of the timer alike) first sets
    [lastPollTime] to the time at which the cycle starts, before the
    query is sent and before any callback is invoked, and it does so
    even when the query or the callback fails.  The query takes every row
    whose status is "pending", whatever [lastPollTime] is, oldest first
    by [created_at]; the callback gets these rows in that order, up to
    the first one it fails on.  The cycle changes nothing else in the
    manager. *)
Theorem poll_stamps_first_and_selects_pending (w : world) :
  exists w' rest,
    pollPendingMessages w = (Ok tt, w') /\
    (timers w <> [] -> step w Tick = Some w') /\
    lastPollTime (self w') = Some (clock w) /\
    trace w' = trace w ++ Stamped (clock w) :: Queried :: rest /\
    handled rest = match query_error w, messageHandler (self w) with
                   | None, Some h => deliveries h (pending_rows w)
                   | _, _ => []
                   end /\
    Sorted not_younger (pending_rows w) /\
    (forall m, In m (pending_rows w) <->
               In m (table w) /\ status m = "pending"%string) /\
    isPolling (self w') = isPolling (self w) /\
    isRealtimeConnected (self w') = isRealtimeConnected (self w) /\
    pollingInterval (self w') = pollingInterval (self w) /\
    subscription (self w') = subscription (self w) /\
    timers w' = timers w /\ table w' = table w.
Proof.
  eexists. exists (tl (tl (poll_obs w))).
  split; [apply pollPendingMessages_runs|].
  split.
  { intros Ht. cbn. destruct (timers w); [congruence|].
    now rewrite pollPendingMessages_runs. }
  split; [reflexivity|]. split; [reflexivity|].
  split; [apply (handled_poll_obs w)|].
  split; [apply order_by_created_at_sorted|].
  split; [apply pending_rows_complete|].
  repeat split.
Qed.

Lemma poll_stamps_first_and_selects_pending_witness :
  let old := mkMessage "m1" "t1" 10 "pending" in
  let w := mkWorld (mkManager (Some 1) (Some 1) 5000 true false (Some 1000%Z)
                      (Some (fun _ => None)))
                   2000 [1] 2 [1] 2 [old] None [] in
  timers w <> [] /\
  exists w', step w Tick = Some w' /\ lastPollTime (self w') = Some 2000%Z.
Proof.
  intros old w.
  assert (Ht : timers w <> []) by discriminate.
  split; [exact Ht|].
  destruct (poll_stamps_first_and_selects_pending w)
    as (w' & rest & _ & H2 & H3 & _).
  exists w'. split; [exact (H2 Ht) | exact H3].
Defined.

(** C4, as the specification words it, fails.  With polling on, a row
    created at time 10 and still pending is handed to the callback again
    by the tick at time 2000, although [lastPollTime] is 1000 by then;
    and that tick sets [lastPollTime] before the callback is invoked. *)
Lemma poll_ignores_watermark :
  let old := mkMessage "m1" "t1" 10 "pending" in
  exists w w',
    run init [Surroundings [old] None;
              Initialize (Some (fun _ => None)) (SubscribeReturns [CHANNEL_ERROR]);
              Advance 1000; Tick; Advance 1000] = Some w /\
    lastPollTime (self w) = Some 1000%Z /\
    (created_at old < 1000)%Z /\
    step w Tick = Some w' /\
    skipn (length (trace w)) (trace w') =
      [Stamped 2000; Queried; Logged "info" "Polling found pending messages";
       Handled old] /\
    lastPollTime (self w') = Some 2000%Z.
Proof.
  intros old. eexists. eexists.
  split; [vm_compute; reflexivity|]. split; [reflexivity|].
  split; [reflexivity|]. split; [vm_compute; reflexivity|].
  split; reflexivity.
Qed.

(** C5, as the code has it.  A failure of the callback on one item is
    caught by the one [catch] of the poll cycle: the items before the
    failing one and the failing one are handed to the callback, those
    after it are not (not in this cycle), the error is logged and
    [pollPendingMessages] returns normally.  The timer and the flags of
    the manager are as before. *)
Theorem poll_stops_at_first_failure
    (w : world) (h : handler) (pre post : list message) (m : message)
    (e : string) :
  messageHandler (self w) = Some h -> query_error w = None ->
  pending_rows w = pre ++ m :: post ->
  (forall x, In x pre -> h x = None) -> h m = Some e ->
  exists w',
    pollPendingMessages w = (Ok tt, w') /\
    trace w' = trace w ++
      Stamped (clock w) :: Queried ::
      Logged "info" "Polling found pending messages" ::
      map Handled (pre ++ [m]) ++
      [Logged "error" "Error polling for pending messages"] /\
    handled (skipn (length (trace w)) (trace w')) = pre ++ [m] /\
    isPolling (self w') = isPolling (self w) /\
    isRealtimeConnected (self w') = isRealtimeConnected (self w) /\
    pollingInterval (self w') = pollingInterval (self w) /\
    timers w' = timers w.
Proof.
  intros Hh Hq Hp Hpre Hm.
  destruct (deliveries_stop h pre post m Hpre Hm) as [D1 D2].
  eexists. split; [apply pollPendingMessages_runs|].
  assert (E : poll_obs w =
    Stamped (clock w) :: Queried ::
    Logged "info" "Polling found pending messages" ::
    map Handled (pre ++ [m]) ++
    [Logged "error" "Error polling for pending messages"]).
  { rewrite (poll_obs_batch w Hq Hh), Hp, D1, D2; [reflexivity|].
    rewrite Hp. destruct pre; discriminate. }
  cbn [with_trace with_self trace self timers]. rewrite E.
  split; [reflexivity|]. split; [|repeat split].
  rewrite skipn_app, skipn_all, Nat.sub_diag. cbn [app skipn handled].
  now rewrite handled_app, handled_map, app_nil_r.
Qed.

Lemma poll_stops_at_first_failure_witness :
  let m1 := mkMessage "m1" "t1" 10 "pending" in
  let m2 := mkMessage "m2" "t1" 20 "pending" in
  let h : handler :=
    fun m => if String.eqb (id m) "m1" then Some "boom"%string else None in
  let w := mkWorld (set_messageHandler (Some h) new_manager) 0 [] 1 [] 1
                   [m2; m1] None [] in
  exists w',
    pollPendingMessages w = (Ok tt, w') /\
    handled (skipn (length (trace w)) (trace w')) = [m1].
Proof.
  intros m1 m2 h w.
  destruct (@poll_stops_at_first_failure w h [] [m2] m1 "boom"%string
              eq_refl eq_refl eq_refl (fun x (H : In x []) => match H with end)
              eq_refl)
    as (w' & H1 & _ & H3 & _).
  exists w'. split; [exact H1 | exact H3].
Defined.

(** C5, as the specification words it, fails.  Of two pending rows the
    callback fails on the older one; the younger one is not handed to
    the callback in that cycle. *)
Lemma failure_ends_the_batch :
  let m1 := mkMessage "m1" "t1" 10 "pending" in
  let m2 := mkMessage "m2" "t1" 20 "pending" in
  let h : handler :=
    fun m => if String.eqb (id m) "m1" then Some "boom"%string else None in
  exists w w',
    run init [Surroundings [m1; m2] None;
              Initialize (Some h) (SubscribeReturns [CHANNEL_ERROR]);
              Advance 5000] = Some w /\
    pending_rows w = [m1; m2] /\
    step w Tick = Some w' /\
    handled (skipn (length (trace w)) (trace w')) = [m1] /\
    ~ In m2 (handled (skipn (length (trace w)) (trace w'))).
Proof.
  intros m1 m2 h. eexists. eexists.
  split; [vm_compute; reflexivity|]. split; [reflexivity|].
  split; [vm_compute; reflexivity|]. split; [reflexivity|].
  cbn. intros [H|[]]. discriminate.
Qed.

(* ------------------------------------------------------------------ *)
(** ** Status signals *)

Lemma timer_ok_running (w : world) :
  timer_ok w -> isPolling (self w) = true -> timer_running w.
Proof.
  unfold timer_ok, timer_running. intros [_ H] Hp.
  destruct (pollingInterval (self w)) as [t|]; [|congruence].
  split; [exact Hp|]. exists t. tauto.
Qed.

Ltac run_methods :=
  cbv beta iota zeta delta
    [on_status startPolling stopPolling shutdown initialize
     setupRealtimeSubscription on_insert bind ret get modify observe logger
     throw try_catch setInterval clearInterval new_channel unsubscribe
     set_isPolling set_isRealtimeConnected set_pollingInterval
     set_subscription set_messageHandler set_lastPollTime
     self clock timers next_timer channels next_channel table query_error
     trace subscription pollingInterval pollingFrequency isPolling
     isRealtimeConnected lastPollTime messageHandler fst snd].

Ltac trace_facts :=
  rewrite ?handled_app, ?queries_app; cbn [handled queries app];
  rewrite ?app_nil_r, ?Nat.add_0_r.

Lemma on_status_spec (st : subscribe_status) (w : world) :
  timer_ok w ->
  exists w',
    on_status st w = (Ok tt, w') /\ timer_ok w' /\ same_outside w w' /\
    match st with
    | SUBSCRIBED =>
        isRealtimeConnected (self w') = true /\ isPolling (self w') = false /\
        (isPolling (self w) = false -> timers w' = timers w)
    | CHANNEL_ERROR =>
        isRealtimeConnected (self w') = false /\ timer_running w'
    | _ => w' = w
    end.
Proof.
  intros [Hnt Hok]. unfold timer_ok, timer_running, same_outside in *.
  break_world w. destruct nt as [|nt']; [congruence|].
  destruct st.
  - (* confirmed *)
    destruct ip; destruct pi as [t|]; cbn in Hok;
      try (destruct Hok; discriminate); try discriminate;
      eexists; (split; [run_methods; reflexivity|]); run_methods;
      trace_facts.
    + split; [split; [exact Hnt | reflexivity]|].
      split; [repeat split|]. split; [reflexivity|].
      split; [reflexivity | discriminate].
    + split; [split; [exact Hnt | reflexivity]|].
      split; [repeat split|]. split; [reflexivity|].
      split; [reflexivity | reflexivity].
  - (* error *)
    destruct ip; destruct pi as [t|]; cbn in Hok;
      try (destruct Hok; discriminate); try discriminate;
      eexists; (split; [run_methods; reflexivity|]); run_methods;
      trace_facts.
    + destruct Hok as [_ Hin].
      split; [split; [exact Hnt | split; [reflexivity | exact Hin]]|].
      split; [repeat split|]. split; [reflexivity|].
      split; [reflexivity|]. exists t. split; [reflexivity | exact Hin].
    + change (S nt' =? 0) with false. run_methods. trace_facts.
      assert (Hin : In (S nt') (ts ++ [S nt']))
        by (apply in_app_iff; right; now left).
      split; [split; [discriminate | split; [reflexivity | exact Hin]]|].
      split; [repeat split|]. split; [reflexivity|].
      split; [reflexivity|]. exists (S nt'). split; [reflexivity | exact Hin].
  - exists (mkWorld (mkManager sb pi pf ip rc lp mh) ck ts (S nt') cs nc tb qe tr).
    split; [reflexivity|]. split; [split; assumption|].
    split; [repeat split | reflexivity].
  - exists (mkWorld (mkManager sb pi pf ip rc lp mh) ck ts (S nt') cs nc tb qe tr).
    split; [reflexivity|]. split; [split; assumption|].
    split; [repeat split | reflexivity].
Qed.

Lemma same_outside_refl (w : world) : same_outside w w.
Proof. repeat split. Qed.

Lemma same_outside_trans (a b c : world) :
  same_outside a b -> same_outside b c -> same_outside a c.
Proof.
  unfold same_outside. intros H1 H2.
  destruct H1 as (A1 & A2 & A3 & A4 & A5 & A6 & A7 & A8 & A9 & A10).
  destruct H2 as (B1 & B2 & B3 & B4 & B5 & B6 & B7 & B8 & B9 & B10).
  repeat split; congruence.
Qed.

Lemma on_status_covered (st : subscribe_status) (w w' : world) :
  timer_ok w -> on_status st w = (Ok tt, w') ->
  (covered w -> covered w') /\ (signals st = true -> covered w').
Proof.
  intros Hok E. destruct (on_status_spec st Hok) as (w1 & E1 & _ & _ & K).
  rewrite E in E1. injection E1 as <-. unfold covered.
  destruct st; cbn.
  - split; intros _; left; tauto.
  - split; intros _; right; tauto.
  - subst. split; [tauto | discriminate].
  - subst. split; [tauto | discriminate].
Qed.

Lemma for_each_on_status (during : list subscribe_status) :
  forall w, timer_ok w ->
  exists w',
    for_each during on_status w = (Ok tt, w') /\ timer_ok w' /\
    same_outside w w' /\
    (covered w -> covered w') /\
    (existsb signals during = true -> covered w') /\
    (during = [] -> w' = w).
Proof.
  induction during as [|st rest IH]; intros w Hok.
  - exists w. split; [reflexivity|]. split; [exact Hok|].
    split; [apply same_outside_refl|]. split; [tauto|].
    split; [discriminate | reflexivity].
  - destruct (on_status_spec st Hok) as (w1 & E1 & Hok1 & S1 & _).
    destruct (on_status_covered st Hok E1) as [C1 C2].
    destruct (IH w1 Hok1) as (w2 & E2 & Hok2 & S2 & C3 & C4 & _).
    exists w2. cbn [for_each]. unfold bind. rewrite E1.
    split; [exact E2|]. split; [exact Hok2|].
    split; [eapply same_outside_trans; eassumption|].
    split; [tauto|]. split; [|discriminate].
    cbn [existsb]. intros H. apply orb_true_iff in H. tauto.
Qed.

Ltac run_shell :=
  cbv beta iota zeta delta
    [initialize setupRealtimeSubscription shutdown bind ret get modify observe
     logger throw try_catch new_channel unsubscribe clearInterval
     set_isPolling set_isRealtimeConnected set_pollingInterval
     set_subscription set_messageHandler set_lastPollTime
     self clock timers next_timer channels next_channel table query_error
     trace subscription pollingInterval pollingFrequency isPolling
     isRealtimeConnected lastPollTime messageHandler fst snd].

Lemma initialize_returns (f : handler) (during : list subscribe_status)
    (w w2 : world) :
  for_each during on_status (subscribed (armed f w)) = (Ok tt, w2) ->
  initialize (Some f) (SubscribeReturns during) w =
  pollPendingMessages
    (with_self (set_subscription (Some (next_channel w)) (self w2)) w2).
Proof.
  intros E. break_world w. destruct w2 as [g2 ck2 ts2 nt2 cs2 nc2 tb2 qe2 tr2].
  unfold subscribed, armed, with_trace, with_self in E.
  cbv beta iota zeta delta [self clock timers next_timer channels next_channel
    table query_error trace set_messageHandler subscription pollingInterval
    pollingFrequency isPolling isRealtimeConnected lastPollTime
    messageHandler] in E.
  run_shell. rewrite E. run_shell.
  rewrite !pollPendingMessages_runs. reflexivity.
Qed.

Lemma initialize_throws (f : handler) (err : string) (w : world) :
  initialize (Some f) (SubscribeThrows err) w =
  startPolling
    (with_trace (trace (armed f w) ++
                 [Logged "error" "Failed to initialize Realtime connection"])
       (armed f w)).
Proof. break_world w. reflexivity. Qed.

Lemma startPolling_spec (w : world) :
  timer_ok w ->
  exists w',
    startPolling w = (Ok tt, w') /\ timer_ok w' /\ timer_running w' /\
    same_outside w w' /\
    isRealtimeConnected (self w') = isRealtimeConnected (self w).
Proof.
  intros [Hnt Hok]. unfold timer_ok, timer_running, same_outside in *.
  break_world w. destruct nt as [|nt']; [congruence|].
  destruct ip; destruct pi as [t|]; cbn in Hok;
    try (destruct Hok; discriminate); try discriminate;
    eexists; (split; [run_methods; reflexivity|]); run_methods; trace_facts.
  - destruct Hok as [_ Hin].
    split; [split; [exact Hnt | split; [reflexivity | exact Hin]]|].
    split; [split; [reflexivity | exists t; split; [reflexivity | exact Hin]]|].
    split; [repeat split | reflexivity].
  - change (S nt' =? 0) with false. run_methods. trace_facts.
    assert (Hin : In (S nt') (ts ++ [S nt']))
      by (apply in_app_iff; right; now left).
    split; [split; [discriminate | split; [reflexivity | exact Hin]]|].
    split; [split; [reflexivity
                   | exists (S nt'); split; [reflexivity | exact Hin]]|].
    split; [repeat split | reflexivity].
Qed.

Lemma shutdown_spec (w : world) :
  exists w',
    shutdown w = (Ok tt, w') /\
    isPolling (self w') = false /\ isRealtimeConnected (self w') = false /\
    pollingInterval (self w') = None /\ subscription (self w') = None /\
    next_timer w' = next_timer w.
Proof.
  break_world w. destruct sb as [c|]; destruct pi as [t|];
    eexists; (split; [run_methods; reflexivity|]); run_methods;
    repeat split.
Qed.

(* ------------------------------------------------------------------ *)
(** ** Failover *)

Lemma flags_frame (w w' : world) :
  isPolling (self w') = isPolling (self w) ->
  pollingInterval (self w') = pollingInterval (self w) ->
  isRealtimeConnected (self w') = isRealtimeConnected (self w) ->
  timers w' = timers w -> next_timer w' = next_timer w ->
  (timer_ok w -> timer_ok w') /\ (covered w -> covered w') /\
  (timer_running w -> timer_running w').
Proof.
  intros E1 E2 E3 E4 E5. unfold timer_ok, covered, timer_running.
  rewrite E1, E2, E3, E4, E5. tauto.
Qed.

Lemma unsignalled_cons (q : bool) (e : event) (es : list event) :
  unsignalled q (e :: es) = unsignalled (unsignalled q [e]) es.
Proof.
  destruct e as [[f|] [err|during] | st | m | | | d | rows error];
    reflexivity.
Qed.

Lemma initialize_spec (f : handler) (sub : subscribe_behaviour) (w : world) :
  timer_ok w ->
  exists w',
    initialize (Some f) sub w = (Ok tt, w') /\ timer_ok w' /\
    (covered w -> covered w') /\
    match sub with
    | SubscribeThrows _ => timer_running w'
    | SubscribeReturns during => existsb signals during = true -> covered w'
    end.
Proof.
  intros Hok. destruct sub as [err|during].
  - rewrite initialize_throws.
    match goal with |- context [startPolling ?W] => set (W0 := W) end.
    assert (Hok0 : timer_ok W0) by (apply (flags_frame w W0); auto).
    destruct (startPolling_spec Hok0) as (w' & E & Hok' & Hrun & _ & _).
    exists w'. split; [exact E|]. split; [exact Hok'|].
    split; [intros _; right; exact Hrun | exact Hrun].
  - set (W1 := subscribed (armed f w)).
    destruct (flags_frame w W1) as (F1 & F2 & _); try reflexivity.
    destruct (for_each_on_status during (F1 Hok))
      as (w2 & E & Hok2 & _ & C1 & C2 & _).
    rewrite (initialize_returns f during w E), pollPendingMessages_runs.
    eexists. split; [reflexivity|].
    match goal with |- timer_ok ?W /\ _ =>
      destruct (flags_frame w2 W) as (G1 & G2 & _); try reflexivity
    end.
    split; [apply G1, Hok2|]. split; intros H; apply G2; tauto.
Qed.

Lemma step_manager (w w' : world) (e : event) (q : bool) :
  timer_ok w -> covered w \/ q = true -> step w e = Some w' ->
  timer_ok w' /\ (covered w' \/ unsignalled q [e] = true).
Proof.
  intros Hok Hc Hstep.
  destruct e as [[f|] sub | st | m | | | d | rows error]; cbn [step] in Hstep.
  - destruct (initialize_spec f sub Hok) as (w1 & E & Hok1 & C1 & C2).
    rewrite E in Hstep. injection Hstep as <-. split; [exact Hok1|].
    destruct sub as [err|during]; cbn.
    + left. right. exact C2.
    + destruct Hc as [Hc|Hq]; [left; auto|]. subst q.
      destruct (existsb signals during); [left; auto | right; reflexivity].
  - injection Hstep as <-. cbn. auto.
  - destruct (on_status_spec st Hok) as (w1 & E & Hok1 & _ & _).
    destruct (on_status_covered st Hok E) as [C1 C2].
    rewrite E in Hstep. injection Hstep as <-. split; [exact Hok1|].
    cbn. destruct Hc as [Hc|Hq]; [left; auto|]. subst q.
    destruct (signals st); [left; auto | right; reflexivity].
  - injection Hstep as <-.
    destruct (flags_frame w (snd (on_insert m w))) as (F1 & F2 & _);
      try (break_world w; destruct mh; reflexivity).
    split; [auto|]. cbn. destruct Hc; auto.
  - destruct (timers w) eqn:T; [discriminate|]. injection Hstep as <-.
    rewrite pollPendingMessages_runs.
    match goal with |- timer_ok ?W /\ _ =>
      destruct (flags_frame w W) as (F1 & F2 & _); try reflexivity
    end.
    split; [auto|]. cbn. destruct Hc; auto.
  - injection Hstep as <-.
    destruct (shutdown_spec w) as (w1 & E & S1 & S2 & S3 & S4 & S5).
    rewrite E. cbn [snd]. split; [|right; reflexivity].
    unfold timer_ok. rewrite S3, S5. split; [apply Hok | exact S1].
  - destruct (0 <=? d)%Z; [|discriminate]. injection Hstep as <-.
    destruct (flags_frame w (advance d w)) as (F1 & F2 & _); try reflexivity.
    split; [auto|]. cbn. destruct Hc; auto.
  - injection Hstep as <-.
    destruct (flags_frame w (surroundings rows error w)) as (F1 & F2 & _);
      try reflexivity.
    split; [auto|]. cbn. destruct Hc; auto.
Qed.

Lemma run_manager (es : list event) :
  forall (w w' : world) (q : bool),
  timer_ok w -> covered w \/ q = true -> run w es = Some w' ->
  timer_ok w' /\ (covered w' \/ unsignalled q es = true).
Proof.
  induction es as [|e es IH]; intros w w' q Hok Hc Hrun.
  - cbn in Hrun. injection Hrun as <-. cbn. auto.
  - cbn [run] in Hrun. destruct (step w e) as [w1|] eqn:E; [|discriminate].
    destruct (@step_manager _ _ e q Hok Hc E) as [Hok1 Hc1].
    rewrite unsignalled_cons. exact (@IH w1 w' _ Hok1 Hc1 Hrun).
Qed.

Lemma timer_ok_init : timer_ok init.
Proof. split; [discriminate | reflexivity]. Qed.

(** C6, as the code has it.  The manager has neither a confirmed push
    subscription nor a running poll timer only while no status signal
    ("confirmed" or "error") and no failed subscription setup has occurred
    since it was constructed or last shut down; that is the state a
    successful [initialize] leaves it in until the first signal.  An
    "error" signal and an exception in the subscription setup of
    [initialize] each leave the recurring poll timer running. *)
Theorem delivery_path_after_first_signal (es : list event) (w : world) :
  run init es = Some w ->
  (covered w \/ unsignalled true es = true) /\
  (forall w', step w (Status CHANNEL_ERROR) = Some w' ->
     timer_running w' /\ isRealtimeConnected (self w') = false) /\
  (forall f err w', step w (Initialize (Some f) (SubscribeThrows err)) = Some w' ->
     timer_running w').
Proof.
  intros Hrun.
  destruct (@run_manager es init w true timer_ok_init (or_intror eq_refl) Hrun)
    as [Hok Hc].
  split; [exact Hc|]. split.
  - intros w' Hs. cbn [step] in Hs.
    destruct (on_status_spec CHANNEL_ERROR Hok) as (w1 & E & _ & _ & K1 & K2).
    rewrite E in Hs. injection Hs as <-. auto.
  - intros f err w' Hs. cbn [step] in Hs.
    destruct (initialize_spec f (SubscribeThrows err) Hok) as (w1 & E & _ & _ & K).
    rewrite E in Hs. injection Hs as <-. exact K.
Qed.

Lemma delivery_path_after_first_signal_witness :
  exists w,
    run init [Initialize (Some (fun _ => None)) (SubscribeReturns []);
              Status SUBSCRIBED; Status CHANNEL_ERROR] = Some w /\
    (covered w \/ false = true).
Proof.
  eexists. split; [vm_compute; reflexivity|].
  refine (proj1 (delivery_path_after_first_signal
    [Initialize (Some (fun _ => None)) (SubscribeReturns []);
     Status SUBSCRIBED; Status CHANNEL_ERROR] _)).
  vm_compute; reflexivity.
Defined.

(** C6, as the specification words it, fails.  After a successful
    [initialize], before any status signal, the subscription is not
    confirmed and no poll timer is set, and [shutdown] was not called. *)
Lemma subscribing_has_no_delivery_path :
  exists w,
    run init [Initialize (Some (fun _ => None)) (SubscribeReturns [])]
      = Some w /\
    isRealtimeConnected (self w) = false /\ isPolling (self w) = false /\
    pollingInterval (self w) = None /\ timers w = [] /\
    ~ covered w.
Proof.
  eexists. split; [vm_compute; reflexivity|].
  repeat (split; [reflexivity|]).
  unfold covered, timer_running. cbn. intros [H|[H _]]; discriminate.
Qed.

(* ------------------------------------------------------------------ *)
(** ** The first pull *)

Lemma initialize_quiet (f : handler) (w : world) :
  initialize (Some f) (SubscribeReturns []) w =
  (Ok tt,
   let w1 := with_self (set_subscription (Some (next_channel w))
                          (self (subscribed (armed f w))))
               (subscribed (armed f w)) in
   with_trace (trace w1 ++ poll_obs w1)
     (with_self (set_lastPollTime (clock w1) (self w1)) w1)).
Proof.
  rewrite (@initialize_returns f [] w (subscribed (armed f w)) eq_refl).
  apply pollPendingMessages_runs.
Qed.

(** C9, as the code has it.  When the subscription setup returns without
    a status signal, [initialize] registers the subscription, runs one
    poll cycle and starts no timer.  If the query of that cycle succeeds
    and the callback fails on none of the pending rows, every row that is
    pending when [initialize] is called is handed to the callback exactly
    once, oldest first; a later "confirmed" signal hands over nothing
    more and leaves the timer unset. *)
Theorem initialize_pulls_pending_once (w : world) (h : handler) :
  isPolling (self w) = false -> pollingInterval (self w) = None ->
  next_timer w <> 0 ->
  query_error w = None ->
  (forall m, In m (table w) -> status m = "pending"%string -> h m = None) ->
  exists w' new,
    initialize (Some h) (SubscribeReturns []) w = (Ok tt, w') /\
    trace w' = trace w ++ new /\
    subscription (self w') = Some (next_channel w) /\
    In (next_channel w) (channels w') /\
    messageHandler (self w') = Some h /\
    isPolling (self w') = false /\ pollingInterval (self w') = None /\
    timers w' = timers w /\
    queries new = 1 /\
    handled new = pending_rows w /\
    (forall m, count_occ message_eq_dec (handled new) m =
               count_occ message_eq_dec (filter is_pending (table w)) m) /\
    exists w'',
      step w' (Status SUBSCRIBED) = Some w'' /\
      handled (trace w'') = handled (trace w') /\
      queries (trace w'') = queries (trace w') /\
      isRealtimeConnected (self w'') = true /\
      isPolling (self w'') = false /\ timers w'' = timers w.
Proof.
  intros Hp Hi Hnt Hq Hh.
  set (w1 := with_self (set_subscription (Some (next_channel w))
                          (self (subscribed (armed h w))))
               (subscribed (armed h w))).
  set (w' := with_trace (trace w1 ++ poll_obs w1)
               (with_self (set_lastPollTime (clock w1) (self w1)) w1)).
  assert (Hall : deliveries h (pending_rows w) = pending_rows w).
  { apply deliveries_all. intros m Hm. apply pending_rows_complete in Hm.
    destruct Hm. auto. }
  assert (Hnew : handled (poll_obs w1) = pending_rows w).
  { rewrite handled_poll_obs.
    replace (query_error w1) with (query_error w) by reflexivity.
    rewrite Hq. exact Hall. }
  exists w', (Logged "info" "Initializing Supabase Realtime connection"
              :: poll_obs w1).
  split; [apply initialize_quiet|].
  split; [unfold w'; cbn; now rewrite <- app_assoc|].
  split; [reflexivity|].
  split; [unfold w'; cbn; apply in_app_iff; right; now left|].
  split; [reflexivity|]. split; [exact Hp|]. split; [exact Hi|].
  split; [reflexivity|].
  split; [cbn [queries]; apply queries_poll_obs|].
  split; [cbn [handled]; exact Hnew|].
  split.
  { intros m. cbn [handled]. rewrite Hnew.
    apply Permutation_count_occ, order_by_created_at_perm. }
  assert (Hok : timer_ok w').
  { split; [exact Hnt|]. unfold w', w1. cbn. now rewrite Hi. }
  destruct (on_status_spec SUBSCRIBED Hok)
    as (w'' & E & _ & S & K1 & K2 & K3).
  exists w''. cbn [step]. rewrite E. split; [reflexivity|].
  destruct S as (_ & _ & _ & _ & _ & _ & _ & _ & S9 & S10).
  split; [exact S9|]. split; [exact S10|]. split; [exact K1|].
  split; [exact K2|]. apply K3. exact Hp.
Qed.

Lemma initialize_pulls_pending_once_witness :
  let m1 := mkMessage "m1" "t1" 20 "pending" in
  let m2 := mkMessage "m2" "t1" 10 "pending" in
  let m3 := mkMessage "m3" "t2" 15 "sent" in
  let h : handler := fun _ => None in
  let w := mkWorld new_manager 0 [] 1 [] 1 [m1; m2; m3] None [] in
  exists w' new,
    initialize (Some h) (SubscribeReturns []) w = (Ok tt, w') /\
    trace w' = trace w ++ new /\
    handled new = [m2; m1] /\ timers w' = [].
Proof.
  intros m1 m2 m3 h w.
  destruct (@initialize_pulls_pending_once w h eq_refl eq_refl
              (fun H : 1 = 0 => match H with end) eq_refl
              (fun m _ _ => eq_refl))
    as (w' & new & H1 & H2 & _ & _ & _ & _ & _ & H8 & _ & H10 & _).
  exists w', new. split; [exact H1|]. split; [exact H2|].
  split; [exact H10 | exact H8].
Defined.

(** C9, as the specification words it, fails.  Two rows are pending when
    [initialize] is called and the callback fails on the older one: the
    younger one is not handed to the callback by the first pull, and with
    the subscription confirmed afterwards no timer is set that could pull
    it later. *)
Lemma pending_row_missed_by_first_pull :
  let m1 := mkMessage "m1" "t1" 10 "pending" in
  let m2 := mkMessage "m2" "t1" 20 "pending" in
  let h : handler :=
    fun m => if String.eqb (id m) "m1" then Some "boom"%string else None in
  exists w,
    run init [Surroundings [m1; m2] None;
              Initialize (Some h) (SubscribeReturns []);
              Status SUBSCRIBED; Advance 60000] = Some w /\
    In m2 (table w) /\ status m2 = "pending"%string /\
    handled (trace w) = [m1] /\ ~ In m2 (handled (trace w)) /\
    timers w = [] /\ step w Tick = None.
Proof.
  intros m1 m2 h. eexists.
  split; [vm_compute; reflexivity|].
  split; [right; now left|]. split; [reflexivity|]. split; [reflexivity|].
  split; [|split; reflexivity].
  cbn. intros [H|[]]. discriminate.
Qed.

(* ------------------------------------------------------------------ *)
(** ** One timer, and what stops it *)

Lemma timers_exact_ok (w : world) : timers_exact w -> timer_ok w.
Proof.
  unfold timers_exact, timer_ok. intros (Hnt & Ht & Hp).
  split; [exact Hnt|]. rewrite Ht, Hp.
  destruct (pollingInterval (self w)); [|reflexivity].
  split; [reflexivity | now left].
Qed.

Lemma timers_exact_frame (w w' : world) :
  isPolling (self w') = isPolling (self w) ->
  pollingInterval (self w') = pollingInterval (self w) ->
  timers w' = timers w -> next_timer w' = next_timer w ->
  timers_exact w -> timers_exact w'.
Proof.
  intros E1 E2 E3 E4. unfold timers_exact. rewrite E1, E2, E3, E4. tauto.
Qed.

Ltac clear_own_timer :=
  cbn [filter]; rewrite ?Nat.eqb_refl; cbn [negb filter app].

Lemma on_status_exact (st : subscribe_status) (w : world) :
  timers_exact w ->
  exists w',
    on_status st w = (Ok tt, w') /\ timers_exact w' /\ same_outside w w' /\
    pollingFrequency (self w') = pollingFrequency (self w) /\
    match st with
    | SUBSCRIBED => timers w' = [] /\ isRealtimeConnected (self w') = true
    | CHANNEL_ERROR =>
        (exists t, timers w' = [t]) /\ isRealtimeConnected (self w') = false
    | _ => w' = w
    end.
Proof.
  intros (Hnt & Ht & Hp). unfold timers_exact, same_outside in *.
  break_world w. destruct nt as [|nt']; [congruence|].
  destruct pi as [t|]; subst ts ip; destruct st;
    eexists; (split; [run_methods; reflexivity|]); run_methods;
    clear_own_timer; trace_facts; repeat split; eauto; discriminate.
Qed.

Lemma startPolling_exact (w : world) :
  timers_exact w ->
  exists w',
    startPolling w = (Ok tt, w') /\ timers_exact w' /\ same_outside w w' /\
    pollingFrequency (self w') = pollingFrequency (self w) /\
    (exists t, timers w' = [t]) /\
    (isPolling (self w) = true -> w' = w).
Proof.
  intros (Hnt & Ht & Hp). unfold timers_exact, same_outside in *.
  break_world w. destruct nt as [|nt']; [congruence|].
  destruct pi as [t|]; subst ts ip;
    eexists; (split; [run_methods; reflexivity|]); run_methods;
    clear_own_timer; trace_facts; repeat split; eauto; discriminate.
Qed.

Lemma shutdown_exact (w : world) :
  timers_exact w ->
  exists w',
    shutdown w = (Ok tt, w') /\ timers_exact w' /\
    timers w' = [] /\
    isPolling (self w') = false /\ isRealtimeConnected (self w') = false /\
    pollingInterval (self w') = None /\ subscription (self w') = None /\
    (forall c, subscription (self w) = Some c -> ~ In c (channels w')) /\
    pollingFrequency (self w') = pollingFrequency (self w) /\
    lastPollTime (self w') = lastPollTime (self w) /\
    messageHandler (self w') = messageHandler (self w) /\
    table w' = table w /\ clock w' = clock w /\
    handled (trace w') = handled (trace w) /\
    queries (trace w') = queries (trace w).
Proof.
  intros (Hnt & Ht & Hp). unfold timers_exact in *.
  break_world w.
  destruct sb as [c|]; destruct pi as [t|]; subst ts ip;
    eexists; (split; [run_methods; reflexivity|]); run_methods;
    clear_own_timer; trace_facts; repeat split; auto; try discriminate.
  all: intros c0 E; injection E as <-; intros Hin; apply filter_In in Hin;
    destruct Hin as [_ Hin]; rewrite Nat.eqb_refl in Hin; discriminate.
Qed.

Lemma for_each_on_status_exact (during : list subscribe_status) :
  forall w, timers_exact w ->
  exists w',
    for_each during on_status w = (Ok tt, w') /\ timers_exact w' /\
    same_outside w w' /\
    pollingFrequency (self w') = pollingFrequency (self w).
Proof.
  induction during as [|st rest IH]; intros w Hok.
  - exists w. split; [reflexivity|]. split; [exact Hok|].
    split; [apply same_outside_refl | reflexivity].
  - destruct (on_status_exact st Hok) as (w1 & E1 & Hok1 & S1 & P1 & _).
    destruct (IH w1 Hok1) as (w2 & E2 & Hok2 & S2 & P2).
    exists w2. cbn [for_each]. unfold bind. rewrite E1.
    split; [exact E2|]. split; [exact Hok2|].
    split; [eapply same_outside_trans; eassumption | congruence].
Qed.

(** What one event does to the timers, the pulls made so far and the
    handler. *)
Lemma step_exact (w w' : world) (e : event) :
  timers_exact w -> step w e = Some w' ->
  timers_exact w' /\
  queries (trace w') = queries (trace w) + pulls [e] /\
  pollingFrequency (self w') = pollingFrequency (self w) /\
  messageHandler (self w') = registered [e] (messageHandler (self w)).
Proof.
  intros Hok Hstep.
  destruct e as [[f|] sub | st | m | | | d | rows error]; cbn [step] in Hstep.
  - destruct sub as [err|during].
    + rewrite initialize_throws in Hstep.
      match type of Hstep with context [startPolling ?W] => set (W0 := W) in * end.
      assert (Hok0 : timers_exact W0)
        by (apply (@timers_exact_frame w W0); auto).
      destruct (startPolling_exact Hok0) as (w1 & E & Hok1 & S1 & P1 & _).
      rewrite E in Hstep. injection Hstep as <-.
      destruct S1 as (_ & _ & _ & _ & _ & A6 & _ & _ & _ & A10).
      split; [exact Hok1|]. split; [|split; [exact P1 | exact A6]].
      rewrite A10. unfold W0, armed, with_trace. cbn [trace pulls].
      rewrite !queries_app. cbn [queries]. lia.
    + set (W1 := subscribed (armed f w)).
      assert (Hok1 : timers_exact W1)
        by (apply (@timers_exact_frame w W1); auto).
      destruct (for_each_on_status_exact during Hok1)
        as (w2 & E & Hok2 & S2 & P2).
      rewrite (initialize_returns f during w E), pollPendingMessages_runs
        in Hstep.
      injection Hstep as <-.
      destruct S2 as (_ & _ & _ & _ & _ & A6 & _ & _ & _ & A10).
      split; [apply (@timers_exact_frame w2); auto|].
      split; [|split; [exact P2 | exact A6]].
      unfold with_trace, with_self. cbn [trace pulls].
      rewrite queries_app, queries_poll_obs. cbn [trace] in A10 |- *.
      rewrite A10. unfold W1, subscribed, armed, with_trace. cbn [trace].
      rewrite queries_app. cbn [queries]. lia.
  - injection Hstep as <-. cbn. rewrite Nat.add_0_r. auto.
  - destruct (on_status_exact st Hok) as (w1 & E & Hok1 & S1 & P1 & _).
    rewrite E in Hstep. injection Hstep as <-.
    destruct S1 as (_ & _ & _ & _ & _ & A6 & _ & _ & _ & A10).
    cbn [pulls registered]. rewrite Nat.add_0_r. auto.
  - injection Hstep as <-. break_world w. unfold timers_exact in *.
    destruct mh; run_methods; trace_facts; cbn [pulls registered];
      rewrite ?Nat.add_0_r; auto.
  - destruct (timers w) eqn:T; [discriminate|]. injection Hstep as <-.
    rewrite pollPendingMessages_runs.
    split; [apply (@timers_exact_frame w); auto|].
    unfold with_trace, with_self. cbn [snd trace self pulls registered].
    rewrite queries_app, queries_poll_obs. repeat split.
  - injection Hstep as <-.
    destruct (shutdown_exact Hok)
      as (w1 & E & Hok1 & _ & _ & _ & _ & _ & _ & P1 & _ & M1 & _ & _ & _ & Q1).
    rewrite E. cbn [snd pulls registered]. rewrite Nat.add_0_r. auto.
  - destruct (0 <=? d)%Z; [|discriminate]. injection Hstep as <-.
    cbn. rewrite Nat.add_0_r. auto.
  - injection Hstep as <-. cbn. rewrite Nat.add_0_r. auto.
Qed.

Lemma pulls_app (a b : list event) : pulls (a ++ b) = pulls a + pulls b.
Proof.
  induction a as [|e a IH]; [reflexivity|].
  destruct e as [[f|] [err|during] | st | m | | | d | rows error];
    cbn; rewrite IH; reflexivity.
Qed.

Lemma registered_cons (e : event) (es : list event) (h : option handler) :
  registered (e :: es) h = registered es (registered [e] h).
Proof.
  destruct e as [[f|] sub | st | m | | | d | rows error]; reflexivity.
Qed.

Lemma run_exact (es : list event) :
  forall w w' : world,
  timers_exact w -> run w es = Some w' ->
  timers_exact w' /\
  queries (trace w') = queries (trace w) + pulls es /\
  pollingFrequency (self w') = pollingFrequency (self w) /\
  messageHandler (self w') = registered es (messageHandler (self w)).
Proof.
  induction es as [|e es IH]; intros w w' Hok Hrun.
  - cbn in Hrun. injection Hrun as <-. cbn. rewrite Nat.add_0_r. auto.
  - cbn [run] in Hrun. destruct (step w e) as [w1|] eqn:E; [|discriminate].
    destruct (step_exact e Hok E) as (Hok1 & Q1 & P1 & M1).
    destruct (IH w1 w' Hok1 Hrun) as (Hok2 & Q2 & P2 & M2).
    split; [exact Hok2|].
    change (e :: es) with ([e] ++ es). rewrite pulls_app.
    split; [lia|]. split; [congruence|].
    change ([e] ++ es) with (e :: es). rewrite registered_cons, <- M1. exact M2.
Qed.

Lemma timers_exact_init : timers_exact init.
Proof. repeat split. discriminate. Qed.

Lemma shutdown_again (w : world) :
  subscription (self w) = None -> pollingInterval (self w) = None ->
  isPolling (self w) = false -> isRealtimeConnected (self w) = false ->
  shutdown w =
  (Ok tt, with_trace (trace w ++ [Logged "info" "Shutting down Realtime manager"]) w).
Proof.
  break_world w. intros -> -> -> ->. reflexivity.
Qed.

(** The manager never has more than one poll timer, and never loses
    track of it: after any sequence of calls, signals and ticks the
    timers that are set are exactly the one held in [pollingInterval],
    [isPolling] is true exactly when one is held, and the polling
    frequency is still 5000 ms.  A "confirmed" signal leaves no timer (no
    tick can follow it), an "error" signal leaves exactly one, and
    [startPolling] while polling changes nothing. *)
Theorem at_most_one_poll_timer (es : list event) (w : world) :
  run init es = Some w ->
  timers w = match pollingInterval (self w) with
             | Some t => [t]
             | None => []
             end /\
  isPolling (self w) = match pollingInterval (self w) with
                       | Some _ => true
                       | None => false
                       end /\
  length (timers w) <= 1 /\
  pollingFrequency (self w) = 5000%Z /\
  (forall w', step w (Status SUBSCRIBED) = Some w' ->
     timers w' = [] /\ step w' Tick = None) /\
  (forall w', step w (Status CHANNEL_ERROR) = Some w' ->
     exists t, timers w' = [t]) /\
  (isPolling (self w) = true -> startPolling w = (Ok tt, w)).
Proof.
  intros Hrun.
  destruct (run_exact es timers_exact_init Hrun) as (Hok & _ & P & _).
  pose proof Hok as (Hnt & Ht & Hp).
  split; [exact Ht|]. split; [exact Hp|].
  split; [rewrite Ht; destruct (pollingInterval (self w)); cbn; lia|].
  split; [exact P|]. split; [|split].
  - intros w' Hs. cbn [step] in Hs.
    destruct (on_status_exact SUBSCRIBED Hok) as (w1 & E & _ & _ & _ & T1 & _).
    rewrite E in Hs. injection Hs as <-. split; [exact T1|].
    cbn [step]. now rewrite T1.
  - intros w' Hs. cbn [step] in Hs.
    destruct (on_status_exact CHANNEL_ERROR Hok)
      as (w1 & E & _ & _ & _ & T1 & _).
    rewrite E in Hs. injection Hs as <-. exact T1.
  - intros Hpoll.
    destruct (startPolling_exact Hok) as (w1 & E & _ & _ & _ & _ & Same).
    rewrite E, (Same Hpoll). reflexivity.
Qed.

Lemma at_most_one_poll_timer_witness :
  exists w,
    run init [Initialize (Some (fun _ => None)) (SubscribeReturns [CHANNEL_ERROR]);
              Status CHANNEL_ERROR; Tick; Status SUBSCRIBED;
              Status CHANNEL_ERROR] = Some w /\
    length (timers w) <= 1.
Proof.
  eexists. split; [vm_compute; reflexivity|].
  refine (proj1 (proj2 (proj2 (at_most_one_poll_timer
    [Initialize (Some (fun _ => None)) (SubscribeReturns [CHANNEL_ERROR]);
     Status CHANNEL_ERROR; Tick; Status SUBSCRIBED; Status CHANNEL_ERROR] _)))).
  vm_compute; reflexivity.
Defined.

(** [shutdown()] from any state the manager can be in: it returns
    normally, no timer remains (so no tick and no further poll can
    follow), the subscription held is unsubscribed and forgotten, the
    health status reads not connected and not polling with the last poll
    time and frequency untouched; nothing is queried or handed to the
    handler, and the handler stays registered.  A second [shutdown]
    changes nothing but the log. *)
Theorem shutdown_stops_everything (es : list event) (w : world) :
  run init es = Some w ->
  exists w',
    shutdown w = (Ok tt, w') /\ step w Shutdown = Some w' /\
    timers w' = [] /\ step w' Tick = None /\
    getHealthStatus w' =
      (false, false, lastPollTime (self w), pollingFrequency (self w)) /\
    subscription (self w') = None /\ pollingInterval (self w') = None /\
    (forall c, subscription (self w) = Some c -> ~ In c (channels w')) /\
    messageHandler (self w') = messageHandler (self w) /\
    table w' = table w /\
    handled (trace w') = handled (trace w) /\
    queries (trace w') = queries (trace w) /\
    shutdown w' =
      (Ok tt,
       with_trace (trace w' ++ [Logged "info" "Shutting down Realtime manager"]) w').
Proof.
  intros Hrun.
  destruct (run_exact es timers_exact_init Hrun) as (Hok & _).
  destruct (shutdown_exact Hok)
    as (w1 & E & Hok1 & T1 & P1 & C1 & I1 & S1 & U1 & F1 & L1 & M1 & B1 & K1
        & H1 & Q1).
  exists w1. split; [exact E|]. split; [cbn [step]; now rewrite E|].
  split; [exact T1|]. split; [cbn [step]; now rewrite T1|].
  split; [unfold getHealthStatus; now rewrite P1, C1, L1, F1|].
  repeat (split; [assumption|]).
  now apply shutdown_again.
Qed.

Lemma shutdown_stops_everything_witness :
  exists w,
    run init [Initialize (Some (fun _ => None)) (SubscribeReturns []);
              Status CHANNEL_ERROR; Tick] = Some w /\
    timers w = [1] /\
    exists w',
      shutdown w = (Ok tt, w') /\ timers w' = [] /\ step w' Tick = None.
Proof.
  eexists. split; [vm_compute; reflexivity|]. split; [reflexivity|].
  match goal with |- context [shutdown ?W] =>
    destruct (@shutdown_stops_everything
      [Initialize (Some (fun _ => None)) (SubscribeReturns []);
       Status CHANNEL_ERROR; Tick] W ltac:(vm_compute; reflexivity))
      as (w' & E & _ & T & K & _)
  end.
  exists w'. split; [exact E|]. split; [exact T | exact K].
Defined.

(** The table is queried exactly once for every tick of the poll timer
    and once for every [initialize] whose subscription setup returned,
    and at no other time: a status signal, an INSERT notification, a
    [shutdown] and an [initialize] that fails do not query it.  Switching
    to polling therefore pulls nothing until the first tick. *)
Theorem table_queried_once_per_pull (es : list event) (w : world) :
  run init es = Some w -> queries (trace w) = pulls es.
Proof.
  intros Hrun.
  destruct (run_exact es timers_exact_init Hrun) as (_ & Q & _).
  exact Q.
Qed.

Lemma table_queried_once_per_pull_witness :
  exists w,
    run init [Initialize (Some (fun _ => None)) (SubscribeReturns []);
              Status CHANNEL_ERROR; Tick; Tick; Status SUBSCRIBED; Shutdown]
      = Some w /\
    queries (trace w) = 3.
Proof.
  eexists. split; [vm_compute; reflexivity|].
  refine (table_queried_once_per_pull
    [Initialize (Some (fun _ => None)) (SubscribeReturns []);
     Status CHANNEL_ERROR; Tick; Tick; Status SUBSCRIBED; Shutdown] _).
  vm_compute; reflexivity.
Defined.

(** The handler in use is the one given to the last [initialize] that
    was given a function; a failed [initialize] and a [shutdown] leave it
    registered.  An INSERT notification is handed to that handler exactly
    once, whether or not the manager is polling, and is dropped when none
    was ever registered; it changes no flag and no timer and queries
    nothing. *)
Theorem insert_goes_to_registered_handler
    (es : list event) (w : world) (m : message) :
  run init es = Some w ->
  messageHandler (self w) = registered es None /\
  exists w',
    step w (Insert m) = Some w' /\
    handled (trace w') =
      handled (trace w) ++
      match registered es None with Some _ => [m] | None => [] end /\
    queries (trace w') = queries (trace w) /\
    getHealthStatus w' = getHealthStatus w /\ timers w' = timers w /\
    messageHandler (self w') = messageHandler (self w).
Proof.
  intros Hrun.
  destruct (run_exact es timers_exact_init Hrun) as (_ & _ & _ & M).
  cbn [init self messageHandler new_manager] in M.
  split; [exact M|]. rewrite <- M. clear M Hrun.
  exists (snd (on_insert m w)). split; [reflexivity|].
  break_world w. unfold getHealthStatus.
  destruct mh; run_methods; trace_facts; repeat split.
Qed.

Lemma insert_goes_to_registered_handler_witness :
  exists w,
    run init [Initialize (Some (fun _ => None)) (SubscribeReturns [SUBSCRIBED]);
              Shutdown] = Some w /\
    exists w',
      step w (Insert (mkMessage "m1" "t1" 7 "pending")) = Some w' /\
      handled (trace w') = [mkMessage "m1" "t1" 7 "pending"].
Proof.
  eexists. split; [vm_compute; reflexivity|].
  match goal with |- context [step ?W _] =>
    destruct (@insert_goes_to_registered_handler
      [Initialize (Some (fun _ => None)) (SubscribeReturns [SUBSCRIBED]);
       Shutdown] W (mkMessage "m1" "t1" 7 "pending")
      ltac:(vm_compute; reflexivity))
      as (_ & w' & E & H & _)
  end.
  exists w'. split; [exact E | exact H].
Defined.

(* ------------------------------------------------------------------ *)
(** ** The integration tests of the manager, on the model *)

(** "should start polling if Realtime subscription fails": the
    [subscribe] stub calls back with CHANNEL_ERROR during the call. *)
Example test_polling_on_subscription_error :
  match run init [Initialize (Some (fun _ => None))
                    (SubscribeReturns [CHANNEL_ERROR])] with
  | Some w => isPolling (self w) = true /\ timers w = [1] /\
              In (Logged "error" "Realtime subscription error") (trace w)
  | None => False
  end.
Proof. vm_compute. split; [reflexivity|]. split; [reflexivity|]. auto. Qed.

(** "should switch to polling if Realtime connection fails" *)
Example test_switch_to_polling :
  match run init [Initialize (Some (fun _ => None)) (SubscribeReturns []);
                  Status SUBSCRIBED] with
  | Some w =>
      isRealtimeConnected (self w) = true /\ isPolling (self w) = false /\
      match step w (Status CHANNEL_ERROR) with
      | Some w' => isPolling (self w') = true
      | None => False
      end
  | None => False
  end.
Proof. vm_compute. repeat split. Qed.

(** "should switch back to Realtime when connection is restored" *)
Example test_switch_back_to_realtime :
  match run init [Initialize (Some (fun _ => None)) (SubscribeReturns [])] with
  | Some w =>
      let w1 := snd (startPolling w) in
      isPolling (self w1) = true /\
      match step w1 (Status SUBSCRIBED) with
      | Some w2 =>
          isRealtimeConnected (self w2) = true /\ isPolling (self w2) = false /\
          timers w2 = [] /\
          last (trace w2) Queried =
            Logged "info" "Stopping polling fallback, Realtime connection restored"
      | None => False
      end
  | None => False
  end.
Proof. vm_compute. repeat split. Qed.

End RealtimeFacts.

(* ================================================================== *)
(** * Facts about the polling fallback                                 *)
(* ================================================================== *)

Module PollingFacts.
Import PollingFallback.

Lemma insert_by_received_at_perm (r : row) (l : list row) :
  Permutation (insert_by_received_at r l) (r :: l).
Proof.
  induction l as [|x l IH]; cbn; [reflexivity|].
  destruct (received_at r <? received_at x)%Z; [reflexivity|].
  rewrite IH. apply perm_swap.
Qed.

Lemma order_by_received_at_perm (l : list row) :
  Permutation (order_by_received_at l) l.
Proof.
  induction l as [|x l IH]; cbn; [reflexivity|].
  rewrite insert_by_received_at_perm. now constructor.
Qed.

Lemma hand_over_complete (onMessage : row -> option string) (l : list row) :
  snd (hand_over onMessage l) = true -> fst (hand_over onMessage l) = l.
Proof.
  induction l as [|r l IH]; cbn; [reflexivity|].
  destruct (onMessage r); [discriminate|].
  destruct (hand_over onMessage l) as [ds ok]. cbn in *.
  intros H. now rewrite IH.
Qed.

(** The poll of [polling.js], unlike the poll cycle of the manager,
    works with a watermark: it selects the rows received after
    [lastPollTime] (all received rows on the first run), and it moves
    [lastPollTime] to the start time of the run only when the whole batch
    has been handed over; a failed query or callback leaves it as it
    was. *)
Lemma poll_uses_watermark (onMessage : row -> option string) (w : world) :
  isRunning w = true ->
  (forall r, In r (selected w) <->
             In r (table w) /\ status r = "received"%string /\
             match lastPollTime w with
             | None => True
             | Some t => (t < received_at r)%Z
             end) /\
  (query_error w = None -> snd (hand_over onMessage (selected w)) = true ->
     lastPollTime (poll onMessage w) = Some (clock w) /\
     delivered (poll onMessage w) = delivered w ++ selected w) /\
  (query_error w <> None \/ snd (hand_over onMessage (selected w)) = false ->
     lastPollTime (poll onMessage w) = lastPollTime w) /\
  scheduled (poll onMessage w) = S (scheduled w).
Proof.
  intros Hrun. split; [|split; [|split]].
  - intros r. unfold selected. split.
    + intros H. apply (Permutation_in _ (order_by_received_at_perm _)) in H.
      apply filter_In in H. destruct H as [H1 H2].
      apply andb_true_iff in H2. destruct H2 as [H2 H3].
      split; [exact H1|]. split; [now apply String.eqb_eq|].
      unfold newer_than in H3. destruct (lastPollTime w); [|exact I].
      now apply Z.ltb_lt.
    + intros (H1 & H2 & H3).
      apply (Permutation_in _ (Permutation_sym (order_by_received_at_perm _))).
      apply filter_In. split; [exact H1|]. apply andb_true_iff.
      split; [now apply String.eqb_eq|].
      unfold newer_than. destruct (lastPollTime w); [|reflexivity].
      now apply Z.ltb_lt.
  - intros Hq Hok. unfold poll. rewrite Hrun, Hq.
    pose proof (hand_over_complete onMessage (selected w) Hok) as Hall.
    destruct (hand_over onMessage (selected w)) as [ds ok]. cbn in *.
    subst. auto.
  - intros H. unfold poll. rewrite Hrun.
    destruct (query_error w); [reflexivity|].
    destruct H as [H|H]; [congruence|].
    destruct (hand_over onMessage (selected w)) as [ds ok]. cbn in *.
    now subst.
  - unfold poll. rewrite Hrun. destruct (query_error w); [reflexivity|].
    destruct (hand_over onMessage (selected w)); reflexivity.
Qed.

Lemma poll_uses_watermark_witness :
  let r1 := mkRow "a" 5 "received" in
  let r2 := mkRow "b" 9 "received" in
  let w := mkWorld true (Some 5%Z) 10 [r2; r1] None 0 [] in
  isRunning w = true /\
  lastPollTime (poll (fun _ => None) w) = Some 10%Z /\
  delivered (poll (fun _ => None) w) = [r2].
Proof.
  intros r1 r2 w.
  assert (Hrun : isRunning w = true) by reflexivity.
  split; [exact Hrun|].
  exact (proj1 (proj2 (@poll_uses_watermark (fun _ => None) w Hrun))
           eq_refl eq_refl).
Defined.

Lemma selected_spec (w : world) (r : row) :
  In r (selected w) <->
  In r (table w) /\ status r = "received"%string /\
  match lastPollTime w with
  | None => True
  | Some t => (t < received_at r)%Z
  end.
Proof.
  unfold selected. split.
  - intros H. apply (Permutation_in _ (order_by_received_at_perm _)) in H.
    apply filter_In in H. destruct H as [H1 H2].
    apply andb_true_iff in H2. destruct H2 as [H2 H3].
    split; [exact H1|]. split; [now apply String.eqb_eq|].
    unfold newer_than in H3. destruct (lastPollTime w); [|exact I].
    now apply Z.ltb_lt.
  - intros (H1 & H2 & H3).
    apply (Permutation_in _ (Permutation_sym (order_by_received_at_perm _))).
    apply filter_In. split; [exact H1|]. apply andb_true_iff.
    split; [now apply String.eqb_eq|].
    unfold newer_than. destruct (lastPollTime w); [|reflexivity].
    now apply Z.ltb_lt.
Qed.

Lemma hand_over_prefix (onMessage : row -> option string) (l : list row) :
  exists rest, l = fst (hand_over onMessage l) ++ rest.
Proof.
  induction l as [|r l IH]; cbn; [exists []; reflexivity|].
  destruct (onMessage r).
  - exists l. reflexivity.
  - destruct (hand_over onMessage l) as [ds ok]. cbn in *.
    destruct IH as [rest E]. exists rest. now rewrite <- E.
Qed.

(** What the next run of [poll] selects.  After a run that handed over
    its whole batch, the next run selects exactly the received rows
    stamped after the start time of that run, old or new: a row stamped
    at or before it is never handed over again, and a row added later
    with such a stamp is never handed over at all.  After a run whose
    callback failed, every row of the failed batch, those already handed
    over included, is selected again. *)
Theorem next_poll_after_success_and_after_failure
    (onMessage : row -> option string) (w : world) (d : Z) (new : list row) :
  isRunning w = true -> query_error w = None ->
  let w2 := later d new (poll onMessage w) in
  (snd (hand_over onMessage (selected w)) = true ->
     delivered w2 = delivered w ++ selected w /\
     forall r, In r (selected w2) <->
               (In r (table w) \/ In r new) /\ status r = "received"%string /\
               (clock w < received_at r)%Z) /\
  (snd (hand_over onMessage (selected w)) = false ->
     (exists rest,
        selected w = fst (hand_over onMessage (selected w)) ++ rest /\
        delivered w2 = delivered w ++ fst (hand_over onMessage (selected w))) /\
     forall r, In r (selected w) -> In r (selected w2)).
Proof.
  intros Hrun Hq w2.
  assert (Tb : table w2 = table w ++ new).
  { unfold w2, later, poll. rewrite Hrun, Hq.
    destruct (hand_over onMessage (selected w)); reflexivity. }
  split.
  - intros Hok.
    assert (E : lastPollTime w2 = Some (clock w) /\
                delivered w2 = delivered w ++ selected w).
    { unfold w2, later, poll. rewrite Hrun, Hq.
      pose proof (hand_over_complete onMessage (selected w) Hok) as Hall.
      destruct (hand_over onMessage (selected w)) as [ds ok]. cbn in *.
      subst. auto. }
    destruct E as [E1 E2]. split; [exact E2|].
    intros r. rewrite selected_spec, E1, Tb, in_app_iff. tauto.
  - intros Hbad.
    assert (E : lastPollTime w2 = lastPollTime w /\
                delivered w2 =
                  delivered w ++ fst (hand_over onMessage (selected w))).
    { unfold w2, later, poll. rewrite Hrun, Hq.
      destruct (hand_over onMessage (selected w)) as [ds ok]. cbn in *.
      subst. auto. }
    destruct E as [E1 E2]. split.
    + destruct (hand_over_prefix onMessage (selected w)) as [rest Hp].
      exists rest. auto.
    + intros r Hr. apply selected_spec in Hr. apply selected_spec.
      rewrite E1, Tb, in_app_iff. tauto.
Qed.

Lemma next_poll_after_success_and_after_failure_witness :
  let r1 := mkRow "a" 5 "received" in
  let r2 := mkRow "b" 9 "received" in
  let late := mkRow "c" 7 "received" in
  let w := mkWorld true None 10 [r2; r1] None 0 [] in
  isRunning w = true /\ query_error w = None /\
  snd (hand_over (fun _ => None) (selected w)) = true /\
  delivered (later 5 [late] (poll (fun _ => None) w)) = [r1; r2] /\
  ~ In late (selected (later 5 [late] (poll (fun _ => None) w))).
Proof.
  intros r1 r2 late w.
  assert (Hrun : isRunning w = true) by reflexivity.
  assert (Hq : query_error w = None) by reflexivity.
  assert (Hok : snd (hand_over (fun _ => None) (selected w)) = true)
    by reflexivity.
  split; [exact Hrun|]. split; [exact Hq|]. split; [exact Hok|].
  destruct (proj1 (@next_poll_after_success_and_after_failure
                     (fun _ => None) w 5 [late] Hrun Hq) Hok) as [D S].
  split; [exact D|].
  intros Hin. apply S in Hin. destruct Hin as (_ & _ & Hlt).
  cbn in Hlt. lia.
Defined.

Lemma polls_stop (onMessage : row -> option string) (n : nat) (w : world) :
  polls onMessage n (stop w) = stop w.
Proof. induction n as [|n IH]; [reflexivity | exact IH]. Qed.

(** The chain of timers.  While the poller runs, every run of [poll]
    sets exactly one timer for the next run, whether the query or the
    callback failed or not, so the chain neither dies nor forks.  After
    [stop()], the runs still scheduled do nothing: they query nothing,
    hand nothing over, leave the watermark alone and set no timer. *)
Theorem poll_chain_runs_until_stopped
    (onMessage : row -> option string) (n : nat) (w : world) :
  isRunning w = true ->
  isRunning (polls onMessage n w) = true /\
  scheduled (polls onMessage n w) = scheduled w + n /\
  (exists ds, delivered (polls onMessage n w) = delivered w ++ ds) /\
  forall m, polls onMessage m (stop (polls onMessage n w)) =
            stop (polls onMessage n w).
Proof.
  revert w. induction n as [|n IH]; intros w Hrun.
  - cbn. rewrite Nat.add_0_r. split; [exact Hrun|]. split; [reflexivity|].
    split; [exists []; now rewrite app_nil_r|]. intros m. apply polls_stop.
  - cbn [polls].
    assert (H1 : isRunning (poll onMessage w) = true /\
                 scheduled (poll onMessage w) = S (scheduled w) /\
                 exists ds, delivered (poll onMessage w) = delivered w ++ ds).
    { unfold poll. rewrite Hrun. destruct (query_error w).
      - cbn. split; [reflexivity|]. split; [reflexivity|].
        exists []. now rewrite app_nil_r.
      - destruct (hand_over onMessage (selected w)) as [ds ok]. cbn.
        split; [reflexivity|]. split; [reflexivity|]. now exists ds. }
    destruct H1 as (R1 & S1 & ds1 & D1).
    destruct (IH _ R1) as (R2 & S2 & (ds2 & D2) & T2).
    split; [exact R2|]. split; [rewrite S2, S1; lia|].
    split; [|exact T2]. exists (ds1 ++ ds2). now rewrite D2, D1, app_assoc.
Qed.

Lemma poll_chain_runs_until_stopped_witness :
  let r1 := mkRow "a" 5 "received" in
  let w := mkWorld true None 10 [r1] (Some "network"%string) 0 [] in
  isRunning w = true /\
  scheduled (polls (fun _ => Some "boom"%string) 3 w) = 3.
Proof.
  intros r1 w.
  assert (Hrun : isRunning w = true) by reflexivity.
  split; [exact Hrun|].
  exact (proj1 (proj2 (@poll_chain_runs_until_stopped
                         (fun _ => Some "boom"%string) 3 w Hrun))).
Defined.

End PollingFacts.

(* ================================================================== *)
(** * Facts about the executor                                         *)
(* ================================================================== *)

Module ExecutorFacts.
Import Eff Eff.Notations Executor.

Lemma executeAppleScriptFile_runs (e : env) (scriptPath : string)
    (params : list (string * value)) (w : world) :
  executeAppleScriptFile e scriptPath params w =
  let command := command_for scriptPath params in
  match execPromise e command with
  | ExecFailed err =>
      (Throw err,
       mkWorld (clock w) (files w)
         (trace w ++ [Ran command;
                      Logged "error" "AppleScript execution error"]))
  | Exited stdout stderr =>
      (Ok (trim e stdout),
       mkWorld (clock w) (files w)
         (trace w ++ Ran command ::
            if String.eqb stderr "" then []
            else [Logged "warn" "AppleScript execution warning"]))
  end.
Proof.
  unfold executeAppleScriptFile, try_catch, bind, observe, logger, observe,
    modify, throw, ret. cbn zeta.
  destruct (execPromise e (command_for scriptPath params)) as [so se|err];
    cbn [clock files trace].
  - destruct (String.eqb se ""); cbn [clock files trace];
      [reflexivity|]. now rewrite <- app_assoc.
  - now rewrite <- app_assoc.
Qed.

Lemma executeAppleScript_runs (e : env) (scriptName : string)
    (params : list (string * value)) (w : world) :
  executeAppleScript e scriptName params w =
  let scriptPath := path_join e (SCRIPTS_DIR e) (scriptName ++ ".applescript") in
  match fs_access e scriptPath with
  | None => executeAppleScriptFile e scriptPath params w
  | Some err =>
      match code err with
      | Some c =>
          if String.eqb c "ENOENT" then
            (Throw (mkError ("AppleScript file not found: " ++ scriptName) None),
             mkWorld (clock w) (files w)
               (trace w ++ [Logged "error" "AppleScript file not found"]))
          else (Throw err, w)
      | None => (Throw err, w)
      end
  end.
Proof.
  unfold executeAppleScript, try_catch, bind, logger, observe, modify, throw,
    ret. cbn zeta.
  destruct (fs_access e _) as [err|]; [|reflexivity].
  destruct (code err) as [c|]; [|reflexivity].
  destruct (String.eqb c "ENOENT"); reflexivity.
Qed.

Lemma commands_app (a b : list obs) : commands (a ++ b) = commands a ++ commands b.
Proof.
  induction a as [|o a IH]; [reflexivity|].
  destruct o; cbn; now rewrite IH.
Qed.

Lemma remove_file_absent (path : string) (fs : list (string * string))
    (c : string) :
  ~ In (path, c) (remove_file path fs).
Proof.
  unfold remove_file. intros H. apply filter_In in H. destruct H as [_ H].
  cbn in H. now rewrite String.eqb_refl in H.
Qed.

Lemma escape_quotes_length (s : string) :
  String.length (escape_quotes s) = String.length s + count_quotes s.
Proof.
  induction s as [|c s IH]; [reflexivity|]. cbn.
  destruct (Ascii.eqb c dquote); cbn; rewrite IH; lia.
Qed.

Lemma escape_quotes_plain (s : string) :
  count_quotes s = 0 -> escape_quotes s = s.
Proof.
  induction s as [|c s IH]; [reflexivity|]. cbn.
  destruct (Ascii.eqb c dquote); cbn; [discriminate|].
  intros H. now rewrite IH.
Qed.

Lemma escape_quotes_injective (s : string) :
  forall t, escape_quotes s = escape_quotes t -> s = t.
Proof.
  induction s as [|c s IH]; intros [|d t]; cbn.
  - reflexivity.
  - destruct (Ascii.eqb d dquote); discriminate.
  - destruct (Ascii.eqb c dquote); discriminate.
  - destruct (Ascii.eqb c dquote) eqn:Ec; destruct (Ascii.eqb d dquote) eqn:Ed;
      intros H.
    + apply Ascii.eqb_eq in Ec, Ed. subst.
      injection H as H. f_equal. now apply IH.
    + injection H as H1 H2. subst d.
      destruct t as [|d' t']; cbn in H2; [discriminate|].
      destruct (Ascii.eqb d' dquote) eqn:Ed'; injection H2 as H2 _.
      * unfold dquote in H2. discriminate.
      * subst d'. now rewrite Ascii.eqb_refl in Ed'.
    + injection H as H1 H2. subst c.
      destruct s as [|c' s']; cbn in H2; [discriminate|].
      destruct (Ascii.eqb c' dquote) eqn:Ec'; injection H2 as H2 _.
      * unfold dquote in H2. discriminate.
      * subst c'. now rewrite Ascii.eqb_refl in Ec'.
    + injection H as H1 H2. subst. f_equal. now apply IH.
Qed.

Lemma escape_quotes_no_bare_quote (s : string) (b : bool) :
  bare_quote b (escape_quotes s) = false.
Proof.
  revert b. induction s as [|c s IH]; intros b; [reflexivity|]. cbn.
  destruct (Ascii.eqb c dquote) eqn:Ec; cbn.
  - rewrite IH. reflexivity.
  - rewrite Ec, IH. reflexivity.
Qed.

(** How a string parameter is written into the command: every double
    quote of the value becomes backslash-quote and nothing else changes
    (a backslash is left as it is), so the result has no quote that does
    not follow a backslash, a value without quotes is passed as it is,
    and two different values never give the same text.  A script with no
    parameters is run as [osascript "path"], with nothing after it. *)
Theorem quotes_escaped_in_parameters (s t scriptPath key : string) :
  String.length (escape_quotes s) = String.length s + count_quotes s /\
  bare_quote false (escape_quotes s) = false /\
  (count_quotes s = 0 -> escape_quotes s = s) /\
  (escape_quotes s = escape_quotes t -> s = t) /\
  escape_quotes (s ++ "\") = (escape_quotes s ++ "\")%string /\
  param_string (key, Str s) = (key ++ "=" ++ quoted (escape_quotes s))%string /\
  command_for scriptPath [] = ("osascript " ++ quoted scriptPath)%string /\
  command_for scriptPath [(key, Str s)] =
    ("osascript " ++ quoted scriptPath ++ " " ++ key ++ "=" ++
     quoted (escape_quotes s))%string.
Proof.
  split; [apply escape_quotes_length|].
  split; [apply escape_quotes_no_bare_quote|].
  split; [apply escape_quotes_plain|].
  split; [apply escape_quotes_injective|].
  split; [|repeat split].
  induction s as [|c s IH]; [reflexivity|]. cbn.
  destruct (Ascii.eqb c dquote); cbn; now rewrite IH.
Qed.

Ltac run_executor :=
  cbv beta iota zeta delta
    [executeInlineAppleScript try_catch bind get writeFile unlink logger
     observe modify throw ret];
  cbn [clock files trace fst snd].

Lemma remove_file_twice (path content : string) (fs : list (string * string)) :
  remove_file path ((path, content) :: remove_file path fs) =
  remove_file path fs.
Proof.
  unfold remove_file at 1. cbn. rewrite String.eqb_refl. cbn.
  unfold remove_file. induction fs as [|f fs IH]; [reflexivity|]. cbn.
  destruct (String.eqb (fst f) path) eqn:Ef; cbn; [exact IH|].
  rewrite Ef. cbn. now rewrite IH.
Qed.

Lemma executeInlineAppleScript_runs (e : env) (script : string) (w : world) :
  executeInlineAppleScript e script w =
  let tempFile := path_join e "/tmp" (temp_name (clock w)) in
  let failed := Logged "error" "Inline AppleScript execution error" in
  match fs_writeFile e tempFile script with
  | Some err => (Throw err, mkWorld (clock w) (files w) (trace w ++ [failed]))
  | None =>
      let written := (tempFile, script) :: remove_file tempFile (files w) in
      let command := command_for tempFile [] in
      match execPromise e command with
      | ExecFailed err =>
          (Throw err,
           mkWorld (clock w) written
             (trace w ++ [Ran command;
                          Logged "error" "AppleScript execution error";
                          failed]))
      | Exited stdout stderr =>
          let ran := Ran command ::
                     if String.eqb stderr "" then []
                     else [Logged "warn" "AppleScript execution warning"] in
          match fs_unlink e tempFile with
          | Some err =>
              (Throw err, mkWorld (clock w) written (trace w ++ ran ++ [failed]))
          | None =>
              (Ok (trim e stdout),
               mkWorld (clock w) (remove_file tempFile (files w))
                 (trace w ++ ran))
          end
      end
  end.
Proof.
  cbv zeta. run_executor.
  set (tempFile := path_join e "/tmp" (temp_name (clock w))).
  destruct (fs_writeFile e tempFile script) as [err|]; run_executor;
    [reflexivity|].
  rewrite executeAppleScriptFile_runs. cbv zeta. cbn [clock files trace].
  destruct (execPromise e (command_for tempFile [])) as [so se|err];
    run_executor.
  - destruct (fs_unlink e tempFile) as [err|]; run_executor.
    + now rewrite <- app_assoc.
    + now rewrite remove_file_twice.
  - rewrite <- app_assoc. reflexivity.
Qed.

(** [executeInlineAppleScript] and its temporary file.  When the file
    cannot be written nothing is run.  When it is written, the script is
    run once, as [osascript "<file>"]; the file is removed and the
    trimmed output returned only if the run exits and the removal
    succeeds.  When the run fails the error is thrown again and the file
    is left behind with the script in it; when the run exits and the
    removal fails, the removal's error is thrown although the script has
    run. *)
Theorem inline_script_temporary_file (e : env) (script : string) (w : world) :
  let tempFile := path_join e "/tmp" (temp_name (clock w)) in
  let r := executeInlineAppleScript e script w in
  clock (snd r) = clock w /\
  match fs_writeFile e tempFile script with
  | Some err =>
      fst r = Throw err /\ files (snd r) = files w /\
      commands (trace (snd r)) = commands (trace w)
  | None =>
      commands (trace (snd r)) =
        commands (trace w) ++ [command_for tempFile []] /\
      match execPromise e (command_for tempFile []) with
      | ExecFailed err =>
          fst r = Throw err /\ In (tempFile, script) (files (snd r))
      | Exited stdout _ =>
          match fs_unlink e tempFile with
          | None =>
              fst r = Ok (trim e stdout) /\
              files (snd r) = remove_file tempFile (files w) /\
              forall c, ~ In (tempFile, c) (files (snd r))
          | Some err =>
              fst r = Throw err /\ In (tempFile, script) (files (snd r))
          end
      end
  end.
Proof.
  intros tempFile r. subst r. rewrite executeInlineAppleScript_runs.
  cbv zeta. fold tempFile.
  destruct (fs_writeFile e tempFile script) as [err|]; cbn [fst snd clock files trace].
  - rewrite commands_app. cbn. rewrite app_nil_r. auto.
  - destruct (execPromise e (command_for tempFile [])) as [so se|err];
      [destruct (fs_unlink e tempFile) as [err|]|];
      cbn [fst snd clock files trace]; rewrite !commands_app;
      try (destruct (String.eqb se "")); cbn; rewrite ?app_nil_r;
      repeat split; auto; intros c; apply remove_file_absent.
Qed.

End ExecutorFacts.

(* ================================================================== *)
(** * Facts about the AppleScript operations                           *)
(* ================================================================== *)

Module AppleScriptFacts.
Import AppleScriptQueue AppleScript.

Lemma settlement_effects (h : nat) (l : list (Z * effect)) :
  settlement h l = settlement h (map (pair 0%Z) (effects_of h l)).
Proof.
  unfold effects_of. induction l as [|[tm e] l IH]; [reflexivity|].
  cbn [map snd filter settlement].
  destruct e as [h' a|h' r|h' a|h' m]; cbn [effect_handle];
    destruct (h' =? h) eqn:E; cbn [map settlement]; rewrite ?E; auto.
Qed.

(** What a drained queue has done for a command just submitted, when the
    executor is the one of [executor.js] and [o a] is how its call after
    [a] failed attempts ends: the promise of the caller is settled by the
    first call that succeeds, or by the fourth failure. *)
Lemma task_through_queue (s : state) (m : machine) (b : payload) (fuel : nat) :
  reachable s -> 12 * (length (queue s) + 2) + 2 <= fuel ->
  let h := next_handle s in
  let s' := drain (executor m) fuel (snd (submit b s)) in
  let o := fun a => executor m (mkTask h b a 3) in
  fst (submit b s) = h /\
  (forall k r, k <= 3 ->
     (forall j, j < k -> exists x, o j = Failed x) -> o k = Fulfilled r ->
     settlement h (log s') = Some (Fulfilled r) /\
     invocations h (log s') = k + 1) /\
  (forall x, (forall j, j <= 3 -> exists y, o j = Failed y) -> o 3 = Failed x ->
     settlement h (log s') = Some (Failed x) /\
     invocations h (log s') = 4 /\
     effects_of h (log s') =
       [Invoke h 1; Retry h 1; Invoke h 2; Retry h 2; Invoke h 3; Retry h 3;
        Invoke h 4; Reject h x]).
Proof.
  intros Hr Hf h s' o.
  destruct (QueueFacts.drain_effects (executor m) b Hr Hf)
    as (_ & _ & _ & _ & E).
  fold h s' in E.
  split; [apply QueueFacts.submit_facts,
            (inv_shape (QueueFacts.reachable_inv Hr))|].
  assert (E' : effects_of h (log s') =
               Invoke h 1 :: verdict (mkTask h b 0 3) (o 0) ::
               if retried (mkTask h b 0 3) (o 0) then
                 Invoke h 2 :: verdict (mkTask h b 1 3) (o 1) ::
                 if retried (mkTask h b 1 3) (o 1) then
                   Invoke h 3 :: verdict (mkTask h b 2 3) (o 2) ::
                   if retried (mkTask h b 2 3) (o 2) then
                     [Invoke h 4; verdict (mkTask h b 3 3) (o 3)]
                   else []
                 else []
               else []).
  { rewrite E. unfold task_effects, o.
    cbn [maxAttempts attempts Nat.sub attempts_from].
    unfold bump. cbn [maxAttempts attempts handle body Nat.add].
    destruct (retried (mkTask h b 0 3) _); [|reflexivity].
    destruct (retried (mkTask h b 1 3) _); [|reflexivity].
    destruct (retried (mkTask h b 2 3) _); [|reflexivity].
    destruct (retried (mkTask h b 3 3) _); reflexivity. }
  clear E. rewrite settlement_effects. unfold invocations. rewrite E'. clear E'.
  split.
  - intros k r Hk Hbefore Hok.
    assert (F : forall j, j < k -> exists x, o j = Failed x) by exact Hbefore.
    destruct k as [|[|[|[|k]]]]; [| | | |lia].
    + rewrite Hok. cbn. rewrite Nat.eqb_refl. auto.
    + destruct (F 0) as [x0 H0]; [lia|]. rewrite H0, Hok. cbn.
      rewrite Nat.eqb_refl. auto.
    + destruct (F 0) as [x0 H0]; [lia|]. destruct (F 1) as [x1 H1]; [lia|].
      rewrite H0, H1, Hok. cbn. rewrite Nat.eqb_refl. auto.
    + destruct (F 0) as [x0 H0]; [lia|]. destruct (F 1) as [x1 H1]; [lia|].
      destruct (F 2) as [x2 H2]; [lia|].
      rewrite H0, H1, H2, Hok. cbn. rewrite Nat.eqb_refl. auto.
  - intros x F H3.
    destruct (F 0) as [x0 H0]; [lia|]. destruct (F 1) as [x1 H1]; [lia|].
    destruct (F 2) as [x2 H2]; [lia|].
    rewrite H0, H1, H2, H3. cbn. rewrite Nat.eqb_refl. auto.
Qed.

(** Of four calls, one is the first to succeed or all fail. *)
Lemma first_success_or_none (o : nat -> outcome) :
  (exists k r, k <= 3 /\ (forall j, j < k -> exists x, o j = Failed x) /\
               o k = Fulfilled r) \/
  (exists x, (forall j, j <= 3 -> exists y, o j = Failed y) /\ o 3 = Failed x).
Proof.
  destruct (o 0) as [r0|x0] eqn:H0.
  { left. exists 0, r0. split; [lia|]. split; [intros j Hj; lia | exact H0]. }
  destruct (o 1) as [r1|x1] eqn:H1.
  { left. exists 1, r1. split; [lia|]. split; [|exact H1].
    intros j Hj. assert (j = 0) as -> by lia. eauto. }
  destruct (o 2) as [r2|x2] eqn:H2.
  { left. exists 2, r2. split; [lia|]. split; [|exact H2].
    intros j Hj. destruct j as [|[|j]]; [eauto|eauto|lia]. }
  destruct (o 3) as [r3|x3] eqn:H3.
  { left. exists 3, r3. split; [lia|]. split; [|exact H3].
    intros j Hj. destruct j as [|[|[|j]]]; [eauto|eauto|eauto|lia]. }
  right. exists x3. split; [|reflexivity].
  intros j Hj. destruct j as [|[|[|[|j]]]]; [eauto|eauto|eauto|eauto|lia].
Qed.

(** ** A script that is not there *)

(** When [fs.access] fails with [ENOENT] for the script file at each of
    the four calls, every call of [executeAppleScript] throws
    "AppleScript file not found: <name>" and runs no command.  The queue
    retries it like any other failure, so the file is looked for four
    times, and the caller's promise is then rejected with that message
    as the log of the failure has left it: redacted by [redactPII]. *)
Theorem missing_script_is_retried_then_reported
    (s : state) (m : machine) (name : string)
    (ps : list (string * string)) (fuel : nat) :
  reachable s -> 12 * (length (queue s) + 2) + 2 <= fuel ->
  let h := next_handle s in
  let e := fun a => answers (attempt_of m h a) in
  (forall a, a <= 3 ->
     exists err,
       Executor.fs_access (e a)
         (Executor.path_join (e a) (Executor.SCRIPTS_DIR (e a))
            (name ++ ".applescript")) = Some err /\
       Executor.code err = Some "ENOENT"%string) ->
  let s' := drain (executor m) fuel (snd (enqueue name ps s)) in
  let not_found :=
    logged_message (redactPII m) ("AppleScript file not found: " ++ name) in
  fst (enqueue name ps s) = h /\
  effects_of h (log s') =
    [Invoke h 1; Retry h 1; Invoke h 2; Retry h 2; Invoke h 3; Retry h 3;
     Invoke h 4; Reject h not_found] /\
  settlement h (log s') = Some (Failed not_found) /\
  forall a, a <= 3 ->
    fst (Executor.executeAppleScript (e a) name (string_params ps)
           (before (attempt_of m h a))) =
      Eff.Throw (Executor.mkError ("AppleScript file not found: " ++ name) None) /\
    Executor.commands
      (Executor.trace
         (snd (Executor.executeAppleScript (e a) name (string_params ps)
                 (before (attempt_of m h a))))) =
    Executor.commands (Executor.trace (before (attempt_of m h a))).
Proof.
  intros Hr Hf h e Hmissing s' not_found.
  destruct (@task_through_queue s m (Script name ps) fuel Hr Hf)
    as (E1 & _ & E3).
  cbv zeta in E1, E3. cbn [submit] in E1, E3. fold h s' in E1, E3.
  assert (O : forall a, a <= 3 ->
            executor m (mkTask h (Script name ps) a 3) = Failed not_found).
  { intros a Ha. destruct (Hmissing a Ha) as (err & Hacc & Hcode).
    unfold executor, run_task. cbn [body handle attempts]. fold (e a).
    rewrite ExecutorFacts.executeAppleScript_runs. cbv zeta.
    rewrite Hacc, Hcode. reflexivity. }
  destruct (E3 not_found) as (S & _ & L).
  { intros j Hj. exists not_found. now apply O. }
  { apply O. lia. }
  split; [exact E1|]. split; [exact L|]. split; [exact S|].
  intros a Ha. destruct (Hmissing a Ha) as (err & Hacc & Hcode).
  rewrite ExecutorFacts.executeAppleScript_runs. cbv zeta.
  rewrite Hacc, Hcode. cbn [fst snd Executor.trace String.eqb Ascii.eqb Bool.eqb].
  split; [reflexivity|].
  rewrite ExecutorFacts.commands_app. cbn. now rewrite app_nil_r.
Qed.

(** A script named after a person: the log rewrites the message, and the
    rewritten text is what rejects the promise. *)
Lemma missing_script_is_retried_then_reported_witness :
  let e := Executor.mkEnv "/opt/relay/scripts"
             (fun a b => (a ++ "/" ++ b)%string) (fun x => x)
             (fun _ => Some (Executor.mkError "no such file" (Some "ENOENT"%string)))
             (fun _ _ => None) (fun _ => None)
             (fun _ => Executor.Exited "true" "") in
  let m := mkMachine
             (fun _ a => mkAttempt e (Executor.mkWorld (Z.of_nat a) [] []))
             (fun _ => "AppleScript file not found: [REDACTED_NAME]"%string) in
  reachable init /\ 12 * (length (queue init) + 2) + 2 <= 26 /\
  settlement 0
    (log (drain (executor m) 26 (snd (enqueue "Jane Doe" [] init)))) =
  Some (Failed "AppleScript file not found: [REDACTED_NAME]").
Proof.
  intros e m.
  assert (Hr : reachable init) by (exists []; reflexivity).
  assert (Hf : 12 * (length (queue init) + 2) + 2 <= 26) by (cbn; lia).
  split; [exact Hr|]. split; [exact Hf|].
  refine (proj1 (proj2 (proj2
    (@missing_script_is_retried_then_reported init m "Jane Doe" [] 26
       Hr Hf _)))).
  intros a _.
  exists (Executor.mkError "no such file" (Some "ENOENT"%string)).
  split; reflexivity.
Defined.

(** ** A script that is there *)

(** When the script file is there at each call, [executeAppleScript]
    runs one command per call, [osascript "<path>"] followed by the
    parameters.  The caller's promise is resolved with the trimmed output
    of the first call whose command exits, after the calls that failed
    before it and no more; a command that fails and then succeeds is
    therefore run again.  When the command fails at all four calls, the
    promise is rejected with the message of the fourth error, also when
    its code is [ENOENT], as the log of the failure has left it: redacted
    by [redactPII].  For [sendTextMessage] and [sendMediaMessage] the
    command is the one spelled out, with the quotes in the recipient, the
    path and the text escaped. *)
Theorem script_result_reaches_the_caller
    (s : state) (m : machine) (name : string)
    (ps : list (string * string)) (fuel : nat) :
  reachable s -> 12 * (length (queue s) + 2) + 2 <= fuel ->
  let h := next_handle s in
  let e := fun a => answers (attempt_of m h a) in
  let scriptPath := fun a =>
    Executor.path_join (e a) (Executor.SCRIPTS_DIR (e a))
      (name ++ ".applescript") in
  (forall a, a <= 3 -> Executor.fs_access (e a) (scriptPath a) = None) ->
  let command := fun a =>
    Executor.command_for (scriptPath a) (string_params ps) in
  let s' := drain (executor m) fuel (snd (enqueue name ps s)) in
  fst (enqueue name ps s) = h /\
  (forall a, a <= 3 ->
     Executor.commands
       (Executor.trace
          (snd (Executor.executeAppleScript (e a) name (string_params ps)
                  (before (attempt_of m h a))))) =
     Executor.commands (Executor.trace (before (attempt_of m h a))) ++
     [command a]) /\
  (forall k stdout stderr, k <= 3 ->
     (forall j, j < k ->
        exists err, Executor.execPromise (e j) (command j) =
                    Executor.ExecFailed err) ->
     Executor.execPromise (e k) (command k) = Executor.Exited stdout stderr ->
     settlement h (log s') = Some (Fulfilled (Executor.trim (e k) stdout)) /\
     invocations h (log s') = k + 1) /\
  (forall err,
     (forall j, j <= 3 ->
        exists x, Executor.execPromise (e j) (command j) =
                  Executor.ExecFailed x) ->
     Executor.execPromise (e 3) (command 3) = Executor.ExecFailed err ->
     settlement h (log s') =
       Some (Failed (logged_message (redactPII m) (Executor.message err))) /\
     invocations h (log s') = 4) /\
  (forall recipient text a,
     name = "send_text"%string ->
     ps = [("recipient", recipient); ("text", text)]%string ->
     sendTextMessage recipient text s = enqueue name ps s /\
     command a =
       ("osascript " ++ Executor.quoted (scriptPath a) ++
        " recipient=" ++ Executor.quoted (Executor.escape_quotes recipient) ++
        " text=" ++ Executor.quoted (Executor.escape_quotes text))%string) /\
  (forall recipient filePath text a,
     name = "send_media"%string ->
     ps = [("recipient", recipient); ("filePath", filePath);
           ("text", text)]%string ->
     sendMediaMessage recipient filePath text s = enqueue name ps s /\
     command a =
       ("osascript " ++ Executor.quoted (scriptPath a) ++
        " recipient=" ++ Executor.quoted (Executor.escape_quotes recipient) ++
        " filePath=" ++ Executor.quoted (Executor.escape_quotes filePath) ++
        " text=" ++ Executor.quoted (Executor.escape_quotes text))%string).
Proof.
  intros Hr Hf h e scriptPath Hthere command s'.
  destruct (@task_through_queue s m (Script name ps) fuel Hr Hf)
    as (E1 & E2 & E3).
  cbv zeta in E1, E2, E3. cbn [submit] in E1, E2, E3. fold h s' in E1, E2, E3.
  assert (R : forall a w, a <= 3 ->
    Executor.executeAppleScript (e a) name (string_params ps) w =
    Executor.executeAppleScriptFile (e a) (scriptPath a) (string_params ps) w).
  { intros a w Ha. rewrite ExecutorFacts.executeAppleScript_runs. cbv zeta.
    fold (scriptPath a). now rewrite (Hthere a Ha). }
  assert (O : forall a, a <= 3 ->
    executor m (mkTask h (Script name ps) a 3) =
    match Executor.execPromise (e a) (command a) with
    | Executor.Exited stdout _ => Fulfilled (Executor.trim (e a) stdout)
    | Executor.ExecFailed err =>
        Failed (logged_message (redactPII m) (Executor.message err))
    end).
  { intros a Ha. unfold executor, run_task. cbn [body handle attempts].
    fold (e a). rewrite (R a _ Ha), ExecutorFacts.executeAppleScriptFile_runs.
    cbv zeta. fold (command a).
    destruct (Executor.execPromise (e a) (command a)); reflexivity. }
  split; [exact E1|]. split; [|split; [|split; [|split]]].
  - intros a Ha. rewrite (R a _ Ha), ExecutorFacts.executeAppleScriptFile_runs.
    cbv zeta. fold (command a).
    destruct (Executor.execPromise (e a) (command a)) as [so se|err]; cbn;
      rewrite ExecutorFacts.commands_app; cbn; [|reflexivity].
    destruct (String.eqb se ""); reflexivity.
  - intros k stdout stderr Hk Hbefore Hexit.
    apply E2; [exact Hk| |].
    + intros j Hj. destruct (Hbefore j Hj) as [err Herr].
      rewrite (O j) by lia. rewrite Herr. eauto.
    + rewrite (O k Hk), Hexit. reflexivity.
  - intros err Hall H3.
    destruct (E3 (logged_message (redactPII m) (Executor.message err)))
      as (S & I & _).
    + intros j Hj. destruct (Hall j Hj) as [x Hx].
      rewrite (O j Hj), Hx. eauto.
    + rewrite (O 3) by lia. rewrite H3. reflexivity.
    + split; [exact S | exact I].
  - intros recipient text a -> ->. split; [reflexivity|].
    unfold command, Executor.command_for, string_params.
    cbn [map fst snd Executor.join Executor.param_string]. reflexivity.
  - intros recipient filePath text a -> ->. split; [reflexivity|].
    unfold command, Executor.command_for, string_params.
    cbn [map fst snd Executor.join Executor.param_string]. reflexivity.
Qed.

(** A command that fails once and then exits: it is run twice and the
    output of the second run resolves the promise. *)
Lemma script_result_reaches_the_caller_witness :
  let e := fun ok : bool =>
             Executor.mkEnv "/opt/relay/scripts"
               (fun a b => (a ++ "/" ++ b)%string) (fun x => x)
               (fun _ => None) (fun _ _ => None) (fun _ => None)
               (fun _ => if ok then Executor.Exited "sent" ""
                         else Executor.ExecFailed
                                (Executor.mkError "Command failed" None)) in
  let m := mkMachine
             (fun _ a => mkAttempt (e (0 <? a)) (Executor.mkWorld (Z.of_nat a) [] []))
             (fun x => x) in
  reachable init /\ 12 * (length (queue init) + 2) + 2 <= 26 /\
  settlement 0
    (log (drain (executor m) 26
            (snd (enqueue "send_text" [("recipient", "a"); ("text", "b")]%string
                    init)))) = Some (Fulfilled "sent") /\
  invocations 0
    (log (drain (executor m) 26
            (snd (enqueue "send_text" [("recipient", "a"); ("text", "b")]%string
                    init)))) = 2.
Proof.
  intros e m.
  assert (Hr : reachable init) by (exists []; reflexivity).
  assert (Hf : 12 * (length (queue init) + 2) + 2 <= 26) by (cbn; lia).
  split; [exact Hr|]. split; [exact Hf|].
  refine (proj1 (proj2 (proj2
    (@script_result_reaches_the_caller init m "send_text"
       [("recipient", "a"); ("text", "b")]%string 26 Hr Hf _)))
    1 "sent"%string ""%string _ _ _).
  - intros a _. reflexivity.
  - lia.
  - intros j Hj. assert (j = 0) as -> by lia.
    exists (Executor.mkError "Command failed" None). reflexivity.
  - reflexivity.
Defined.

(** ** The two checks on Messages.app *)

(** How one call of [executeInlineAppleScript] ends for the queue. *)
Lemma inline_outcome (m : machine) (h a : nat) (script : string) :
  let e := answers (attempt_of m h a) in
  let tempFile :=
    Executor.path_join e "/tmp"
      (Executor.temp_name (Executor.clock (before (attempt_of m h a)))) in
  executor m (mkTask h (InlineScript script) a 3) =
  match Executor.fs_writeFile e tempFile script with
  | Some err => Failed (logged_message (redactPII m) (Executor.message err))
  | None =>
      match Executor.execPromise e (Executor.command_for tempFile []) with
      | Executor.ExecFailed err =>
          Failed (logged_message (redactPII m) (Executor.message err))
      | Executor.Exited stdout _ =>
          match Executor.fs_unlink e tempFile with
          | Some err =>
              Failed (logged_message (redactPII m) (Executor.message err))
          | None => Fulfilled (Executor.trim e stdout)
          end
      end
  end.
Proof.
  intros e tempFile. unfold executor, run_task. cbn [body handle attempts].
  fold e. rewrite ExecutorFacts.executeInlineAppleScript_runs. cbv zeta.
  fold tempFile.
  destruct (Executor.fs_writeFile e tempFile script); [reflexivity|].
  destruct (Executor.execPromise e (Executor.command_for tempFile []));
    [|reflexivity].
  destruct (Executor.fs_unlink e tempFile); reflexivity.
Qed.

(** The two checks on Messages.app never throw and always answer.  Each
    call of the executor writes the script to a temporary file named
    after the clock at that call, runs it and removes the file.  Once the
    queue has drained, the promise the check awaits is settled after at
    least one and at most four calls: by the first call at which the file
    was written, the run exited and the file was removed, with the trimmed
    output of that run, or by the failure of the fourth call.
    [startMessagesApp] answers true exactly when one of the four calls can
    succeed in this way; [isMessagesRunning] answers true exactly when the
    output of the first such call, trimmed by the executor and again by
    the caller, is "true"; in every other case they answer false. *)
Theorem messages_checks_always_answer
    (s : state) (m : machine) (trim : string -> string) (fuel : nat)
    (script : string) :
  reachable s -> 12 * (length (queue s) + 2) + 2 <= fuel ->
  let h := next_handle s in
  let s' := drain (executor m) fuel (snd (enqueueInline script s)) in
  let e := fun a => answers (attempt_of m h a) in
  let tempFile := fun a =>
    Executor.path_join (e a) "/tmp"
      (Executor.temp_name (Executor.clock (before (attempt_of m h a)))) in
  let ran := fun a stdout =>
    Executor.fs_writeFile (e a) (tempFile a) script = None /\
    (exists stderr,
       Executor.execPromise (e a) (Executor.command_for (tempFile a) []) =
       Executor.Exited stdout stderr) /\
    Executor.fs_unlink (e a) (tempFile a) = None in
  fst (enqueueInline script s) = h /\
  exists o,
    settlement h (log s') = Some o /\
    1 <= invocations h (log s') <= 4 /\
    (forall a stdout, a <= 3 ->
       (forall b, b < a -> ~ exists so, ran b so) -> ran a stdout ->
       o = Fulfilled (Executor.trim (e a) stdout) /\
       invocations h (log s') = a + 1) /\
    ((forall a, a <= 3 -> ~ exists so, ran a so) ->
     invocations h (log s') = 4 /\ exists x, o = Failed x) /\
    (startMessagesApp_returns o = true <->
     exists a stdout, a <= 3 /\ ran a stdout) /\
    (isMessagesRunning_returns trim o = true <->
     exists a stdout,
       a <= 3 /\ (forall b, b < a -> ~ exists so, ran b so) /\
       ran a stdout /\
       trim (Executor.trim (e a) stdout) = "true"%string) /\
    (script = messages_running_script ->
     isMessagesRunning_call s = enqueueInline script s) /\
    (script = start_messages_script ->
     startMessagesApp_call s = enqueueInline script s).
Proof.
  intros Hr Hf h s' e tempFile ran.
  destruct (@task_through_queue s m (InlineScript script) fuel Hr Hf)
    as (E1 & E2 & E3).
  cbv zeta in E1, E2, E3. cbn [submit] in E1, E2, E3. fold h s' in E1, E2, E3.
  set (o := fun a => executor m (mkTask h (InlineScript script) a 3)) in *.
  assert (S3 : forall a so, ran a so -> o a = Fulfilled (Executor.trim (e a) so)).
  { intros a so (W & (se & X) & U). unfold o.
    rewrite inline_outcome. cbv zeta. fold (e a) (tempFile a).
    rewrite W, X, U. reflexivity. }
  assert (S1 : forall a r, o a = Fulfilled r ->
            exists so, ran a so /\ r = Executor.trim (e a) so).
  { intros a r. unfold o. rewrite inline_outcome. cbv zeta.
    fold (e a) (tempFile a). unfold ran.
    destruct (Executor.fs_writeFile (e a) (tempFile a) script);
      [discriminate|].
    destruct (Executor.execPromise (e a) (Executor.command_for (tempFile a) []))
      as [so se|err]; [|discriminate].
    destruct (Executor.fs_unlink (e a) (tempFile a)); [discriminate|].
    intros [= <-]. exists so. repeat split. now exists se. }
  assert (S2 : forall a x, o a = Failed x -> ~ exists so, ran a so).
  { intros a x Hx (so & Hran). rewrite (S3 a so Hran) in Hx. discriminate Hx. }
  assert (Calls :
    (script = messages_running_script ->
     isMessagesRunning_call s = enqueueInline script s) /\
    (script = start_messages_script ->
     startMessagesApp_call s = enqueueInline script s))
    by (split; now intros ->).
  split; [exact E1|].
  destruct (first_success_or_none o)
    as [(k & r & Hk & Hbefore & Hok) | (x & Hall & H3)].
  - destruct (E2 k r Hk Hbefore Hok) as [Sett Inv].
    assert (Uniq : forall a stdout, a <= 3 ->
              (forall b, b < a -> ~ exists so, ran b so) -> ran a stdout ->
              a = k /\ r = Executor.trim (e a) stdout).
    { intros a stdout Ha Hfirst Hran.
      pose proof (S3 a stdout Hran) as Hoa.
      destruct (lt_eq_lt_dec a k) as [[Hlt|Heq]|Hgt].
      - destruct (Hbefore a Hlt) as [y Hy]. rewrite Hy in Hoa. discriminate Hoa.
      - subst a. rewrite Hok in Hoa. injection Hoa as ->. auto.
      - destruct (S1 k r Hok) as (so & Hso & _).
        destruct (Hfirst k Hgt). now exists so. }
    exists (Fulfilled r). split; [exact Sett|]. split; [lia|].
    split.
    { intros a stdout Ha Hfirst Hran.
      destruct (Uniq a stdout Ha Hfirst Hran) as [-> ->]. auto. }
    split.
    { intros Hnone. destruct (S1 k r Hok) as (so & Hso & _).
      destruct (Hnone k Hk). now exists so. }
    split.
    { cbn. split; [intros _|reflexivity].
      destruct (S1 k r Hok) as (so & Hso & _). exists k, so. auto. }
    split; [|exact Calls].
    cbn. split.
    + intros H. apply String.eqb_eq in H.
      destruct (S1 k r Hok) as (so & Hso & ->). exists k, so.
      split; [exact Hk|]. split; [|split; [exact Hso | exact H]].
      intros b Hb. destruct (Hbefore b Hb) as [y Hy]. exact (S2 b y Hy).
    + intros (a & stdout & Ha & Hfirst & Hran & Htrue).
      destruct (Uniq a stdout Ha Hfirst Hran) as [-> ->].
      now apply String.eqb_eq.
  - destruct (E3 x Hall H3) as (Sett & Inv & _).
    exists (Failed x). split; [exact Sett|]. split; [lia|].
    split.
    { intros a stdout Ha _ Hran. destruct (Hall a Ha) as [y Hy].
      destruct (S2 a y Hy). now exists stdout. }
    split; [intros _; split; [exact Inv | now exists x]|].
    split.
    { cbn. split; [discriminate|]. intros (a & so & Ha & Hran).
      destruct (Hall a Ha) as [y Hy]. destruct (S2 a y Hy). now exists so. }
    split; [|exact Calls].
    cbn. split; [discriminate|]. intros (a & so & Ha & _ & Hran & _).
    destruct (Hall a Ha) as [y Hy]. destruct (S2 a y Hy). now exists so.
Qed.

(** The first call cannot write its file; the second, at a later clock
    and so with another file, succeeds: two calls, and the check answers
    with the output of the second. *)
Lemma messages_checks_always_answer_witness :
  let e := fun a : nat =>
             Executor.mkEnv "/opt/relay/scripts"
               (fun x y => (x ++ "/" ++ y)%string) (fun x => x)
               (fun _ => None)
               (fun _ _ => if a =? 0
                           then Some (Executor.mkError "disk full" None)
                           else None)
               (fun _ => None)
               (fun _ => Executor.Exited "true" "") in
  let m := mkMachine
             (fun _ a => mkAttempt (e a)
                           (Executor.mkWorld (100 + Z.of_nat a) [] []))
             (fun x => x) in
  reachable init /\ 12 * (length (queue init) + 2) + 2 <= 26 /\
  exists o,
    settlement 0
      (log (drain (executor m) 26 (snd (isMessagesRunning_call init)))) =
      Some o /\
    o = Fulfilled "true" /\
    invocations 0
      (log (drain (executor m) 26 (snd (isMessagesRunning_call init)))) = 2.
Proof.
  intros e m.
  assert (Hr : reachable init) by (exists []; reflexivity).
  assert (Hf : 12 * (length (queue init) + 2) + 2 <= 26) by (cbn; lia).
  split; [exact Hr|]. split; [exact Hf|].
  destruct (@messages_checks_always_answer init m (fun x => x) 26
              messages_running_script Hr Hf)
    as (_ & o & Sett & _ & First & _).
  exists o. split; [exact Sett|].
  apply (First 1 "true"%string).
  - lia.
  - intros b Hb (so & W & _). assert (b = 0) as -> by lia. discriminate W.
  - split; [reflexivity|]. split; [|reflexivity].
    exists ""%string. reflexivity.
Defined.

End AppleScriptFacts.

(* ================================================================== *)
(** * Facts about outbound messages                                    *)
(* ================================================================== *)

Module OutboundFacts.
Import Eff Eff.Notations Outbound.

Lemma updates_app (a b : list obs) : updates (a ++ b) = updates a ++ updates b.
Proof.
  induction a as [|o a IH]; [reflexivity|].
  destruct o; cbn; now rewrite IH.
Qed.

Lemma sends_app (a b : list obs) : sends (a ++ b) = sends a ++ sends b.
Proof. apply filter_app. Qed.

Ltac run_outbound :=
  cbv beta iota zeta delta
    [processOutboundMessage processTextMessage processMediaMessage
     updateMessageStatus send_text send_media try_catch bind ret throw observe
     logger modify];
  cbn [table trace fst snd].

Ltac next_case :=
  match goal with
  | |- context [match fetch_thread ?e ?i with _ => _ end] =>
      let E := fresh "F" in destruct (fetch_thread e i) as [?|[?|] [?|]] eqn:E
  | |- context [match recipient_of ?t with _ => _ end] =>
      let E := fresh "R" in destruct (recipient_of t) eqn:E
  | |- context [match truthy ?t with _ => _ end] =>
      let E := fresh "T" in destruct (truthy t) eqn:E
  | |- context [match text ?m with _ => _ end] =>
      let E := fresh "X" in destruct (text m) eqn:E
  | |- context [match downloadAndValidateMedia ?e ?u ?t with _ => _ end] =>
      let E := fresh "D" in destruct (downloadAndValidateMedia e u t) eqn:E
  | |- context [match sendTextMessage ?e ?r ?t with _ => _ end] =>
      let E := fresh "S" in destruct (sendTextMessage e r t) eqn:E
  | |- context [match sendMediaMessage ?e ?r ?p ?t with _ => _ end] =>
      let E := fresh "S" in destruct (sendMediaMessage e r p t) eqn:E
  | |- context [match update_row ?e ?i ?s with _ => _ end] =>
      let E := fresh "U" in destruct (update_row e i s) eqn:E
  end; cbn [table trace fst snd].

(** What one call does, whatever the surroundings answer. *)
Lemma processOutboundMessage_spec (e : env) (m : message)
    (tb : list (string * (string * option string))) (tr : list obs) :
  exists r tb' new final err,
    processOutboundMessage e m (mkWorld tb tr) =
      (Ok r, mkWorld tb' (tr ++ new)) /\
    updates new = [(id m, "processing"%string, None); (id m, final, err)] /\
    tb' = updated e (id m) final err (updated e (id m) "processing" None tb) /\
    final = (if success r then "sent" else "failed")%string /\
    (success r = true -> err = None /\ error r = None) /\
    (success r = false -> error r <> None) /\
    length (sends new) <= 1 /\
    (success r = true -> length (sends new) = 1) /\
    (forall o, In o new -> is_download o = true ->
       exists url, truthy (media_url m) = Some url /\
                   o = Download url (media_type m)) /\
    match fetch_thread e (thread_id m) with
    | FetchRejected x =>
        error r = Some x /\ sends new = [] /\ downloads new = []
    | Fetched (Some t) None =>
        match recipient_of t with
        | None =>
            error r = Some "No valid recipient"%string /\
            sends new = [] /\ downloads new = []
        | Some rc => forall o, In o (sends new) -> send_recipient o = Some rc
        end
    | Fetched _ _ =>
        error r = Some "Thread not found"%string /\
        sends new = [] /\ downloads new = []
    end.
Proof.
  run_outbound. change (truthy None) with (@None string).
  repeat next_case;
    repeat (rewrite <- app_assoc; cbn [app]);
    (do 5 eexists; split; [reflexivity|]);
    (split; [reflexivity|]);
    (split; [unfold updated;
             repeat match goal with
                    | H : update_row _ _ _ = _ |- _ => rewrite H
                    end; reflexivity|]);
    cbn [sends downloads filter is_send is_download success error length
         send_recipient];
    (split; [reflexivity|]);
    (split; [intros Hs; try discriminate Hs; split; reflexivity|]);
    (split; [intros Hs; try discriminate Hs; discriminate|]);
    (split; [lia|]);
    (split; [intros Hs; try discriminate Hs; reflexivity|]);
    (split;
     [intros o Hin Hd; cbn [In] in Hin;
      repeat (destruct Hin as [Hin|Hin];
              [subst o; try discriminate Hd;
               try (eexists; split; reflexivity)|]);
      destruct Hin|]);
    first [ split; [reflexivity | split; reflexivity]
          | intros o Hin; first [ destruct Hin as [<-|[]]; reflexivity
                                | destruct Hin ] ].
Qed.

Lemma write_status_In (k status : string) (err : option string)
    (t : list (string * (string * option string)))
    (i st : string) (er : option string) :
  In (i, (st, er)) (write_status k status err t) ->
  (i = k /\ st = status) \/ (i <> k /\ In (i, (st, er)) t).
Proof.
  unfold write_status. intros H. apply in_map_iff in H.
  destruct H as [[j [s0 e0]] [E Hin]]. cbn [fst snd] in E.
  destruct (String.eqb j k) eqn:Ejk.
  - apply String.eqb_eq in Ejk. injection E as <- <- _. auto.
  - apply String.eqb_neq in Ejk. injection E as <- <- <-. auto.
Qed.

(** [processOutboundMessage] never throws and always reports.  Whatever
    the database, the media handler and the send operations answer, it
    returns a result, and on the way it asks for exactly two status
    updates of the message: first 'processing', then 'sent' when it
    reports success and 'failed' when it does not.  It sends at most one
    message; when it reports success it has sent exactly one and writes
    no error, and when it reports failure the result carries an error. *)
Theorem outbound_message_ends_sent_or_failed
    (e : env) (m : message) (w : world) :
  exists r w',
    processOutboundMessage e m w = (Ok r, w') /\
    exists final err,
      updates (trace w') =
        updates (trace w) ++
        [(id m, "processing"%string, None); (id m, final, err)] /\
      final = (if success r then "sent" else "failed")%string /\
      (success r = true ->
         err = None /\ error r = None /\
         length (sends (trace w')) = length (sends (trace w)) + 1) /\
      (success r = false -> error r <> None) /\
      length (sends (trace w')) <= length (sends (trace w)) + 1.
Proof.
  destruct w as [tb tr].
  destruct (processOutboundMessage_spec e m tb tr)
    as (r & tb' & new & final & err & E & U & _ & Fn & S1 & S2 & L1 & L2 & _).
  exists r, (mkWorld tb' (tr ++ new)). split; [exact E|].
  exists final, err. cbn [trace]. rewrite updates_app, sends_app, length_app, U.
  split; [reflexivity|]. split; [exact Fn|]. split; [|split; [exact S2 | lia]].
  intros Hs. destruct (S1 Hs) as [A B]. rewrite (L2 Hs). auto.
Qed.

(** Nothing is sent without a thread and a recipient.  When the thread
    cannot be fetched, is not there or has neither a [chat_identifier]
    nor a [display_name], nothing is sent and nothing is downloaded, and
    the result names the reason.  Otherwise whatever is sent goes to the
    [chat_identifier] of the thread, or to its [display_name] when the
    identifier is empty; and media is downloaded only for a message with
    a [media_url], from that URL. *)
Theorem outbound_message_needs_thread_and_recipient
    (e : env) (m : message) (w : world) :
  exists r w' new,
    processOutboundMessage e m w = (Ok r, w') /\
    trace w' = trace w ++ new /\
    (forall o, In o new -> is_download o = true ->
       exists url, truthy (media_url m) = Some url /\
                   o = Download url (media_type m)) /\
    match fetch_thread e (thread_id m) with
    | FetchRejected x =>
        error r = Some x /\ sends new = [] /\ downloads new = []
    | Fetched (Some t) None =>
        match recipient_of t with
        | None =>
            error r = Some "No valid recipient"%string /\
            sends new = [] /\ downloads new = []
        | Some rc =>
            (forall c, truthy (chat_identifier t) = Some c -> rc = c) /\
            (truthy (chat_identifier t) = None ->
             truthy (display_name t) = Some rc) /\
            forall o, In o (sends new) -> send_recipient o = Some rc
        end
    | Fetched _ _ =>
        error r = Some "Thread not found"%string /\
        sends new = [] /\ downloads new = []
    end.
Proof.
  destruct w as [tb tr].
  destruct (processOutboundMessage_spec e m tb tr)
    as (r & tb' & new & final & err & E & _ & _ & _ & _ & _ & _ & _ & D & G).
  exists r, (mkWorld tb' (tr ++ new)), new. split; [exact E|].
  split; [reflexivity|]. split; [exact D|].
  destruct (fetch_thread e (thread_id m)) as [x|[t|] [x|]]; try exact G.
  destruct (recipient_of t) as [rc|] eqn:R; [|exact G].
  unfold recipient_of in R.
  destruct (truthy (chat_identifier t)) as [c|].
  - injection R as ->. split; [now intros c0 [= ->]|].
    split; [discriminate | exact G].
  - split; [discriminate|]. split; [now intros _ | exact G].
Qed.

(** The row of the message after the call.  The table is changed by the
    two updates only, and only where they succeed.  When every update
    succeeds, each row with the id of the message ends with status 'sent'
    if success is reported and 'failed' if not, and the other rows are as
    they were.  When no update succeeds the table is left as it was, even
    if the message has been sent. *)
Theorem outbound_row_follows_the_report (e : env) (m : message) (w : world) :
  exists r w' final err,
    processOutboundMessage e m w = (Ok r, w') /\
    final = (if success r then "sent" else "failed")%string /\
    table w' =
      updated e (id m) final err (updated e (id m) "processing" None (table w)) /\
    ((forall st, update_row e (id m) st = UpdateOk) ->
       forall i st er, In (i, (st, er)) (table w') ->
         (i = id m /\ st = final) \/ (i <> id m /\ In (i, (st, er)) (table w))) /\
    ((forall st, update_row e (id m) st <> UpdateOk) -> table w' = table w).
Proof.
  destruct w as [tb tr].
  destruct (processOutboundMessage_spec e m tb tr)
    as (r & tb' & new & final & err & E & _ & T & Fn & _).
  exists r, (mkWorld tb' (tr ++ new)), final, err. split; [exact E|].
  split; [exact Fn|]. cbn [table]. split; [exact T|]. split.
  - intros Hok i st er Hin. rewrite T in Hin. unfold updated in Hin.
    rewrite !Hok in Hin. apply write_status_In in Hin.
    destruct Hin as [Hin|[Hne Hin]]; [now left|].
    apply write_status_In in Hin. destruct Hin as [[Hi _]|[_ Hin]];
      [contradiction | now right].
  - intros Hno. rewrite T. unfold updated.
    pose proof (Hno final) as H1. pose proof (Hno "processing"%string) as H2.
    destruct (update_row e (id m) final); try contradiction;
      destruct (update_row e (id m) "processing"); try contradiction;
      reflexivity.
Qed.

End OutboundFacts.

(* ================================================================== *)
(** * Facts about the retry wrapper and the circuit breaker            *)
(* ================================================================== *)

Module ErrorHandlerFacts.
Import Eff Eff.Notations ErrorHandler.

Lemma retry_calls_app (a b : list obs) : calls (a ++ b) = calls a ++ calls b.
Proof.
  induction a as [|[] a IH]; cbn; rewrite ?IH; reflexivity.
Qed.

Lemma retry_sleeps_app (a b : list obs) :
  sleeps (a ++ b) = sleeps a ++ sleeps b.
Proof.
  induction a as [|[] a IH]; cbn; rewrite ?IH; reflexivity.
Qed.

(** What the loop does from attempt [a] on, when [fuel] iterations are
    left. *)
Lemma retry_loop_spec (o : retry_options) (fn : nat -> answer) :
  forall (fuel a : nat) (tr : list obs),
    Z.of_nat (a + fuel) = (maxRetries o + 2)%Z ->
    1 <= fuel ->
    exists (new : list obs) (n : nat),
      1 <= n <= fuel /\
      snd (retry_loop o fn fuel a tr) = tr ++ new /\
      calls new = seq a n /\
      sleeps new = map (delay_before_retry o) (seq a (n - 1)) /\
      (forall j, a <= j < a + n - 1 -> retried o fn j = true) /\
      match fst (retry_loop o fn fuel a tr) with
      | Ok (Some v) => fn (a + n - 1) = Returned v
      | Ok None => False
      | Throw e =>
          exists e0, fn (a + n - 1) = Rejected e0 /\
            ((e = e0 /\
              (Z.of_nat (a + n - 1) = (maxRetries o + 1)%Z \/
               retryCondition o e0 = false)) \/
             ((Z.of_nat (a + n - 1) <= maxRetries o)%Z /\
              retryCondition o e0 = true /\
              onRetry o e0 (a + n - 1) = Some e))
      end.
Proof.
  induction fuel as [|fuel IH]; intros a tr Hsum Hfuel; [lia|].
  cbn [retry_loop]. unfold bind at 1. cbn [observe modify].
  destruct (fn a) as [v|e] eqn:Fa.
  - exists [Called a], 1. cbn.
    replace (a + 1 - 1) with a by lia.
    repeat split; try lia; try exact Fa.
  - destruct ((Z.of_nat a <=? maxRetries o)%Z && retryCondition o e) eqn:C.
    + apply andb_prop in C. destruct C as [C1 C2].
      apply Z.leb_le in C1.
      unfold bind at 1. cbn [observe modify].
      unfold bind at 1. cbn [observe modify].
      unfold bind at 1.
      destruct (onRetry o e a) as [thrown|] eqn:R.
      * exists [Called a; Logged "info" "Retry attempt"; Notified a], 1.
        cbn [throw fst snd].
        replace (a + 1 - 1) with a by lia.
        rewrite <- !app_assoc. cbn.
        repeat split; try lia.
        exists e. split; [exact Fa|]. right. auto.
      * cbn [ret]. unfold bind at 1. cbn [observe modify].
        assert (Hfuel' : 1 <= fuel) by lia.
        assert (Hsum' : Z.of_nat (S a + fuel) = (maxRetries o + 2)%Z) by lia.
        destruct (IH (S a)
                    ((((tr ++ [Called a]) ++ [Logged "info" "Retry attempt"])
                        ++ [Notified a]) ++ [Slept (delay_before_retry o a)])
                    Hsum' Hfuel')
          as (new & n & Hn & Hsnd & Hcalls & Hsleeps & Hret & Hres).
        exists ([Called a; Logged "info" "Retry attempt"; Notified a;
                 Slept (delay_before_retry o a)] ++ new), (S n).
        split; [lia|].
        split; [rewrite Hsnd, <- !app_assoc; reflexivity|].
        split; [cbn; rewrite Hcalls; reflexivity|].
        split.
        { cbn. rewrite Hsleeps.
          replace (n - 0) with (S (n - 1)) by lia. reflexivity. }
        split.
        { intros j Hj. destruct (Nat.eq_dec j a) as [->|Hne].
          - unfold retried. rewrite Fa, C2, R.
            apply Z.leb_le in C1. rewrite C1. reflexivity.
          - apply Hret. lia. }
        replace (a + S n - 1) with (S a + n - 1) by lia.
        exact Hres.
    + exists [Called a], 1. cbn [throw fst snd].
      replace (a + 1 - 1) with a by lia. cbn.
      repeat split; try lia.
      exists e. split; [exact Fa|]. left. split; [reflexivity|].
        apply andb_false_iff in C. destruct C as [C|C]; [|right; exact C].
        left. apply Z.leb_gt in C. lia.
Qed.

(** The same for the wrapped function as a whole. *)
Lemma withRetry_spec (o : retry_options) (fn : nat -> answer) (tr : list obs) :
  exists (new : list obs) (n : nat),
    snd (withRetry o fn tr) = tr ++ new /\
    calls new = seq 1 n /\
    (Z.of_nat n <= Z.max 0 (maxRetries o + 1))%Z /\
    sleeps new = map (delay_before_retry o) (seq 1 (n - 1)) /\
    (forall j, 1 <= j < n -> retried o fn j = true) /\
    match fst (withRetry o fn tr) with
    | Ok (Some v) => 1 <= n /\ fn n = Returned v
    | Ok None => n = 0 /\ (maxRetries o < 0)%Z
    | Throw e =>
        1 <= n /\
        exists e0, fn n = Rejected e0 /\
          ((e = e0 /\
            (Z.of_nat n = (maxRetries o + 1)%Z \/ retryCondition o e0 = false)) \/
           ((Z.of_nat n <= maxRetries o)%Z /\
            retryCondition o e0 = true /\
            onRetry o e0 n = Some e))
    end.
Proof.
  unfold withRetry.
  destruct (Z.to_nat (maxRetries o + 1)) as [|fuel] eqn:F.
  - exists [], 0. cbn. rewrite app_nil_r.
    repeat split; try lia.
  - destruct (@retry_loop_spec o fn (S fuel) 1 tr ltac:(lia) ltac:(lia))
      as (new & n & Hn & Hsnd & Hcalls & Hsleeps & Hret & Hres).
    exists new, n.
    replace (1 + n - 1) with n in * by lia.
    split; [exact Hsnd|]. split; [exact Hcalls|].
    split; [lia|]. split; [exact Hsleeps|].
    split; [intros j Hj; apply Hret; lia|].
    destruct (fst (retry_loop o fn (S fuel) 1 tr)) as [[v|]|e].
    + split; [lia | exact Hres].
    + contradiction.
    + split; [lia | exact Hres].
Qed.

Lemma total_app (a b : list Z) : (total (a ++ b) = total a + total b)%Z.
Proof.
  unfold total. induction a as [|x a IH]; cbn; [reflexivity|].
  rewrite IH. lia.
Qed.

(** The delays of [n] retries in a row add up to [retryDelay * (2^n - 1)]
    with exponential backoff and to [retryDelay * n] without. *)
Lemma total_delay (o : retry_options) (n : nat) :
  total (map (delay_before_retry o) (seq 1 n)) =
  if exponentialBackoff o then (retryDelay o * (2 ^ Z.of_nat n - 1))%Z
  else (retryDelay o * Z.of_nat n)%Z.
Proof.
  induction n as [|n IH].
  - cbn. destruct (exponentialBackoff o); lia.
  - rewrite seq_S, map_app, total_app, IH. cbn [map total fold_right].
    unfold delay_before_retry.
    destruct (exponentialBackoff o); [|lia].
    replace (Z.of_nat (1 + n) - 1)%Z with (Z.of_nat n) by lia.
    replace (Z.of_nat (S n)) with (Z.of_nat n + 1)%Z by lia.
    rewrite Z.pow_add_r by lia. lia.
Qed.

Lemma retried_inv (o : retry_options) (fn : nat -> answer) (j : nat) :
  retried o fn j = true ->
  exists e, fn j = Rejected e /\ (Z.of_nat j <= maxRetries o)%Z /\
            retryCondition o e = true /\ onRetry o e j = None.
Proof.
  unfold retried. destruct (fn j) as [v|e]; [discriminate|].
  destruct (onRetry o e j) eqn:R; rewrite ?andb_false_r; [discriminate|].
  rewrite andb_true_r. intros H. apply andb_prop in H. destruct H as [H1 H2].
  apply Z.leb_le in H1. exists e.
  split; [reflexivity|]. split; [exact H1|]. split; [exact H2|exact R].
Qed.

(** ** What [withRetry] does in general *)

(** The function [withRetry] returns calls [fn] at the attempts
    1, 2, ..., n and no others, with n at most [maxRetries + 1]; before
    each attempt but the first it asks for the delay [retryDelay] times 2
    to the number of the failed attempt minus one (or [retryDelay] without
    exponential backoff).  Every attempt before the last failed with an
    error [retryCondition] accepts.  It returns what the last attempt
    returned; it throws the error of the last attempt, when that was attempt
    [maxRetries + 1] or [retryCondition] refused the error, or what
    [onRetry] threw; with a negative [maxRetries] it calls nothing and
    returns [undefined]. *)
Theorem withRetry_attempts_and_result
    (o : retry_options) (fn : nat -> answer) (tr : list obs) :
  exists (new : list obs) (n : nat),
    snd (withRetry o fn tr) = tr ++ new /\
    calls new = seq 1 n /\
    (Z.of_nat n <= Z.max 0 (maxRetries o + 1))%Z /\
    sleeps new = map (delay_before_retry o) (seq 1 (n - 1)) /\
    (forall j, 1 <= j < n -> retried o fn j = true) /\
    match fst (withRetry o fn tr) with
    | Ok (Some v) => 1 <= n /\ fn n = Returned v
    | Ok None => n = 0 /\ (maxRetries o < 0)%Z
    | Throw e =>
        1 <= n /\
        exists e0, fn n = Rejected e0 /\
          ((e = e0 /\
            (Z.of_nat n = (maxRetries o + 1)%Z \/ retryCondition o e0 = false)) \/
           ((Z.of_nat n <= maxRetries o)%Z /\
            retryCondition o e0 = true /\
            onRetry o e0 n = Some e))
    end.
Proof.
  exact (withRetry_spec o fn tr).
Qed.

(** ** Giving up *)

(** When every attempt fails with an error that is retried, the function
    [withRetry] returns calls [fn] exactly [maxRetries + 1] times and
    throws the error of the last call.  The delays it asked for add up to
    [retryDelay * (2^maxRetries - 1)] milliseconds with exponential backoff
    and to [retryDelay * maxRetries] without. *)
Theorem withRetry_gives_up_after_max_retries
    (o : retry_options) (fn : nat -> answer) (tr : list obs) (e : string) :
  (0 <= maxRetries o)%Z ->
  (forall j, 1 <= j -> (Z.of_nat j <= maxRetries o)%Z -> retried o fn j = true) ->
  fn (Z.to_nat (maxRetries o + 1)) = Rejected e ->
  fst (withRetry o fn tr) = Throw e /\
  exists new : list obs,
    snd (withRetry o fn tr) = tr ++ new /\
    calls new = seq 1 (Z.to_nat (maxRetries o + 1)) /\
    sleeps new = map (delay_before_retry o) (seq 1 (Z.to_nat (maxRetries o))) /\
    total (sleeps new) =
      if exponentialBackoff o then (retryDelay o * (2 ^ maxRetries o - 1))%Z
      else (retryDelay o * maxRetries o)%Z.
Proof.
  intros Hmax Hall Hlast.
  destruct (withRetry_spec o fn tr)
    as (new & n & Hsnd & Hcalls & Hn & Hsleeps & Hret & Hres).
  assert (En : n = Z.to_nat (maxRetries o + 1)).
  { destruct (Z_le_gt_dec (Z.of_nat n) (maxRetries o)) as [Hle|Hgt]; [|lia].
    exfalso.
    destruct (fst (withRetry o fn tr)) as [[v|]|e'].
    - destruct Hres as [H1 Hv].
      destruct (@retried_inv o fn _ (Hall n H1 Hle)) as (e1 & F & _).
      congruence.
    - lia.
    - destruct Hres as [H1 (e0 & F0 & Hwhy)].
      destruct (@retried_inv o fn _ (Hall n H1 Hle)) as (e1 & F & _ & C & R).
      assert (e1 = e0) by congruence. subst e1.
      destruct Hwhy as [[_ [Hw|Hw]]|(_ & _ & Hw)]; [lia|congruence|congruence]. }
  subst n.
  split.
  - destruct (fst (withRetry o fn tr)) as [[v|]|e'].
    + destruct Hres as [_ Hv]. congruence.
    + lia.
    + destruct Hres as [_ (e0 & F0 & Hwhy)].
      assert (e0 = e) by congruence. subst e0.
      destruct Hwhy as [[-> _]|(Hw & _)]; [reflexivity|lia].
  - exists new. split; [exact Hsnd|]. split; [exact Hcalls|].
    replace (Z.to_nat (maxRetries o + 1) - 1) with (Z.to_nat (maxRetries o))
      in Hsleeps by lia.
    split; [exact Hsleeps|].
    rewrite Hsleeps, total_delay, Z2Nat.id by lia. reflexivity.
Qed.

(** With the default options a function that always fails is called four
    times, 1000 + 2000 + 4000 milliseconds of delay are asked for and the
    error is thrown. *)
Lemma withRetry_gives_up_after_max_retries_witness :
  fst (withRetry default_retry_options (fun _ => Rejected "boom") []) =
    Throw "boom"%string /\
  exists new : list obs,
    snd (withRetry default_retry_options (fun _ => Rejected "boom") []) =
      [] ++ new /\
    calls new = [1; 2; 3; 4] /\
    sleeps new = [1000; 2000; 4000]%Z /\
    total (sleeps new) = 7000%Z.
Proof.
  apply (@withRetry_gives_up_after_max_retries
           default_retry_options (fun _ => Rejected "boom") [] "boom").
  - simpl. lia.
  - intros j H1 H2. simpl in H2.
    destruct j as [|[|[|[|j]]]]; try lia; reflexivity.
  - reflexivity.
Defined.

(** ** Succeeding *)

(** When the attempts before the [k]-th fail with errors that are retried
    and the [k]-th returns a value, with [k] at most [maxRetries + 1], the
    function [withRetry] returns that value after exactly [k] calls of
    [fn]. *)
Theorem withRetry_returns_first_success
    (o : retry_options) (fn : nat -> answer) (tr : list obs)
    (k : nat) (v : string) :
  1 <= k ->
  (Z.of_nat k <= maxRetries o + 1)%Z ->
  (forall j, 1 <= j < k -> retried o fn j = true) ->
  fn k = Returned v ->
  fst (withRetry o fn tr) = Ok (Some v) /\
  exists new : list obs,
    snd (withRetry o fn tr) = tr ++ new /\
    calls new = seq 1 k /\
    sleeps new = map (delay_before_retry o) (seq 1 (k - 1)).
Proof.
  intros Hk Hmax Hbefore Hv.
  destruct (withRetry_spec o fn tr)
    as (new & n & Hsnd & Hcalls & Hn & Hsleeps & Hret & Hres).
  assert (En : n = k).
  { destruct (lt_eq_lt_dec n k) as [[Hlt|Heq]|Hgt]; [|exact Heq|].
    - exfalso.
      destruct (fst (withRetry o fn tr)) as [[v'|]|e'].
      + destruct Hres as [H1 Hv'].
        destruct (@retried_inv o fn _ (Hbefore n (conj H1 Hlt))) as (e1 & F & _).
        congruence.
      + lia.
      + destruct Hres as [H1 (e0 & F0 & Hwhy)].
        destruct (@retried_inv o fn _ (Hbefore n (conj H1 Hlt)))
          as (e1 & F & Hle & C & R).
        assert (e1 = e0) by congruence. subst e1.
        destruct Hwhy as [[_ [Hw|Hw]]|(_ & _ & Hw)];
          [lia|congruence|congruence].
    - exfalso.
      destruct (@retried_inv o fn _ (Hret k (conj Hk Hgt))) as (e1 & F & _).
      congruence. }
  subst n.
  split.
  - destruct (fst (withRetry o fn tr)) as [[v'|]|e'].
    + destruct Hres as [_ Hv']. congruence.
    + lia.
    + destruct Hres as [_ (e0 & F0 & _)]. congruence.
  - exists new. auto.
Qed.

(** A function that fails twice and then answers is called three times. *)
Lemma withRetry_returns_first_success_witness :
  fst (withRetry default_retry_options
         (fun k => if k <? 3 then Rejected "busy" else Returned "done") []) =
    Ok (Some "done"%string) /\
  exists new : list obs,
    snd (withRetry default_retry_options
           (fun k => if k <? 3 then Rejected "busy" else Returned "done") []) =
      [] ++ new /\
    calls new = [1; 2; 3] /\
    sleeps new = [1000; 2000]%Z.
Proof.
  apply (@withRetry_returns_first_success default_retry_options
           (fun k => if k <? 3 then Rejected "busy" else Returned "done")
           [] 3 "done").
  - lia.
  - simpl. lia.
  - intros j Hj. destruct j as [|[|[|j]]]; try lia; reflexivity.
  - reflexivity.
Defined.

(** ** The circuit breaker *)

Lemma protected_calls_snoc (o : breaker_options) (cs : list call) (c : call) :
  forall b : breaker,
    protected_calls o (cs ++ [c]) b =
    (fst (protected_calls o cs b) ++
       [(c, fst (fst (protected o c (snd (protected_calls o cs b)))),
            snd (fst (protected o c (snd (protected_calls o cs b)))))],
     snd (protected o c (snd (protected_calls o cs b)))).
Proof.
  induction cs as [|c0 cs IH]; intros b.
  - cbn. destruct (protected o c b) as [[r called] b']. reflexivity.
  - cbn [app protected_calls].
    destruct (protected o c0 b) as [[r0 called0] b0].
    rewrite IH.
    destruct (protected_calls o cs b0) as [h b1]. reflexivity.
Qed.

(** The variables of the breaker follow the history of its calls. *)
Lemma breaker_follows_history (o : breaker_options) (cs : list call) :
  (1 <= failureThreshold o)%Z ->
  failures (snd (protected_calls o cs closed_breaker)) =
    streak (fst (protected_calls o cs closed_breaker)) /\
  circuitOpen (snd (protected_calls o cs closed_breaker)) =
    (failureThreshold o <=? streak (fst (protected_calls o cs closed_breaker)))%Z /\
  lastFailureTime (snd (protected_calls o cs closed_breaker)) =
    last_failure (fst (protected_calls o cs closed_breaker)).
Proof.
  intros Hth.
  induction cs as [|c cs IH] using rev_ind.
  - cbn. repeat split. symmetry. apply Z.leb_gt. lia.
  - rewrite protected_calls_snoc.
    destruct (protected_calls o cs closed_breaker) as [h b].
    cbn [fst snd] in *. destruct IH as (IHf & IHo & IHl).
    unfold streak, last_failure in *. rewrite !rev_unit.
    unfold protected.
    destruct (circuitOpen b && negb (reset_due o (made_at c) b)) eqn:Blocked.
    + cbn [fst snd streak_from last_failure_from]. auto.
    + destruct (fn_answer c) as [v|e] eqn:Fc;
        cbn [fst snd streak_from last_failure_from failures circuitOpen
             lastFailureTime]; rewrite Fc.
      * repeat split; [|exact IHl]. symmetry. apply Z.leb_gt. lia.
      * rewrite IHf. repeat split.
Qed.

(** As long as the limit is at least one, the circuit is open exactly
    when the latest [failureThreshold] calls of [fn] all failed: the
    counter [failures] is the number of calls of [fn] that failed since its
    last success, calls answered by the fallback while the circuit was open
    not counted, and [circuitOpen] holds if and only if this number has
    reached [failureThreshold]. *)
Theorem circuit_open_iff_failures_in_a_row
    (o : breaker_options) (cs : list call) :
  (1 <= failureThreshold o)%Z ->
  failures (snd (protected_calls o cs closed_breaker)) =
    streak (fst (protected_calls o cs closed_breaker)) /\
  (circuitOpen (snd (protected_calls o cs closed_breaker)) = true <->
   (failureThreshold o <= streak (fst (protected_calls o cs closed_breaker)))%Z).
Proof.
  intros Hth.
  destruct (breaker_follows_history o cs Hth) as (Hf & Ho & _).
  split; [exact Hf|].
  rewrite Ho. apply Z.leb_le.
Qed.

(** With a limit of two, two failures open the circuit, and a success in
    between starts the count again. *)
Lemma circuit_open_iff_failures_in_a_row_witness :
  (failures (snd (protected_calls (mkBreakerOptions 2 30000 None)
      [mkCall 0 (Rejected "x") 10; mkCall 20 (Returned "v") 0;
       mkCall 30 (Rejected "y") 40; mkCall 50 (Rejected "z") 60]
      closed_breaker)) =
   streak (fst (protected_calls (mkBreakerOptions 2 30000 None)
      [mkCall 0 (Rejected "x") 10; mkCall 20 (Returned "v") 0;
       mkCall 30 (Rejected "y") 40; mkCall 50 (Rejected "z") 60]
      closed_breaker)) /\
   (circuitOpen (snd (protected_calls (mkBreakerOptions 2 30000 None)
      [mkCall 0 (Rejected "x") 10; mkCall 20 (Returned "v") 0;
       mkCall 30 (Rejected "y") 40; mkCall 50 (Rejected "z") 60]
      closed_breaker)) = true <->
    (2 <= streak (fst (protected_calls (mkBreakerOptions 2 30000 None)
      [mkCall 0 (Rejected "x") 10; mkCall 20 (Returned "v") 0;
       mkCall 30 (Rejected "y") 40; mkCall 50 (Rejected "z") 60]
      closed_breaker)))%Z)) /\
  streak (fst (protected_calls (mkBreakerOptions 2 30000 None)
      [mkCall 0 (Rejected "x") 10; mkCall 20 (Returned "v") 0;
       mkCall 30 (Rejected "y") 40; mkCall 50 (Rejected "z") 60]
      closed_breaker)) = 2%Z.
Proof.
  split; [|reflexivity].
  apply (@circuit_open_iff_failures_in_a_row (mkBreakerOptions 2 30000 None)).
  simpl. lia.
Defined.

(** Once the circuit is open, a call reaches [fn] only if it is made more
    than [resetTimeout] milliseconds after the latest failure was noticed
    (and that failure was not noticed at time 0).  Every other call is
    answered by the fallback, or by [null] without one, and leaves the
    breaker as it is; while fewer than [failureThreshold] calls failed in a
    row every call reaches [fn]. *)
Theorem open_circuit_calls_fn_only_after_reset_timeout
    (o : breaker_options) (cs : list call) (c : call) :
  (1 <= failureThreshold o)%Z ->
  let h := fst (protected_calls o cs closed_breaker) in
  let b := snd (protected_calls o cs closed_breaker) in
  (snd (fst (protected o c b)) = false <->
   (failureThreshold o <= streak h)%Z /\
   forall t, last_failure h = Some t ->
             t = 0%Z \/ (made_at c - t <= resetTimeout o)%Z) /\
  (snd (fst (protected o c b)) = false ->
   fst (fst (protected o c b)) = use_fallback o /\ snd (protected o c b) = b).
Proof.
  intros Hth h b.
  destruct (breaker_follows_history o cs Hth) as (Hf & Ho & Hl).
  fold h b in Hf, Ho, Hl.
  unfold protected, reset_due. rewrite Ho, Hl.
  destruct (failureThreshold o <=? streak h)%Z eqn:Open.
  - apply Z.leb_le in Open.
    destruct (last_failure h) as [t|] eqn:L; cbn [andb negb].
    + destruct (t =? 0)%Z eqn:T0; cbn [andb negb].
      * apply Z.eqb_eq in T0. cbn [fst snd]. split; [|auto].
        split; [intros _|reflexivity].
        split; [exact Open|]. intros ? [= <-]. left; exact T0.
      * apply Z.eqb_neq in T0.
        destruct (resetTimeout o <? made_at c - t)%Z eqn:Late; cbn [negb].
        -- apply Z.ltb_lt in Late.
           destruct (fn_answer c); cbn [fst snd];
             (split; [|discriminate]);
             (split; [discriminate|]);
             intros [_ H]; destruct (H t eq_refl); lia.
        -- apply Z.ltb_ge in Late. cbn [fst snd]. split; [|auto].
           split; [intros _|reflexivity].
           split; [exact Open|]. intros ? [= <-]. right; exact Late.
    + cbn [fst snd]. split; [|auto].
      split; [intros _|reflexivity].
      split; [exact Open|]. intros ? [=].
  - apply Z.leb_gt in Open. cbn [andb].
    destruct (fn_answer c); cbn [fst snd];
      (split; [|discriminate]);
      (split; [discriminate|]); intros [H _]; lia.
Qed.

(** After two failures with a limit of two, a call made 29 seconds after
    the second failure is answered by the fallback. *)
Lemma open_circuit_calls_fn_only_after_reset_timeout_witness :
  (snd (fst (protected (mkBreakerOptions 2 30000 (Some "cached"%string))
               (mkCall 29060 (Returned "v") 0)
               (snd (protected_calls (mkBreakerOptions 2 30000 (Some "cached"%string))
                  [mkCall 30 (Rejected "y") 40; mkCall 50 (Rejected "z") 60]
                  closed_breaker)))) = false ->
   fst (fst (protected (mkBreakerOptions 2 30000 (Some "cached"%string))
               (mkCall 29060 (Returned "v") 0)
               (snd (protected_calls (mkBreakerOptions 2 30000 (Some "cached"%string))
                  [mkCall 30 (Rejected "y") 40; mkCall 50 (Rejected "z") 60]
                  closed_breaker)))) =
     use_fallback (mkBreakerOptions 2 30000 (Some "cached"%string)) /\
   snd (protected (mkBreakerOptions 2 30000 (Some "cached"%string))
          (mkCall 29060 (Returned "v") 0)
          (snd (protected_calls (mkBreakerOptions 2 30000 (Some "cached"%string))
             [mkCall 30 (Rejected "y") 40; mkCall 50 (Rejected "z") 60]
             closed_breaker))) =
     snd (protected_calls (mkBreakerOptions 2 30000 (Some "cached"%string))
            [mkCall 30 (Rejected "y") 40; mkCall 50 (Rejected "z") 60]
            closed_breaker)) /\
  snd (fst (protected (mkBreakerOptions 2 30000 (Some "cached"%string))
              (mkCall 29060 (Returned "v") 0)
              (snd (protected_calls (mkBreakerOptions 2 30000 (Some "cached"%string))
                 [mkCall 30 (Rejected "y") 40; mkCall 50 (Rejected "z") 60]
                 closed_breaker)))) = false.
Proof.
  split; [|reflexivity].
  apply (@open_circuit_calls_fn_only_after_reset_timeout
           (mkBreakerOptions 2 30000 (Some "cached"%string))
           [mkCall 30 (Rejected "y") 40; mkCall 50 (Rejected "z") 60]
           (mkCall 29060 (Returned "v") 0)).
  simpl. lia.
Defined.

End ErrorHandlerFacts.

(* ================================================================== *)
(** * Facts about the inbound cycle                                    *)
(* ================================================================== *)

Module InboundFacts.
Import Eff Eff.Notations Inbound.

Ltac run_inbound :=
  cbv beta iota zeta delta
    [process_message for_each with_locals processInboundMessages loadState
     saveState update_locals store log_world log_cycle logger
     bind ret throw try_catch modify get fst snd
     processed withAttachments failed maxMessageId
     state_file messages_in trace
     r_processed r_withAttachments r_failed].

(** One turn of the loop never throws; it counts the message once, as
    processed or as failed, and stores at most its row. *)
Lemma process_message_spec (e : env) (m : message) (l : locals) (w : world) :
  exists (l' : locals) (w' : world) (added : list message_data),
    process_message e m (l, w) = (Ok tt, (l', w')) /\
    processed l' + failed l' = S (processed l + failed l) /\
    processed l' = processed l + length added /\
    withAttachments l <= withAttachments l' /\
    withAttachments l' <=
      withAttachments l + (if cache_has_attachments m then 1 else 0) /\
    maxMessageId l' =
      (if (maxMessageId l <? message_id m)%Z then message_id m
       else maxMessageId l) /\
    state_file w' = state_file w /\
    messages_in w' = messages_in w ++ added /\
    (forall d, In d added ->
       insert e d = Inserted /\
       md_message_guid d = message_guid m /\ md_text d = message_text m /\
       md_status d = "received"%string).
Proof.
  destruct l as [p wa f mx], w as [sf mi tr].
  run_inbound.
  destruct (mx <? message_id m)%Z;
    (destruct (cache_has_attachments m);
     [ destruct (queryMessageAttachments e (message_id m)) as [atts|err];
       [ destruct (0 <? length atts);
         destruct (insert e (messageData m atts)) eqn:Ins | ]
     | destruct (insert e (messageData m [])) eqn:Ins ]);
    run_inbound;
    (eexists; eexists;
     first
       [ exists []; split; [reflexivity|]; cbn;
         rewrite ?app_nil_r;
         repeat split; try lia; contradiction
       | eexists [_]; split; [reflexivity|]; cbn;
         repeat split; try lia;
         match goal with
         | H : _ \/ False |- _ =>
             destruct H as [<-|[]]; first [reflexivity | exact Ins]
         end ]).
Qed.

Lemma highest_app (lastMessageId : Z) (a b : list message) :
  highest lastMessageId (a ++ b) = highest (highest lastMessageId a) b.
Proof. unfold highest. apply fold_left_app. Qed.

Lemma highest_ge (rows : list message) :
  forall lastMessageId : Z,
    (lastMessageId <= highest lastMessageId rows)%Z /\
    forall m, In m rows -> (message_id m <= highest lastMessageId rows)%Z.
Proof.
  unfold highest.
  induction rows as [|x rows IH]; intros lastMessageId; cbn.
  - split; [lia | intros m []].
  - destruct (IH (if (lastMessageId <? message_id x)%Z then message_id x
                  else lastMessageId)) as [H1 H2].
    destruct (Z.ltb_spec lastMessageId (message_id x)).
    + split; [lia|]. intros m [<-|Hin]; [exact H1 | apply H2, Hin].
    + split; [lia|]. intros m [<-|Hin]; [lia | apply H2, Hin].
Qed.

(** The loop as a whole. *)
Lemma for_each_spec (e : env) (rows : list message) :
  forall (l : locals) (w : world),
  exists (l' : locals) (w' : world) (added : list message_data),
    for_each e rows (l, w) = (Ok tt, (l', w')) /\
    processed l' + failed l' = processed l + failed l + length rows /\
    processed l' = processed l + length added /\
    withAttachments l' <=
      withAttachments l + length (filter cache_has_attachments rows) /\
    maxMessageId l' = highest (maxMessageId l) rows /\
    state_file w' = state_file w /\
    messages_in w' = messages_in w ++ added /\
    (forall d, In d added ->
       exists m, In m rows /\
         insert e d = Inserted /\
         md_message_guid d = message_guid m /\ md_text d = message_text m /\
         md_status d = "received"%string).
Proof.
  induction rows as [|m rows IH]; intros l w.
  - exists l, w, []. cbn. rewrite app_nil_r.
    repeat split; try lia.
  - destruct (process_message_spec e m l w)
      as (l1 & w1 & a1 & E1 & C1 & P1 & A1 & A1' & M1 & S1 & I1 & D1).
    destruct (IH l1 w1)
      as (l2 & w2 & a2 & E2 & C2 & P2 & A2 & M2 & S2 & I2 & D2).
    exists l2, w2, (a1 ++ a2).
    split.
    { cbn [for_each]. unfold bind at 1. rewrite E1. exact E2. }
    split; [cbn [length]; lia|].
    split; [rewrite length_app; lia|].
    split.
    { cbn [filter]. destruct (cache_has_attachments m); cbn [length]; lia. }
    split.
    { rewrite M2, M1. reflexivity. }
    split; [congruence|].
    split; [rewrite I2, I1, app_assoc; reflexivity|].
    intros d Hin. apply in_app_or in Hin. destruct Hin as [Hin|Hin].
    + exists m. split; [left; reflexivity | apply D1, Hin].
    + destruct (D2 d Hin) as (m' & Hm' & Hd). exists m'.
      split; [right; exact Hm' | exact Hd].
Qed.

(** The cycle on a batch that is not empty. *)
Lemma processInboundMessages_spec (e : env) (w : world)
    (m0 : message) (rest : list message) :
  let lastMessageId := match state_file w with Some n => n | None => 0%Z end in
  queryNewMessages e lastMessageId = inl (m0 :: rest) ->
  exists (c : results) (w' : world) (added : list message_data),
    processInboundMessages e w = (Ok c, w') /\
    r_processed c + r_failed c = length (m0 :: rest) /\
    r_processed c = length added /\
    r_withAttachments c <= length (filter cache_has_attachments (m0 :: rest)) /\
    state_file w' =
      (if fs_writeFile e (highest lastMessageId (m0 :: rest))
       then Some (highest lastMessageId (m0 :: rest)) else state_file w) /\
    messages_in w' = messages_in w ++ added /\
    (forall d, In d added ->
       exists m, In m (m0 :: rest) /\
         insert e d = Inserted /\
         md_message_guid d = message_guid m /\ md_text d = message_text m /\
         md_status d = "received"%string).
Proof.
  intros lastMessageId Q.
  destruct (for_each_spec e (m0 :: rest) (mkLocals 0 0 0 lastMessageId)
              (mkWorld (state_file w) (messages_in w)
                 (trace w ++ [Logged "info" "Found new inbound messages"])))
    as (l & w1 & added & E & C & P & A & M & S & I & D).
  cbn [processed failed withAttachments maxMessageId state_file messages_in]
    in C, P, A, M, S, I.
  unfold processInboundMessages, try_catch, bind at 1, loadState.
  fold lastMessageId. unfold bind at 1. rewrite Q. unfold ret at 1.
  unfold bind at 1. unfold log_world at 1, logger at 1, modify at 1.
  unfold bind at 1, with_locals. rewrite E.
  unfold bind at 1, saveState. rewrite M.
  destruct (fs_writeFile e (highest lastMessageId (m0 :: rest))).
  - run_inbound.
    eexists; eexists; exists added. split; [reflexivity|].
    cbn [r_processed r_failed r_withAttachments state_file messages_in].
    repeat split; try lia; try assumption.
  - run_inbound.
    eexists; eexists; exists added. split; [reflexivity|].
    cbn [r_processed r_failed r_withAttachments state_file messages_in].
    repeat split; try lia; try assumption.
Qed.

(** ** Every message of a batch is counted *)

(** A cycle that finds new messages does not throw.  Each message of the
    batch is counted exactly once, as processed or as failed; the
    processed ones are the rows added to [messages_in], each accepted by
    the insert, with the guid and the text of a message of the batch and
    the status received; [withAttachments] is at most the number of
    messages that are flagged as having attachments. *)
Theorem inbound_cycle_counts_every_message
    (e : env) (w : world) (m0 : message) (rest : list message) :
  queryNewMessages e (match state_file w with Some n => n | None => 0%Z end) =
    inl (m0 :: rest) ->
  exists (c : results) (w' : world) (added : list message_data),
    processInboundMessages e w = (Ok c, w') /\
    r_processed c + r_failed c = length (m0 :: rest) /\
    r_processed c = length added /\
    r_withAttachments c <= length (filter cache_has_attachments (m0 :: rest)) /\
    messages_in w' = messages_in w ++ added /\
    (forall d, In d added ->
       exists m, In m (m0 :: rest) /\
         insert e d = Inserted /\
         md_message_guid d = message_guid m /\ md_text d = message_text m /\
         md_status d = "received"%string).
Proof.
  intros Q.
  destruct (processInboundMessages_spec e w Q)
    as (c & w' & added & E & C & P & A & _ & I & D).
  exists c, w', added. repeat split; assumption.
Qed.

(** Of two new messages, one accepted and one refused by the insert, one
    is processed and one has failed. *)
Lemma inbound_cycle_counts_every_message_witness :
  exists (c : results) (w' : world) (added : list message_data),
    processInboundMessages
      (mkEnv (fun _ => inl [mkMessage 7 "g7" (Some "hi"%string) false "chat" None None;
                            mkMessage 9 "g9" None false "chat" None None])
             (fun _ => inl [])
             (fun d => match md_text d with
                       | Some _ => Inserted
                       | None => InsertError "null text"
                       end)
             (fun _ => true))
      (mkWorld (Some 5%Z) [] []) = (Ok c, w') /\
    r_processed c + r_failed c = 2 /\
    r_processed c = length added /\
    r_withAttachments c <= 0 /\
    messages_in w' = [] ++ added /\
    (forall d, In d added ->
       exists m,
         In m [mkMessage 7 "g7" (Some "hi"%string) false "chat" None None;
               mkMessage 9 "g9" None false "chat" None None] /\
         match md_text d with
         | Some _ => Inserted
         | None => InsertError "null text"
         end = Inserted /\
         md_message_guid d = message_guid m /\ md_text d = message_text m /\
         md_status d = "received"%string).
Proof.
  apply (@inbound_cycle_counts_every_message
           (mkEnv (fun _ => inl [mkMessage 7 "g7" (Some "hi"%string) false "chat" None None;
                                 mkMessage 9 "g9" None false "chat" None None])
                  (fun _ => inl [])
                  (fun d => match md_text d with
                            | Some _ => Inserted
                            | None => InsertError "null text"
                            end)
                  (fun _ => true))
           (mkWorld (Some 5%Z) [] [])
           (mkMessage 7 "g7" (Some "hi"%string) false "chat" None None)
           [mkMessage 9 "g9" None false "chat" None None]).
  reflexivity.
Defined.

(** ** The watermark *)


(** ** Messages that fail *)

(** When no insert of a batch succeeds and the state file can be written,
    the cycle still returns normally: it reports every message as failed,
    adds nothing to [messages_in], and saves a [lastMessageId] at or above
    the id of every message of the batch.  The query of the next cycle
    asks for ids above [lastMessageId], so these messages are not read
    again. *)
Theorem failed_inbound_messages_are_passed_over
    (e : env) (w : world) (m0 : message) (rest : list message) :
  queryNewMessages e (match state_file w with Some n => n | None => 0%Z end) =
    inl (m0 :: rest) ->
  (forall d, insert e d <> Inserted) ->
  (forall n, fs_writeFile e n = true) ->
  exists (c : results) (w' : world) (top : Z),
    processInboundMessages e w = (Ok c, w') /\
    r_processed c = 0 /\
    r_failed c = length (m0 :: rest) /\
    messages_in w' = messages_in w /\
    state_file w' = Some top /\
    (forall m, In m (m0 :: rest) -> (message_id m <= top)%Z).
Proof.
  intros Q Hfail Hwrite.
  destruct (processInboundMessages_spec e w Q)
    as (c & w' & added & E & C & P & _ & S & I & D).
  assert (added = []) as ->.
  { destruct added as [|d added]; [reflexivity|].
    destruct (D d (or_introl eq_refl)) as (m & _ & Ins & _).
    destruct (Hfail d Ins). }
  rewrite Hwrite in S. rewrite app_nil_r in I. cbn [length] in P.
  exists c, w', (highest (match state_file w with Some n => n | None => 0%Z end)
                         (m0 :: rest)).
  split; [exact E|]. split; [exact P|]. split; [lia|].
  split; [exact I|]. split; [exact S|].
  apply highest_ge.
Qed.

(** Two messages whose inserts are refused: both fail, nothing is stored
    and the state file moves to an id at or above both. *)
Lemma failed_inbound_messages_are_passed_over_witness :
  exists (c : results) (w' : world) (top : Z),
    processInboundMessages
      (mkEnv (fun _ => inl [mkMessage 7 "g7" (Some "hi"%string) false "chat" None None;
                            mkMessage 9 "g9" None false "chat" None None])
             (fun _ => inl [])
             (fun _ => InsertError "down")
             (fun _ => true))
      (mkWorld (Some 5%Z) [] []) = (Ok c, w') /\
    r_processed c = 0 /\
    r_failed c = 2 /\
    messages_in w' = [] /\
    state_file w' = Some top /\
    (forall m,
       In m [mkMessage 7 "g7" (Some "hi"%string) false "chat" None None;
             mkMessage 9 "g9" None false "chat" None None] ->
       (message_id m <= top)%Z).
Proof.
  apply (@failed_inbound_messages_are_passed_over
           (mkEnv (fun _ => inl [mkMessage 7 "g7" (Some "hi"%string) false "chat" None None;
                                 mkMessage 9 "g9" None false "chat" None None])
                  (fun _ => inl [])
                  (fun _ => InsertError "down")
                  (fun _ => true))
           (mkWorld (Some 5%Z) [] [])
           (mkMessage 7 "g7" (Some "hi"%string) false "chat" None None)
           [mkMessage 9 "g9" None false "chat" None None]).
  - reflexivity.
  - intros d. simpl. discriminate.
  - intros n. reflexivity.
Defined.

(** ** The watcher *)

Lemma watcher_invariant (n : nat) (cs : list control) :
  live (fold_left control_step cs (setupInboundWatcher n)) =
    match interval (fold_left control_step cs (setupInboundWatcher n)) with
    | Some i => [i]
    | None => []
    end /\
  isRunning (fold_left control_step cs (setupInboundWatcher n)) =
    match last cs Start with
    | Start => true
    | Stop => false
    end.
Proof.
  induction cs as [|c cs IH] using rev_ind.
  - cbn. split; reflexivity.
  - rewrite fold_left_app, last_last. cbn [fold_left].
    destruct IH as [IH _].
    destruct (fold_left control_step cs (setupInboundWatcher n))
      as [[i|] lv nx]; cbn [live interval] in IH; subst lv;
      destruct c; cbn; rewrite ?Nat.eqb_refl; split; reflexivity.
Qed.

(** However [start] and [stop] of a watcher are called, at most one
    interval of Node is set: exactly one while [isRunning()] is true and
    none otherwise, and [isRunning()] is true unless the latest call was
    [stop] (the watcher starts itself when it is set up). *)
Theorem inbound_watcher_has_at_most_one_interval (n : nat) (cs : list control) :
  length (live (fold_left control_step cs (setupInboundWatcher n))) =
    (if isRunning (fold_left control_step cs (setupInboundWatcher n))
     then 1 else 0) /\
  isRunning (fold_left control_step cs (setupInboundWatcher n)) =
    match last cs Start with
    | Start => true
    | Stop => false
    end.
Proof.
  destruct (watcher_invariant n cs) as [L R].
  split; [|exact R].
  rewrite L. unfold isRunning.
  destruct (interval (fold_left control_step cs (setupInboundWatcher n)));
    reflexivity.
Qed.

End InboundFacts.

(* ================================================================== *)
(** * Facts about the startup checks                                   *)
(* ================================================================== *)

Module BootstrapFacts.
Import Eff Eff.Notations Bootstrap.

Ltac run_bootstrap :=
  cbv beta iota zeta delta
    [checkMessagesRunning checkAutomationPermissions checkSupabaseConnectivity
     checkFilePaths exec writeFile unlink mkdir observe logger
     bind ret throw try_catch modify fst snd success].

Lemma checkMessagesRunning_spec (e : env) (tr : list obs) :
  exists (c : check) (new : list obs),
    checkMessagesRunning e tr = (Ok c, tr ++ new) /\
    In (Ran ps_command) new /\
    (success c = true <->
     exists out err,
       execPromise e ps_command = Executor.Exited out err /\
       trim e out <> ""%string).
Proof.
  run_bootstrap.
  destruct (execPromise e ps_command) as [out err|err] eqn:X.
  - eexists; exists [Ran ps_command].
    split; [reflexivity|]. split; [left; reflexivity|].
    split.
    + intros H. exists out, err. split; [reflexivity|].
      intros E. rewrite E in H. discriminate H.
    + intros (out' & err' & [= <- <-] & Hne).
      destruct (trim e out); [contradiction | reflexivity].
  - eexists; exists [Ran ps_command].
    split; [reflexivity|]. split; [left; reflexivity|].
    split; [discriminate|]. intros (out' & err' & [=] & _).
Qed.

Lemma checkAutomationPermissions_spec (e : env) (tr : list obs) :
  exists (c : check) (new : list obs),
    checkAutomationPermissions e tr = (Ok c, tr ++ new) /\
    In (Wrote scriptPath permissions_script) new /\
    (success c = true <->
     fs_writeFile e scriptPath permissions_script = None /\
     (exists out err,
        execPromise e osascript_command = Executor.Exited out err /\
        trim e out = "true"%string) /\
     fs_unlink e scriptPath = None).
Proof.
  run_bootstrap.
  destruct (fs_writeFile e scriptPath permissions_script) as [werr|] eqn:W.
  { eexists; exists [Wrote scriptPath permissions_script].
    split; [reflexivity|]. split; [left; reflexivity|].
    split; [discriminate|]. intros ([=] & _). }
  destruct (execPromise e osascript_command) as [out err|err] eqn:X.
  2:{ eexists; exists [Wrote scriptPath permissions_script; Ran osascript_command].
      rewrite <- app_assoc.
      split; [reflexivity|]. split; [left; reflexivity|].
      split; [discriminate|]. intros (_ & (out' & err' & [=] & _) & _). }
  destruct (fs_unlink e scriptPath) as [uerr|] eqn:U.
  { eexists; exists [Wrote scriptPath permissions_script; Ran osascript_command;
                     Removed scriptPath].
    rewrite <- !app_assoc.
    split; [reflexivity|]. split; [left; reflexivity|].
    split; [discriminate|]. intros (_ & _ & [=]). }
  eexists; exists [Wrote scriptPath permissions_script; Ran osascript_command;
                   Removed scriptPath].
  rewrite <- !app_assoc.
  split; [reflexivity|]. split; [left; reflexivity|].
  split.
  - intros H. apply String.eqb_eq in H.
    split; [reflexivity|]. split; [|reflexivity].
    exists out, err. split; [reflexivity | exact H].
  - intros (_ & (out' & err' & [= <- <-] & H) & _).
    apply String.eqb_eq. exact H.
Qed.

Lemma checkFilePaths_spec (e : env) (tr : list obs) :
  exists (c : check) (new : list obs),
    checkFilePaths e tr = (Ok c, tr ++ new) /\
    In (Made tempDir) new.
Proof.
  run_bootstrap.
  destruct (fs_mkdir e tempDir);
    [|destruct (fs_writeFile e (path_join e tempDir "test.txt") "test");
      [|destruct (fs_unlink e (path_join e tempDir "test.txt"))]];
    rewrite <- ?app_assoc;
    (eexists; eexists; split; [reflexivity|]; left; reflexivity).
Qed.

Lemma log_checks_spec (cs : list check) :
  forall tr : list obs,
    exists new : list obs,
      log_checks cs tr = (Ok tt, tr ++ new) /\
      forall o, In o new -> exists level msg, o = Logged level msg.
Proof.
  induction cs as [|c cs IH]; intros tr.
  - exists []. cbn. rewrite app_nil_r. split; [reflexivity | intros o []].
  - cbn [log_checks]. unfold bind at 1.
    destruct (success c); unfold logger, observe, modify;
      (match goal with
       | |- context [log_checks cs ?T] =>
           destruct (IH T) as (new & E & L); rewrite E
       end;
       eexists (_ :: new); rewrite <- app_assoc;
       split; [reflexivity|];
       intros o [<-|Hin]; [eexists; eexists; reflexivity | apply L, Hin]).
Qed.

(** ** What decides the outcome of the startup checks *)

(** [runBootstrapChecks] never throws and always runs all four checks,
    whatever the earlier ones give.  It reports success exactly when the
    [ps] command finds Messages.app and the permission script could be
    written, printed true and could be removed again: the Supabase check
    contacts nothing and always passes, and the result of the file-path
    check does not count. *)
Theorem bootstrap_outcome_rests_on_two_checks (e : env) (tr : list obs) :
  exists (r : report) (new : list obs),
    runBootstrapChecks e tr = (Ok r, tr ++ new) /\
    length (rp_checks r) = 4 /\
    In (Ran ps_command) new /\
    In (Wrote scriptPath permissions_script) new /\
    In (Made tempDir) new /\
    (forall c, nth_error (rp_checks r) 2 = Some c -> success c = true) /\
    (rp_success r = true <->
     (exists out err,
        execPromise e ps_command = Executor.Exited out err /\
        trim e out <> ""%string) /\
     fs_writeFile e scriptPath permissions_script = None /\
     (exists out err,
        execPromise e osascript_command = Executor.Exited out err /\
        trim e out = "true"%string) /\
     fs_unlink e scriptPath = None).
Proof.
  unfold runBootstrapChecks.
  unfold bind at 1, logger at 1, observe at 1, modify at 1.
  destruct (checkMessagesRunning_spec e (tr ++ [Logged "info" "Starting bootstrap checks"]))
    as (c1 & n1 & E1 & R1 & S1).
  unfold bind at 1. rewrite E1.
  destruct (checkAutomationPermissions_spec e
              ((tr ++ [Logged "info" "Starting bootstrap checks"]) ++ n1))
    as (c2 & n2 & E2 & R2 & S2).
  unfold bind at 1. rewrite E2.
  unfold bind at 1, checkSupabaseConnectivity, try_catch, ret at 1.
  destruct (checkFilePaths_spec e
              (((tr ++ [Logged "info" "Starting bootstrap checks"]) ++ n1) ++ n2))
    as (c4 & n4 & E4 & R4).
  unfold bind at 1. rewrite E4.
  cbv beta iota zeta. unfold bind at 1.
  match goal with
  | |- context [log_checks ?CS ?T] =>
      destruct (log_checks_spec CS T) as (n5 & E5 & _)
  end.
  rewrite E5.
  cbn [firstn forallb success find negb andb].
  rewrite andb_true_r.
  destruct (success c1) eqn:C1; [destruct (success c2) eqn:C2|];
    cbn [andb negb];
    unfold bind, logger, observe, modify, ret;
    (eexists; eexists;
     split; [rewrite <- !app_assoc; reflexivity|];
     cbn [rp_checks rp_success length];
     split; [reflexivity|];
     split; [apply in_cons, in_or_app; left; exact R1|];
     split; [apply in_cons, in_or_app; right; apply in_or_app; left; exact R2|];
     split; [apply in_cons, in_or_app; right; apply in_or_app; right;
             apply in_or_app; left; exact R4|];
     split; [intros c [= <-]; reflexivity|]).
  - split; [intros _|reflexivity].
    split; [apply S1; reflexivity | apply S2; reflexivity].
  - split; [discriminate|]. intros [_ H2].
    apply S2 in H2. discriminate H2.
  - split; [discriminate|]. intros [H1 _].
    apply S1 in H1. discriminate H1.
Qed.

End BootstrapFacts.

(* ================================================================== *)
(** * Facts about media files                                          *)
(* ================================================================== *)

Module MediaFacts.
Import Eff Eff.Notations Media.

Ltac run_media :=
  cbv beta iota zeta delta
    [downloadAndValidateMedia validateMediaFile ensureMediaDirExists
     isValidMimeType isValidFileExtension observe logger
     bind ret throw try_catch modify fst snd valid v_reason v_size v_error].

Ltac media_leaf :=
  run_media; cbn [negb]; run_media;
  eexists; eexists; split; [rewrite <- ?app_assoc; reflexivity|];
  cbn [success filePath reason].

(** ** Which downloads are accepted *)

(** [downloadAndValidateMedia] never throws.  It reports success exactly
    when the directory could be made, the download succeeded, the file is
    there, its extension and the MIME type of the message, both in lower
    case, are on the two whitelists, and the file has at most 104857600
    bytes; the path it then returns is the one it downloaded to and the
    file is kept.  Otherwise it returns no path, and either the reason is
    DOWNLOAD_FAILED or it has asked to remove the file. *)
Theorem media_accepted_only_when_whitelisted
    (e : env) (mediaUrl : string) (mediaType : option string) (tr : list obs) :
  exists (r : download) (new : list obs),
    downloadAndValidateMedia e mediaUrl mediaType tr = (Ok r, tr ++ new) /\
    (success r = true <->
     fs_mkdir e MEDIA_DIR = None /\
     downloadFile e mediaUrl
       (path_join e MEDIA_DIR (generateUniqueFilename e mediaUrl mediaType)) =
       None /\
     fs_access e
       (path_join e MEDIA_DIR (generateUniqueFilename e mediaUrl mediaType)) =
       None /\
     includes SUPPORTED_EXTENSIONS
       (toLowerCase e
          (extname e
             (path_join e MEDIA_DIR
                (generateUniqueFilename e mediaUrl mediaType)))) = true /\
     (exists mimeType,
        mediaType = Some mimeType /\
        includes SUPPORTED_MIME_TYPES (toLowerCase e mimeType) = true) /\
     (exists bytes,
        fs_stat e
          (path_join e MEDIA_DIR (generateUniqueFilename e mediaUrl mediaType)) =
          inl bytes /\
        (bytes <= 104857600)%Z)) /\
    (success r = true ->
     filePath r =
       Some (path_join e MEDIA_DIR (generateUniqueFilename e mediaUrl mediaType)) /\
     removed new = []) /\
    (success r = false ->
     filePath r = None /\
     (reason r = Some "DOWNLOAD_FAILED"%string \/
      removed new =
        [path_join e MEDIA_DIR (generateUniqueFilename e mediaUrl mediaType)])).
Proof.
  set (p := path_join e MEDIA_DIR (generateUniqueFilename e mediaUrl mediaType)).
  run_media. fold p.
  destruct (fs_mkdir e MEDIA_DIR) as [err|] eqn:Mk.
  { eexists; eexists. split; [rewrite <- ?app_assoc; reflexivity|].
    cbn [success filePath reason removed flat_map app].
    split; [split; [discriminate | intros (A & _); discriminate A]|].
    split; [discriminate|]. intros _. split; [reflexivity | left; reflexivity]. }
  destruct (downloadFile e mediaUrl p) as [err|] eqn:Dl.
  { eexists; eexists. split; [rewrite <- ?app_assoc; reflexivity|].
    cbn [success filePath reason removed flat_map app].
    split; [split; [discriminate | intros (_ & A & _); discriminate A]|].
    split; [discriminate|]. intros _. split; [reflexivity | left; reflexivity]. }
  destruct (fs_access e p) as [err|] eqn:Ac.
  { destruct (fs_unlink e p);
      media_leaf;
      (split; [split; [discriminate | intros (_ & _ & A & _); discriminate A]|]);
      (split; [discriminate|]); intros _; (split; [reflexivity|]);
      right; reflexivity. }
  destruct (includes SUPPORTED_EXTENSIONS (toLowerCase e (extname e p))) eqn:Ext;
    cbn [negb].
  2:{ destruct (fs_unlink e p);
      media_leaf;
      (split; [split; [discriminate | intros (_ & _ & _ & A & _); discriminate A]|]);
      (split; [discriminate|]); intros _; (split; [reflexivity|]);
      right; reflexivity. }
  destruct mediaType as [mimeType|].
  2:{ destruct (fs_unlink e p);
      media_leaf;
      (split; [split; [discriminate
                      | intros (_ & _ & _ & _ & (mt & A & _) & _); discriminate A]|]);
      (split; [discriminate|]); intros _; (split; [reflexivity|]);
      right; reflexivity. }
  destruct (includes SUPPORTED_MIME_TYPES (toLowerCase e mimeType)) eqn:Mime;
    cbn [negb].
  2:{ destruct (fs_unlink e p);
      media_leaf;
      (split; [split; [discriminate
                      | intros (_ & _ & _ & _ & (mt & [= <-] & A) & _);
                        congruence]|]);
      (split; [discriminate|]); intros _; (split; [reflexivity|]);
      right; reflexivity. }
  destruct (fs_stat e p) as [bytes|err] eqn:St.
  2:{ destruct (fs_unlink e p);
      media_leaf;
      (split; [split; [discriminate
                      | intros (_ & _ & _ & _ & _ & (b & A & _)); discriminate A]|]);
      (split; [discriminate|]); intros _; (split; [reflexivity|]);
      right; reflexivity. }
  destruct (MAX_SIZE <? bytes)%Z eqn:Big; cbn [negb].
  { apply Z.ltb_lt in Big. unfold MAX_SIZE in Big.
    destruct (fs_unlink e p);
      media_leaf;
      (split; [split; [discriminate
                      | intros (_ & _ & _ & _ & _ & (b & [= <-] & A)); lia]|]);
      (split; [discriminate|]); intros _; (split; [reflexivity|]);
      right; reflexivity. }
  apply Z.ltb_ge in Big. unfold MAX_SIZE in Big.
  media_leaf.
  split.
  { split; [intros _|reflexivity].
    repeat split; try reflexivity.
    - exists mimeType. split; [reflexivity | exact Mime].
    - exists bytes. split; [reflexivity | lia]. }
  split; [intros _; split; reflexivity | discriminate].
Qed.

End MediaFacts.

(* ================================================================== *)
(** * Facts about the thread synchronisation                           *)
(* ================================================================== *)

Module ThreadsFacts.
Import Eff Eff.Notations Threads.

Ltac run_threads :=
  cbv beta iota zeta delta
    [process_thread for_each with_locals syncThreads observe logger log_outer
     update_locals fail_one bind ret throw try_catch modify fst snd
     inserted updated failed].

(** One turn of the loop never throws and counts the thread once. *)
Lemma process_thread_spec (e : env) (t : chat) (l : locals) (tr : list obs) :
  exists (l' : locals) (new : list obs),
    process_thread e t (l, tr) = (Ok tt, (l', tr ++ new)) /\
    inserted l' + updated l' + failed l' =
      S (inserted l + updated l + failed l) /\
    inserted l' = inserted l + length (inserts new) /\
    updated l' = updated l + length (updates new) /\
    (forall d, In d (inserts new) ->
       maybeSingle e (chat_guid t) = NotFound /\ insert e d = Written /\
       td_chat_guid d = chat_guid t /\
       is_group d = (chat_style t =? 43)%Z) /\
    (forall id d, In (id, d) (updates new) ->
       maybeSingle e (chat_guid t) = Found id /\ update e id d = Written /\
       td_chat_guid d = chat_guid t /\
       is_group d = (chat_style t =? 43)%Z).
Proof.
  destruct l as [i u f].
  run_threads.
  destruct (getChatParticipants e (chat_id t)) as [ps|err];
    [destruct (maybeSingle e (chat_guid t)) as [id| | |] eqn:L;
     [destruct (update e id (threadData t ps)) eqn:W
     |destruct (insert e (threadData t ps)) eqn:W | | ] | ];
    run_threads;
    (eexists; eexists;
     split; [rewrite <- ?app_assoc; reflexivity|];
     cbn;
     repeat split; try lia; try contradiction;
     repeat match goal with
            | H : _ \/ False |- _ => destruct H as [H|[]]
            | H : (_, _) = (_, _) |- _ => injection H as <- <-
            | H : threadData _ _ = _ |- _ => rewrite <- H
            end;
     first [reflexivity | assumption]).
Qed.

Lemma thread_inserts_app (a b : list obs) : inserts (a ++ b) = inserts a ++ inserts b.
Proof. apply flat_map_app. Qed.

Lemma thread_updates_app (a b : list obs) : updates (a ++ b) = updates a ++ updates b.
Proof. apply flat_map_app. Qed.

Lemma sync_loop_spec (e : env) (ts : list chat) :
  forall (l : locals) (tr : list obs),
  exists (l' : locals) (new : list obs),
    for_each e ts (l, tr) = (Ok tt, (l', tr ++ new)) /\
    inserted l' + updated l' + failed l' =
      inserted l + updated l + failed l + length ts /\
    inserted l' = inserted l + length (inserts new) /\
    updated l' = updated l + length (updates new) /\
    (forall d, In d (inserts new) ->
       exists t, In t ts /\
         maybeSingle e (chat_guid t) = NotFound /\ insert e d = Written /\
         td_chat_guid d = chat_guid t /\
         is_group d = (chat_style t =? 43)%Z) /\
    (forall id d, In (id, d) (updates new) ->
       exists t, In t ts /\
         maybeSingle e (chat_guid t) = Found id /\ update e id d = Written /\
         td_chat_guid d = chat_guid t /\
         is_group d = (chat_style t =? 43)%Z).
Proof.
  induction ts as [|t ts IH]; intros l tr.
  - exists l, []. cbn. rewrite app_nil_r.
    repeat split; try lia; contradiction.
  - destruct (process_thread_spec e t l tr)
      as (l1 & n1 & E1 & C1 & I1 & U1 & DI1 & DU1).
    destruct (IH l1 (tr ++ n1)) as (l2 & n2 & E2 & C2 & I2 & U2 & DI2 & DU2).
    exists l2, (n1 ++ n2).
    split.
    { cbn [for_each]. unfold bind at 1. rewrite E1, E2, app_assoc.
      reflexivity. }
    rewrite thread_inserts_app, thread_updates_app, !length_app.
    split; [cbn [length]; lia|].
    split; [lia|]. split; [lia|].
    split.
    + intros d Hin. apply in_app_or in Hin. destruct Hin as [Hin|Hin].
      * exists t. split; [left; reflexivity | apply DI1, Hin].
      * destruct (DI2 d Hin) as (t' & Ht' & Hd). exists t'.
        split; [right; exact Ht' | exact Hd].
    + intros id d Hin. apply in_app_or in Hin. destruct Hin as [Hin|Hin].
      * exists t. split; [left; reflexivity | apply DU1, Hin].
      * destruct (DU2 id d Hin) as (t' & Ht' & Hd). exists t'.
        split; [right; exact Ht' | exact Hd].
Qed.

(** ** Every thread is counted *)

(** When the threads can be read from chat.db, [syncThreads] does not
    throw, whatever Supabase answers.  Each thread is counted exactly once,
    as inserted, updated or failed; [inserted] and [updated] are the
    numbers of rows written.  A row is inserted only for a thread whose
    lookup by [chat_guid] found nothing, and an update goes to the id the
    lookup found; the row is marked as a group exactly when the chat style
    is 43. *)
Theorem thread_sync_counts_every_thread
    (e : env) (tr : list obs) (chatThreads : list chat) :
  getChatThreads e = inl chatThreads ->
  exists (r : results) (new : list obs),
    syncThreads e tr = (Ok r, tr ++ new) /\
    r_total r = length chatThreads /\
    r_inserted r + r_updated r + r_failed r = r_total r /\
    r_inserted r = length (inserts new) /\
    r_updated r = length (updates new) /\
    (forall d, In d (inserts new) ->
       exists t, In t chatThreads /\
         maybeSingle e (chat_guid t) = NotFound /\ insert e d = Written /\
         td_chat_guid d = chat_guid t /\
         is_group d = (chat_style t =? 43)%Z) /\
    (forall id d, In (id, d) (updates new) ->
       exists t, In t chatThreads /\
         maybeSingle e (chat_guid t) = Found id /\ update e id d = Written /\
         td_chat_guid d = chat_guid t /\
         is_group d = (chat_style t =? 43)%Z).
Proof.
  intros Q.
  destruct (sync_loop_spec e chatThreads (mkLocals 0 0 0)
              ((tr ++ [Logged "info" "Starting chat thread synchronization"])
                 ++ [Logged "info" "Found chat threads in chat.db"]))
    as (l & new & E & C & I & U & DI & DU).
  cbn [inserted updated failed] in C, I, U.
  unfold syncThreads, try_catch, bind at 1, log_outer at 1, modify at 1.
  unfold bind at 1. rewrite Q. unfold ret at 1.
  unfold bind at 1, log_outer at 1, modify at 1.
  unfold bind at 1, with_locals. rewrite E.
  unfold bind, log_outer, modify, ret.
  exists (mkResults (length chatThreads) (inserted l) (updated l) (failed l)),
         ([Logged "info" "Starting chat thread synchronization";
           Logged "info" "Found chat threads in chat.db"] ++ new ++
          [Logged "info" "Chat thread synchronization complete"]).
  split.
  { rewrite <- !app_assoc. reflexivity. }
  cbn [r_total r_inserted r_updated r_failed].
  assert (Ei : inserts ([Logged "info" "Starting chat thread synchronization";
                         Logged "info" "Found chat threads in chat.db"] ++ new ++
                        [Logged "info" "Chat thread synchronization complete"]) =
               inserts new).
  { rewrite !thread_inserts_app. cbn. rewrite app_nil_r. reflexivity. }
  assert (Eu : updates ([Logged "info" "Starting chat thread synchronization";
                         Logged "info" "Found chat threads in chat.db"] ++ new ++
                        [Logged "info" "Chat thread synchronization complete"]) =
               updates new).
  { rewrite !thread_updates_app. cbn. rewrite app_nil_r. reflexivity. }
  rewrite Ei, Eu.
  split; [reflexivity|]. split; [lia|]. split; [lia|]. split; [lia|].
  split; assumption.
Qed.

(** Of three threads, one new, one known and one whose lookup fails, one
    is inserted, one updated and one failed. *)
Lemma thread_sync_counts_every_thread_witness :
  exists (r : results) (new : list obs),
    syncThreads
      (mkEnv (inl [mkChat 1 "a" None "a" "iMessage" 45;
                   mkChat 2 "b" None "b" "iMessage" 43;
                   mkChat 3 "c" None "c" "iMessage" 45])
             (fun _ => inl [])
             (fun guid => if String.eqb guid "a" then NotFound
                          else if String.eqb guid "b" then Found "row-b"
                          else LookupError "down")
             (fun _ _ => Written)
             (fun _ => Written))
      [] = (Ok r, [] ++ new) /\
    r_total r = 3 /\
    r_inserted r + r_updated r + r_failed r = r_total r /\
    r_inserted r = length (inserts new) /\
    r_updated r = length (updates new) /\
    (forall d, In d (inserts new) ->
       exists t,
         In t [mkChat 1 "a" None "a" "iMessage" 45;
               mkChat 2 "b" None "b" "iMessage" 43;
               mkChat 3 "c" None "c" "iMessage" 45] /\
         (if String.eqb (chat_guid t) "a" then NotFound
          else if String.eqb (chat_guid t) "b" then Found "row-b"
          else LookupError "down") = NotFound /\
         Written = Written /\
         td_chat_guid d = chat_guid t /\
         is_group d = (chat_style t =? 43)%Z) /\
    (forall id d, In (id, d) (updates new) ->
       exists t,
         In t [mkChat 1 "a" None "a" "iMessage" 45;
               mkChat 2 "b" None "b" "iMessage" 43;
               mkChat 3 "c" None "c" "iMessage" 45] /\
         (if String.eqb (chat_guid t) "a" then NotFound
          else if String.eqb (chat_guid t) "b" then Found "row-b"
          else LookupError "down") = Found id /\
         Written = Written /\
         td_chat_guid d = chat_guid t /\
         is_group d = (chat_style t =? 43)%Z).
Proof.
  apply (@thread_sync_counts_every_thread
           (mkEnv (inl [mkChat 1 "a" None "a" "iMessage" 45;
                        mkChat 2 "b" None "b" "iMessage" 43;
                        mkChat 3 "c" None "c" "iMessage" 45])
                  (fun _ => inl [])
                  (fun guid => if String.eqb guid "a" then NotFound
                               else if String.eqb guid "b" then Found "row-b"
                               else LookupError "down")
                  (fun _ _ => Written)
                  (fun _ => Written))
           []
           [mkChat 1 "a" None "a" "iMessage" 45;
            mkChat 2 "b" None "b" "iMessage" 43;
            mkChat 3 "c" None "c" "iMessage" 45]).
  reflexivity.
Defined.

End ThreadsFacts.
